(** * JazzPlayer: the audio analysis core

    A shallow embedding of [src/utils/pitchDetection.ts] and
    [src/utils/audioAnalysis.ts].

    JavaScript numbers are IEEE 754 binary64 values: they are modelled by
    Rocq's primitive [float]s, whose operations are specified against
    [SpecFloat] by the axioms of [FloatAxioms].  A [Float32Array] is a list
    of floats whose stores round to binary32; a [Uint8Array] is a list of
    integers in [0, 255]. *)

From Stdlib Require Import ZArith List Bool Lia String Sorted.
From Stdlib Require Import Uint63 Floats.
Import ListNotations.

Local Open Scope Z_scope.

(** ** JavaScript numbers and the built-ins the sources call *)

Module JS.

(** Conversion of an integer held in a number (a loop counter, an array
    length, a byte read from a typed array).  Exact below [2^53]. *)
Definition of_Z (z : Z) : float :=
  match z with
  | Z0 => zero
  | Zpos _ => of_uint63 (Uint63.of_Z z)
  | Zneg p => (- of_uint63 (Uint63.of_Z (Zpos p)))%float
  end.

(** [Math.fround]: the rounding applied by every store into a
    [Float32Array] (binary32: 24 bits of precision, [emax = 128]). *)
Definition fround (x : float) : float :=
  match Prim2SF x with
  | S754_finite s m e => SF2Prim (binary_round 24 128 s m e)
  | _ => x
  end.

(** The signed integer mantissa of a finite number. *)
Definition mant (s : bool) (m : positive) : Z := cond_Zopp s (Zpos m).

(** [Math.floor]. *)
Definition Math_floor (x : float) : float :=
  match Prim2SF x with
  | S754_finite s m e =>
      if 0 <=? e then x
      else
        let z := Z.shiftr (mant s m) (- e) in
        if z =? 0 then zero else of_Z z
  | _ => x
  end.

(** [Math.round]: the nearest integer, ties towards [+Infinity]; a
    negative argument that rounds to zero gives [-0]. *)
Definition round_half_up (s : bool) (m : positive) (e : Z) : Z :=
  Z.shiftr (2 * mant s m + 2 ^ (- e)) (- e + 1).

Definition Math_round (x : float) : float :=
  match Prim2SF x with
  | S754_finite s m e =>
      if 0 <=? e then x
      else
        let z := round_half_up s m e in
        if z =? 0 then (if s then neg_zero else zero) else of_Z z
  | _ => x
  end.

(** The remainder operator [%] on numbers: exact, with the sign of the
    dividend. *)
Definition rem (x y : float) : float :=
  match Prim2SF x, Prim2SF y with
  | S754_nan, _ | _, S754_nan => nan
  | S754_infinity _, _ => nan
  | _, S754_zero _ => nan
  | _, S754_infinity _ => x
  | S754_zero _, _ => x
  | S754_finite sx mx ex, S754_finite _ my ey =>
      let e := Z.min ex ey in
      let r := Z.rem (Zpos mx * 2 ^ (ex - e)) (Zpos my * 2 ^ (ey - e)) in
      if r =? 0 then (if sx then neg_zero else zero)
      else SF2Prim (binary_normalize prec emax (cond_Zopp sx r) e false)
  end.

(** The array index denoted by a number used as a property key: [Some]
    for a non-negative integer value ([-0] is the key "0"), [None] for
    every other number (the property is then [undefined]). *)
Definition to_index (x : float) : option Z :=
  match Prim2SF x with
  | S754_zero _ => Some 0
  | S754_finite false m e =>
      if 0 <=? e then Some (Zpos m * 2 ^ e)
      else if Zpos m mod 2 ^ (- e) =? 0 then Some (Zpos m / 2 ^ (- e))
      else None
  | _ => None
  end.

(** An integer-valued number, as a loop counter or a bin index holds it:
    an integer, [NaN] or an infinity.  [to_int] truncates a fraction
    towards zero (ECMAScript's ToIntegerOrInfinity keeps [NaN] apart
    only to map it to 0 at its use). *)
Inductive int : Type :=
| INaN
| IInf (negative : bool)
| IInt (z : Z).

Definition to_int (x : float) : int :=
  match Prim2SF x with
  | S754_nan => INaN
  | S754_infinity s => IInf s
  | S754_zero _ => IInt 0
  | S754_finite s m e =>
      if 0 <=? e then IInt (mant s m * 2 ^ e)
      else IInt (Z.quot (mant s m) (2 ^ (- e)))
  end.

(** What a function call produces: a value, or no value at all when a
    loop of the function never terminates. *)
Inductive outcome (A : Type) : Type :=
| Returns (a : A)
| Diverges.
Arguments Returns {A} a.
Arguments Diverges {A}.

End JS.

(** ** Typed arrays *)

Module TypedArray.

Definition length {A} (a : list A) : Z := Z.of_nat (List.length a).

(** The integers [lo, lo+1, ..., hi-1]: the values a counter takes in
    [for (let i = lo; i < hi; i++)]. *)
Definition range (lo hi : Z) : list Z :=
  map (fun k => lo + Z.of_nat k) (seq 0 (Z.to_nat (hi - lo))).

(** [new Float32Array(n)]: [n] zeros. *)
Definition Float32Array (n : Z) : list float := repeat zero (Z.to_nat n).

(** A read [a[i]] used as a number: out of range it is [undefined],
    which every arithmetic operation and comparison treats as [NaN]. *)
Definition get (a : list float) (i : Z) : float :=
  if i <? 0 then nan else nth (Z.to_nat i) a nan.

Fixpoint update (a : list float) (n : nat) (v : float) : list float :=
  match a, n with
  | [], _ => []
  | _ :: t, O => v :: t
  | h :: t, S n' => h :: update t n' v
  end.

(** A store [a[i] = v] into a [Float32Array]: rounded to binary32, and
    ignored out of range. *)
Definition set (a : list float) (i : Z) (v : float) : list float :=
  if i <? 0 then a else update a (Z.to_nat i) (JS.fround v).

(** A read [a[i]] of a [Uint8Array] used as a number. *)
Definition byte_at (a : list Z) (i : Z) : float :=
  if i <? 0 then nan
  else match nth_error a (Z.to_nat i) with
       | Some b => JS.of_Z b
       | None => nan
       end.

(** The longest prefix whose elements satisfy [p]. *)
Fixpoint take_while {A} (p : A -> bool) (l : list A) : list A :=
  match l with
  | [] => []
  | x :: t => if p x then x :: take_while p t else []
  end.

(** The loop [for (let i = start; i < stop && i < len; i++)] from a
    counter that [i++] leaves unchanged ([-Infinity], or an integer below
    [-2^53] with an even mantissa): it never ends once its condition
    holds (a negative counter is below every length). *)
Definition stuck (start stop : float) : JS.outcome (list Z) :=
  if (start <? stop)%float then JS.Diverges else JS.Returns [].

(** The values of [i] at which the body of
    [for (let i = start; i < stop && i < len; i++)] runs, for an
    integer-valued [start].  From [-2^53] on every [i++] is exact.  Below,
    the numbers are the even integers and [start + 1] is rounded to the
    one with the even mantissa: either [i++] leaves the counter where it
    is, or it moves it to [next = start + 2], which is [-2^53] or a
    counter that [i++] leaves unchanged. *)
Definition scan (start stop : float) (len : Z) : JS.outcome (list Z) :=
  match JS.to_int start with
  | JS.INaN => JS.Returns []
  | JS.IInf false => JS.Returns []
  | JS.IInf true => stuck start stop
  | JS.IInt z =>
      if (- 2 ^ 53 <=? z)%Z then
        JS.Returns
          (take_while (fun i => (JS.of_Z i <? stop)%float) (range z len))
      else
        let next := (start + 1)%float in
        if (next =? start)%float then stuck start stop
        else if negb (start <? stop)%float then JS.Returns []
        else
          match JS.to_int next with
          | JS.IInt z1 =>
              if (- 2 ^ 53 <=? z1)%Z then
                JS.Returns
                  (z :: take_while (fun i => (JS.of_Z i <? stop)%float)
                                   (range z1 len))
              else
                match stuck next stop with
                | JS.Diverges => JS.Diverges
                | JS.Returns _ => JS.Returns [z]
                end
          | _ => JS.Returns [z]
          end
  end.

End TypedArray.

Import TypedArray.

(** ** [pitchDetection.ts] *)

Module PitchDetection.

Local Open Scope float_scope.

Definition NOTE_NAMES : list string :=
  ["C"; "C#"; "D"; "D#"; "E"; "F"; "F#"; "G"; "G#"; "A"; "A#"; "B"]%string.

Record PitchResult : Type := {
  frequency : float;
  note : option string;   (* [None]: the property is [undefined] *)
  octave : float;
  cents : float
}.

(** [Array.prototype.indexOf] on strings: the first index, or [-1]. *)
Fixpoint indexOf (l : list string) (x : string) : Z :=
  match l with
  | [] => (-1)%Z
  | y :: t =>
      if String.eqb y x then 0%Z
      else let k := indexOf t x in
           if (k =? -1)%Z then (-1)%Z else (k + 1)%Z
  end.

(** [a[x]] for an array of strings and a number [x]. *)
Definition at_number (a : list string) (x : float) : option string :=
  match JS.to_index x with
  | Some i => nth_error a (Z.to_nat i)
  | None => None
  end.

Section Builtins.

(** [Math.log2] and [Math.pow] are supplied by the JavaScript engine
    (ECMAScript leaves their accuracy to the implementation). *)
Variable Math_log2 : float -> float.
Variable Math_pow : float -> float -> float.

Definition frequencyToNote (frequency : float) : option PitchResult :=
  if (frequency <=? 0) || negb (is_finite frequency) then None
  else
    let semitones := 12 * Math_log2 (frequency / 440) in
    let roundedSemitones := JS.Math_round semitones in
    let cents := JS.Math_round ((semitones - roundedSemitones) * 100) in
    let noteIndex := JS.rem (roundedSemitones + 9) 12 in
    let octave := JS.Math_floor ((roundedSemitones + 9) / 12) + 4 in
    let noteName :=
      at_number NOTE_NAMES
                (if 0 <=? noteIndex then noteIndex else noteIndex + 12) in
    Some {| frequency := frequency;
            note := noteName;
            octave := octave;
            cents := cents |}.

Definition noteToFrequency (note : string) (octave : float) : float :=
  let noteIndex := indexOf NOTE_NAMES note in
  if (noteIndex =? -1)%Z then 0
  else
    let semitones := JS.of_Z noteIndex - 9 + (octave - 4) * 12 in
    440 * Math_pow 2 (semitones / 12).

(** [getPianoNotes]: A0 to C8, as (note, octave, frequency). *)
Definition getPianoNotes : list (string * float * float) :=
  flat_map
    (fun octave =>
       flat_map
         (fun noteIndex =>
            if ((octave =? 0) && (noteIndex <? 9))%Z then []
            else if ((octave =? 8) && (0 <? noteIndex))%Z then []
            else
              match nth_error NOTE_NAMES (Z.to_nat noteIndex) with
              | Some note =>
                  [(note, JS.of_Z octave,
                    noteToFrequency note (JS.of_Z octave))]
              | None => []
              end)
         (range 0 12))
    (range 0 9).

End Builtins.

(** *** [detectPitchYIN] *)

(** Step 1, inner loop body: [yinBuffer[tau] += delta * delta]. *)
Definition difference_step (buffer : list float) (tau : Z)
           (yinBuffer : list float) (i : Z) : list float :=
  let delta := get buffer i - get buffer (i + tau)%Z in
  set yinBuffer tau (get yinBuffer tau + delta * delta).

(** Step 1, outer loop body. *)
Definition difference_row (buffer : list float) (yinBuffer : list float)
           (tau : Z) : list float :=
  fold_left (difference_step buffer tau)
            (range 0 (length yinBuffer))
            (set yinBuffer tau 0).

Definition difference (buffer : list float) (yinBuffer : list float)
  : list float :=
  fold_left (difference_row buffer) (range 0 (length yinBuffer)) yinBuffer.

(** Step 2, loop body: the state is the buffer and [runningSum]. *)
Definition normalize_step (st : list float * float) (tau : Z)
  : list float * float :=
  let '(yinBuffer, runningSum) := st in
  let runningSum := runningSum + get yinBuffer tau in
  (set yinBuffer tau (get yinBuffer tau * (JS.of_Z tau / runningSum)),
   runningSum).

Definition normalize (yinBuffer : list float) : list float :=
  fst (fold_left normalize_step (range 1 (length yinBuffer))
                 (set yinBuffer 0 1, 0)).

(** Step 3, the inner [while]: descend to the local minimum.  Every
    iteration increments [tau] and the loop stops at the last index, so
    [length yinBuffer] iterations are enough. *)
Fixpoint descend (yinBuffer : list float) (fuel : nat) (tau : Z) : Z :=
  match fuel with
  | O => tau
  | S fuel' =>
      if ((tau + 1 <? length yinBuffer)%Z
          && (get yinBuffer (tau + 1)%Z <? get yinBuffer tau))%bool
      then descend yinBuffer fuel' (tau + 1)%Z
      else tau
  end.

(** Step 3: the first [tau >= 2] below the threshold, then the descent;
    [-1] when there is none. *)
Definition tauEstimate (yinBuffer : list float) (threshold : float) : Z :=
  match find (fun tau => get yinBuffer tau <? threshold)
             (range 2 (length yinBuffer)) with
  | Some tau => descend yinBuffer (List.length yinBuffer) tau
  | None => (-1)%Z
  end.

(** Step 4: parabolic interpolation. *)
Definition betterTau (yinBuffer : list float) (tauEstimate : Z) : float :=
  let x0 :=
    if (tauEstimate <? 1)%Z then tauEstimate else (tauEstimate - 1)%Z in
  let x2 :=
    if (tauEstimate + 1 <? length yinBuffer)%Z
    then (tauEstimate + 1)%Z else tauEstimate in
  if (x0 =? tauEstimate)%Z then
    if get yinBuffer tauEstimate <=? get yinBuffer x2
    then JS.of_Z tauEstimate else JS.of_Z x2
  else if (x2 =? tauEstimate)%Z then
    if get yinBuffer tauEstimate <=? get yinBuffer x0
    then JS.of_Z tauEstimate else JS.of_Z x0
  else
    let s0 := get yinBuffer x0 in
    let s1 := get yinBuffer tauEstimate in
    let s2 := get yinBuffer x2 in
    JS.of_Z tauEstimate + (s2 - s0) / (2 * (2 * s1 - s2 - s0)).

(** The buffer after steps 1 and 2. *)
Definition yin (buffer : list float) : list float :=
  normalize (difference buffer (Float32Array (length buffer / 2))).

Definition detectPitchYIN (buffer : list float) (sampleRate threshold : float)
  : option float :=
  let yinBuffer := yin buffer in
  let tau := tauEstimate yinBuffer threshold in
  if (tau =? -1)%Z then None
  else Some (sampleRate / betterTau yinBuffer tau).

(** The default [threshold = 0.1]. *)
Definition default_threshold : float := 0x1.999999999999ap-4.

(** What [useAudioAnalyzer] shows for a frame: [if (pitch)] keeps a
    truthy pitch (neither [null], [0] nor [NaN]), which
    [frequencyToNote] then maps to a note. *)
Definition truthy (x : float) : bool := negb (is_nan x || is_zero x).

Definition detectedNote (Math_log2 : float -> float) (pitch : option float)
  : option PitchResult :=
  match pitch with
  | Some p => if truthy p then frequencyToNote Math_log2 p else None
  | None => None
  end.

End PitchDetection.

(** ** [audioAnalysis.ts] *)

Module AudioAnalysis.

Local Open Scope float_scope.

Definition binToFrequency (binIndex sampleRate fftSize : float) : float :=
  (binIndex * sampleRate) / fftSize.

Definition frequencyToBin (frequency sampleRate fftSize : float) : float :=
  JS.Math_round ((frequency * fftSize) / sampleRate).

(** *** Reads of the spectrum

    A computation that reads the spectrum yields its value together with
    the indices it read, in order. *)
Definition Reads (A : Type) : Type := (A * list Z)%type.

Definition ret {A} (a : A) : Reads A := (a, []).

Definition bind {A B} (m : Reads A) (f : A -> Reads B) : Reads B :=
  let '(a, r) := m in
  let '(b, r') := f a in
  (b, r ++ r')%list.

Notation "x <- m ;; k" := (bind m (fun x => k))
  (at level 61, m at next level, right associativity).

Definition read (frequencyData : list Z) (i : Z) : Reads float :=
  (byte_at frequencyData i, [i]).

(** A loop body run at each index of a list, threading its state. *)
Fixpoint for_each {S} (body : S -> Z -> Reads S) (l : list Z) (s : S)
  : Reads S :=
  match l with
  | [] => ret s
  | i :: t => s' <- body s i ;; for_each body t s'
  end.

Definition value {A} (m : JS.outcome (Reads A)) : JS.outcome A :=
  match m with
  | JS.Returns (a, _) => JS.Returns a
  | JS.Diverges => JS.Diverges
  end.

(** *** [getDominantFrequency] *)

(** The number that the counter [i] of a loop holds at the index [i]:
    the start value itself before the first [i++] (a start of [-0] is
    the index 0, and [maxIndex = i] keeps the [-0]), an integer
    afterwards ([i + 1] is never [-0]). *)
Definition counter (start : float) (i : Z) : float :=
  match JS.to_int start with
  | JS.IInt z => if (i =? z)%Z then start else JS.of_Z i
  | _ => JS.of_Z i
  end.

Definition dominant_step (frequencyData : list Z) (minBin : float)
           (st : float * float) (i : Z) : Reads (float * float) :=
  let '(maxValue, maxIndex) := st in
  v <- read frequencyData i ;;
  if maxValue <? v then
    v' <- read frequencyData i ;;
    ret (v', counter minBin i)
  else ret (maxValue, maxIndex).

Definition getDominantFrequency_reads (frequencyData : list Z)
           (sampleRate fftSize minFreq maxFreq : float)
  : JS.outcome (Reads (option float)) :=
  let minBin := frequencyToBin minFreq sampleRate fftSize in
  let maxBin := frequencyToBin maxFreq sampleRate fftSize in
  match scan minBin maxBin (length frequencyData) with
  | JS.Diverges => JS.Diverges
  | JS.Returns idx =>
      JS.Returns
        (st <- for_each (dominant_step frequencyData minBin) idx (0, 0) ;;
         let '(maxValue, maxIndex) := st in
         if maxValue <? 100 then ret None
         else ret (Some (binToFrequency maxIndex sampleRate fftSize)))
  end.

Definition getDominantFrequency (frequencyData : list Z)
           (sampleRate fftSize minFreq maxFreq : float)
  : JS.outcome (option float) :=
  value (getDominantFrequency_reads frequencyData sampleRate fftSize
                                    minFreq maxFreq).

(** *** [getFrequencyPeaks] *)

Record Peak : Type := { peak_frequency : float; amplitude : float }.

Definition peaks_step (frequencyData : list Z)
           (sampleRate fftSize threshold : float)
           (peaks : list Peak) (i : Z) : Reads (list Peak) :=
  a <- read frequencyData i ;;
  b <- read frequencyData (i - 1)%Z ;;
  if b <? a then
    a1 <- read frequencyData i ;;
    c <- read frequencyData (i + 1)%Z ;;
    if c <? a1 then
      a2 <- read frequencyData i ;;
      if threshold <? a2 then
        a3 <- read frequencyData i ;;
        ret (peaks ++ [{| peak_frequency :=
                            binToFrequency (JS.of_Z i) sampleRate fftSize;
                          amplitude := a3 |}])%list
      else ret peaks
    else ret peaks
  else ret peaks.

(** [peaks.sort((a, b) => b.amplitude - a.amplitude)]: the sort is
    stable, so equal amplitudes keep their order of discovery. *)
Fixpoint insert_peak (p : Peak) (l : list Peak) : list Peak :=
  match l with
  | [] => [p]
  | q :: t =>
      if amplitude q - amplitude p <=? 0 then p :: l
      else q :: insert_peak p t
  end.

Definition sort_peaks (l : list Peak) : list Peak :=
  fold_right insert_peak [] l.

(** [peaks.slice(0, numPeaks)]. *)
Definition slice0 {A} (l : list A) (numPeaks : float) : list A :=
  match JS.to_int numPeaks with
  | JS.INaN => []
  | JS.IInf true => []
  | JS.IInf false => l
  | JS.IInt n =>
      if (n <? 0)%Z then firstn (Z.to_nat (length l + n)) l
      else firstn (Z.to_nat n) l
  end.

Definition getFrequencyPeaks_reads (frequencyData : list Z)
           (sampleRate fftSize numPeaks minFreq maxFreq threshold : float)
  : JS.outcome (Reads (list Peak)) :=
  let minBin := frequencyToBin minFreq sampleRate fftSize in
  let maxBin := frequencyToBin maxFreq sampleRate fftSize in
  match scan (minBin + 1) (maxBin - 1) (length frequencyData - 1) with
  | JS.Diverges => JS.Diverges
  | JS.Returns idx =>
      JS.Returns
        (peaks <- for_each (peaks_step frequencyData sampleRate fftSize
                                       threshold) idx [] ;;
         ret (slice0 (sort_peaks peaks) numPeaks))
  end.

Definition getFrequencyPeaks (frequencyData : list Z)
           (sampleRate fftSize numPeaks minFreq maxFreq threshold : float)
  : JS.outcome (list Peak) :=
  value (getFrequencyPeaks_reads frequencyData sampleRate fftSize numPeaks
                                 minFreq maxFreq threshold).

(** *** [detectBeat] and [resetBeatDetection]

    The module-level [energyHistory] array is the state threaded through
    the calls. *)

Record BeatInfo : Type := {
  isBeat : bool;
  energy : float;
  averageEnergy : float
}.

Definition HISTORY_SIZE : Z := 43.

Definition default_sensitivity : float := 0x1.4cccccccccccdp+0.

(** [Math.floor(frequencyData.length * 0.1)]. *)
Definition bassRange (frequencyData : list Z) : float :=
  JS.Math_floor (JS.of_Z (length frequencyData) * 0x1.999999999999ap-4).

(** The values of [i] in [for (let i = 0; i < bassRange; i++)]; a length
    times 0.1 is finite, so [bassRange] is an integer. *)
Definition bass_indices (frequencyData : list Z) : list Z :=
  match JS.to_int (bassRange frequencyData) with
  | JS.IInt b => range 0 b
  | _ => []
  end.

Definition bassEnergy (frequencyData : list Z) : float :=
  let energy :=
    fold_left
      (fun energy i =>
         energy + byte_at frequencyData i * byte_at frequencyData i)
      (bass_indices frequencyData) 0 in
  sqrt (energy / bassRange frequencyData).

(** [energyHistory.push(energy)], then [shift()] over the cap. *)
Definition push_energy (energyHistory : list float) (energy : float)
  : list float :=
  let h := (energyHistory ++ [energy])%list in
  if (HISTORY_SIZE <? length h)%Z then tl h else h.

(** [energyHistory.reduce((a, b) => a + b, 0) / energyHistory.length]. *)
Definition average (energyHistory : list float) : float :=
  fold_left (fun a b => a + b) energyHistory 0
  / JS.of_Z (length energyHistory).

Definition detectBeat (energyHistory : list float) (frequencyData : list Z)
           (sensitivity : float) : BeatInfo * list float :=
  let energy := bassEnergy frequencyData in
  let energyHistory := push_energy energyHistory energy in
  let averageEnergy := average energyHistory in
  let isBeat :=
    (averageEnergy * sensitivity <? energy) && (50 <? energy) in
  ({| isBeat := isBeat; energy := energy; averageEnergy := averageEnergy |},
   energyHistory).

Definition resetBeatDetection (energyHistory : list float) : list float :=
  [].

(** A session: a sequence of calls on the shared history. *)
Inductive call : Type :=
| DetectBeat (frequencyData : list Z) (sensitivity : float)
| ResetBeatDetection.

Definition run_call (energyHistory : list float) (c : call) : list float :=
  match c with
  | DetectBeat frequencyData sensitivity =>
      snd (detectBeat energyHistory frequencyData sensitivity)
  | ResetBeatDetection => resetBeatDetection energyHistory
  end.

Definition run (calls : list call) : list float :=
  fold_left run_call calls [].

(** *** [calculateBandEnergies] *)

Record BandEnergy : Type := {
  subBass : float;
  bass : float;
  lowMid : float;
  mid : float;
  highMid : float;
  presence : float;
  brilliance : float
}.

(** The [bands] object, in the order [Object.entries] lists it. *)
Definition bands : list (string * (float * float)) :=
  [("subBass", (20, 60)); ("bass", (60, 250)); ("lowMid", (250, 500));
   ("mid", (500, 2000)); ("highMid", (2000, 4000));
   ("presence", (4000, 6000)); ("brilliance", (6000, 20000))]%string.

Definition set_band (result : BandEnergy) (bandName : string) (v : float)
  : BandEnergy :=
  let '(Build_BandEnergy a b c d e f g) := result in
  if String.eqb bandName "subBass" then Build_BandEnergy v b c d e f g
  else if String.eqb bandName "bass" then Build_BandEnergy a v c d e f g
  else if String.eqb bandName "lowMid" then Build_BandEnergy a b v d e f g
  else if String.eqb bandName "mid" then Build_BandEnergy a b c v e f g
  else if String.eqb bandName "highMid" then Build_BandEnergy a b c d v f g
  else if String.eqb bandName "presence" then Build_BandEnergy a b c d e v g
  else if String.eqb bandName "brilliance" then Build_BandEnergy a b c d e f v
  else result.

(** [result[bandName]]. *)
Definition get_band (result : BandEnergy) (bandName : string) : option float :=
  if String.eqb bandName "subBass" then Some (subBass result)
  else if String.eqb bandName "bass" then Some (bass result)
  else if String.eqb bandName "lowMid" then Some (lowMid result)
  else if String.eqb bandName "mid" then Some (mid result)
  else if String.eqb bandName "highMid" then Some (highMid result)
  else if String.eqb bandName "presence" then Some (presence result)
  else if String.eqb bandName "brilliance" then Some (brilliance result)
  else None.

(** The inner loop body: [sum += frequencyData[i]; count++]. *)
Definition band_step (frequencyData : list Z) (st : float * float) (i : Z)
  : Reads (float * float) :=
  let '(sum, count) := st in
  v <- read frequencyData i ;;
  ret (sum + v, count + 1).

(** The bins of one band: the indices its inner loop visits. *)
Definition band_bins (frequencyData : list Z) (sampleRate fftSize : float)
           (range_ : float * float) : JS.outcome (list Z) :=
  let minBin := frequencyToBin (fst range_) sampleRate fftSize in
  let maxBin := frequencyToBin (snd range_) sampleRate fftSize in
  scan minBin maxBin (length frequencyData).

(** One band: its [sum] and [count]. *)
Definition band_sums (frequencyData : list Z) (sampleRate fftSize : float)
           (range_ : float * float) : JS.outcome (Reads (float * float)) :=
  match band_bins frequencyData sampleRate fftSize range_ with
  | JS.Diverges => JS.Diverges
  | JS.Returns idx =>
      JS.Returns (for_each (band_step frequencyData) idx (0, 0))
  end.

Definition band_energy (st : float * float) : float :=
  let '(sum, count) := st in
  if 0 <? count then sum / count else 0.

(** The outer loop over the bands. *)
Fixpoint bands_loop (frequencyData : list Z) (sampleRate fftSize : float)
         (bs : list (string * (float * float))) (result : BandEnergy)
  : JS.outcome (Reads BandEnergy) :=
  match bs with
  | [] => JS.Returns (ret result)
  | (bandName, range_) :: rest =>
      match band_sums frequencyData sampleRate fftSize range_ with
      | JS.Diverges => JS.Diverges
      | JS.Returns m =>
          match bands_loop frequencyData sampleRate fftSize rest
                           (set_band result bandName (band_energy (fst m)))
          with
          | JS.Diverges => JS.Diverges
          | JS.Returns k => JS.Returns (_ <- m ;; k)
          end
      end
  end.

Definition calculateBandEnergies_reads (frequencyData : list Z)
           (sampleRate fftSize : float) : JS.outcome (Reads BandEnergy) :=
  bands_loop frequencyData sampleRate fftSize bands
             (Build_BandEnergy 0 0 0 0 0 0 0).

Definition calculateBandEnergies (frequencyData : list Z)
           (sampleRate fftSize : float) : JS.outcome BandEnergy :=
  value (calculateBandEnergies_reads frequencyData sampleRate fftSize).

End AudioAnalysis.

(** ** A reference engine

    An implementation of [Math.log2] and [Math.pow] in fixed-point
    arithmetic, accurate to about 60 bits on the arguments the sources pass
    (a positive finite base; every other case of [Math.pow] but a zero
    exponent is left as [NaN]).  The properties that depend on the
    engine's built-ins are stated for every engine that meets stated
    conditions; this one shows that the conditions can be met. *)

Module Engine.

(** Number of fractional bits of the fixed-point intermediate values. *)
Definition F : Z := 128.

(** The fractional bits of [log2 mu] for a fixed-point [mu] in [1, 2), most
    significant first: square, and halve when the square reaches 2. *)
Fixpoint log2_frac (n : nat) (mu acc : Z) : Z :=
  match n with
  | O => acc
  | S n' =>
      let sq := Z.shiftr (mu * mu) F in
      if 2 * 2 ^ F <=? sq then log2_frac n' (Z.shiftr sq 1) (2 * acc + 1)
      else log2_frac n' sq (2 * acc)
  end.

(** [log2 (m * 2^e)], scaled by [2^64]. *)
Definition log2_fix (m : positive) (e : Z) : Z :=
  let d := Zpos (digits2_pos m) in
  (e + d - 1) * 2 ^ 64 + log2_frac 64 (Z.shiftl (Zpos m) (F - (d - 1))) 0.

Definition Math_log2 (x : float) : float :=
  match Prim2SF x with
  | S754_zero _ => neg_infinity
  | S754_infinity false => infinity
  | S754_finite false m e =>
      SF2Prim (binary_normalize prec emax (log2_fix m e) (-64) false)
  | _ => nan
  end.

(** The roots [2^(1/2), 2^(1/4), ..., 2^(1/2^64)] in fixed point, each the
    square root of the one before. *)
Fixpoint roots (n : nat) (r : Z) : list Z :=
  match n with
  | O => []
  | S n' => let r' := Z.sqrt (r * 2 ^ F) in r' :: roots n' r'
  end.

Definition exp2_roots : list Z := Eval vm_compute in roots 64 (2 * 2 ^ F).

(** [2^(phi / 2^64)] in fixed point, for [0 <= phi < 2^64]: the product of
    the roots selected by the bits of [phi]. *)
Fixpoint exp2_frac (rs : list Z) (i phi acc : Z) : Z :=
  match rs with
  | [] => acc
  | r :: rs' =>
      exp2_frac rs' (i + 1) phi
                (if Z.testbit phi (64 - i) then Z.shiftr (acc * r) F else acc)
  end.

(** [2^(l / 2^64)]. *)
Definition exp2_fix (l : Z) : float :=
  SF2Prim (binary_normalize prec emax
             (exp2_frac exp2_roots 1 (l mod 2 ^ 64) (2 ^ F))
             (Z.shiftr l 64 - F) false).

Definition Math_pow (x y : float) : float :=
  match Prim2SF x, Prim2SF y with
  | _, S754_zero _ => 1%float
  | S754_finite false mx ex, S754_finite sy my ey =>
      exp2_fix (Z.shiftl (cond_Zopp sy (Zpos my) * log2_fix mx ex) ey)
  | _, _ => nan
  end.

End Engine.

Import PitchDetection AudioAnalysis.

(** ** Notions used to state the properties *)

Module Props.

Local Open Scope float_scope.

(** A zero of either sign. *)
Definition zeroish (x : float) : Prop := x = zero \/ x = neg_zero.

(** A buffer of zeros, each of either sign. *)
Definition silence (signs : list bool) : list float :=
  map (fun s : bool => if s then neg_zero else zero) signs.

(** Every cell of the first [k] is [+0]. *)
Definition all_zero (k : Z) (a : list float) : Prop :=
  length a = k /\ forall j, (0 <= j < k)%Z -> get a j = zero.

(** Step 2 on an all-zero buffer, after the lags below [t]: the running
    sum is still [0], and every cell from index 1 on is
    [0 * (tau / 0) = NaN]. *)
Definition normalized_upto (k t : Z) (st : list float * float) : Prop :=
  snd st = zero /\ length (fst st) = k
  /\ (forall j, (t <= j < k)%Z -> get (fst st) j = zero)
  /\ (forall j, (1 <= j < t)%Z -> get (fst st) j = nan).

(** The binary64 value of a non-negative integer. *)
Definition canon (n : Z) : spec_float := binary_normalize prec emax n 0 false.

(** A normal number [m * 2^e] with a 53-bit mantissa. *)
Definition normal (x : spec_float) (m : positive) (e : Z) : Prop :=
  x = S754_finite false m e
  /\ Zpos (digits2_pos m) = 53%Z /\ (-1074 <= e <= 971)%Z.

(** Not negative and not [-0]: a non-negative sign bit, or [NaN]. *)
Definition nonneg (x : spec_float) : Prop :=
  match x with
  | S754_zero s | S754_infinity s | S754_finite s _ _ => s = false
  | S754_nan => True
  end.

(** The energy stored for one band. *)
Definition band_value (frequencyData : list Z) (sampleRate fftSize : float)
           (range_ : float * float) : JS.outcome float :=
  match band_sums frequencyData sampleRate fftSize range_ with
  | JS.Returns m => JS.Returns (band_energy (fst m))
  | JS.Diverges => JS.Diverges
  end.

(** The energy of a band of a uniform spectrum of magnitude 100: 100 when
    some bin contributes, 0 when none does. *)
Definition uniform_energy (bins : list Z) : float :=
  match bins with
  | [] => 0
  | _ :: _ => 100
  end.

(** A loop start that is a bin index: not negative, or [-0]. *)
Definition startable (x : float) : Prop :=
  nonneg (Prim2SF x) \/ x = neg_zero.

(** Every index of a list of reads is inside a buffer of length [len]. *)
Definition in_bounds (len : Z) (reads : list Z) : Prop :=
  Forall (fun i => (0 <= i < len)%Z) reads.

(** *** The note round trip *)

(** The semitone offsets from A4 of the piano range: A0 is -48, C8 is 39. *)
Definition piano_semitones : list Z := range (-48) 40.

(** The note name and the octave of a semitone offset. *)
Definition semitone_note (k : Z) : string :=
  nth (Z.to_nat ((k + 9) mod 12)) NOTE_NAMES ""%string.

Definition semitone_octave (k : Z) : float := JS.of_Z ((k + 9) / 12 + 4).

(** [near c l]: [l] is within [2^-44] of [c]. *)
Definition log2_tolerance : float := 0x1p-44.

Definition near (c l : float) : bool :=
  (c - log2_tolerance <=? l) && (l <=? c + log2_tolerance).

(** [frequencyToNote] after its guard, from the value [l] that
    [Math.log2(frequency / 440)] returned; [note_from_rounded] is the part
    that follows the first [Math.round]. *)
Definition note_from_rounded (frequency semitones roundedSemitones : float)
  : PitchResult :=
  let cents := JS.Math_round ((semitones - roundedSemitones) * 100) in
  let noteIndex := JS.rem (roundedSemitones + 9) 12 in
  let octave := JS.Math_floor ((roundedSemitones + 9) / 12) + 4 in
  let noteName :=
    at_number NOTE_NAMES
              (if 0 <=? noteIndex then noteIndex else noteIndex + 12) in
  {| frequency := frequency; note := noteName; octave := octave; cents := cents |}.

Definition note_from_log2 (frequency l : float) : PitchResult :=
  let semitones := 12 * l in
  note_from_rounded frequency semitones (JS.Math_round semitones).

(** The normal numbers between two normal numbers of the same sign, listed
    by exponent and mantissa. *)
Fixpoint count_up (n : nat) (m : positive) : list positive :=
  match n with
  | O => []
  | S n' => m :: count_up n' (Pos.succ m)
  end.

Definition mantissas (lo hi : Z) : list positive :=
  count_up (Z.to_nat (hi + 1 - lo)) (Z.to_pos lo).

Definition between_pos (mlo : positive) (elo : Z) (mhi : positive) (ehi : Z)
  : list (positive * Z) :=
  flat_map
    (fun e =>
       map (fun m => (m, e))
           (mantissas (if (e =? elo)%Z then Zpos mlo else 2 ^ 52)%Z
                      (if (e =? ehi)%Z then Zpos mhi else 2 ^ 53 - 1)%Z))
    (range elo (ehi + 1)).

Definition between (lo hi : spec_float) : list spec_float :=
  match lo, hi with
  | S754_finite false mlo elo, S754_finite false mhi ehi =>
      map (fun p => S754_finite false (fst p) (snd p))
          (between_pos mlo elo mhi ehi)
  | S754_finite true mlo elo, S754_finite true mhi ehi =>
      map (fun p => S754_finite true (fst p) (snd p))
          (between_pos mhi ehi mlo elo)
  | _, _ => []
  end.

Definition enumerable (lo hi : spec_float) : bool :=
  match lo, hi with
  | S754_finite false _ elo, S754_finite false _ _ => (-1074 <? elo)%Z
  | S754_finite true _ _, S754_finite true _ ehi => (-1074 <? ehi)%Z
  | _, _ => false
  end.

(** The value of a finite number, in units of [2^-1074]. *)
Definition scaled (x : spec_float) : Z :=
  match x with
  | S754_finite s m e => (cond_Zopp s (Zpos m) * 2 ^ (e + 1074))%Z
  | _ => 0%Z
  end.

Definition finite_or_zero (x : spec_float) : Prop :=
  match x with
  | S754_zero _ | S754_finite _ _ _ => True
  | _ => False
  end.

(** [x] is the number [n / 2], not zero. *)
Definition is_half (n : Z) (x : float) : bool :=
  match Prim2SF x with
  | S754_finite s m e => (scaled (S754_finite s m e) =? n * 2 ^ 1073)%Z
  | _ => false
  end.

(** Comparisons that decide what [Math.round] returns: [x] is within a half
    of [K]; [p] is within one and a half of zero. *)
Definition rounds_to (K x : float) : bool := (K - 0.5 <=? x) && (x <? K + 0.5).

Definition cents_ok (p : float) : bool := (-1.5 <=? p) && (p <? 1.5).

(** The logarithm [l] gives [K] rounded semitones and cents between -1 and
    1. *)
Definition log2_ok (K l : float) : bool :=
  let semitones := 12 * l in
  rounds_to K semitones && cents_ok ((semitones - K) * 100).

(** [k] rounded semitones give the note and the octave of the semitone
    [k]; and [k - 1/2], [k + 1/2] are computed exactly. *)
Definition rounded_ok (k : Z) : bool :=
  let K := JS.of_Z k in
  let r := note_from_rounded 0 0 K in
  is_half (2 * k - 1) (K - 0.5) && is_half (2 * k + 1) (K + 0.5)
  && match note r with
     | Some n => String.eqb n (semitone_note k)
     | None => false
     end
  && PrimFloat.Leibniz.eqb (octave r) (semitone_octave k).

(** Every number near [k / 12] gives the note of the semitone [k]. *)
Definition semitone_ok (k : Z) : bool :=
  let c := JS.of_Z k / 12 in
  let K := JS.of_Z k in
  let lo := Prim2SF (c - log2_tolerance) in
  let hi := Prim2SF (c + log2_tolerance) in
  enumerable lo hi && rounded_ok k
  && forallb (fun x => log2_ok K (SF2Prim x)) (between lo hi).

(** The reference engine on the semitone [k]: [2^(k/12)] within
    [1/32, 16], and the logarithm of the frequency ratio near [k/12]. *)
Definition reference_ok (k : Z) : bool :=
  let p := Engine.Math_pow 2 (JS.of_Z k / 12) in
  (0x1p-5 <=? p) && (p <=? 0x1p+4)
  && near (JS.of_Z k / 12) (Engine.Math_log2 (440 * p / 440)).

(** *** Example inputs *)

(** Eight samples alternating between [2^100] and [-2^100]. *)
Definition loud_square : list float :=
  let a := 0x1p+100 in [a; -a; a; -a; a; -a; a; -a].

(** Thirty-two samples of a wave of period 4. *)
Definition square4 : list float :=
  flat_map (fun _ : nat => [0; 1; 0; -1]) (seq 0 8).

(** Eight samples within [-1, 1] whose first five are equal. *)
Definition late_step : list float := [0; 0; 0; 0; 0; 0.5; 1; 0].

(** Ten bins whose bass range (the first bin) holds the given value. *)
Definition bass_only (v : Z) : list Z := [v; 0; 0; 0; 0; 0; 0; 0; 0; 0]%Z.

End Props.

Import Props.

(** ** The other functions of [audioAnalysis.ts] *)

Module Levels.

Local Open Scope float_scope.

(** [calculateRMS]: the samples are bytes centred on 128. *)
Definition calculateRMS (dataArray : list Z) : float :=
  let sum :=
    fold_left
      (fun sum i =>
         let normalized := (byte_at dataArray i - 128) / 128 in
         sum + normalized * normalized)
      (range 0 (length dataArray)) 0 in
  sqrt (sum / JS.of_Z (length dataArray)).

(** [calculatePeak]. *)
Definition calculatePeak (dataArray : list Z) : float :=
  let max :=
    fold_left
      (fun max i =>
         let value := abs (byte_at dataArray i - 128) in
         if max <? value then value else max)
      (range 0 (length dataArray)) 0 in
  max / 128.

(** [calculateSpectralCentroid]: the state of the loop is
    [(weightedSum, magnitudeSum)]. *)
Definition centroid_step (frequencyData : list Z) (sampleRate fftSize : float)
           (st : float * float) (i : Z) : float * float :=
  let '(weightedSum, magnitudeSum) := st in
  let frequency := binToFrequency (JS.of_Z i) sampleRate fftSize in
  let magnitude := byte_at frequencyData i in
  (weightedSum + frequency * magnitude, magnitudeSum + magnitude).

Definition calculateSpectralCentroid (frequencyData : list Z)
           (sampleRate fftSize : float) : float :=
  let '(weightedSum, magnitudeSum) :=
    fold_left (centroid_step frequencyData sampleRate fftSize)
              (range 0 (length frequencyData)) (0, 0) in
  if 0 <? magnitudeSum then weightedSum / magnitudeSum else 0.

End Levels.

(** ** [detectPitchAutocorrelation] of [pitchDetection.ts] *)

Module Autocorrelation.

Local Open Scope float_scope.

(** The values of [i] at which the body of
    [for (let i = 0; i < stop; i++)] runs.  Past [2^53] the increment
    leaves [i] unchanged, so a larger bound is never reached. *)
Definition count_to (stop : float) : JS.outcome (list Z) :=
  match JS.to_int stop with
  | JS.INaN => JS.Returns []
  | JS.IInf true => JS.Returns []
  | JS.IInf false => JS.Diverges
  | JS.IInt b =>
      if (2 ^ 53 <? b)%Z then JS.Diverges
      else JS.Returns
             (take_while (fun i => JS.of_Z i <? stop) (range 0 (b + 1)))
  end.

(** The body of the outer loop up to the test: the mean of
    [buffer[i] * buffer[i + period]] over [i < bufferSize - period]. *)
Definition correlation (buffer : list float) (period : Z)
  : JS.outcome float :=
  let stop := JS.of_Z (length buffer) - JS.of_Z period in
  match count_to stop with
  | JS.Diverges => JS.Diverges
  | JS.Returns idx =>
      JS.Returns
        (fold_left (fun c i => c + get buffer i * get buffer (i + period)%Z)
                   idx 0
         / stop)
  end.

(** The outer loop over the periods [ps]: the state is
    [(bestCorrelation, bestPeriod)]. *)
Fixpoint best (buffer : list float) (ps : list Z) (st : float * Z)
  : JS.outcome (float * Z) :=
  match ps with
  | [] => JS.Returns st
  | period :: rest =>
      match correlation buffer period with
      | JS.Diverges => JS.Diverges
      | JS.Returns c =>
          best buffer rest (if fst st <? c then (c, period) else st)
      end
  end.

(** The test of the outer loop. *)
Definition in_search (maxPeriod bufferSize period : float) : bool :=
  (period <=? maxPeriod) && (period <? bufferSize / 2).

(** The [return] statements. *)
Definition verdict (sampleRate : float) (st : float * Z) : option float :=
  if (snd st =? 0)%Z || (fst st <? 0x1.47ae147ae147bp-7) then None
  else Some (sampleRate / JS.of_Z (snd st)).

(** [minPeriod] is [Math.floor] of a quotient: an integer, [NaN] or an
    infinity.  From an integer of at least [-2^53] on, the counter
    [period] takes every integer in turn; below (and from [-Infinity])
    the first inner loop has a bound above [2^53] and never ends. *)
Definition detectPitchAutocorrelation (buffer : list float)
           (sampleRate minFreq maxFreq : float) : JS.outcome (option float) :=
  let bufferSize := JS.of_Z (length buffer) in
  let minPeriod := JS.Math_floor (sampleRate / maxFreq) in
  let maxPeriod := JS.Math_floor (sampleRate / minFreq) in
  match JS.to_int minPeriod with
  | JS.INaN | JS.IInf false => JS.Returns None
  | JS.IInf true =>
      if in_search maxPeriod bufferSize minPeriod then JS.Diverges
      else JS.Returns None
  | JS.IInt z =>
      if (z <? - 2 ^ 53)%Z then
        if in_search maxPeriod bufferSize minPeriod then JS.Diverges
        else JS.Returns None
      else
        match best buffer
                   (take_while
                      (fun p => in_search maxPeriod bufferSize (JS.of_Z p))
                      (range z ((length buffer + 1) / 2)))
                   (0, 0%Z) with
        | JS.Diverges => JS.Diverges
        | JS.Returns st => JS.Returns (verdict sampleRate st)
        end
  end.

(** The default [minFreq = 80] and [maxFreq = 1000]. *)
Definition default_minFreq : float := 80.
Definition default_maxFreq : float := 1000.

End Autocorrelation.

(** ** [INSTRUMENT_BANDS] and [getInstrumentBand] of [pitchDetection.ts] *)

Module Instruments.

Local Open Scope float_scope.

Record InstrumentBand : Type := {
  name : string;
  minFreq : float;
  maxFreq : float;
  color : string
}.

Definition INSTRUMENT_BANDS : list InstrumentBand :=
  [ {| name := "Sub Bass"; minFreq := 20; maxFreq := 60; color := "#4a1942" |};
    {| name := "Bass"; minFreq := 60; maxFreq := 250; color := "#6b21a8" |};
    {| name := "Low Mid"; minFreq := 250; maxFreq := 500; color := "#7c3aed" |};
    {| name := "Mid"; minFreq := 500; maxFreq := 2000; color := "#8b5cf6" |};
    {| name := "High Mid"; minFreq := 2000; maxFreq := 4000;
       color := "#a78bfa" |};
    {| name := "Presence"; minFreq := 4000; maxFreq := 6000;
       color := "#c4b5fd" |};
    {| name := "Brilliance"; minFreq := 6000; maxFreq := 20000;
       color := "#e9d5ff" |} ]%string.

(** The first band with [frequency >= minFreq && frequency < maxFreq], or
    [null]. *)
Definition getInstrumentBand (frequency : float) : option InstrumentBand :=
  find (fun band => (minFreq band <=? frequency) && (frequency <? maxFreq band))
       INSTRUMENT_BANDS.

End Instruments.

Module MoreProps.

Local Open Scope float_scope.

(** The elements of a [Uint8Array]. *)
Definition bytes (a : list Z) : Prop := Forall (fun b => (0 <= b <= 255)%Z) a.

(** Every two samples of the first [2 * k] differ by a zero. *)
Definition flat (k : Z) (buffer : list float) : Prop :=
  forall i j, (0 <= i < 2 * k)%Z -> (0 <= j < 2 * k)%Z ->
              zeroish (get buffer i - get buffer j).

(** The energies pushed since the last reset, oldest first. *)
Definition energies_step (es : list float) (c : call) : list float :=
  match c with
  | DetectBeat frequencyData _ => (es ++ [bassEnergy frequencyData])%list
  | ResetBeatDetection => []
  end.

Definition energies (calls : list call) : list float :=
  fold_left energies_step calls [].

(** The last [n] elements of a list. *)
Definition lastn {A} (n : nat) (l : list A) : list A :=
  skipn (List.length l - n) l.

(** The largest distance of a sample from the centre 128. *)
Definition deviation (dataArray : list Z) : Z :=
  fold_left (fun m b => Z.max m (Z.abs (b - 128))) dataArray 0%Z.

End MoreProps.

Module OrderProps.

(** The position of a number on the line, in units of [2^-1074]; the
    infinities are placed beyond every finite number. *)
Definition rank (x : spec_float) : Z :=
  match x with
  | S754_infinity false => 2 ^ 2200
  | S754_infinity true => - 2 ^ 2200
  | _ => scaled x
  end.

Definition frank (x : float) : Z := rank (Prim2SF x).

Definition number (x : float) : Prop := Prim2SF x <> S754_nan.

(** A finite number that is neither negative nor [-0]. *)
Definition amount (x : float) : Prop :=
  match Prim2SF x with
  | S754_zero false | S754_finite false _ _ => True
  | _ => False
  end.

End OrderProps.

Module LevelProps.

Local Open Scope float_scope.

(** A number that is neither [NaN], negative nor [-0]. *)
Definition good (x : spec_float) : Prop :=
  match x with
  | S754_nan => False
  | S754_zero s | S754_infinity s | S754_finite s _ _ => s = false
  end.

(** The term one sample adds to the sum of [calculateRMS]. *)
Definition square_term (b : Z) : float :=
  let normalized := (JS.of_Z b - 128) / 128 in normalized * normalized.

End LevelProps.

Module SpectrumProps.

Local Open Scope float_scope.

(** The byte at an index, as an integer (0 outside the array). *)
Definition key (frequencyData : list Z) (i : Z) : Z :=
  nth (Z.to_nat i) frequencyData 0%Z.

(** The state of the loop of [getDominantFrequency] after the bins [seen]:
    [maxValue] is the largest byte seen, and [maxIndex] is the counter at
    a bin that holds it unless every byte seen is 0. *)
Definition dominant_inv (frequencyData : list Z) (minBin : float)
           (seen : list Z) (st : float * float) : Prop :=
  exists M : Z,
    fst st = JS.of_Z M /\ (0 <= M <= 255)%Z
    /\ (forall j, In j seen -> (key frequencyData j <= M)%Z)
    /\ (M = 0%Z
        \/ exists i, In i seen /\ snd st = counter minBin i
                     /\ key frequencyData i = M).

(** What [getFrequencyPeaks] records for the bin [i]: a strict local
    maximum above the threshold. *)
Definition peak_at (frequencyData : list Z) (sampleRate fftSize threshold : float)
           (i : Z) (p : Peak) : Prop :=
  peak_frequency p = binToFrequency (JS.of_Z i) sampleRate fftSize
  /\ amplitude p = byte_at frequencyData i
  /\ (byte_at frequencyData (i - 1) <? byte_at frequencyData i) = true
  /\ (byte_at frequencyData (i + 1) <? byte_at frequencyData i) = true
  /\ (threshold <? byte_at frequencyData i) = true.

(** [p] is at least as loud as [q]. *)
Definition louder (p q : Peak) : Prop := (amplitude q <=? amplitude p) = true.

(** The amplitude of a peak is a byte. *)
Definition byte_peak (p : Peak) : Prop :=
  exists b, (0 <= b <= 255)%Z /\ amplitude p = JS.of_Z b.

(** The comparator [(a, b) => b.amplitude - a.amplitude] of the sort, on
    every pair of bytes: [q - p <= 0] exactly when [q <= p]. *)
Definition comparator_checked : bool :=
  let fs := map (fun b => (b, JS.of_Z b)) (range 0 256) in
  forallb (fun q =>
             forallb (fun p => Bool.eqb (snd q - snd p <=? 0)
                                        (fst q <=? fst p)%Z) fs) fs.

End SpectrumProps.

Module BandProps.

Import SpectrumProps.

Local Open Scope float_scope.

(** The sum of the bytes at the bins of a list. *)
Definition total (frequencyData : list Z) (bins : list Z) : Z :=
  fold_left (fun s i => (s + key frequencyData i)%Z) bins 0%Z.

(** The mean of the bytes at the bins of a band, as the division of two
    numbers gives it; 0 for a band without bins. *)
Definition band_mean (frequencyData : list Z) (bins : list Z) : float :=
  match bins with
  | [] => 0
  | _ :: _ => JS.of_Z (total frequencyData bins) / JS.of_Z (length bins)
  end.

(** The sum of the squares of the first [k] bytes. *)
Definition squares (frequencyData : list Z) (k : Z) : Z :=
  fold_left (fun s i => (s + key frequencyData i * key frequencyData i)%Z)
            (range 0 k) 0%Z.

End BandProps.

Module AutocorrelationProps.

Import Autocorrelation.
Local Open Scope float_scope.

(** A period [q >= 0] inside the search range of
    [detectPitchAutocorrelation]: [minPeriod <= q <= maxPeriod] and
    [q < bufferSize / 2]. *)
Definition searched (buffer : list float) (sampleRate minFreq maxFreq : float)
           (q : Z) : Prop :=
  (0 <= q)%Z
  /\ (JS.Math_floor (sampleRate / maxFreq) <=? JS.of_Z q) = true
  /\ (JS.of_Z q <=? JS.Math_floor (sampleRate / minFreq)) = true
  /\ (2 * q < length buffer)%Z.

(** A zero of either sign, or [NaN]. *)
Definition quiet (x : float) : Prop := zeroish x \/ x = nan.

End AutocorrelationProps.

Module NoteProps.

Local Open Scope float_scope.

(** A number that is neither [NaN] nor an infinity. *)
Definition finite (x : float) : Prop := finite_or_zero (Prim2SF x).

(** The note name and the octave that [frequencyToNote] derives from
    [roundedSemitones]. *)
Definition name_of (roundedSemitones : float) : option string :=
  let noteIndex := JS.rem (roundedSemitones + 9) 12 in
  at_number NOTE_NAMES
            (if 0 <=? noteIndex then noteIndex else noteIndex + 12).

Definition octave_of (roundedSemitones : float) : float :=
  JS.Math_floor ((roundedSemitones + 9) / 12) + 4.

(** [k] rounded semitones give the note and the octave of the semitone
    [k]. *)
Definition name_ok (k : Z) : bool :=
  match name_of (JS.of_Z k) with
  | Some n => String.eqb n (semitone_note k)
  | None => false
  end
  && PrimFloat.Leibniz.eqb (octave_of (JS.of_Z k)) (semitone_octave k).

(** The [n] integers from [k] on. *)
Fixpoint upto (n : nat) (k : Z) : list Z :=
  match n with
  | O => []
  | S n' => k :: upto n' (Z.succ k)
  end.

(** A whole number held in a number: [z], or [-0] for [z = 0]. *)
Definition whole (x : float) (z : Z) : Prop :=
  x = JS.of_Z z \/ (z = 0%Z /\ x = neg_zero).

End NoteProps.

Module SessionProps.

Import MoreProps.

(** A spectrum that [detectBeat] can measure: bytes, in at least 10 and
    fewer than [2^32] bins. *)
Definition measurable (frequencyData : list Z) : Prop :=
  bytes frequencyData /\ (10 <= length frequencyData < 2 ^ 32)%Z.

Definition measurable_call (c : call) : Prop :=
  match c with
  | DetectBeat frequencyData _ => measurable frequencyData
  | ResetBeatDetection => True
  end.

End SessionProps.

Module YinProps.

Import OrderProps.

Local Open Scope float_scope.

(** A sample of a normalized time-domain window: a number in [[-1, 1]]. *)
Definition sample (x : float) : Prop :=
  (-1 <=? x) = true /\ (x <=? 1) = true.

(** An amount that a [Float32Array] holds exactly: [mb * 2^eb] with a
    mantissa below [2^24] and an exponent of binary32. *)
Definition single (b : float) : Prop :=
  amount b
  /\ exists mb eb : Z,
       (0 <= mb < 2 ^ 24)%Z /\ (-149 <= eb <= 104)%Z
       /\ frank b = (mb * 2 ^ (eb + 1074))%Z.

(** An amount of at most [2^25]: what a defined cell of the normalized
    difference holds. *)
Definition level (x : float) : Prop :=
  amount x /\ (frank x <= 2 ^ 25 * 2 ^ 1074)%Z.

(** The cells of the normalized difference from lag 1 on: [NaN] as long
    as the running sum is 0, then levels, the first of which is at least
    1. *)
Definition settled (yinBuffer : list float) : Prop :=
  (forall j, (1 <= j < length yinBuffer)%Z -> get yinBuffer j = nan)
  \/ exists k,
       (1 <= k < length yinBuffer)%Z
       /\ (forall j, (1 <= j < k)%Z -> get yinBuffer j = nan)
       /\ (forall j, (k <= j < length yinBuffer)%Z -> level (get yinBuffer j))
       /\ (frank 1 <= frank (get yinBuffer k))%Z.

(** The state of step 2 before lag [t], on the difference function [d]:
    the cells from [t] on are still those of [d], the running sum is an
    amount, and the cells before [t] are [NaN] while the running sum is
    0, then levels. *)
Definition normalizing (d : list float) (t : Z) (st : list float * float)
  : Prop :=
  length (fst st) = length d
  /\ (forall j, (t <= j < length d)%Z -> get (fst st) j = get d j)
  /\ amount (snd st)
  /\ (frank (snd st) <= 4 * length d * t * 2 ^ 1074)%Z
  /\ (frank (snd st) = 0%Z ->
      forall j, (1 <= j < t)%Z -> get (fst st) j = nan)
  /\ (frank (snd st) <> 0%Z ->
      (2 ^ 925 <= frank (snd st))%Z
      /\ exists k,
           (1 <= k < t)%Z
           /\ (forall j, (1 <= j < k)%Z -> get (fst st) j = nan)
           /\ (forall j, (k <= j < t)%Z -> level (get (fst st) j))
           /\ (frank 1 <= frank (get (fst st) k))%Z).

End YinProps.

(** ** Loops over integer ranges *)

Module Loops.

Lemma range_nil (lo hi : Z) : hi <= lo -> range lo hi = [].
Proof.
  intros H. unfold range.
  replace (Z.to_nat (hi - lo)) with O by lia. reflexivity.
Qed.

Lemma range_cons (lo hi : Z) :
  lo < hi -> range lo hi = lo :: range (lo + 1) hi.
Proof.
  intros H. unfold range.
  replace (Z.to_nat (hi - lo)) with (S (Z.to_nat (hi - (lo + 1)))) by lia.
  cbn [seq map]. f_equal; [lia|].
  rewrite <- seq_shift, map_map.
  apply map_ext. intros k. lia.
Qed.

Lemma length_range (lo hi : Z) :
  List.length (range lo hi) = Z.to_nat (hi - lo).
Proof. unfold range. now rewrite length_map, length_seq. Qed.

Lemma In_range (lo hi i : Z) : In i (range lo hi) <-> lo <= i < hi.
Proof.
  unfold range. rewrite in_map_iff. split.
  - intros (k & <- & Hk). apply in_seq in Hk. lia.
  - intros H. exists (Z.to_nat (i - lo)). split; [lia|].
    apply in_seq. lia.
Qed.

(** Invariant rule for [for (let i = lo; i < hi; i++)]. *)
Lemma fold_range_inv {S : Type} (P : Z -> S -> Prop) (f : S -> Z -> S)
      (lo hi : Z) (s : S) :
  lo <= hi ->
  P lo s ->
  (forall i s', lo <= i < hi -> P i s' -> P (i + 1) (f s' i)) ->
  P hi (fold_left f (range lo hi) s).
Proof.
  intros Hle. remember (Z.to_nat (hi - lo)) as n eqn:Hn.
  revert lo s Hle Hn. induction n as [|n IH]; intros lo s Hle Hn H0 Hstep.
  - assert (hi = lo) by lia. subst hi.
    rewrite range_nil by lia. exact H0.
  - rewrite range_cons by lia. cbn [fold_left].
    apply IH; try lia.
    + apply Hstep; [lia|exact H0].
    + intros i s' Hi. apply Hstep. lia.
Qed.

Lemma find_none {A : Type} (p : A -> bool) (l : list A) :
  (forall x, In x l -> p x = false) -> find p l = None.
Proof.
  induction l as [|a l IH]; intros H; [reflexivity|].
  cbn [find]. rewrite (H a (or_introl eq_refl)).
  apply IH. intros x Hx. apply H. right. exact Hx.
Qed.

End Loops.

(** ** Typed-array reads and stores *)

Module ArrayFacts.

Lemma length_update (a : list float) (n : nat) (v : float) :
  List.length (update a n v) = List.length a.
Proof.
  revert n. induction a as [|h t IH]; intros [|n]; cbn; auto.
Qed.

Lemma length_set (a : list float) (i : Z) (v : float) :
  length (set a i v) = length a.
Proof.
  unfold set, length. destruct (i <? 0); [reflexivity|].
  now rewrite length_update.
Qed.

Lemma nth_update (a : list float) (n k : nat) (v d : float) :
  nth k (update a n v) d =
  if (Nat.eqb k n && Nat.ltb n (List.length a))%bool then v else nth k a d.
Proof.
  revert n k. induction a as [|h t IH]; intros [|n] [|k]; cbn; auto.
  all: try (destruct (Nat.eqb _ _); reflexivity).
Qed.

(** Reading after a store. *)
Lemma get_set (a : list float) (i j : Z) (v : float) :
  get (set a i v) j =
  if ((j =? i) && (0 <=? i) && (i <? length a))%bool
  then JS.fround v else get a j.
Proof.
  unfold get, set, length.
  destruct (Z.ltb_spec i 0) as [Hi|Hi].
  - destruct (Z.eqb_spec j i); destruct (Z.leb_spec 0 i);
      cbn [andb]; try reflexivity; lia.
  - destruct (Z.ltb_spec j 0) as [Hj|Hj].
    + destruct (Z.eqb_spec j i); [lia|reflexivity].
    + rewrite nth_update.
      destruct (Z.eqb_spec j i) as [->|Hne].
      * rewrite Nat.eqb_refl.
        destruct (Z.leb_spec 0 i); [|lia]. cbn [andb].
        destruct (Nat.ltb_spec (Z.to_nat i) (List.length a));
          destruct (Z.ltb_spec i (Z.of_nat (List.length a)));
          try reflexivity; lia.
      * destruct (Nat.eqb_spec (Z.to_nat j) (Z.to_nat i)); [lia|].
        reflexivity.
Qed.

Lemma length_Float32Array (n : Z) : 0 <= n -> length (Float32Array n) = n.
Proof.
  intros H. unfold length, Float32Array. rewrite repeat_length. lia.
Qed.

Lemma get_Float32Array (n i : Z) : 0 <= i < n -> get (Float32Array n) i = zero.
Proof.
  intros H. unfold get, Float32Array.
  destruct (Z.ltb_spec i 0); [lia|].
  apply nth_repeat_lt. lia.
Qed.

End ArrayFacts.

(** ** Rounding in binary64

    Facts about [SpecFloat]'s rounding that the proofs below need: exact
    results stay exact, and rounding never goes below truncation. *)

Module Rounding.

(** The number of binary digits. *)
Lemma digits2_pos_size (p : positive) : digits2_pos p = Pos.size p.
Proof. induction p; cbn; congruence. Qed.

Lemma digits_bounds (p : positive) :
  2 ^ (Zpos (digits2_pos p) - 1) <= Zpos p < 2 ^ Zpos (digits2_pos p).
Proof.
  rewrite digits2_pos_size.
  pose proof (Pos.size_le p) as Hle. pose proof (Pos.size_gt p) as Hgt.
  assert (H2 : Zpos (2 ^ Pos.size p) = 2 ^ Zpos (Pos.size p)).
  { now rewrite Pos2Z.inj_pow. }
  assert (Hs : 2 ^ Zpos (Pos.size p) = 2 * 2 ^ (Zpos (Pos.size p) - 1)).
  { rewrite <- Z.pow_succ_r by lia. f_equal. lia. }
  lia.
Qed.

Lemma digits_unique (p : positive) (d : Z) :
  2 ^ (d - 1) <= Zpos p < 2 ^ d -> Zpos (digits2_pos p) = d.
Proof.
  intros [Hlo Hhi]. pose proof (digits_bounds p) as [Hlo' Hhi'].
  assert (0 < d).
  { destruct (Z.lt_ge_cases 0 d); [assumption|].
    assert (2 ^ d <= 2 ^ 0) by (destruct (Z.eq_dec d 0); [subst; lia|rewrite Z.pow_neg_r; lia]).
    change (2 ^ 0) with 1 in *. lia. }
  set (d' := Zpos (digits2_pos p)) in *.
  destruct (Z.lt_trichotomy d' d) as [Hlt | [Heq | Hgt]]; [|assumption|].
  - assert (2 ^ d' <= 2 ^ (d - 1)) by (apply Z.pow_le_mono_r; lia). lia.
  - assert (2 ^ d <= 2 ^ (d' - 1)) by (apply Z.pow_le_mono_r; lia). lia.
Qed.

(** [iter_pos] as an iteration over [nat]. *)
Lemma iter_pos_nat {A : Type} (f : A -> A) (p : positive) (x : A) :
  iter_pos f p x = Nat.iter (Pos.to_nat p) f x.
Proof.
  revert x. induction p as [p IH | p IH |]; intros x; cbn [iter_pos].
  - rewrite !IH, Pos2Nat.inj_xI.
    replace (S (2 * Pos.to_nat p)) with (Pos.to_nat p + S (Pos.to_nat p))%nat by lia.
    rewrite Nat.iter_add, Nat.iter_succ_r. reflexivity.
  - rewrite !IH, Pos2Nat.inj_xO.
    replace (2 * Pos.to_nat p)%nat with (Pos.to_nat p + Pos.to_nat p)%nat by lia.
    rewrite Nat.iter_add. reflexivity.
  - reflexivity.
Qed.

Lemma shr_1_nonneg (m : Z) (r s : bool) :
  0 <= m ->
  shr_1 (Build_shr_record m r s) = Build_shr_record (m / 2) (Z.odd m) (r || s).
Proof.
  intros H. rewrite <- Z.div2_div.
  destruct m as [|[p|p|]|]; cbn; try reflexivity. lia.
Qed.

(** The mantissa after [n] right shifts. *)
Lemma shr_m_iter (n : nat) (m : Z) (r s : bool) :
  0 <= m ->
  shr_m (Nat.iter n shr_1 (Build_shr_record m r s)) = m / 2 ^ Z.of_nat n.
Proof.
  intros Hm. revert m r s Hm. induction n as [|n IH]; intros m r s Hm.
  - cbn. now rewrite Z.div_1_r.
  - rewrite Nat.iter_succ_r, shr_1_nonneg by assumption.
    rewrite IH by (apply Z.div_pos; lia).
    rewrite Z.div_div by lia.
    rewrite Nat2Z.inj_succ, Z.pow_succ_r by lia. reflexivity.
Qed.

(** Shifting out [n] zero bits loses nothing. *)
Lemma shr_iter_exact (n : nat) (m : Z) :
  0 <= m ->
  Nat.iter n shr_1 (Build_shr_record (m * 2 ^ Z.of_nat n) false false)
  = Build_shr_record m false false.
Proof.
  intros Hm. induction n as [|n IH].
  - cbn. now rewrite Z.mul_1_r.
  - rewrite Nat.iter_succ_r, shr_1_nonneg by (apply Z.mul_nonneg_nonneg; lia).
    rewrite Nat2Z.inj_succ, Z.pow_succ_r by lia.
    replace (m * (2 * 2 ^ Z.of_nat n)) with ((m * 2 ^ Z.of_nat n) * 2) by ring.
    rewrite Z.div_mul by lia.
    rewrite Z.odd_mul. cbn [Z.odd]. rewrite andb_false_r. exact IH.
Qed.

Lemma fexp_eq (x : Z) : fexp prec emax x = Z.max (x - 53) (-1074).
Proof. reflexivity. Qed.

(** Rounding a canonical mantissa changes nothing. *)
Lemma round_canonical (s : bool) (m : positive) (e : Z) :
  valid_binary (S754_finite s m e) = true ->
  binary_round_aux prec emax s (Zpos m) e loc_Exact = S754_finite s m e.
Proof.
  unfold valid_binary, bounded, canonical_mantissa.
  intros H. apply andb_true_iff in H. destruct H as [Hc He].
  apply Z.eqb_eq in Hc.
  unfold binary_round_aux, shr_fexp. cbn [Zdigits2].
  rewrite Hc, Z.sub_diag. cbn [shr shr_record_of_loc shr_m loc_of_shr_record round_nearest_even Zdigits2].
  rewrite Hc, Z.sub_diag. cbn [shr shr_m]. now rewrite He.
Qed.

(** Rounding an integer whose low [k] bits are zero and whose other 53
    bits are a normal mantissa: the shift is exact. *)
Lemma round_exact (s : bool) (m P : positive) (e k : Z) :
  Zpos (digits2_pos m) = 53 ->
  0 <= k -> Zpos P = Zpos m * 2 ^ k ->
  -1074 <= e + k <= 971 ->
  binary_round_aux prec emax s (Zpos P) e loc_Exact = S754_finite s m (e + k).
Proof.
  intros Hd Hk HP He.
  destruct (Z.eq_dec k 0) as [->|Hk0].
  { rewrite Z.pow_0_r, Z.mul_1_r in HP. injection HP as ->.
    rewrite Z.add_0_r in *. apply round_canonical.
    unfold valid_binary, bounded, canonical_mantissa.
    rewrite Hd, fexp_eq. apply andb_true_iff. split.
    - apply Z.eqb_eq. lia.
    - apply Z.leb_le. change (emax - prec) with 971. lia. }
  assert (HdP : Zpos (digits2_pos P) = 53 + k).
  { apply digits_unique. pose proof (digits_bounds m) as Hb. rewrite Hd in Hb.
    rewrite HP. replace (53 + k - 1) with (52 + k) by lia.
    rewrite !Z.pow_add_r by lia. change (53 - 1) with 52 in Hb. nia. }
  unfold binary_round_aux, shr_fexp. cbn [Zdigits2].
  rewrite HdP, fexp_eq.
  replace (Z.max (53 + k + e - 53) (-1074) - e) with k by lia.
  destruct k as [|kp|kp]; try lia.
  assert (Hit : iter_pos shr_1 kp (Build_shr_record (Zpos P) false false)
                = Build_shr_record (Zpos m) false false).
  { rewrite iter_pos_nat, HP.
    replace (Z.pos kp) with (Z.of_nat (Pos.to_nat kp)) by lia.
    apply shr_iter_exact. lia. }
  cbn [shr shr_record_of_loc]. rewrite Hit.
  cbn [shr_m loc_of_shr_record round_nearest_even Zdigits2].
  rewrite Hd, fexp_eq.
  replace (Z.max (53 + (e + Z.pos kp) - 53) (-1074) - (e + Z.pos kp)) with 0 by lia.
  cbn [shr shr_m].
  change (emax - prec) with 971.
  destruct (Z.leb_spec (e + Z.pos kp) 971); [reflexivity|lia].
Qed.

Lemma iter_xO (p q : positive) : Zpos (Pos.iter xO p q) = Zpos p * 2 ^ Zpos q.
Proof.
  change (Pos.iter xO p q) with (shift_pos q p).
  rewrite shift_pos_correct. rewrite Zpower_pos_nat, Zpower_nat_Z.
  rewrite positive_nat_Z. ring.
Qed.

Lemma shl_align_value (m : positive) (e ez : Z) :
  ez <= e -> Zpos (fst (shl_align m e ez)) = Zpos m * 2 ^ (e - ez)
             /\ snd (shl_align m e ez) = ez.
Proof.
  intros H. unfold shl_align.
  destruct (ez - e) as [|d|d] eqn:Hd; try lia; cbn [fst snd].
  - replace (e - ez) with 0 by lia. rewrite Z.pow_0_r. lia.
  - rewrite iter_xO. replace (e - ez) with (Zpos d) by lia. lia.
Qed.

Lemma normal_valid (x : spec_float) (m : positive) (e : Z) :
  normal x m e -> valid_binary x = true.
Proof.
  intros (-> & Hd & He). unfold valid_binary, bounded, canonical_mantissa.
  rewrite Hd, fexp_eq. apply andb_true_iff. split.
  - apply Z.eqb_eq. lia.
  - apply Z.leb_le. change (emax - prec) with 971. lia.
Qed.

(** Normalizing [n * 2^k] at exponent [-k] gives the 53-bit mantissa of
    [n]. *)
Lemma normalize_scaled (n k : Z) :
  0 < n < 2 ^ 53 -> 0 <= k ->
  exists m e, normal (binary_normalize prec emax (n * 2 ^ k) (- k) false) m e
              /\ -52 <= e <= 0 /\ Zpos m = n * 2 ^ (- e).
Proof.
  intros Hn Hk.
  destruct n as [|p|p]; try lia.
  assert (Hpk : 0 < 2 ^ k) by (apply Z.pow_pos_nonneg; lia).
  destruct (Z.pos p * 2 ^ k) as [|P|P] eqn:HP; try nia.
  set (d := Zpos (digits2_pos p)).
  pose proof (digits_bounds p) as Hb. fold d in Hb.
  assert (Hd : 1 <= d <= 53).
  { split; [unfold d; lia|].
    destruct (Z.le_gt_cases d 53); [assumption|].
    assert (2 ^ 53 <= 2 ^ (d - 1)) by (apply Z.pow_le_mono_r; lia). lia. }
  assert (HdP : Zpos (digits2_pos P) = d + k).
  { apply digits_unique. rewrite <- HP.
    replace (d + k - 1) with ((d - 1) + k) by lia.
    rewrite !Z.pow_add_r by lia. nia. }
  assert (Hs : 2 ^ 53 = 2 ^ d * 2 ^ (53 - d)).
  { rewrite <- Z.pow_add_r by lia. f_equal. lia. }
  assert (Hs' : 2 ^ 52 = 2 ^ (d - 1) * 2 ^ (53 - d)).
  { rewrite <- Z.pow_add_r by lia. f_equal. lia. }
  assert (Hp53 : 0 < 2 ^ (53 - d)) by (apply Z.pow_pos_nonneg; lia).
  cbn [binary_normalize]. unfold binary_round.
  rewrite HdP, fexp_eq.
  replace (Z.max (d + k + - k - 53) (-1074)) with (d - 53) by lia.
  destruct (Z.le_gt_cases (d - 53) (- k)) as [Hle|Hgt].
  - (* the mantissa is shifted left *)
    destruct (shl_align_value P (- k) (d - 53) Hle) as [Hv He].
    destruct (shl_align P (- k) (d - 53)) as [mz ez]. cbn [fst snd] in *. subst ez.
    assert (Hmz : Zpos mz = Zpos p * 2 ^ (53 - d)).
    { rewrite Hv, <- HP. replace (53 - d) with (k + (- k - (d - 53))) by lia.
      rewrite Z.pow_add_r by lia. ring. }
    assert (Hdz : Zpos (digits2_pos mz) = 53).
    { apply digits_unique. rewrite Hmz. change (53 - 1) with 52. nia. }
    exists mz, (d - 53). split; [|split; [lia|]].
    + split; [|split; [assumption|lia]].
      apply round_canonical.
      apply (normal_valid _ mz (d - 53)). repeat split; try assumption; lia.
    + rewrite Hmz. f_equal. f_equal. lia.
  - (* the low bits are shifted out *)
    unfold shl_align.
    destruct (d - 53 - - k) as [|q|q] eqn:Hq; try lia.
    destruct (Z.pos p * 2 ^ (53 - d)) as [|m|m] eqn:Hm; try nia.
    assert (Hdm : Zpos (digits2_pos m) = 53).
    { apply digits_unique. rewrite <- Hm. change (53 - 1) with 52. nia. }
    exists m, (d - 53). split; [|split; [lia|]].
    + split; [|split; [assumption|lia]].
      replace (d - 53) with (- k + Zpos q) by lia.
      apply round_exact; try assumption; try lia.
      rewrite <- Hm, <- HP. replace k with ((53 - d) + Zpos q) at 1 by lia.
      rewrite Z.pow_add_r by lia. ring.
    + rewrite <- Hm. f_equal. f_equal. lia.
Qed.

Lemma canon_normal (n : Z) :
  0 < n < 2 ^ 53 ->
  exists m e, normal (canon n) m e /\ -52 <= e <= 0 /\ Zpos m = n * 2 ^ (- e).
Proof.
  intros Hn. unfold canon.
  destruct (normalize_scaled n 0 Hn (Z.le_refl 0)) as (m & e & H).
  rewrite Z.pow_0_r, Z.mul_1_r in H. exists m, e. exact H.
Qed.

(** Exact division: when the quotient of two normal numbers is a normal
    number, [SFdiv] returns it. *)
Lemma SFdiv_exact (s1 s2 : bool) (m1 m2 mq : positive) (e1 e2 eq : Z) :
  Zpos (digits2_pos m1) = 53 -> Zpos (digits2_pos m2) = 53 ->
  Zpos (digits2_pos mq) = 53 ->
  0 <= e1 - e2 - eq ->
  Zpos m1 * 2 ^ (e1 - e2 - eq) = Zpos mq * Zpos m2 ->
  -1074 <= eq <= 971 -> -1021 <= e1 - e2 ->
  SFdiv prec emax (S754_finite s1 m1 e1) (S754_finite s2 m2 e2)
  = S754_finite (xorb s1 s2) mq eq.
Proof.
  intros H1 H2 Hq Hj Heq Hrange Hlow.
  set (j := e1 - e2 - eq) in *.
  pose proof (digits_bounds m1) as B1. pose proof (digits_bounds m2) as B2.
  pose proof (digits_bounds mq) as Bq. rewrite H1 in B1. rewrite H2 in B2.
  rewrite Hq in Bq. change (53 - 1) with 52 in *.
  assert (Hj53 : j <= 53).
  { destruct (Z.le_gt_cases j 53); [assumption|].
    assert (2 ^ 54 <= 2 ^ j) by (apply Z.pow_le_mono_r; lia).
    change (2 ^ 54) with (2 * 2 ^ 53) in *. nia. }
  unfold SFdiv, SFdiv_core_binary. cbn [Zdigits2]. rewrite H1, H2, fexp_eq.
  replace (Z.min (Z.max (53 + e1 - (53 + e2) - 53) (-1074)) (e1 - e2))
    with (e1 - e2 - 53) by lia.
  replace (e1 - e2 - (e1 - e2 - 53)) with 53 by lia.
  assert (Hdiv : Z.div_eucl (Z.shiftl (Zpos m1) 53) (Zpos m2)
                 = (Zpos mq * 2 ^ (53 - j), 0)).
  { rewrite Z.shiftl_mul_pow2 by lia.
    pose proof (Z_div_mod (Zpos m1 * 2 ^ 53) (Zpos m2) eq_refl) as Hdm.
    destruct (Z.div_eucl (Zpos m1 * 2 ^ 53) (Zpos m2)) as [q r].
    destruct Hdm as [Hdm Hr].
    assert (Hsplit : 2 ^ 53 = 2 ^ j * 2 ^ (53 - j)).
    { rewrite <- Z.pow_add_r by lia. f_equal. lia. }
    assert (Hval : Zpos m1 * 2 ^ 53 = Zpos m2 * (Zpos mq * 2 ^ (53 - j)) + 0).
    { rewrite Hsplit. rewrite Z.mul_assoc, Heq. ring. }
    rewrite Hval in Hdm.
    assert (Huniq := Z.div_mod_unique (Zpos m2) (Zpos mq * 2 ^ (53 - j)) q 0 r).
    destruct Huniq as [Hqq Hrr]; [left; lia|left; lia|exact Hdm|].
    now subst. }
  cbv zeta. rewrite Hdiv.
  assert (Hloc : new_location (Zpos m2) 0 = loc_Exact).
  { unfold new_location. destruct (Z.even (Zpos m2)); reflexivity. }
  rewrite Hloc.
  assert (Hpk : 0 < 2 ^ (53 - j)) by (apply Z.pow_pos_nonneg; lia).
  destruct (Zpos mq * 2 ^ (53 - j)) as [|P|P] eqn:HP; try nia.
  replace eq with ((e1 - e2 - 53) + (53 - j)) by (unfold j; lia).
  apply round_exact; try assumption; try lia.
Qed.

Lemma of_Z_canon (n : Z) : 0 <= n < 2 ^ 63 -> Prim2SF (JS.of_Z n) = canon n.
Proof.
  intros Hn. destruct n as [|p|p]; try lia; [reflexivity|].
  unfold JS.of_Z, canon. rewrite of_uint63_spec, Uint63.of_Z_spec.
  rewrite Z.mod_small; [reflexivity|].
  change wB with (2 ^ 63). lia.
Qed.

(** Division of integers held in numbers is exact when the quotient is an
    integer. *)
Lemma of_Z_div_exact (a b q : Z) :
  0 < b -> 0 < q -> a = q * b -> a < 2 ^ 53 ->
  (JS.of_Z a / JS.of_Z b)%float = JS.of_Z q.
Proof.
  intros Hb Hq Ha Hlt.
  assert (Hb53 : b < 2 ^ 53) by nia.
  assert (Hq53 : q < 2 ^ 53) by nia.
  apply Prim2SF_inj. rewrite div_spec, !of_Z_canon by lia.
  destruct (canon_normal a) as (ma & ea & (Ea & Da & Ra) & Ia & Va); [nia|].
  destruct (canon_normal b) as (mb & eb & (Eb & Db & Rb) & Ib & Vb); [lia|].
  destruct (canon_normal q) as (mq & eq & (Eq' & Dq & Rq) & Iq & Vq); [lia|].
  rewrite Ea, Eb, Eq'.
  pose proof (digits_bounds ma) as Ba. pose proof (digits_bounds mb) as Bb.
  pose proof (digits_bounds mq) as Bq. rewrite Da in Ba. rewrite Db in Bb.
  rewrite Dq in Bq. change (53 - 1) with 52 in *.
  (* both sides of the product, scaled to a common power of two *)
  assert (Hprod : Zpos mq * Zpos mb * 2 ^ (- ea) = Zpos ma * 2 ^ (- eq - eb)).
  { rewrite Va, Vb, Vq, Ha.
    replace (- eq - eb) with (- eq + - eb) by lia.
    rewrite Z.pow_add_r by lia. ring. }
  assert (Hj : 52 <= ea - eb - eq).
  { destruct (Z.le_gt_cases 52 (ea - eb - eq)); [assumption|].
    assert (H2 : 2 ^ (- eq - eb) * 2 ^ 53 <= 2 ^ (- ea) * 2 ^ 104).
    { rewrite <- !Z.pow_add_r by lia. apply Z.pow_le_mono_r; lia. }
    assert (0 < 2 ^ (- ea)) by (apply Z.pow_pos_nonneg; lia).
    assert (0 < 2 ^ (- eq - eb)) by (apply Z.pow_pos_nonneg; lia).
    change (2 ^ 104) with (2 ^ 52 * 2 ^ 52) in H2.
    assert (2 ^ 52 * 2 ^ 52 <= Zpos mq * Zpos mb) by nia.
    nia. }
  apply (SFdiv_exact false false); try assumption; try lia.
  assert (Hp : 0 < 2 ^ (- ea)) by (apply Z.pow_pos_nonneg; lia).
  apply (Z.mul_reg_r _ _ (2 ^ (- ea))); [lia|].
  rewrite Hprod.
  replace (- eq - eb) with ((ea - eb - eq) + - ea) by lia.
  rewrite Z.pow_add_r by lia. ring.
Qed.

(** Addition of non-negative integers held in numbers is exact below
    [2^53]. *)
Lemma of_Z_add_exact (a b : Z) :
  0 <= a -> 0 <= b -> a + b < 2 ^ 53 ->
  (JS.of_Z a + JS.of_Z b)%float = JS.of_Z (a + b).
Proof.
  intros Ha Hb Hlt.
  destruct (Z.eq_dec a 0) as [->|Ha0].
  { destruct b as [|p|p]; try lia; [reflexivity|].
    apply Prim2SF_inj. rewrite add_spec. cbn [Z.add].
    change (Prim2SF (JS.of_Z 0)) with (S754_zero false).
    rewrite of_Z_canon by lia.
    destruct (canon_normal (Zpos p)) as (m & e & (E & _) & _); [lia|].
    rewrite E. reflexivity. }
  destruct (Z.eq_dec b 0) as [->|Hb0].
  { rewrite Z.add_0_r. apply Prim2SF_inj. rewrite add_spec.
    change (Prim2SF (JS.of_Z 0)) with (S754_zero false).
    rewrite of_Z_canon by lia.
    destruct (canon_normal a) as (m & e & (E & _) & _); [lia|].
    rewrite E. reflexivity. }
  apply Prim2SF_inj. rewrite add_spec, !of_Z_canon by lia.
  destruct (canon_normal a) as (ma & ea & (Ea & Da & Ra) & Ia & Va); [lia|].
  destruct (canon_normal b) as (mb & eb & (Eb & Db & Rb) & Ib & Vb); [lia|].
  rewrite Ea, Eb. unfold SF64add, SFadd.
  set (ez := Z.min ea eb).
  destruct (shl_align_value ma ea ez) as [Hva _]; [unfold ez; lia|].
  destruct (shl_align_value mb eb ez) as [Hvb _]; [unfold ez; lia|].
  cbn [cond_Zopp]. rewrite Hva, Hvb, Va, Vb.
  replace (a * 2 ^ (- ea) * 2 ^ (ea - ez) + b * 2 ^ (- eb) * 2 ^ (eb - ez))
    with ((a + b) * 2 ^ (- ez)).
  2:{ assert (Pa : 2 ^ (- ez) = 2 ^ (- ea) * 2 ^ (ea - ez)).
      { rewrite <- Z.pow_add_r by (unfold ez; lia). f_equal. lia. }
      assert (Pb : 2 ^ (- ez) = 2 ^ (- eb) * 2 ^ (eb - ez)).
      { rewrite <- Z.pow_add_r by (unfold ez; lia). f_equal. lia. }
      transitivity (a * (2 ^ (- ea) * 2 ^ (ea - ez))
                    + b * (2 ^ (- eb) * 2 ^ (eb - ez))); [|ring].
      rewrite <- Pa, <- Pb. ring. }
  destruct (normalize_scaled (a + b) (- ez)) as (m & e & (E & D & R) & I & V);
    [lia|unfold ez; lia|].
  rewrite Z.opp_involutive in E. rewrite E.
  destruct (canon_normal (a + b)) as (m' & e' & (E' & D' & R') & I' & V'); [lia|].
  rewrite E'.
  (* the two normal forms of [a + b] coincide *)
  pose proof (digits_bounds m) as B. pose proof (digits_bounds m') as B'.
  rewrite D in B. rewrite D' in B'. change (53 - 1) with 52 in *.
  assert (e = e').
  { destruct (Z.lt_trichotomy e e') as [Hlt'|[Heq|Hgt]]; [|assumption|]; exfalso.
    - assert (2 * 2 ^ (- e') <= 2 ^ (- e)).
      { rewrite <- Z.pow_succ_r by lia. apply Z.pow_le_mono_r; lia. }
      assert (0 < 2 ^ (- e')) by (apply Z.pow_pos_nonneg; lia). nia.
    - assert (2 * 2 ^ (- e) <= 2 ^ (- e')).
      { rewrite <- Z.pow_succ_r by lia. apply Z.pow_le_mono_r; lia. }
      assert (0 < 2 ^ (- e)) by (apply Z.pow_pos_nonneg; lia). nia. }
  subst e'. assert (Zpos m = Zpos m') by lia.
  congruence.
Qed.

(** Dividing by one changes nothing. *)
Lemma SFdiv_one (x : spec_float) :
  valid_binary x = true ->
  SFdiv prec emax x (S754_finite false 4503599627370496 (-52)) = x.
Proof.
  destruct x as [s|s| |s m e]; intros Hv;
    try (cbn [SFdiv]; rewrite ?xorb_false_r; reflexivity).
  transitivity (S754_finite (xorb s false) m e); [|now rewrite xorb_false_r].
  pose proof Hv as Hv'.
  unfold valid_binary, bounded, canonical_mantissa in Hv.
  apply andb_true_iff in Hv. destruct Hv as [Hc He].
  apply Z.eqb_eq in Hc. apply Z.leb_le in He. rewrite fexp_eq in Hc.
  change (emax - prec) with 971 in He.
  set (d := Zpos (digits2_pos m)) in *.
  destruct (Z.eq_dec e (-1074)) as [->|Hne].
  - (* the lowest binade and the subnormal numbers *)
    unfold SFdiv, SFdiv_core_binary. cbn [Zdigits2]. fold d.
    change (Zpos (digits2_pos 4503599627370496)) with 53. rewrite fexp_eq.
    replace (Z.min (Z.max (d + -1074 - (53 + -52) - 53) (-1074)) (-1074 - -52))
      with (-1074) by lia.
    change (-1074 - -52 - -1074) with 52.
    assert (Hdiv : Z.div_eucl (Z.shiftl (Zpos m) 52) 4503599627370496
                   = (Zpos m, 0)).
    { rewrite Z.shiftl_mul_pow2 by lia. change (2 ^ 52) with 4503599627370496.
      pose proof (Z_div_mod (Zpos m * 4503599627370496) 4503599627370496 eq_refl) as Hdm.
      destruct (Z.div_eucl _ _) as [q r]. f_equal; lia. }
    cbv beta iota zeta. rewrite Hdiv.
    cbn [new_location Z.even new_location_even Z.eqb].
    apply round_canonical. exact Hv'.
  - assert (Hd : d = 53) by lia.
    apply SFdiv_exact; try assumption; try reflexivity; try lia.
    replace (e - -52 - e) with 52 by lia. reflexivity.
Qed.

Lemma div_one (x : float) : (x / 1)%float = x.
Proof.
  apply Prim2SF_inj. rewrite div_spec.
  change (Prim2SF 1) with (S754_finite false 4503599627370496 (-52)).
  apply SFdiv_one, Prim2SF_valid.
Qed.

(** *** Signs *)

Lemma round_sign (s : bool) (m e : Z) (l : location) :
  match binary_round_aux prec emax s m e l with
  | S754_zero s' | S754_infinity s' | S754_finite s' _ _ => s' = s
  | S754_nan => True
  end.
Proof.
  unfold binary_round_aux.
  destruct (shr_fexp prec emax m e l) as [mrs' e'].
  destruct (shr_fexp prec emax _ e' loc_Exact) as [mrs'' e''].
  destruct (shr_m mrs''); [reflexivity| |exact I].
  destruct (e'' <=? emax - prec); reflexivity.
Qed.

Lemma nonneg_round (m e : Z) (l : location) :
  nonneg (binary_round_aux prec emax false m e l).
Proof.
  pose proof (round_sign false m e l) as H. unfold nonneg.
  destruct (binary_round_aux prec emax false m e l); exact H.
Qed.

Lemma nonneg_normalize (n e : Z) :
  0 <= n -> nonneg (binary_normalize prec emax n e false).
Proof.
  intros Hn. destruct n as [|p|p]; try lia; cbn [binary_normalize].
  - reflexivity.
  - unfold binary_round. destruct (shl_align _ _ _). apply nonneg_round.
Qed.

Lemma nonneg_add (x y : spec_float) :
  nonneg x -> nonneg y -> nonneg (SF64add x y).
Proof.
  destruct x as [sx|sx| |sx mx ex], y as [sy|sy| |sy my ey]; cbn;
    intros Hx Hy; subst; try exact I; try reflexivity.
  apply nonneg_normalize. cbn [cond_Zopp]. lia.
Qed.

Lemma nonneg_square (x : spec_float) : nonneg (SF64mul x x).
Proof.
  destruct x as [s|s| |s m e]; cbn; try exact I; try apply xorb_nilpotent.
  rewrite xorb_nilpotent. apply nonneg_round.
Qed.

Lemma nonneg_mul (x y : spec_float) :
  nonneg x -> nonneg y -> nonneg (SF64mul x y).
Proof.
  destruct x as [sx|sx| |sx mx ex], y as [sy|sy| |sy my ey]; cbn;
    intros Hx Hy; subst; try exact I; try reflexivity.
  apply nonneg_round.
Qed.

Lemma nonneg_div (x y : spec_float) :
  nonneg x -> nonneg y -> nonneg (SF64div x y).
Proof.
  destruct x as [sx|sx| |sx mx ex], y as [sy|sy| |sy my ey]; cbn;
    intros Hx Hy; subst; try exact I; try reflexivity.
  destruct (SFdiv_core_binary _ _ _ _ _ _) as [[mz ez] lz].
  apply nonneg_round.
Qed.

Lemma nonneg_sqrt (x : spec_float) : nonneg x -> nonneg (SF64sqrt x).
Proof.
  destruct x as [s|s| |s m e]; cbn; intros Hx; subst; try exact I;
    try reflexivity.
  destruct (SFsqrt_core_binary _ _ _ _) as [[mz ez] lz].
  apply nonneg_round.
Qed.

Lemma nonneg_of_Z (n : Z) : 0 <= n -> nonneg (Prim2SF (JS.of_Z n)).
Proof.
  intros Hn. destruct n as [|p|p]; try lia; [reflexivity|].
  unfold JS.of_Z. rewrite of_uint63_spec.
  apply nonneg_normalize. apply Uint63.to_Z_bounded.
Qed.

(** [0 + x] is [x], unless [x] is [-0]. *)
Lemma zero_add (x : float) : nonneg (Prim2SF x) -> (0 + x)%float = x.
Proof.
  intros H. apply Prim2SF_inj. rewrite add_spec.
  change (Prim2SF 0) with (S754_zero false).
  destruct (Prim2SF x) as [s|s| |s m e]; cbn in *; subst; reflexivity.
Qed.

(** *** A lower bound on rounding *)

Lemma round_nearest_even_bounds (m : Z) (l : location) :
  m <= round_nearest_even m l <= m + 1.
Proof.
  destruct l as [|[| |]]; cbn; try lia. destruct (Z.even m); lia.
Qed.

(** Rounding an integer of more than 53 bits never goes below its
    truncation to 53 bits, and raises the exponent by one at most. *)
Lemma round_lower (P : positive) (e : Z) :
  53 < Zpos (digits2_pos P) ->
  -1074 <= e + (Zpos (digits2_pos P) - 53) ->
  match binary_round_aux prec emax false (Zpos P) e loc_Exact with
  | S754_finite s m2 e2 =>
      s = false /\
      e2 <= e + (Zpos (digits2_pos P) - 53) + 1 /\
      (e + (Zpos (digits2_pos P) - 53) < e2
       \/ (e2 = e + (Zpos (digits2_pos P) - 53)
           /\ Zpos P / 2 ^ (Zpos (digits2_pos P) - 53) <= Zpos m2))
  | S754_infinity s => s = false /\ 971 <= e + (Zpos (digits2_pos P) - 53)
  | _ => False
  end.
Proof.
  set (d := Zpos (digits2_pos P)). intros Hd He.
  pose proof (digits_bounds P) as HB. fold d in HB.
  unfold binary_round_aux, shr_fexp. cbn [Zdigits2]. fold d. rewrite fexp_eq.
  replace (Z.max (d + e - 53) (-1074) - e) with (d - 53) by lia.
  destruct (d - 53) as [|np|np] eqn:Hn; try lia.
  cbn [shr shr_record_of_loc].
  set (R := iter_pos shr_1 np (Build_shr_record (Zpos P) false false)).
  assert (Hpn : 0 < 2 ^ Zpos np) by (apply Z.pow_pos_nonneg; lia).
  assert (Hm' : shr_m R = Zpos P / 2 ^ Zpos np).
  { unfold R. rewrite iter_pos_nat, shr_m_iter by lia.
    now rewrite positive_nat_Z. }
  assert (Hlo : 2 ^ 52 <= shr_m R).
  { rewrite Hm'. apply Z.div_le_lower_bound; [lia|].
    rewrite <- Z.pow_add_r by lia.
    replace (Zpos np + 52) with (d - 1) by lia. lia. }
  assert (Hhi : shr_m R < 2 ^ 53).
  { rewrite Hm'. apply Z.div_lt_upper_bound; [lia|].
    rewrite <- Z.pow_add_r by lia.
    replace (Zpos np + 53) with d by lia. lia. }
  pose proof (round_nearest_even_bounds (shr_m R) (loc_of_shr_record R)) as Hr.
  destruct (round_nearest_even (shr_m R) (loc_of_shr_record R))
    as [|pm|pm] eqn:Hpm; try lia.
  destruct (Z.lt_ge_cases (Zpos pm) (2 ^ 53)) as [Hlt|Hge].
  - assert (Hdm : Zpos (digits2_pos pm) = 53).
    { apply digits_unique. change (53 - 1) with 52. lia. }
    cbn [Zdigits2]. rewrite Hdm, fexp_eq.
    replace (Z.max (53 + (e + Zpos np) - 53) (-1074) - (e + Zpos np)) with 0
      by lia.
    cbn [shr shr_m]. change (emax - prec) with 971.
    destruct (Z.leb_spec (e + Zpos np) 971).
    + split; [reflexivity|]. split; [lia|]. right. split; [reflexivity|]. lia.
    + split; [reflexivity|lia].
  - assert (Hpm53 : Zpos pm = 2 ^ 53) by lia.
    change (2 ^ 53) with 9007199254740992 in Hpm53. injection Hpm53 as ->.
    cbn [Zdigits2].
    change (Zpos (digits2_pos 9007199254740992)) with 54. rewrite fexp_eq.
    replace (Z.max (54 + (e + Zpos np) - 53) (-1074) - (e + Zpos np)) with 1
      by lia.
    cbn [shr iter_pos shr_1 shr_m]. change (emax - prec) with 971.
    destruct (Z.leb_spec (e + Zpos np + 1) 971).
    + split; [reflexivity|]. split; [lia|]. left. lia.
    + split; [reflexivity|lia].
Qed.

(** Multiplying a normal positive number by a number that is at least 1
    never gives less. *)
Lemma SFmul_ge (mx ms : positive) (ex es : Z) :
  Zpos (digits2_pos mx) = 53 -> Zpos (digits2_pos ms) = 53 ->
  -1074 <= ex -> -52 <= es ->
  SFltb (SF64mul (S754_finite false mx ex) (S754_finite false ms es))
        (S754_finite false mx ex) = false.
Proof.
  intros Hdx Hds Hex Hes.
  pose proof (digits_bounds mx) as Bx. pose proof (digits_bounds ms) as Bs.
  rewrite Hdx in Bx. rewrite Hds in Bs. change (53 - 1) with 52 in *.
  unfold SF64mul, SFmul. cbn [xorb].
  set (P := (mx * ms)%positive).
  assert (HP : Zpos P = Zpos mx * Zpos ms) by reflexivity.
  pose proof (digits_bounds P) as BP.
  set (d := Zpos (digits2_pos P)) in *.
  assert (Hd : 105 <= d <= 106).
  { assert (2 ^ 104 <= Zpos P) by (change (2 ^ 104) with (2 ^ 52 * 2 ^ 52); nia).
    assert (Zpos P < 2 ^ 106) by (change (2 ^ 106) with (2 ^ 53 * 2 ^ 53); nia).
    split.
    - destruct (Z.le_gt_cases 105 d); [assumption|].
      assert (2 ^ d <= 2 ^ 104) by (apply Z.pow_le_mono_r; lia). lia.
    - destruct (Z.le_gt_cases d 106); [assumption|].
      assert (2 ^ 106 <= 2 ^ (d - 1)) by (apply Z.pow_le_mono_r; lia). lia. }
  pose proof (round_lower P (ex + es)) as HR. fold d in HR.
  specialize (HR ltac:(lia) ltac:(lia)).
  destruct (binary_round_aux prec emax false (Zpos P) (ex + es) loc_Exact)
    as [s|s| |s m2 e2]; try contradiction.
  - destruct HR as [-> _]. reflexivity.
  - destruct HR as (-> & _ & HR). unfold SFltb, SFcompare.
    destruct (Z.compare_spec e2 ex) as [Heq|Hlt|Hgt]; try reflexivity.
    + (* same exponent: the shift was 52 and [s] has exponent -52 *)
      destruct HR as [HR|[He2 Hm2]]; [lia|].
      assert (Hd105 : d = 105) by lia.
      assert (Hes52 : es = -52) by lia.
      rewrite Hd105 in Hm2. change (105 - 53) with 52 in Hm2.
      assert (Zpos mx <= Zpos P / 2 ^ 52).
      { apply Z.div_le_lower_bound; [lia|]. rewrite HP. nia. }
      rewrite Pos.compare_cont_spec. cbn [Pos.switch_Eq].
      destruct (Pos.compare_spec m2 mx); try reflexivity. lia.
    + destruct HR as [HR|[He2 _]]; lia.
Qed.

Lemma Prim2SF_50 :
  Prim2SF 50 = S754_finite false 7036874417766400 (-47).
Proof. reflexivity. Qed.

Lemma Prim2SF_1 : Prim2SF 1 = S754_finite false 4503599627370496 (-52).
Proof. reflexivity. Qed.

Lemma valid_normal (s : bool) (m : positive) (e : Z) :
  valid_binary (S754_finite s m e) = true -> -1074 < e ->
  Zpos (digits2_pos m) = 53.
Proof.
  unfold valid_binary, bounded, canonical_mantissa. intros H He.
  apply andb_true_iff in H. destruct H as [Hc _].
  apply Z.eqb_eq in Hc. rewrite fexp_eq in Hc. lia.
Qed.

(** [x * s >= x] for [x > 50] and [s >= 1]: the comparison
    [x > x * s] is false. *)
Lemma mul_ge_self (x s : float) :
  (50 <? x)%float = true -> (1 <=? s)%float = true ->
  (x * s <? x)%float = false.
Proof.
  rewrite !ltb_spec, leb_spec, mul_spec, Prim2SF_50, Prim2SF_1.
  pose proof (Prim2SF_valid x) as Vx. pose proof (Prim2SF_valid s) as Vs.
  destruct (Prim2SF x) as [sx|[|]| |[|] mx ex]; try discriminate;
    destruct (Prim2SF s) as [ss|[|]| |[|] ms es]; try discriminate;
    try reflexivity.
  intros Hx Hs.
  assert (Hex : -47 <= ex).
  { unfold SFltb, SFcompare in Hx.
    destruct (Z.compare_spec (-47) ex); try discriminate; lia. }
  assert (Hes : -52 <= es).
  { unfold SFleb, SFcompare in Hs.
    destruct (Z.compare_spec (-52) es); try discriminate; lia. }
  apply SFmul_ge; try lia.
  - apply (valid_normal false mx ex Vx). lia.
  - destruct (Z.eq_dec es (-52)) as [->|Hne].
    + unfold SFleb, SFcompare in Hs. cbn [Z.compare] in Hs.
      rewrite Pos.compare_cont_spec in Hs. cbn [Pos.switch_Eq] in Hs.
      pose proof (digits_bounds ms) as B.
      unfold valid_binary, bounded, canonical_mantissa in Vs.
      apply andb_true_iff in Vs. destruct Vs as [Hc _].
      apply Z.eqb_eq in Hc. rewrite fexp_eq in Hc.
      apply digits_unique. change (53 - 1) with 52.
      destruct (Pos.compare_spec 4503599627370496 ms) as [E|L|G];
        try discriminate.
      * subst ms. cbn. lia.
      * split; [change (2 ^ 52) with 4503599627370496; lia|].
        assert (Zpos (digits2_pos ms) <= 53) by lia.
        assert (2 ^ Zpos (digits2_pos ms) <= 2 ^ 53)
          by (apply Z.pow_le_mono_r; lia).
        lia.
    + apply (valid_normal false ms es Vs). lia.
Qed.

End Rounding.


(** ** Special values of binary64 arithmetic *)

Module FloatFacts.

Local Open Scope float_scope.

Lemma sub_zeroish (x y : float) : zeroish x -> zeroish y -> zeroish (x - y).
Proof.
  intros [-> | ->] [-> | ->]; [left | left | right | left]; reflexivity.
Qed.

Lemma square_zeroish (x : float) : zeroish x -> x * x = zero.
Proof. intros [-> | ->]; reflexivity. Qed.

(** [0 * (x / 0)] is [NaN] whatever [x] is. *)
Lemma zero_mul_div_zero (x : float) : zero * (x / zero) = nan.
Proof.
  apply Prim2SF_inj. rewrite mul_spec, div_spec.
  change (Prim2SF zero) with (S754_zero false).
  destruct (Prim2SF x) as [s | s | | s m e]; reflexivity.
Qed.

Lemma ltb_nan_l (x : float) : (nan <? x) = false.
Proof. rewrite ltb_spec. reflexivity. Qed.

Lemma ltb_nan_r (x : float) : (x <? nan) = false.
Proof.
  rewrite ltb_spec. change (Prim2SF nan) with S754_nan.
  unfold SFltb, SFcompare. destruct (Prim2SF x); reflexivity.
Qed.

End FloatFacts.

(** ** [detectPitchYIN] on silence *)

Module YinSilence.

Import Loops ArrayFacts FloatFacts.
Local Open Scope float_scope.

Lemma get_silence (signs : list bool) (i : Z) :
  (0 <= i < length (silence signs))%Z -> zeroish (get (silence signs) i).
Proof.
  unfold get, silence, length. rewrite length_map. intros H.
  destruct (Z.ltb_spec i 0); [lia|].
  assert (Hn : (Z.to_nat i < List.length signs)%nat) by lia.
  clear H. revert Hn. generalize (Z.to_nat i) as n.
  induction signs as [|s signs IH]; intros [|n] Hn; cbn in *; try lia.
  - destruct s; [right|left]; reflexivity.
  - apply IH. lia.
Qed.

Lemma difference_step_zero (signs : list bool) (k tau i : Z) (a : list float) :
  (0 <= tau < k)%Z -> (0 <= i < k)%Z ->
  (2 * k <= length (silence signs))%Z ->
  all_zero k a -> all_zero k (difference_step (silence signs) tau a i).
Proof.
  intros Ht Hi Hk [Hlen Hz]. unfold difference_step. split.
  - now rewrite length_set.
  - intros j Hj. rewrite get_set, Hlen.
    destruct ((j =? tau)%Z && (0 <=? tau)%Z && (tau <? k)%Z)%bool; [|auto].
    rewrite (Hz tau Ht).
    rewrite square_zeroish
      by (apply sub_zeroish; apply get_silence; lia).
    reflexivity.
Qed.

Lemma difference_row_zero (signs : list bool) (k tau : Z) (a : list float) :
  (0 <= tau < k)%Z -> (2 * k <= length (silence signs))%Z ->
  all_zero k a -> all_zero k (difference_row (silence signs) a tau).
Proof.
  intros Ht Hk [Hlen Hz]. unfold difference_row. rewrite Hlen.
  apply (fold_range_inv (fun _ a' => all_zero k a')); [lia| |].
  - split; [now rewrite length_set|].
    intros j Hj. rewrite get_set.
    destruct ((j =? tau)%Z && _ && _)%bool; [reflexivity|auto].
  - intros i a' Hi Ha'. now apply difference_step_zero.
Qed.

Lemma difference_zero (signs : list bool) (k : Z) (a : list float) :
  (0 <= k)%Z -> (2 * k <= length (silence signs))%Z ->
  all_zero k a -> all_zero k (difference (silence signs) a).
Proof.
  intros H0 Hk Ha. unfold difference. rewrite (proj1 Ha).
  apply (fold_range_inv (fun _ a' => all_zero k a')); [lia|exact Ha|].
  intros i a' Hi Ha'. now apply difference_row_zero.
Qed.

Lemma normalize_step_zero (k t : Z) (st : list float * float) :
  (1 <= t < k)%Z ->
  normalized_upto k t st -> normalized_upto k (t + 1) (normalize_step st t).
Proof.
  intros Ht. destruct st as [a rs]. cbn [fst snd].
  intros (Hrs & Hlen & Hz & Hn). cbn [fst snd] in *. subst rs.
  unfold normalize_step. cbv beta iota zeta. rewrite (Hz t) by lia.
  change (zero + zero) with zero. unfold normalized_upto. cbn [fst snd].
  repeat split.
  - now rewrite length_set.
  - intros j Hj. rewrite get_set.
    destruct (Z.eqb_spec j t); [lia|]. apply Hz. lia.
  - intros j Hj. rewrite get_set, Hlen.
    destruct (Z.eqb_spec j t) as [->|Hne].
    + destruct (Z.leb_spec 0 t); [|lia].
      destruct (Z.ltb_spec t k); [|lia]. cbn [andb].
      rewrite zero_mul_div_zero. reflexivity.
    + apply Hn. lia.
Qed.

Lemma normalize_zero (k : Z) (a : list float) (j : Z) :
  all_zero k a -> (2 <= j < k)%Z -> get (normalize a) j = nan.
Proof.
  intros [Hlen Hz] Hj. unfold normalize. rewrite Hlen.
  assert (H : normalized_upto k k
                (fold_left normalize_step (range 1 k) (set a 0 1, zero))).
  { apply (fold_range_inv (normalized_upto k)); [lia| |].
    - unfold normalized_upto. cbn [fst snd]. repeat split.
      + now rewrite length_set.
      + intros i Hi. rewrite get_set.
        destruct (Z.eqb_spec i 0); [lia|]. apply Hz. lia.
      + intros i Hi. lia.
    - intros i st Hi. now apply normalize_step_zero. }
  destruct H as (_ & _ & _ & Hn). apply Hn. lia.
Qed.

Lemma length_normalize (a : list float) : length (normalize a) = length a.
Proof.
  unfold normalize.
  destruct (Z.le_gt_cases 1 (length a)) as [H|H].
  - apply (fold_range_inv (fun _ st => length (fst st) = length a)); [exact H| |].
    + cbn [fst]. apply length_set.
    + intros i [b rs] _ Hb. cbn [fst] in *.
      unfold normalize_step. cbv beta iota zeta. cbn [fst].
      now rewrite length_set.
  - rewrite range_nil by lia. cbn [fold_left fst]. apply length_set.
Qed.

Lemma yin_silence (signs : list bool) (sampleRate threshold : float) :
  detectPitchYIN (silence signs) sampleRate threshold = None.
Proof.
  unfold detectPitchYIN, tauEstimate.
  set (k := (length (silence signs) / 2)%Z).
  assert (Hk0 : (0 <= k)%Z).
  { unfold k, length. apply Z.div_pos; lia. }
  assert (Hk2 : (2 * k <= length (silence signs))%Z).
  { unfold k. apply Z.mul_div_le. lia. }
  assert (Hz : all_zero k (difference (silence signs) (Float32Array k))).
  { apply difference_zero; [exact Hk0|exact Hk2|].
    split; [now apply length_Float32Array|].
    intros j Hj. now apply get_Float32Array. }
  unfold yin. fold k.
  rewrite find_none; [reflexivity|].
  intros tau Htau. apply In_range in Htau.
  rewrite length_normalize, (proj1 Hz) in Htau.
  rewrite (normalize_zero k) by (exact Hz || lia).
  apply ltb_nan_l.
Qed.

(** C1.  For every buffer length, [detectPitchYIN] applied to an all-zero
    sample buffer (zeros of either sign), with any sample rate and any
    threshold, returns the absent result [None]: never a number, so in
    particular never 0 Hz and never NaN. *)
Theorem detectPitchYIN_silence :
  forall (signs : list bool) (sampleRate threshold : float),
    detectPitchYIN (silence signs) sampleRate threshold = None.
Proof. exact yin_silence. Qed.

End YinSilence.

(** ** [detectBeat] and [resetBeatDetection] *)

Module Beat.

Import Loops Rounding FloatFacts.
Local Open Scope float_scope.

(** *** The bounded history *)

Lemma length_app1 (h : list float) (e : float) :
  length (h ++ [e]) = (length h + 1)%Z.
Proof. unfold length. rewrite length_app. cbn. lia. Qed.

Lemma length_tl (h : list float) :
  length (tl h) = Z.max 0 (length h - 1)%Z.
Proof. unfold length. destruct h; cbn [tl List.length]; lia. Qed.

(** The push keeps the bound, and says what is evicted. *)
Lemma push_energy_spec (h : list float) (e : float) :
  (length h <= HISTORY_SIZE)%Z ->
  (length (push_energy h e) <= HISTORY_SIZE)%Z
  /\ push_energy h e
     = (if (length h <? HISTORY_SIZE)%Z then h ++ [e] else tl h ++ [e])%list.
Proof.
  intros Hh. unfold push_energy. rewrite length_app1.
  assert (H0 : (0 <= length h)%Z) by (unfold length; lia).
  destruct (Z.ltb_spec HISTORY_SIZE (length h + 1)) as [Hgt|Hle];
    destruct (Z.ltb_spec (length h) HISTORY_SIZE) as [Hlt|Hge]; try lia.
  - split.
    + rewrite length_tl, length_app1. lia.
    + destruct h as [|x t]; [unfold length, HISTORY_SIZE in *; cbn in *; lia|].
      reflexivity.
  - split; [rewrite length_app1; lia|reflexivity].
Qed.

Lemma run_call_bounded (h : list float) (c : call) :
  (length h <= HISTORY_SIZE)%Z -> (length (run_call h c) <= HISTORY_SIZE)%Z.
Proof.
  intros Hh. destruct c as [frequencyData sensitivity|]; cbn.
  - now apply push_energy_spec.
  - unfold HISTORY_SIZE. lia.
Qed.

Lemma fold_run_bounded (calls : list call) (h : list float) :
  (length h <= HISTORY_SIZE)%Z ->
  (length (fold_left run_call calls h) <= HISTORY_SIZE)%Z.
Proof.
  revert h. induction calls as [|c calls IH]; intros h Hh; cbn [fold_left].
  - exact Hh.
  - apply IH. now apply run_call_bounded.
Qed.

(** C5.  After every sequence of [detectBeat] and [resetBeatDetection]
    calls the history holds at most 43 samples; in such a state a
    [detectBeat] call appends its energy, evicting the oldest sample when
    the history is full, and a reset empties the history. *)
Theorem history_bounded :
  forall (calls : list call),
    let h := run calls in
    (length h <= 43)%Z
    /\ (forall frequencyData sensitivity,
           snd (detectBeat h frequencyData sensitivity)
           = (if (length h <? 43)%Z
              then h ++ [bassEnergy frequencyData]
              else tl h ++ [bassEnergy frequencyData])%list)
    /\ resetBeatDetection h = [].
Proof.
  intros calls h.
  assert (Hh : (length h <= HISTORY_SIZE)%Z).
  { unfold h, run. apply fold_run_bounded. unfold length, HISTORY_SIZE. cbn. lia. }
  split; [exact Hh|]. split; [|reflexivity].
  intros frequencyData sensitivity. cbn [detectBeat snd].
  apply push_energy_spec. exact Hh.
Qed.

(** *** An empty spectrum *)

Lemma bassEnergy_empty : bassEnergy [] = nan.
Proof. reflexivity. Qed.

(** C7 (what the code does).  Given a zero-length spectrum, [detectBeat]
    returns, and reports no beat, but the energy it reports and pushes
    into the history is [NaN] (the mean of zero bins, [0 / 0]), not 0. *)
Theorem detectBeat_empty_spectrum :
  forall (energyHistory : list float) (sensitivity : float),
    let '(info, h) := detectBeat energyHistory [] sensitivity in
    energy info = nan
    /\ isBeat info = false
    /\ h = push_energy energyHistory nan.
Proof.
  intros energyHistory sensitivity. unfold detectBeat.
  rewrite bassEnergy_empty. cbn [energy isBeat].
  split; [reflexivity|]. split; [|reflexivity].
  rewrite !ltb_nan_r. reflexivity.
Qed.

(** The [NaN] stays in the history: the next frame, however loud, has a
    [NaN] average and is not a beat. *)
Lemma detectBeat_after_empty_spectrum :
  fst (detectBeat (snd (detectBeat [] [] default_sensitivity))
                  (bass_only 200) default_sensitivity)
  = {| isBeat := false; energy := 200; averageEnergy := nan |}.
Proof. reflexivity. Qed.

(** *** The energy is never negative *)

Lemma nonneg_floor (x : float) :
  nonneg (Prim2SF x) -> nonneg (Prim2SF (JS.Math_floor x)).
Proof.
  intros H. unfold JS.Math_floor.
  destruct (Prim2SF x) as [s|s| |s m e] eqn:E; try (rewrite E; exact H).
  destruct (0 <=? e)%Z; [rewrite E; exact H|].
  cbn in H. subst s. cbn [JS.mant cond_Zopp].
  destruct (Z.eqb_spec (Z.shiftr (Zpos m) (- e)) 0); [reflexivity|].
  apply nonneg_of_Z. apply Z.shiftr_nonneg. lia.
Qed.

Lemma nonneg_bassRange (frequencyData : list Z) :
  nonneg (Prim2SF (bassRange frequencyData)).
Proof.
  unfold bassRange. apply nonneg_floor. rewrite mul_spec.
  apply nonneg_mul; [|reflexivity].
  apply nonneg_of_Z. unfold length. lia.
Qed.

Lemma nonneg_sum_squares (frequencyData : list Z) (l : list Z) (acc : float) :
  nonneg (Prim2SF acc) ->
  nonneg (Prim2SF (fold_left
                     (fun energy i =>
                        energy + byte_at frequencyData i * byte_at frequencyData i)
                     l acc)).
Proof.
  revert acc. induction l as [|i l IH]; intros acc Hacc; cbn [fold_left].
  - exact Hacc.
  - apply IH. rewrite add_spec, mul_spec.
    apply nonneg_add; [exact Hacc|apply nonneg_square].
Qed.

Lemma nonneg_bassEnergy (frequencyData : list Z) :
  nonneg (Prim2SF (bassEnergy frequencyData)).
Proof.
  unfold bassEnergy. rewrite sqrt_spec, div_spec.
  apply nonneg_sqrt, nonneg_div.
  - apply nonneg_sum_squares. reflexivity.
  - apply nonneg_bassRange.
Qed.

(** C8.  [resetBeatDetection] empties the history, and the very next
    [detectBeat] call reports an average equal to its own energy (the same
    binary64 value), leaving a history of length exactly 1. *)
Theorem reset_then_detectBeat :
  forall (energyHistory : list float) (frequencyData : list Z)
         (sensitivity : float),
    resetBeatDetection energyHistory = []
    /\ let '(info, h) :=
         detectBeat (resetBeatDetection energyHistory) frequencyData sensitivity
       in averageEnergy info = energy info
          /\ h = [energy info]
          /\ length h = 1%Z.
Proof.
  intros energyHistory frequencyData sensitivity.
  split; [reflexivity|].
  unfold detectBeat, resetBeatDetection, push_energy.
  cbn [app length List.length Z.of_nat HISTORY_SIZE Z.ltb Z.compare
       averageEnergy energy].
  split; [|split; reflexivity].
  unfold average. cbn [fold_left List.length].
  change (JS.of_Z (length [bassEnergy frequencyData])) with 1.
  rewrite div_one. apply zero_add, nonneg_bassEnergy.
Qed.

(** *** The beat test *)

(** The history primed with ten samples at baseline 20 is the state after
    ten frames whose bass energy is 20. *)
Lemma primed_history :
  run (repeat (DetectBeat (bass_only 20) default_sensitivity) 10)
  = repeat 20 10.
Proof. reflexivity. Qed.

(** What the push leaves, for every history: the energy at the end, and
    the oldest sample dropped from a history of 43 or more. *)
Lemma push_energy_value (h : list float) (e : float) :
  push_energy h e
  = (if (length h <? 43)%Z then h ++ [e] else tl h ++ [e])%list.
Proof.
  unfold push_energy. rewrite length_app1. unfold HISTORY_SIZE.
  destruct (Z.ltb_spec 43 (length h + 1)) as [Hgt|Hle];
    destruct (Z.ltb_spec (length h) 43) as [Hlt|Hge]; try lia;
    [|reflexivity].
  destruct h as [|x t]; [unfold length in Hge; cbn in Hge; lia|reflexivity].
Qed.

(** At a sensitivity of at least 1, a frame whose energy equals the
    average is not a beat. *)
Lemma no_beat_at_average (energyHistory : list float) (frequencyData : list Z)
      (sensitivity : float) :
  (1 <=? sensitivity) = true ->
  let info := fst (detectBeat energyHistory frequencyData sensitivity) in
  averageEnergy info = energy info -> isBeat info = false.
Proof.
  intros Hs. cbn [detectBeat fst averageEnergy energy isBeat].
  intros Havg. rewrite Havg.
  destruct (50 <? bassEnergy frequencyData) eqn:H50.
  - rewrite mul_ge_self by assumption. reflexivity.
  - apply andb_false_r.
Qed.

(** Below 1 the relative test no longer excludes such a frame: at
    sensitivity 0.5 a frame of energy 100 on an empty history is a beat. *)
Lemma beat_at_average_low_sensitivity :
  fst (detectBeat [] (bass_only 100) 0.5)
  = {| isBeat := true; energy := 100; averageEnergy := 100 |}.
Proof. reflexivity. Qed.

(** C4.  On every call [detectBeat] leaves the history with the bass
    energy [e] of the frame appended (and the oldest sample dropped from
    a full history), reports as [averageEnergy] the mean of that new
    history, the frame's own energy included, and reports
    [isBeat = (e > averageEnergy * sensitivity && e > 50)].  After ten
    samples at 20, a frame of energy 80 has the average [280 / 11] and is
    a beat at sensitivity 1.3, and a frame of energy 55 is not a beat at
    sensitivity 2.5 (it is above 2.5 times the ten old samples' mean, but
    not above 2.5 times the mean that includes it).  At every
    sensitivity of at least 1, so at 1.3, a frame whose energy equals
    the average is not a beat. *)
Theorem detectBeat_spec :
  (forall (energyHistory : list float) (frequencyData : list Z)
          (sensitivity : float),
      let e := bassEnergy frequencyData in
      let pushed :=
        (if (length energyHistory <? 43)%Z
         then energyHistory ++ [e] else tl energyHistory ++ [e])%list in
      let mean :=
        fold_left (fun a b => a + b) pushed 0 / JS.of_Z (length pushed) in
      detectBeat energyHistory frequencyData sensitivity
      = ({| isBeat := (mean * sensitivity <? e) && (50 <? e);
            energy := e;
            averageEnergy := mean |},
         pushed)
      /\ ((length energyHistory < 43)%Z ->
          mean
          = (fold_left (fun a b => a + b) energyHistory 0 + e)
            / JS.of_Z (length energyHistory + 1)))
  /\ (forall (frequencyData : list Z),
         bassEnergy frequencyData = 80 ->
         fst (detectBeat (repeat 20 10) frequencyData default_sensitivity)
         = {| isBeat := true; energy := 80; averageEnergy := 280 / 11 |})
  /\ (forall (frequencyData : list Z),
         bassEnergy frequencyData = 55 ->
         (20 * 2.5 <? 55) = true
         /\ fst (detectBeat (repeat 20 10) frequencyData 2.5)
            = {| isBeat := false; energy := 55; averageEnergy := 255 / 11 |})
  /\ (forall (energyHistory : list float) (frequencyData : list Z)
             (sensitivity : float),
         (1 <=? sensitivity) = true ->
         let info :=
           fst (detectBeat energyHistory frequencyData sensitivity) in
         averageEnergy info = energy info -> isBeat info = false).
Proof.
  split; [|split; [|split]].
  - intros energyHistory frequencyData sensitivity e pushed mean.
    assert (Hp : push_energy energyHistory e = pushed)
      by apply push_energy_value.
    split.
    + unfold detectBeat. fold e. rewrite Hp. reflexivity.
    + intros Hlt. unfold mean, pushed.
      apply Z.ltb_lt in Hlt. rewrite Hlt.
      rewrite fold_left_app, length_app1. reflexivity.
  - intros frequencyData H80. unfold detectBeat. rewrite H80. reflexivity.
  - intros frequencyData H55. split; [reflexivity|].
    unfold detectBeat. rewrite H55. reflexivity.
  - intros energyHistory frequencyData sensitivity.
    apply no_beat_at_average.
Qed.

(** The scenarios on concrete spectra: ten bins whose first bin (the bass
    range) holds 80, then 55, after ten frames at 20; and a frame at 20
    after the same ten frames, whose energy equals the average. *)
Lemma detectBeat_spec_witness :
  run (repeat (DetectBeat (bass_only 20) default_sensitivity) 10)
  = repeat 20 10
  /\ fst (detectBeat (repeat 20 10) (bass_only 80) default_sensitivity)
     = {| isBeat := true; energy := 80; averageEnergy := 280 / 11 |}
  /\ fst (detectBeat (repeat 20 10) (bass_only 55) 2.5)
     = {| isBeat := false; energy := 55; averageEnergy := 255 / 11 |}
  /\ (1 <=? default_sensitivity) = true
  /\ averageEnergy (fst (detectBeat (repeat 20 10) (bass_only 20)
                                    default_sensitivity))
     = energy (fst (detectBeat (repeat 20 10) (bass_only 20)
                               default_sensitivity))
  /\ isBeat (fst (detectBeat (repeat 20 10) (bass_only 20)
                             default_sensitivity)) = false.
Proof.
  destruct detectBeat_spec as (_ & Hbeat & Hnot & Hflat).
  split; [reflexivity|]. split; [apply Hbeat; reflexivity|].
  split; [apply (Hnot (bass_only 55)); reflexivity|]. split; [reflexivity|].
  split; [reflexivity|].
  apply (Hflat (repeat 20 10) (bass_only 20) default_sensitivity);
    reflexivity.
Defined.

End Beat.

(** ** Scans of the spectrum *)

Module Scan.

Import Loops Rounding FloatFacts.
Local Open Scope float_scope.

(** *** The loop combinator *)

Lemma for_each_value {S : Type} (body : S -> Z -> Reads S) (l : list Z) (s : S) :
  fst (for_each body l s) = fold_left (fun s' i => fst (body s' i)) l s.
Proof.
  revert s. induction l as [|i l IH]; intros s; [reflexivity|].
  cbn [for_each fold_left]. unfold bind.
  destruct (body s i) as [s' r] eqn:E. cbn [fst].
  specialize (IH s'). destruct (for_each body l s') as [s'' r'].
  cbn [fst] in *. exact IH.
Qed.

Lemma for_each_reads {S : Type} (Q : Z -> Prop) (body : S -> Z -> Reads S)
      (l : list Z) (s : S) :
  (forall s' i, In i l -> Forall Q (snd (body s' i))) ->
  Forall Q (snd (for_each body l s)).
Proof.
  revert s. induction l as [|i l IH]; intros s H; [constructor|].
  cbn [for_each]. unfold bind.
  pose proof (H s i (or_introl eq_refl)) as Hi.
  destruct (body s i) as [s' r]. cbn [snd] in Hi.
  assert (Ht : Forall Q (snd (for_each body l s'))).
  { apply IH. intros s'' j Hj. apply H. right. exact Hj. }
  destruct (for_each body l s') as [s'' r']. cbn [snd] in *.
  apply Forall_app. split; assumption.
Qed.

Lemma In_take_while {A : Type} (p : A -> bool) (l : list A) (x : A) :
  In x (take_while p l) -> In x l.
Proof.
  induction l as [|a l IH]; cbn; [tauto|].
  destruct (p a); cbn; [|tauto]. intros [->|H]; auto.
Qed.

Lemma length_take_while {A : Type} (p : A -> bool) (l : list A) :
  (List.length (take_while p l) <= List.length l)%nat.
Proof.
  induction l as [|a l IH]; cbn; [lia|]. destruct (p a); cbn; lia.
Qed.

(** *** Integer values of numbers *)

Lemma valid_digits (s : bool) (m : positive) (e : Z) :
  valid_binary (S754_finite s m e) = true ->
  (Zpos (digits2_pos m) <= 53 /\ -1074 <= e)%Z.
Proof.
  unfold valid_binary, bounded, canonical_mantissa. intros H.
  apply andb_true_iff in H. destruct H as [Hc _].
  apply Z.eqb_eq in Hc. rewrite fexp_eq in Hc. lia.
Qed.

Lemma mant_false (m : positive) : JS.mant false m = Zpos m.
Proof. reflexivity. Qed.

(** The integer value of a number that is not negative is not negative. *)
Lemma to_int_nonneg (x : float) (z : Z) :
  nonneg (Prim2SF x) -> JS.to_int x = JS.IInt z -> (0 <= z)%Z.
Proof.
  unfold JS.to_int.
  destruct (Prim2SF x) as [s|s| |s m e]; cbn [nonneg]; intros Hs H;
    try discriminate.
  - injection H as <-. lia.
  - subst s. rewrite mant_false in H.
    destruct (0 <=? e)%Z eqn:He.
    + assert (z = Zpos m * 2 ^ e)%Z by congruence. subst z.
      apply Z.mul_nonneg_nonneg; [lia|apply Z.pow_nonneg; lia].
    + assert (z = Z.quot (Zpos m) (2 ^ (- e)))%Z by congruence. subst z.
      apply Z.leb_gt in He.
      apply Z.quot_pos; [lia|apply Z.pow_pos_nonneg; lia].
Qed.

Lemma to_int_of_Z (n : Z) :
  (0 < n < 2 ^ 53)%Z -> JS.to_int (JS.of_Z n) = JS.IInt n.
Proof.
  intros Hn. unfold JS.to_int. rewrite of_Z_canon by lia.
  destruct (canon_normal n Hn) as (m & e & (E & D & R) & I & V).
  rewrite E, mant_false.
  destruct (Z.leb_spec 0 e).
  - assert (e = 0%Z) by lia. subst e.
    rewrite Z.pow_0_r, Z.mul_1_r in *. now rewrite V.
  - rewrite V. f_equal. apply Z.quot_mul.
    apply Z.pow_nonzero; lia.
Qed.

(** *** [Math.round] of a number that is not negative *)

Lemma round_half_up_bounds (m : positive) (e : Z) :
  (Zpos (digits2_pos m) <= 53)%Z -> (e < 0)%Z ->
  (0 <= JS.round_half_up false m e <= 2 ^ 52)%Z.
Proof.
  intros Hd He. unfold JS.round_half_up.
  change (JS.mant false m) with (Zpos m).
  rewrite Z.shiftr_div_pow2 by lia.
  pose proof (digits_bounds m) as B.
  assert (Hm : (Zpos m < 2 ^ 53)%Z).
  { assert (2 ^ Zpos (digits2_pos m) <= 2 ^ 53)%Z
      by (apply Z.pow_le_mono_r; lia). lia. }
  assert (Hp : (0 < 2 ^ (- e))%Z) by (apply Z.pow_pos_nonneg; lia).
  assert (Hp2 : (2 <= 2 ^ (- e))%Z).
  { change 2%Z with (2 ^ 1)%Z at 1. apply Z.pow_le_mono_r; lia. }
  replace (- e + 1)%Z with (Z.succ (- e)) by lia.
  rewrite Z.pow_succ_r by lia.
  split.
  - apply Z.div_pos; lia.
  - apply Z.div_le_upper_bound; [lia|].
    change (2 ^ 53)%Z with (2 * 2 ^ 52)%Z in Hm. nia.
Qed.

(** The shapes of [Math.round x] for [x] not negative. *)
Lemma Math_round_nonneg (x : float) :
  nonneg (Prim2SF x) ->
  let r := JS.Math_round x in
  Prim2SF r = S754_nan
  \/ Prim2SF r = S754_infinity false
  \/ r = zero
  \/ (exists m e, Prim2SF r = S754_finite false m e /\ (0 <= e)%Z)
  \/ (exists z, r = JS.of_Z z /\ (0 < z <= 2 ^ 52)%Z).
Proof.
  intros Hx. unfold JS.Math_round.
  pose proof (Prim2SF_valid x) as Hv.
  destruct (Prim2SF x) as [s|s| |s m e] eqn:E; cbn [nonneg] in Hx; subst.
  - right. right. left. apply Prim2SF_inj. rewrite E. reflexivity.
  - right. left. exact E.
  - left. exact E.
  - destruct (Z.leb_spec 0 e) as [He|He].
    + right. right. right. left. exists m, e. split; [exact E|exact He].
    + destruct (valid_digits _ _ _ Hv) as [Hd _].
      pose proof (round_half_up_bounds m e Hd He) as Hz.
      destruct (Z.eqb_spec (JS.round_half_up false m e) 0) as [Hz0|Hz0].
      * right. right. left. reflexivity.
      * right. right. right. right.
        exists (JS.round_half_up false m e). split; [reflexivity|lia].
Qed.

Lemma nonneg_Math_round (x : float) :
  nonneg (Prim2SF x) -> nonneg (Prim2SF (JS.Math_round x)).
Proof.
  intros Hx.
  destruct (Math_round_nonneg x Hx) as [H|[H|[H|[(m & e & H & _)|(z & H & Hz)]]]].
  - rewrite H. exact I.
  - rewrite H. reflexivity.
  - rewrite H. reflexivity.
  - rewrite H. reflexivity.
  - rewrite H. apply nonneg_of_Z. lia.
Qed.

(** A positive number has a non-negative sign. *)
Lemma positive_nonneg (x : float) : (0 <? x) = true -> nonneg (Prim2SF x).
Proof.
  rewrite ltb_spec. change (Prim2SF 0) with (S754_zero false).
  destruct (Prim2SF x) as [s|[|]| |[|] m e]; cbn; congruence.
Qed.

(** The bin of a frequency that is not negative, for a positive sample
    rate and transform size, is not negative. *)
Lemma nonneg_frequencyToBin (frequency sampleRate fftSize : float) :
  nonneg (Prim2SF frequency) ->
  (0 <? sampleRate) = true -> (0 <? fftSize) = true ->
  nonneg (Prim2SF (frequencyToBin frequency sampleRate fftSize)).
Proof.
  intros Hf Hs Hn. unfold frequencyToBin. apply nonneg_Math_round.
  rewrite div_spec, mul_spec.
  apply nonneg_div; [apply nonneg_mul|]; auto using positive_nonneg.
Qed.

(** *** [scan] *)

(** From a start that is not negative the loop is the plain one. *)
Lemma scan_nonneg (start stop : float) (len : Z) :
  nonneg (Prim2SF start) ->
  scan start stop len
  = JS.Returns
      match JS.to_int start with
      | JS.IInt z => take_while (fun i => JS.of_Z i <? stop) (range z len)
      | _ => []
      end.
Proof.
  intros Hs. unfold scan.
  destruct (JS.to_int start) as [|[|]|z] eqn:E; try reflexivity.
  - exfalso. unfold JS.to_int in E.
    destruct (Prim2SF start) as [s|s| |s m e]; cbn [nonneg] in Hs;
      try discriminate.
    + subst s. discriminate.
    + destruct (0 <=? e)%Z; discriminate.
  - pose proof (to_int_nonneg start z Hs E) as Hz.
    destruct (Z.leb_spec (- 2 ^ 53) z) as [Hle|Hgt]; [reflexivity|].
    exfalso. change (- 2 ^ 53)%Z with (-9007199254740992)%Z in Hgt. lia.
Qed.

Lemma scan_bounds (start stop : float) (len : Z) (idx : list Z) (i : Z) :
  nonneg (Prim2SF start) ->
  scan start stop len = JS.Returns idx -> In i idx ->
  exists z, JS.to_int start = JS.IInt z /\ (z <= i < len)%Z.
Proof.
  intros Hs. rewrite (scan_nonneg start stop len Hs).
  destruct (JS.to_int start) as [|[|]|z]; intros H Hi;
    injection H as <-; try contradiction.
  apply In_take_while, In_range in Hi.
  exists z. split; [reflexivity|exact Hi].
Qed.

Lemma scan_returns (start stop : float) (len : Z) :
  nonneg (Prim2SF start) -> exists idx, scan start stop len = JS.Returns idx.
Proof.
  intros Hs. rewrite (scan_nonneg start stop len Hs). eexists; reflexivity.
Qed.

Lemma length_scan (start stop : float) (len : Z) (idx : list Z) :
  nonneg (Prim2SF start) -> (0 <= len)%Z ->
  scan start stop len = JS.Returns idx -> (length idx <= len)%Z.
Proof.
  intros Hs Hlen. rewrite (scan_nonneg start stop len Hs).
  destruct (JS.to_int start) as [|[|]|z] eqn:E; intros H;
    injection H as <-; try exact Hlen.
  pose proof (to_int_nonneg start z Hs E) as Hz. unfold length.
  pose proof (length_take_while (fun i => JS.of_Z i <? stop) (range z len)).
  unfold range in *. rewrite length_map, length_seq in *. lia.
Qed.

End Scan.

(** ** Every read of the spectrum is in bounds *)

Module Bounds.

Import Loops Rounding FloatFacts Scan.
Local Open Scope float_scope.

Lemma scan_safe (start stop : float) (len : Z) :
  startable start ->
  exists idx, scan start stop len = JS.Returns idx
              /\ forall i, In i idx -> (0 <= i < len)%Z.
Proof.
  intros [Hs| ->].
  - destruct (scan_returns start stop len Hs) as [idx Hidx].
    exists idx. split; [exact Hidx|]. intros i Hi.
    destruct (scan_bounds _ _ _ _ _ Hs Hidx Hi) as (z & Hz & Hb).
    pose proof (to_int_nonneg start z Hs Hz). lia.
  - eexists. split; [reflexivity|].
    intros i Hi. apply In_take_while, In_range in Hi. exact Hi.
Qed.

(** The quotient rounded by [frequencyToBin], for a frequency [>= 0] and
    a positive sample rate and transform size: not negative, or [-0]. *)
Lemma bin_quotient (frequency sampleRate fftSize : float) :
  (0 <=? frequency) = true ->
  (0 <? sampleRate) = true -> (0 <? fftSize) = true ->
  let v := frequency * fftSize / sampleRate in
  nonneg (Prim2SF v) \/ Prim2SF v = S754_zero true.
Proof.
  intros Hf Hs Hn v.
  destruct (Prim2SF frequency) as [[|]|s| |s m e] eqn:E.
  - (* [-0] *)
    unfold v. rewrite div_spec, mul_spec, E.
    rewrite ltb_spec in Hs, Hn. change (Prim2SF 0) with (S754_zero false) in *.
    destruct (Prim2SF fftSize) as [?|[|]| |[|] mn en]; try discriminate;
      destruct (Prim2SF sampleRate) as [?|[|]| |[|] ms es]; try discriminate;
      cbn; auto.
  - left. unfold v. rewrite div_spec, mul_spec.
    apply nonneg_div; [apply nonneg_mul|]; auto using positive_nonneg.
    rewrite E. reflexivity.
  - left. unfold v. rewrite div_spec, mul_spec.
    apply nonneg_div; [apply nonneg_mul|]; auto using positive_nonneg.
    rewrite E. rewrite leb_spec, E in Hf. destruct s; [discriminate|reflexivity].
  - rewrite leb_spec, E in Hf. discriminate.
  - left. unfold v. rewrite div_spec, mul_spec.
    apply nonneg_div; [apply nonneg_mul|]; auto using positive_nonneg.
    rewrite E. rewrite leb_spec, E in Hf. destruct s; [discriminate|reflexivity].
Qed.

Lemma frequencyToBin_shape (frequency sampleRate fftSize : float) :
  (0 <=? frequency) = true ->
  (0 <? sampleRate) = true -> (0 <? fftSize) = true ->
  let b := frequencyToBin frequency sampleRate fftSize in
  Prim2SF b = S754_nan
  \/ Prim2SF b = S754_infinity false
  \/ b = zero \/ b = neg_zero
  \/ (exists m e, Prim2SF b = S754_finite false m e /\ (0 <= e)%Z)
  \/ (exists z, b = JS.of_Z z /\ (0 < z <= 2 ^ 52)%Z).
Proof.
  intros Hf Hs Hn b.
  destruct (bin_quotient _ _ _ Hf Hs Hn) as [Hv|Hv].
  - destruct (Math_round_nonneg _ Hv) as [H|[H|[H|[H|H]]]]; auto 10.
  - right. right. right. left. unfold b, frequencyToBin, JS.Math_round.
    rewrite Hv. apply Prim2SF_inj. rewrite Hv. reflexivity.
Qed.

Lemma startable_frequencyToBin (frequency sampleRate fftSize : float) :
  (0 <=? frequency) = true ->
  (0 <? sampleRate) = true -> (0 <? fftSize) = true ->
  startable (frequencyToBin frequency sampleRate fftSize).
Proof.
  intros Hf Hs Hn.
  destruct (frequencyToBin_shape _ _ _ Hf Hs Hn)
    as [H|[H|[H|[H|[(m & e & H & _)|(z & H & Hz)]]]]].
  - left. rewrite H. exact I.
  - left. rewrite H. reflexivity.
  - left. rewrite H. reflexivity.
  - right. exact H.
  - left. rewrite H. reflexivity.
  - left. rewrite H. apply nonneg_of_Z. lia.
Qed.

(** *** The successor of a bin index *)

(** Adding 1 to a number of exponent [>= 0] gives an integer [>= 1], or
    overflows. *)
Lemma SFadd_one_large (m : positive) (e : Z) :
  valid_binary (S754_finite false m e) = true -> (0 <= e)%Z ->
  match SF64add (S754_finite false m e)
                (S754_finite false 4503599627370496 (-52)) with
  | S754_finite s m2 e2 => s = false /\ (0 <= e2)%Z
  | S754_infinity s => s = false
  | _ => False
  end.
Proof.
  intros Hv He.
  assert (Hd : Zpos (digits2_pos m) = 53%Z)
    by (apply (valid_normal false m e Hv); lia).
  pose proof (digits_bounds m) as B. rewrite Hd in B.
  change (53 - 1)%Z with 52%Z in B.
  unfold SF64add, SFadd. replace (Z.min e (-52)) with (-52)%Z by lia.
  destruct (shl_align_value m e (-52)) as [Hva _]; [lia|].
  destruct (shl_align_value 4503599627370496 (-52) (-52)) as [Hvb _]; [lia|].
  cbn [cond_Zopp]. rewrite Hva, Hvb.
  change (-52 - -52)%Z with 0%Z. rewrite Z.pow_0_r, Z.mul_1_r.
  assert (Hp : (1 <= 2 ^ (e - -52))%Z)
    by (apply Z.lt_pred_le, Z.pow_pos_nonneg; lia).
  destruct (Zpos m * 2 ^ (e - -52) + 4503599627370496)%Z as [|S|S] eqn:HS;
    try lia.
  cbn [binary_normalize]. unfold binary_round.
  pose proof (digits_bounds S) as BS.
  set (d := Zpos (digits2_pos S)) in *.
  assert (Hd105 : (105 <= d)%Z).
  { destruct (Z.le_gt_cases 105 d); [assumption|].
    assert (2 ^ d <= 2 ^ 104)%Z by (apply Z.pow_le_mono_r; lia).
    assert (2 ^ 104 <= Zpos S)%Z.
    { change (2 ^ 104)%Z with (2 ^ 52 * 2 ^ 52)%Z.
      change 4503599627370496%Z with (2 ^ 52)%Z in HS.
      assert (2 ^ 52 <= 2 ^ (e - -52))%Z by (apply Z.pow_le_mono_r; lia).
      nia. }
    lia. }
  rewrite fexp_eq.
  replace (Z.max (d + -52 - 53) (-1074)) with (d - 105)%Z by lia.
  unfold shl_align.
  destruct (d - 105 - -52)%Z as [|q|q] eqn:Hq; try lia.
  pose proof (round_lower S (-52)) as HR. fold d in HR.
  specialize (HR ltac:(lia) ltac:(lia)).
  destruct (binary_round_aux prec emax false (Zpos S) (-52) loc_Exact)
    as [s|s| |s m2 e2]; try contradiction; [exact (proj1 HR)|].
  destruct HR as (-> & _ & HR). split; [reflexivity|]. lia.
Qed.

(** The start [minBin + 1] of the peak scan is an integer [>= 1], or
    the scan is empty. *)
Lemma scan_succ (minBin stop : float) (len : Z) :
  startable minBin ->
  (Prim2SF minBin = S754_nan
   \/ Prim2SF minBin = S754_infinity false
   \/ minBin = zero \/ minBin = neg_zero
   \/ (exists m e, Prim2SF minBin = S754_finite false m e /\ (0 <= e)%Z)
   \/ (exists z, minBin = JS.of_Z z /\ (0 < z <= 2 ^ 52)%Z)) ->
  exists idx, scan (minBin + 1) stop len = JS.Returns idx
              /\ forall i, In i idx -> (1 <= i < len)%Z.
Proof.
  intros _ Hshape.
  assert (H : nonneg (Prim2SF (minBin + 1))
              /\ forall z, JS.to_int (minBin + 1) = JS.IInt z -> (1 <= z)%Z).
  { destruct Hshape as [H|[H|[H|[H|[(m & e & H & He)|(z & H & Hz)]]]]].
    - assert (E : Prim2SF (minBin + 1) = S754_nan).
      { rewrite add_spec, H. reflexivity. }
      unfold JS.to_int. rewrite E. split; [exact I|discriminate].
    - assert (E : Prim2SF (minBin + 1) = S754_infinity false).
      { rewrite add_spec, H. reflexivity. }
      unfold JS.to_int. rewrite E. split; [reflexivity|discriminate].
    - subst minBin. split; [reflexivity|].
      intros z Hz. cbv in Hz. injection Hz as <-. lia.
    - subst minBin. split; [reflexivity|].
      intros z Hz. cbv in Hz. injection Hz as <-. lia.
    - pose proof (Prim2SF_valid minBin) as Hv. rewrite H in Hv.
      pose proof (SFadd_one_large m e Hv He) as Hadd.
      unfold JS.to_int. rewrite add_spec, H, Prim2SF_1.
      destruct (SF64add _ _) as [s|s| |s m2 e2]; try contradiction.
      + subst s. split; [reflexivity|discriminate].
      + destruct Hadd as [-> He2]. split; [reflexivity|].
        destruct (Z.leb_spec 0 e2); [|lia].
        change (JS.mant false m2) with (Zpos m2).
        intros z Hz. assert (z = Zpos m2 * 2 ^ e2)%Z by congruence. subst z.
        assert (1 <= 2 ^ e2)%Z by (apply Z.lt_pred_le, Z.pow_pos_nonneg; lia).
        nia.
    - subst minBin. change 1 with (JS.of_Z 1).
      assert (Hlt : (z + 1 < 2 ^ 53)%Z).
      { change (2 ^ 53)%Z with (2 * 2 ^ 52)%Z.
        assert (0 < 2 ^ 52)%Z by (apply Z.pow_pos_nonneg; lia). lia. }
      rewrite of_Z_add_exact by lia.
      split; [apply nonneg_of_Z; lia|].
      intros z' Hz'. rewrite to_int_of_Z in Hz' by lia.
      injection Hz' as <-. lia. }
  destruct H as [Hn Hz].
  destruct (scan_returns (minBin + 1) stop len Hn) as [idx Hidx].
  exists idx. split; [exact Hidx|]. intros i Hi.
  destruct (scan_bounds _ _ _ _ _ Hn Hidx Hi) as (z & Hz' & Hb).
  specialize (Hz z Hz'). lia.
Qed.

(** *** The reads of the loop bodies *)

Lemma dominant_step_reads (Q : Z -> Prop) (frequencyData : list Z)
      (minBin : float) (st : float * float) (i : Z) :
  Q i -> Forall Q (snd (dominant_step frequencyData minBin st i)).
Proof.
  intros Hi. destruct st as [maxValue maxIndex].
  unfold dominant_step, bind, read, ret.
  destruct (maxValue <? byte_at frequencyData i); cbn; repeat constructor; assumption.
Qed.

Lemma peaks_step_reads (Q : Z -> Prop) (frequencyData : list Z)
      (sampleRate fftSize threshold : float) (peaks : list Peak) (i : Z) :
  Q i -> Q (i - 1)%Z -> Q (i + 1)%Z ->
  Forall Q (snd (peaks_step frequencyData sampleRate fftSize threshold peaks i)).
Proof.
  intros Hi Hp Hn. unfold peaks_step, bind, read, ret.
  destruct (byte_at frequencyData (i - 1) <? byte_at frequencyData i);
    [destruct (byte_at frequencyData (i + 1) <? byte_at frequencyData i);
     [destruct (threshold <? byte_at frequencyData i)|]|];
    cbn; repeat constructor; assumption.
Qed.

Lemma band_step_reads (Q : Z -> Prop) (frequencyData : list Z)
      (st : float * float) (i : Z) :
  Q i -> Forall Q (snd (band_step frequencyData st i)).
Proof.
  intros Hi. destruct st as [sum count].
  unfold band_step, bind, read, ret. cbn. repeat constructor. assumption.
Qed.

Lemma bind_ret_reads {A B : Type} (Q : Z -> Prop) (m : Reads A) (f : A -> B) :
  Forall Q (snd m) -> Forall Q (snd (bind m (fun a => ret (f a)))).
Proof.
  destruct m as [a r]. unfold bind, ret. cbn. now rewrite app_nil_r.
Qed.

(** *** The three scanning functions *)

Lemma getDominantFrequency_in_bounds
      (frequencyData : list Z) (sampleRate fftSize minFreq maxFreq : float) :
  (0 <=? minFreq) = true ->
  (0 <? sampleRate) = true -> (0 <? fftSize) = true ->
  exists v reads,
    getDominantFrequency_reads frequencyData sampleRate fftSize minFreq maxFreq
    = JS.Returns (v, reads)
    /\ in_bounds (length frequencyData) reads.
Proof.
  intros Hf Hs Hn. unfold getDominantFrequency_reads.
  destruct (scan_safe (frequencyToBin minFreq sampleRate fftSize)
                      (frequencyToBin maxFreq sampleRate fftSize)
                      (length frequencyData)) as (idx & Hidx & Hb).
  { now apply startable_frequencyToBin. }
  rewrite Hidx.
  set (m := for_each (dominant_step frequencyData _) idx (0, 0)).
  assert (Hm : in_bounds (length frequencyData) (snd m)).
  { apply for_each_reads. intros st i Hi.
    apply dominant_step_reads. apply Hb. exact Hi. }
  destruct m as [[maxValue maxIndex] r]. unfold bind. cbn [snd] in Hm.
  destruct (maxValue <? 100); unfold ret; eexists; eexists;
    (split; [reflexivity|]); rewrite app_nil_r; exact Hm.
Qed.

Lemma getFrequencyPeaks_in_bounds
      (frequencyData : list Z)
      (sampleRate fftSize numPeaks minFreq maxFreq threshold : float) :
  (0 <=? minFreq) = true ->
  (0 <? sampleRate) = true -> (0 <? fftSize) = true ->
  exists v reads,
    getFrequencyPeaks_reads frequencyData sampleRate fftSize numPeaks
                            minFreq maxFreq threshold
    = JS.Returns (v, reads)
    /\ in_bounds (length frequencyData) reads.
Proof.
  intros Hf Hs Hn. unfold getFrequencyPeaks_reads.
  destruct (scan_succ (frequencyToBin minFreq sampleRate fftSize)
                      (frequencyToBin maxFreq sampleRate fftSize - 1)
                      (length frequencyData - 1)) as (idx & Hidx & Hb).
  { now apply startable_frequencyToBin. }
  { now apply frequencyToBin_shape. }
  rewrite Hidx.
  set (m := for_each (peaks_step frequencyData sampleRate fftSize threshold)
                     idx []).
  assert (Hm : in_bounds (length frequencyData) (snd m)).
  { apply for_each_reads. intros st i Hi. specialize (Hb i Hi).
    apply peaks_step_reads; lia. }
  destruct m as [peaks r]. unfold bind, ret. cbn [snd] in Hm.
  eexists; eexists. split; [reflexivity|]. rewrite app_nil_r. exact Hm.
Qed.

Lemma band_sums_in_bounds (frequencyData : list Z) (sampleRate fftSize : float)
      (range_ : float * float) :
  (0 <=? fst range_) = true ->
  (0 <? sampleRate) = true -> (0 <? fftSize) = true ->
  exists m, band_sums frequencyData sampleRate fftSize range_ = JS.Returns m
            /\ in_bounds (length frequencyData) (snd m).
Proof.
  intros Hf Hs Hn. unfold band_sums, band_bins.
  destruct (scan_safe (frequencyToBin (fst range_) sampleRate fftSize)
                      (frequencyToBin (snd range_) sampleRate fftSize)
                      (length frequencyData)) as (idx & Hidx & Hb).
  { now apply startable_frequencyToBin. }
  rewrite Hidx. eexists. split; [reflexivity|].
  apply for_each_reads. intros st i Hi. apply band_step_reads, Hb, Hi.
Qed.

Lemma bands_loop_in_bounds (frequencyData : list Z) (sampleRate fftSize : float)
      (bs : list (string * (float * float))) (result : BandEnergy) :
  Forall (fun b => (0 <=? fst (snd b)) = true) bs ->
  (0 <? sampleRate) = true -> (0 <? fftSize) = true ->
  exists m, bands_loop frequencyData sampleRate fftSize bs result = JS.Returns m
            /\ in_bounds (length frequencyData) (snd m).
Proof.
  intros Hbs Hs Hn. revert result.
  induction Hbs as [|[bandName range_] bs Hb Hbs IH]; intros result.
  - eexists. split; [reflexivity|]. constructor.
  - cbn [bands_loop].
    destruct (band_sums_in_bounds frequencyData sampleRate fftSize range_
                                  Hb Hs Hn) as (m & Hm & Hr).
    rewrite Hm.
    destruct (IH (set_band result bandName (band_energy (fst m))))
      as (k & Hk & Hkr).
    rewrite Hk. eexists. split; [reflexivity|].
    destruct m as [st r], k as [res r']. unfold bind. cbn [snd] in *.
    apply Forall_app. split; assumption.
Qed.

(** C10.  For every spectrum, every [minFreq >= 0], every [maxFreq], and
    every positive sample rate and transform size, whether or not they
    agree with the length of the spectrum, [getDominantFrequency],
    [getFrequencyPeaks] and [calculateBandEnergies] return, and every index
    at which they read the spectrum lies in [0, length). *)
Theorem reads_in_bounds :
  forall (frequencyData : list Z)
         (sampleRate fftSize numPeaks minFreq maxFreq threshold : float),
    (0 <=? minFreq) = true ->
    (0 <? sampleRate) = true -> (0 <? fftSize) = true ->
    (exists v reads,
        getDominantFrequency_reads frequencyData sampleRate fftSize
                                   minFreq maxFreq
        = JS.Returns (v, reads)
        /\ in_bounds (length frequencyData) reads)
    /\ (exists v reads,
           getFrequencyPeaks_reads frequencyData sampleRate fftSize numPeaks
                                   minFreq maxFreq threshold
           = JS.Returns (v, reads)
           /\ in_bounds (length frequencyData) reads)
    /\ (exists v reads,
           calculateBandEnergies_reads frequencyData sampleRate fftSize
           = JS.Returns (v, reads)
           /\ in_bounds (length frequencyData) reads).
Proof.
  intros frequencyData sampleRate fftSize numPeaks minFreq maxFreq threshold
         Hf Hs Hn.
  split; [|split].
  - now apply getDominantFrequency_in_bounds.
  - now apply getFrequencyPeaks_in_bounds.
  - destruct (bands_loop_in_bounds frequencyData sampleRate fftSize bands
                (Build_BandEnergy 0 0 0 0 0 0 0)) as ([v reads] & Hm & Hr);
      try assumption.
    + unfold bands. repeat constructor.
    + exists v, reads. split; [exact Hm|exact Hr].
Qed.

(** An instance: eight bins scanned with the transform size 2048, whose
    bin range for [80, 4000) Hz runs from 4 to 186, far past the end. *)
Lemma reads_in_bounds_witness :
  (0 <=? 80) = true /\ (0 <? 44100) = true /\ (0 <? 2048) = true
  /\ (exists v reads,
         getDominantFrequency_reads [0; 1; 200; 3; 4; 5; 250; 7]%Z
                                    44100 2048 80 4000
         = JS.Returns (v, reads)
         /\ in_bounds 8 reads)
  /\ (exists v reads,
         getFrequencyPeaks_reads [0; 1; 200; 3; 4; 5; 250; 7]%Z
                                 44100 2048 5 80 4000 100
         = JS.Returns (v, reads)
         /\ in_bounds 8 reads)
  /\ (exists v reads,
         calculateBandEnergies_reads [0; 1; 200; 3; 4; 5; 250; 7]%Z 44100 2048
         = JS.Returns (v, reads)
         /\ in_bounds 8 reads).
Proof.
  split; [reflexivity|]. split; [reflexivity|]. split; [reflexivity|].
  apply (reads_in_bounds [0; 1; 200; 3; 4; 5; 250; 7]%Z 44100 2048 5 80 4000 100);
    reflexivity.
Defined.

End Bounds.

(** ** [calculateBandEnergies] *)

Module Bands.

Import Loops Rounding FloatFacts Scan Bounds.
Local Open Scope float_scope.

(** The function, band by band. *)
Lemma calculateBandEnergies_unfold (frequencyData : list Z)
      (sampleRate fftSize : float) :
  let v := band_value frequencyData sampleRate fftSize in
  calculateBandEnergies frequencyData sampleRate fftSize
  = match v (20, 60), v (60, 250), v (250, 500), v (500, 2000),
          v (2000, 4000), v (4000, 6000), v (6000, 20000) with
    | JS.Returns e1, JS.Returns e2, JS.Returns e3, JS.Returns e4,
      JS.Returns e5, JS.Returns e6, JS.Returns e7 =>
        JS.Returns (Build_BandEnergy e1 e2 e3 e4 e5 e6 e7)
    | _, _, _, _, _, _, _ => JS.Diverges
    end.
Proof.
  unfold calculateBandEnergies, calculateBandEnergies_reads, bands, band_value.
  cbn [bands_loop].
  destruct (band_sums _ _ _ (20, 60)) as [[st1 r1]|]; [|reflexivity].
  destruct (band_sums _ _ _ (60, 250)) as [[st2 r2]|]; [|reflexivity].
  destruct (band_sums _ _ _ (250, 500)) as [[st3 r3]|]; [|reflexivity].
  destruct (band_sums _ _ _ (500, 2000)) as [[st4 r4]|]; [|reflexivity].
  destruct (band_sums _ _ _ (2000, 4000)) as [[st5 r5]|]; [|reflexivity].
  destruct (band_sums _ _ _ (4000, 6000)) as [[st6 r6]|]; [|reflexivity].
  destruct (band_sums _ _ _ (6000, 20000)) as [[st7 r7]|]; reflexivity.
Qed.

(** A band with no contributing bin has energy 0. *)
Lemma band_value_no_bins (frequencyData : list Z) (sampleRate fftSize : float)
      (range_ : float * float) :
  band_bins frequencyData sampleRate fftSize range_ = JS.Returns [] ->
  band_value frequencyData sampleRate fftSize range_ = JS.Returns 0.
Proof.
  intros H. unfold band_value, band_sums. rewrite H. reflexivity.
Qed.

(** *** A uniform spectrum *)

Lemma byte_at_repeat (v : Z) (n : nat) (i : Z) :
  (0 <= i < Z.of_nat n)%Z -> byte_at (repeat v n) i = JS.of_Z v.
Proof.
  intros Hi. unfold byte_at. destruct (Z.ltb_spec i 0); [lia|].
  assert (Hn : nth_error (repeat v n) (Z.to_nat i) = Some v).
  { rewrite nth_error_repeat; [reflexivity|lia]. }
  rewrite Hn. reflexivity.
Qed.

Lemma ltb_zero_of_Z (n : Z) : (0 < n < 2 ^ 53)%Z -> (0 <? JS.of_Z n) = true.
Proof.
  intros Hn. rewrite ltb_spec, of_Z_canon by lia.
  destruct (canon_normal n Hn) as (m & e & (E & _) & _). rewrite E.
  reflexivity.
Qed.

(** The sum and the count after the bins of a list, from a sum [100 a]
    and a count [a]. *)
Lemma uniform_sums (n : nat) (idx : list Z) (a : Z) :
  (forall i, In i idx -> 0 <= i < Z.of_nat n)%Z ->
  (0 <= a)%Z -> (100 * (a + length idx) < 2 ^ 53)%Z ->
  fst (for_each (band_step (repeat 100%Z n)) idx
                (JS.of_Z (100 * a), JS.of_Z a))
  = (JS.of_Z (100 * (a + length idx)), JS.of_Z (a + length idx)).
Proof.
  revert a. induction idx as [|i idx IH]; intros a Hb Ha Hlt.
  - unfold length. cbn. now rewrite Z.add_0_r.
  - cbn [for_each]. unfold bind at 1.
    unfold band_step at 1, bind, read, ret.
    rewrite byte_at_repeat by (apply Hb; left; reflexivity).
    assert (Hl : length (i :: idx) = (length idx + 1)%Z)
      by (unfold length; cbn [List.length]; lia).
    rewrite Hl in *.
    assert (H0 : (0 <= length idx)%Z) by (unfold length; lia).
    change 1 with (JS.of_Z 1).
    rewrite !of_Z_add_exact by lia.
    replace (100 * a + 100)%Z with (100 * (a + 1))%Z by ring.
    specialize (IH (a + 1)%Z).
    destruct (for_each (band_step (repeat 100%Z n)) idx
                       (JS.of_Z (100 * (a + 1)), JS.of_Z (a + 1)))
      as [st r] eqn:E.
    cbn [fst] in *. rewrite IH; try lia.
    + f_equal; f_equal; lia.
    + intros j Hj. apply Hb. right. exact Hj.
Qed.

Lemma band_energy_uniform (k : Z) :
  (0 <= k)%Z -> (100 * k < 2 ^ 53)%Z ->
  band_energy (JS.of_Z (100 * k), JS.of_Z k)
  = if (k =? 0)%Z then 0 else 100.
Proof.
  intros Hk Hlt. unfold band_energy.
  destruct (Z.eqb_spec k 0) as [->|Hne]; [reflexivity|].
  rewrite ltb_zero_of_Z by lia.
  rewrite (of_Z_div_exact (100 * k) k 100) by lia.
  reflexivity.
Qed.

(** One band of a uniform spectrum. *)
Lemma band_value_uniform (n : nat) (sampleRate fftSize : float)
      (range_ : float * float) :
  (Z.of_nat n < 2 ^ 32)%Z ->
  (0 <=? fst range_) = true ->
  (0 <? sampleRate) = true -> (0 <? fftSize) = true ->
  exists bins,
    band_bins (repeat 100%Z n) sampleRate fftSize range_ = JS.Returns bins
    /\ band_value (repeat 100%Z n) sampleRate fftSize range_
       = JS.Returns (uniform_energy bins).
Proof.
  intros Hn Hf Hs Hfft. unfold band_value, band_sums.
  assert (Hst : startable (frequencyToBin (fst range_) sampleRate fftSize))
    by now apply startable_frequencyToBin.
  assert (Hlen : length (repeat 100%Z n) = Z.of_nat n)
    by (unfold length; now rewrite repeat_length).
  destruct (scan_safe (frequencyToBin (fst range_) sampleRate fftSize)
                      (frequencyToBin (snd range_) sampleRate fftSize)
                      (length (repeat 100%Z n)) Hst) as (bins & Hbins & Hb).
  unfold band_bins. cbv zeta. exists bins. rewrite Hbins.
  split; [reflexivity|].
  f_equal.
  assert (Hk : (length bins <= Z.of_nat n)%Z).
  { destruct Hst as [Hst|Hst].
    - rewrite <- Hlen. eapply length_scan; [exact Hst| |exact Hbins].
      unfold length. lia.
    - rewrite Hst in Hbins. cbv beta iota delta [scan] in Hbins.
      change (JS.to_int neg_zero) with (JS.IInt 0) in Hbins.
      cbn [Z.leb Z.compare Z.opp Z.pow Z.pow_pos Pos.iter Z.mul Pos.mul andb]
        in Hbins.
      injection Hbins as <-. unfold length at 1.
      pose proof (length_take_while
                    (fun i => JS.of_Z i <? frequencyToBin (snd range_) sampleRate fftSize)
                    (range 0 (length (repeat 100%Z n)))) as Hle.
      rewrite length_range, Hlen in Hle. rewrite Hlen. lia. }
  assert (H0 : (0 <= length bins)%Z) by (unfold length; lia).
  change (0, 0) with (JS.of_Z (100 * 0), JS.of_Z 0).
  rewrite (uniform_sums n bins 0); try lia.
  - rewrite Z.add_0_l, band_energy_uniform by lia.
    destruct bins; [reflexivity|].
    unfold length. cbn [List.length]. reflexivity.
  - intros i Hi. rewrite <- Hlen. apply Hb, Hi.
Qed.

(** C6.  For a spectrum of uniform magnitude 100, of any length, and a
    positive sample rate and transform size, every one of the seven bands
    has energy exactly 100 when at least one bin contributes to it and 0
    when none does; for every spectrum a band with no contributing bin
    has energy 0; and at 44100 Hz with 1024 bins (transform size 2048)
    all seven bands contribute and are 100. *)
Theorem uniform_band_energies :
  (forall (n : nat) (sampleRate fftSize : float),
      (Z.of_nat n < 2 ^ 32)%Z ->
      (0 <? sampleRate) = true -> (0 <? fftSize) = true ->
      exists result,
        calculateBandEnergies (repeat 100%Z n) sampleRate fftSize
        = JS.Returns result
        /\ Forall
             (fun b =>
                exists bins,
                  band_bins (repeat 100%Z n) sampleRate fftSize (snd b)
                  = JS.Returns bins
                  /\ get_band result (fst b) = Some (uniform_energy bins))
             bands)
  /\ (forall (frequencyData : list Z) (sampleRate fftSize : float)
             (result : BandEnergy),
         calculateBandEnergies frequencyData sampleRate fftSize
         = JS.Returns result ->
         Forall
           (fun b =>
              band_bins frequencyData sampleRate fftSize (snd b)
              = JS.Returns [] ->
              get_band result (fst b) = Some 0)
           bands)
  /\ calculateBandEnergies (repeat 100%Z 1024) 44100 2048
     = JS.Returns (Build_BandEnergy 100 100 100 100 100 100 100).
Proof.
  split; [|split].
  - intros n sampleRate fftSize Hn Hs Hfft.
    rewrite calculateBandEnergies_unfold. cbv zeta.
    destruct (band_value_uniform n sampleRate fftSize (20, 60) Hn eq_refl Hs Hfft)
      as (b1 & B1 & V1).
    destruct (band_value_uniform n sampleRate fftSize (60, 250) Hn eq_refl Hs Hfft)
      as (b2 & B2 & V2).
    destruct (band_value_uniform n sampleRate fftSize (250, 500) Hn eq_refl Hs Hfft)
      as (b3 & B3 & V3).
    destruct (band_value_uniform n sampleRate fftSize (500, 2000) Hn eq_refl Hs Hfft)
      as (b4 & B4 & V4).
    destruct (band_value_uniform n sampleRate fftSize (2000, 4000) Hn eq_refl Hs Hfft)
      as (b5 & B5 & V5).
    destruct (band_value_uniform n sampleRate fftSize (4000, 6000) Hn eq_refl Hs Hfft)
      as (b6 & B6 & V6).
    destruct (band_value_uniform n sampleRate fftSize (6000, 20000) Hn eq_refl Hs Hfft)
      as (b7 & B7 & V7).
    rewrite V1, V2, V3, V4, V5, V6, V7.
    eexists. split; [reflexivity|].
    unfold bands.
    repeat (apply Forall_cons; [eexists; split; [eassumption|reflexivity]|]).
    apply Forall_nil.
  - intros frequencyData sampleRate fftSize result.
    rewrite calculateBandEnergies_unfold. cbv zeta.
    destruct (band_value _ _ _ (20, 60)) as [e1|] eqn:V1; [|discriminate].
    destruct (band_value _ _ _ (60, 250)) as [e2|] eqn:V2; [|discriminate].
    destruct (band_value _ _ _ (250, 500)) as [e3|] eqn:V3; [|discriminate].
    destruct (band_value _ _ _ (500, 2000)) as [e4|] eqn:V4; [|discriminate].
    destruct (band_value _ _ _ (2000, 4000)) as [e5|] eqn:V5; [|discriminate].
    destruct (band_value _ _ _ (4000, 6000)) as [e6|] eqn:V6; [|discriminate].
    destruct (band_value _ _ _ (6000, 20000)) as [e7|] eqn:V7; [|discriminate].
    intros H. injection H as <-. unfold bands.
    repeat (apply Forall_cons;
            [cbn [fst snd]; intros Hb; apply band_value_no_bins in Hb;
             cbn [get_band String.eqb Ascii.eqb Bool.eqb subBass bass lowMid mid
                  highMid presence brilliance];
             congruence|]).
    apply Forall_nil.
  - vm_compute. reflexivity.
Qed.

(** Instances: sixteen bins at transform size 32, where the three lowest
    bands have no bin. *)
Lemma uniform_band_energies_witness :
  calculateBandEnergies (repeat 100%Z 16) 44100 32
  = JS.Returns (Build_BandEnergy 0 0 0 100 100 100 100)
  /\ exists result,
       calculateBandEnergies (repeat 100%Z 16) 44100 32 = JS.Returns result
       /\ Forall
            (fun b =>
               exists bins,
                 band_bins (repeat 100%Z 16) 44100 32 (snd b)
                 = JS.Returns bins
                 /\ get_band result (fst b) = Some (uniform_energy bins))
            bands.
Proof.
  split; [vm_compute; reflexivity|].
  apply (proj1 uniform_band_energies 16%nat 44100 32); reflexivity.
Defined.

End Bands.

(** ** What [detectPitchYIN] returns *)

Module YinResult.

Import Loops ArrayFacts FloatFacts.
Local Open Scope float_scope.

Lemma ltb_true_not_nan (a b : float) : (a <? b) = true -> a <> nan /\ b <> nan.
Proof.
  intros H. split; intros ->.
  - rewrite ltb_nan_l in H. discriminate.
  - rewrite ltb_nan_r in H. discriminate.
Qed.

(** The descent stays inside the buffer and ends on a value that is not
    [NaN]. *)
Lemma descend_spec (y : list float) (fuel : nat) (tau : Z) :
  (tau < length y)%Z -> get y tau <> nan ->
  let t := descend y fuel tau in
  (tau <= t < length y)%Z /\ get y t <> nan.
Proof.
  revert tau. induction fuel as [|fuel IH]; intros tau Ht Hn; cbn [descend].
  - split; [lia|exact Hn].
  - destruct (Z.ltb_spec (tau + 1) (length y)) as [Hlt|Hge]; cbn [andb].
    + destruct (get y (tau + 1) <? get y tau) eqn:Hd.
      * destruct (ltb_true_not_nan _ _ Hd) as [Hn1 _].
        destruct (IH (tau + 1)%Z Hlt Hn1) as [Hb Hnn].
        split; [lia|exact Hnn].
      * split; [lia|exact Hn].
    + split; [lia|exact Hn].
Qed.

(** The locked lag. *)
Lemma tauEstimate_spec (y : list float) (threshold : float) :
  tauEstimate y threshold = (-1)%Z
  \/ ((2 <= tauEstimate y threshold < length y)%Z
      /\ get y (tauEstimate y threshold) <> nan).
Proof.
  unfold tauEstimate.
  destruct (find _ (range 2 (length y))) as [tau0|] eqn:E; [right|left; reflexivity].
  apply find_some in E. destruct E as [Hin Hlt].
  apply In_range in Hin. destruct (ltb_true_not_nan _ _ Hlt) as [Hn _].
  destruct (descend_spec y (List.length y) tau0 (proj2 Hin) Hn) as [Hb Hnn].
  split; [lia|exact Hnn].
Qed.

(** The refined lag: at the last lag the integer lag itself or its
    predecessor, elsewhere the vertex of the parabola. *)
Lemma betterTau_spec (y : list float) (tau : Z) :
  (2 <= tau < length y)%Z ->
  ((tau + 1 = length y)%Z ->
   betterTau y tau = JS.of_Z tau \/ betterTau y tau = JS.of_Z (tau - 1))
  /\ ((tau + 1 < length y)%Z ->
      betterTau y tau
      = JS.of_Z tau
        + (get y (tau + 1) - get y (tau - 1))
          / (2 * (2 * get y tau - get y (tau + 1) - get y (tau - 1)))).
Proof.
  intros Ht. unfold betterTau.
  destruct (Z.ltb_spec tau 1); [lia|].
  destruct (Z.eqb_spec (tau - 1) tau); [lia|].
  split; intros Hcase.
  - destruct (Z.ltb_spec (tau + 1) (length y)); [lia|].
    rewrite Z.eqb_refl.
    destruct (get y tau <=? get y (tau - 1)); auto.
  - destruct (Z.ltb_spec (tau + 1) (length y)); [|lia].
    destruct (Z.eqb_spec (tau + 1) tau); [lia|]. reflexivity.
Qed.

(** *** The guards downstream *)

Lemma frequencyToNote_guard (Math_log2 : float -> float) (f : float) :
  (f <=? 0) = true \/ is_finite f = false ->
  frequencyToNote Math_log2 f = None.
Proof.
  intros [H|H]; unfold frequencyToNote; rewrite H; cbn;
    rewrite ?orb_true_r; reflexivity.
Qed.

Lemma not_nan_not_le_zero (r : float) :
  is_nan r = false -> (r <=? 0) = false -> (0 <? r) = true.
Proof.
  unfold is_nan. rewrite eqb_spec, leb_spec, ltb_spec.
  change (Prim2SF 0) with (S754_zero false).
  destruct (Prim2SF r) as [s|[|]| |[|] m e]; cbn; try congruence.
Qed.

(** A note is shown only for a finite, strictly positive pitch. *)
Lemma detectedNote_some (Math_log2 : float -> float) (r : float)
      (n : PitchResult) :
  detectedNote Math_log2 (Some r) = Some n ->
  is_finite r = true /\ (0 <? r) = true.
Proof.
  unfold detectedNote, truthy.
  destruct (is_nan r) eqn:Hn; cbn [orb negb]; [discriminate|].
  destruct (is_zero r) eqn:Hz; cbn [negb]; [discriminate|].
  unfold frequencyToNote.
  destruct (r <=? 0) eqn:Hle; cbn [orb]; [discriminate|].
  destruct (is_finite r) eqn:Hf; cbn [negb]; [|discriminate].
  intros _. split; [reflexivity|]. now apply not_nan_not_le_zero.
Qed.

(** Outside the normalized range of the samples the result can be [NaN]:
    with the default threshold and a sample rate of 44100, eight samples
    alternating between [2^100] and [-2^100] make [detectPitchYIN] return
    a number, and the number is [NaN].  The differences at odd lags
    overflow binary32, the normalized value at lag 1 is [NaN], and the
    parabola through lags 1, 2, 3 has no vertex. *)
Lemma detectPitchYIN_returns_nan :
  detectPitchYIN loud_square 44100 default_threshold = Some nan.
Proof. vm_compute. reflexivity. Qed.

(** The same with samples inside [-1, 1] and a threshold of 3: the first
    cell of the normalized difference that is defined, which is at least
    1, is then below the threshold, and the cell at the lag before it is
    [NaN]. *)
Lemma detectPitchYIN_returns_nan_in_range :
  detectPitchYIN late_step 44100 3 = Some nan.
Proof. vm_compute. reflexivity. Qed.

(** The shape of the result, for every window, sample rate and
    threshold.  Whenever [detectPitchYIN] returns a number, it is
    [sampleRate / betterTau] for a locked lag [tau] with
    [2 <= tau < floor(N/2)] whose normalized difference is not [NaN]; at
    the last lag [betterTau] is the integer [tau] or [tau - 1], elsewhere
    it is the vertex of the parabola through the two neighbours; and a note
    is derived from a returned number only when it is finite and strictly
    positive (a [NaN], zero, negative or infinite result is treated as
    "no pitch" by the caller's truthiness test and by [frequencyToNote]). *)
Theorem detectPitchYIN_result :
  (forall (buffer : list float) (sampleRate threshold r : float),
      detectPitchYIN buffer sampleRate threshold = Some r ->
      let y := yin buffer in
      exists tau,
        (2 <= tau < length y)%Z
        /\ get y tau <> nan
        /\ r = sampleRate / betterTau y tau
        /\ ((tau + 1 = length y)%Z ->
            betterTau y tau = JS.of_Z tau
            \/ betterTau y tau = JS.of_Z (tau - 1))
        /\ ((tau + 1 < length y)%Z ->
            betterTau y tau
            = JS.of_Z tau
              + (get y (tau + 1) - get y (tau - 1))
                / (2 * (2 * get y tau - get y (tau + 1) - get y (tau - 1)))))
  /\ (forall (Math_log2 : float -> float) (r : float) (n : PitchResult),
         detectedNote Math_log2 (Some r) = Some n ->
         is_finite r = true /\ (0 <? r) = true).
Proof.
  split.
  - intros buffer sampleRate threshold r. unfold detectPitchYIN.
    destruct (tauEstimate_spec (yin buffer) threshold) as [E|[Hb Hn]].
    + rewrite E. discriminate.
    + destruct (Z.eqb_spec (tauEstimate (yin buffer) threshold) (-1)); [lia|].
      intros H. injection H as <-. cbv zeta.
      exists (tauEstimate (yin buffer) threshold).
      destruct (betterTau_spec (yin buffer) _ Hb) as [Hlast Hmid].
      repeat split; auto; lia.
  - intros Math_log2 r n. apply detectedNote_some.
Qed.

(** An instance: a wave of period 4 sampled at 44100 Hz is given the pitch
    11225.45 Hz, from the lag 4 refined to 3.93. *)
Lemma detectPitchYIN_result_witness :
  detectPitchYIN square4 44100 default_threshold = Some 0x1.5ecba2e8ba2e9p+13
  /\ exists tau,
       (2 <= tau < length (yin square4))%Z
       /\ get (yin square4) tau <> nan
       /\ 0x1.5ecba2e8ba2e9p+13 = 44100 / betterTau (yin square4) tau.
Proof.
  assert (E : detectPitchYIN square4 44100 default_threshold
              = Some 0x1.5ecba2e8ba2e9p+13)
    by (vm_compute; reflexivity).
  split; [exact E|].
  destruct (proj1 detectPitchYIN_result square4 44100 default_threshold _ E)
    as (tau & Hb & Hn & Hr & _).
  exists tau. auto.
Defined.

End YinResult.

(** ** How failures are signalled *)

Module Absence.

Import Loops Rounding FloatFacts Scan Bounds.
Local Open Scope float_scope.

Lemma indexOf_missing (l : list string) (x : string) :
  ~ In x l -> indexOf l x = (-1)%Z.
Proof.
  induction l as [|y l IH]; intros H; [reflexivity|].
  cbn [indexOf].
  destruct (String.eqb_spec y x) as [->|Hne].
  - exfalso. apply H. left. reflexivity.
  - rewrite IH; [reflexivity|]. intros Hin. apply H. right. exact Hin.
Qed.

Lemma noteToFrequency_unknown (Math_pow : float -> float -> float)
      (note : string) (octave : float) :
  ~ In note NOTE_NAMES -> noteToFrequency Math_pow note octave = 0.
Proof.
  intros H. unfold noteToFrequency. rewrite indexOf_missing by exact H.
  reflexivity.
Qed.

(** *** A quiet spectrum *)

Lemma quiet_byte (b : Z) : (0 <= b < 100)%Z -> (JS.of_Z b <? 100) = true.
Proof.
  intros Hb.
  assert (H : forallb (fun b => JS.of_Z b <? 100) (range 0 100) = true)
    by (vm_compute; reflexivity).
  rewrite forallb_forall in H. apply H, In_range. exact Hb.
Qed.

Lemma byte_at_in_range (frequencyData : list Z) (i : Z) :
  (0 <= i < length frequencyData)%Z ->
  exists b, In b frequencyData /\ byte_at frequencyData i = JS.of_Z b.
Proof.
  intros Hi. unfold byte_at. destruct (Z.ltb_spec i 0); [lia|].
  destruct (nth_error frequencyData (Z.to_nat i)) as [b|] eqn:E.
  - exists b. split; [eapply nth_error_In; exact E|reflexivity].
  - apply nth_error_None in E. unfold length in Hi. lia.
Qed.

Lemma fold_left_inv {S A : Type} (P : S -> Prop) (f : S -> A -> S)
      (l : list A) (s : S) :
  P s -> (forall s' a, In a l -> P s' -> P (f s' a)) ->
  P (fold_left f l s).
Proof.
  revert s. induction l as [|a l IH]; intros s Hs Hstep; [exact Hs|].
  cbn [fold_left]. apply IH.
  - apply Hstep; [left; reflexivity|exact Hs].
  - intros s' b Hb. apply Hstep. right. exact Hb.
Qed.

Lemma getDominantFrequency_quiet
      (frequencyData : list Z) (sampleRate fftSize minFreq maxFreq : float) :
  Forall (fun b => (0 <= b < 100)%Z) frequencyData ->
  (0 <=? minFreq) = true ->
  (0 <? sampleRate) = true -> (0 <? fftSize) = true ->
  getDominantFrequency frequencyData sampleRate fftSize minFreq maxFreq
  = JS.Returns None.
Proof.
  intros Hq Hf Hs Hn.
  unfold getDominantFrequency, getDominantFrequency_reads. cbv zeta.
  set (minBin := frequencyToBin minFreq sampleRate fftSize).
  destruct (scan_safe minBin
                      (frequencyToBin maxFreq sampleRate fftSize)
                      (length frequencyData)) as (idx & Hidx & Hb).
  { now apply startable_frequencyToBin. }
  rewrite Hidx.
  assert (Hm : (fst (fst (for_each (dominant_step frequencyData minBin) idx (0, 0)))
                <? 100) = true).
  { rewrite for_each_value.
    apply (fold_left_inv (fun st : float * float => (fst st <? 100) = true)).
    - reflexivity.
    - intros [maxValue maxIndex] i Hi Hst. cbn [fst] in Hst.
      unfold dominant_step, bind, read, ret.
      destruct (maxValue <? byte_at frequencyData i); cbn [fst]; [|exact Hst].
      destruct (byte_at_in_range frequencyData i (Hb i Hi)) as (b & Hin & ->).
      apply quiet_byte. rewrite Forall_forall in Hq. apply Hq, Hin. }
  destruct (for_each (dominant_step frequencyData minBin) idx (0, 0))
    as [[maxValue maxIndex] r].
  cbn [fst] in Hm. unfold bind, value. rewrite Hm. reflexivity.
Qed.

(** C9 (counterexample).  "H" is not one of the twelve note names, and
    [noteToFrequency("H", 4)] is the number 0. *)
Lemma noteToFrequency_returns_zero :
  ~ In "H"%string NOTE_NAMES
  /\ noteToFrequency Engine.Math_pow "H" 4 = 0.
Proof.
  split; [|reflexivity].
  cbn. intros H. repeat (destruct H as [H|H]; [discriminate|]). exact H.
Qed.

End Absence.

(** ** The note round trip *)

Module Enumeration.

Import Loops Rounding FloatFacts Scan.

Lemma SFleb_pos (m1 m2 : positive) (e1 e2 : Z) :
  SFleb (S754_finite false m1 e1) (S754_finite false m2 e2) = true ->
  e1 < e2 \/ (e1 = e2 /\ Zpos m1 <= Zpos m2).
Proof.
  unfold SFleb, SFcompare.
  destruct (Z.compare_spec e1 e2) as [He|He|He]; try discriminate; [|lia].
  rewrite Pos.compare_cont_spec. cbn [Pos.switch_Eq].
  destruct (Pos.compare_spec m1 m2); try discriminate; lia.
Qed.

Lemma SFleb_neg (m1 m2 : positive) (e1 e2 : Z) :
  SFleb (S754_finite true m1 e1) (S754_finite true m2 e2) = true ->
  e2 < e1 \/ (e1 = e2 /\ Zpos m2 <= Zpos m1).
Proof.
  unfold SFleb, SFcompare.
  destruct (Z.compare_spec e1 e2) as [He|He|He]; try discriminate; [|lia].
  rewrite Pos.compare_cont_spec. cbn [Pos.switch_Eq].
  destruct (Pos.compare_spec m1 m2); cbn; try discriminate; lia.
Qed.

Lemma In_count_up (n : nat) (lo m : positive) :
  Zpos lo <= Zpos m < Zpos lo + Z.of_nat n -> In m (count_up n lo).
Proof.
  revert lo. induction n as [|n IH]; intros lo H; [lia|].
  cbn [count_up]. destruct (Pos.eq_dec lo m) as [->|Hne]; [now left|].
  right. apply IH. rewrite Pos2Z.inj_succ. lia.
Qed.

Lemma In_mantissas (lo hi : Z) (m : positive) :
  0 < lo -> lo <= Zpos m <= hi -> In m (mantissas lo hi).
Proof.
  intros Hlo H. unfold mantissas. apply In_count_up.
  rewrite Z2Pos.id by assumption. lia.
Qed.

Lemma In_between_pos (m mlo mhi : positive) (e elo ehi : Z) :
  elo <= e <= ehi ->
  (e = elo -> Zpos mlo <= Zpos m) ->
  (e = ehi -> Zpos m <= Zpos mhi) ->
  2 ^ 52 <= Zpos m < 2 ^ 53 ->
  In (m, e) (between_pos mlo elo mhi ehi).
Proof.
  intros He Hlo Hhi Hm. unfold between_pos.
  apply in_flat_map. exists e. split; [apply In_range; lia|].
  apply in_map_iff. exists m. split; [reflexivity|].
  apply In_mantissas.
  - destruct (e =? elo); lia.
  - destruct (Z.eqb_spec e elo); destruct (Z.eqb_spec e ehi); lia.
Qed.

(** Every number between two normal numbers of the same sign is in the
    enumeration. *)
Lemma between_sound (lo hi x : spec_float) :
  enumerable lo hi = true -> valid_binary x = true ->
  SFleb lo x = true -> SFleb x hi = true -> In x (between lo hi).
Proof.
  intros Hen Hv Hlo Hhi.
  destruct lo as [?|?| |[|] mlo elo]; try discriminate;
    destruct hi as [?|?| |[|] mhi ehi]; try discriminate;
    destruct x as [?|[|]| |[|] m e]; try discriminate.
  - (* negative *)
    cbn [enumerable] in Hen. apply Z.ltb_lt in Hen.
    apply SFleb_neg in Hlo, Hhi.
    assert (Hd : Zpos (digits2_pos m) = 53)
      by (apply (valid_normal true m e Hv); lia).
    pose proof (digits_bounds m) as B. rewrite Hd in B.
    change (53 - 1) with 52 in B.
    cbn [between]. apply in_map_iff. exists (m, e). split; [reflexivity|].
    apply In_between_pos; lia.
  - (* positive *)
    cbn [enumerable] in Hen. apply Z.ltb_lt in Hen.
    apply SFleb_pos in Hlo, Hhi.
    assert (Hd : Zpos (digits2_pos m) = 53)
      by (apply (valid_normal false m e Hv); lia).
    pose proof (digits_bounds m) as B. rewrite Hd in B.
    change (53 - 1) with 52 in B.
    cbn [between]. apply in_map_iff. exists (m, e). split; [reflexivity|].
    apply In_between_pos; lia.
Qed.

(** A number near [c] is one of the enumerated candidates. *)
Lemma near_enumerated (c l : float) :
  let lo := Prim2SF (c - log2_tolerance)%float in
  let hi := Prim2SF (c + log2_tolerance)%float in
  enumerable lo hi = true -> near c l = true ->
  In (Prim2SF l) (between lo hi).
Proof.
  intros lo hi Hen Hnear. unfold near in Hnear.
  apply andb_true_iff in Hnear. destruct Hnear as [Hlo Hhi].
  rewrite leb_spec in Hlo, Hhi.
  apply between_sound; auto using Prim2SF_valid.
Qed.

End Enumeration.

(** ** Comparisons of numbers and [Math.round] *)

Module Comparison.

Import Loops Rounding FloatFacts Scan.

Lemma valid_shape (s : bool) (m : positive) (e : Z) :
  valid_binary (S754_finite s m e) = true ->
  -1074 <= e /\ Zpos m < 2 ^ 53 /\ (-1074 < e -> 2 ^ 52 <= Zpos m).
Proof.
  unfold valid_binary, bounded, canonical_mantissa. intros H.
  apply andb_true_iff in H. destruct H as [Hc _].
  apply Z.eqb_eq in Hc. rewrite fexp_eq in Hc.
  pose proof (digits_bounds m) as [Blo Bhi].
  set (d := Zpos (digits2_pos m)) in *.
  assert (Hd : d <= 53) by lia.
  assert (2 ^ d <= 2 ^ 53) by (apply Z.pow_le_mono_r; lia).
  repeat split; try lia.
  intros He. assert (d = 53) by lia. subst d.
  replace (Zpos (digits2_pos m) - 1) with 52 in Blo by lia. exact Blo.
Qed.

(** A larger exponent is a larger number. *)
Lemma scaled_lt_exp (m1 m2 : positive) (e1 e2 : Z) :
  valid_binary (S754_finite false m1 e1) = true ->
  valid_binary (S754_finite false m2 e2) = true ->
  e1 < e2 ->
  Zpos m1 * 2 ^ (e1 + 1074) < Zpos m2 * 2 ^ (e2 + 1074).
Proof.
  intros V1 V2 He.
  apply valid_shape in V1, V2.
  destruct V1 as (He1 & Hm1 & _), V2 as (_ & _ & Hm2).
  specialize (Hm2 ltac:(lia)).
  assert (Ha : 0 < 2 ^ (e1 + 1074)) by (apply Z.pow_pos_nonneg; lia).
  assert (Hb : 2 * 2 ^ (e1 + 1074) <= 2 ^ (e2 + 1074)).
  { rewrite <- Z.pow_succ_r by lia. apply Z.pow_le_mono_r; lia. }
  change (2 ^ 53) with (2 * 2 ^ 52) in Hm1.
  set (a := 2 ^ (e1 + 1074)) in *. set (b := 2 ^ (e2 + 1074)) in *.
  set (h := 2 ^ 52) in *.
  assert (0 < h) by (subst h; reflexivity).
  apply Z.lt_le_trans with (2 * h * a); [nia|].
  apply Z.le_trans with (h * b); nia.
Qed.

Lemma compare_scale (m1 m2 a : Z) :
  0 < a -> (m1 * a ?= m2 * a) = (m1 ?= m2).
Proof.
  intros Ha. destruct (Z.compare_spec m1 m2).
  - subst. apply Z.compare_refl.
  - apply Z.compare_lt_iff. nia.
  - apply Z.compare_gt_iff. nia.
Qed.

Lemma cond_Zopp_valid (s : bool) (m : positive) (e : Z) :
  valid_binary (S754_finite s m e) = valid_binary (S754_finite false m e).
Proof. reflexivity. Qed.

(** Comparing two numbers is comparing their values. *)
Lemma SFcompare_scaled (x y : spec_float) :
  valid_binary x = true -> valid_binary y = true ->
  finite_or_zero x -> finite_or_zero y ->
  SFcompare x y = Some (scaled x ?= scaled y).
Proof.
  intros Vx Vy Fx Fy.
  destruct x as [sx|sx| |sx mx ex]; try contradiction;
    destruct y as [sy|sy| |sy my ey]; try contradiction.
  - reflexivity.
  - cbn [SFcompare scaled].
    assert (0 < 2 ^ (ey + 1074))
      by (apply Z.pow_pos_nonneg; [|apply valid_shape in Vy]; lia).
    destruct sy; cbn [cond_Zopp]; f_equal; symmetry.
    + apply Z.compare_gt_iff. nia.
    + apply Z.compare_lt_iff. nia.
  - cbn [SFcompare scaled].
    assert (0 < 2 ^ (ex + 1074))
      by (apply Z.pow_pos_nonneg; [|apply valid_shape in Vx]; lia).
    destruct sx; cbn [cond_Zopp]; f_equal; symmetry.
    + apply Z.compare_lt_iff. nia.
    + apply Z.compare_gt_iff. nia.
  - cbn [SFcompare scaled].
    rewrite (cond_Zopp_valid sx) in Vx. rewrite (cond_Zopp_valid sy) in Vy.
    assert (Hx : 0 < 2 ^ (ex + 1074))
      by (apply Z.pow_pos_nonneg; [|apply valid_shape in Vx]; lia).
    assert (Hy : 0 < 2 ^ (ey + 1074))
      by (apply Z.pow_pos_nonneg; [|apply valid_shape in Vy]; lia).
    assert (Hlt : ex < ey ->
                  Zpos mx * 2 ^ (ex + 1074) < Zpos my * 2 ^ (ey + 1074))
      by (apply scaled_lt_exp; assumption).
    assert (Hgt : ey < ex ->
                  Zpos my * 2 ^ (ey + 1074) < Zpos mx * 2 ^ (ex + 1074))
      by (apply scaled_lt_exp; assumption).
    rewrite Pos.compare_cont_spec.
    replace (Pos.switch_Eq Eq (mx ?= my)%positive) with (Zpos mx ?= Zpos my)
      by (cbn [Z.compare]; destruct (mx ?= my)%positive; reflexivity).
    destruct sx, sy; cbn [cond_Zopp]; f_equal; symmetry.
    + (* both negative *)
      change (Z.neg mx) with (- Zpos mx). change (Z.neg my) with (- Zpos my).
      rewrite !Z.mul_opp_l, Z.compare_opp.
      destruct (Z.compare_spec ex ey) as [He|He|He].
      * subst ey. rewrite compare_scale by assumption.
        apply Z.compare_antisym.
      * apply Z.compare_gt_iff. auto.
      * apply Z.compare_lt_iff. auto.
    + apply Z.compare_lt_iff. nia.
    + apply Z.compare_gt_iff. nia.
    + destruct (Z.compare_spec ex ey) as [He|He|He].
      * subst ey. apply compare_scale. assumption.
      * apply Z.compare_lt_iff. auto.
      * apply Z.compare_gt_iff. auto.
Qed.

(** A number between two finite numbers is finite or zero, with its value
    between theirs. *)
Lemma between_scaled (a x b : spec_float) :
  valid_binary a = true -> valid_binary x = true -> valid_binary b = true ->
  finite_or_zero a -> finite_or_zero b ->
  SFleb a x = true -> SFltb x b = true ->
  finite_or_zero x /\ scaled a <= scaled x < scaled b.
Proof.
  intros Va Vx Vb Fa Fb Hle Hlt.
  assert (Fx : finite_or_zero x).
  { destruct x as [sx|[|]| |sx mx ex]; try exact I.
    - destruct a; try contradiction; discriminate.
    - destruct b; try contradiction; discriminate.
    - destruct a; discriminate. }
  split; [exact Fx|].
  unfold SFleb in Hle. unfold SFltb in Hlt.
  rewrite (SFcompare_scaled a x) in Hle by assumption.
  rewrite (SFcompare_scaled x b) in Hlt by assumption.
  split.
  - destruct (Z.compare_spec (scaled a) (scaled x)); try discriminate; lia.
  - destruct (Z.compare_spec (scaled x) (scaled b)); try discriminate; lia.
Qed.

(** [Math.round] of a number whose value is in [z - 1/2, z + 1/2). *)
Lemma Math_round_scaled (x : float) (z : Z) :
  finite_or_zero (Prim2SF x) ->
  (2 * z - 1) * 2 ^ 1073 <= scaled (Prim2SF x) < (2 * z + 1) * 2 ^ 1073 ->
  - 2 ^ 51 < z < 2 ^ 51 ->
  JS.Math_round x = JS.of_Z z \/ (z = 0 /\ JS.Math_round x = neg_zero).
Proof.
  intros Fx Hx Hz. pose proof (Prim2SF_valid x) as Vx.
  unfold JS.Math_round.
  assert (Hh : 0 < 2 ^ 1073) by (apply Z.pow_pos_nonneg; lia).
  destruct (Prim2SF x) as [s|s| |s m e] eqn:E; try contradiction.
  - (* zero *)
    cbn [scaled] in Hx. assert (z = 0) by nia. subst z.
    rewrite <- (SF2Prim_Prim2SF x), E.
    destruct s; [right; split; reflexivity|left; reflexivity].
  - rewrite (cond_Zopp_valid s) in Vx. apply valid_shape in Vx.
    destruct Vx as (He & Hm & Hn).
    cbn [scaled] in Hx.
    destruct (Z.leb_spec 0 e) as [Hpos|Hneg].
    + (* an exponent that large is a number beyond 2^52 *)
      exfalso. specialize (Hn ltac:(lia)).
      assert (2 * 2 ^ 1073 <= 2 ^ (e + 1074)).
      { rewrite <- Z.pow_succ_r by lia. apply Z.pow_le_mono_r; lia. }
      set (h := 2 ^ 1073) in *. set (b := 2 ^ (e + 1074)) in *.
      change (2 ^ 51) with 2251799813685248 in Hz.
      change (2 ^ 52) with 4503599627370496 in Hn.
      destruct s; cbn [cond_Zopp] in Hx; nia.
    + assert (Hr : JS.round_half_up s m e = z).
      { unfold JS.round_half_up.
        rewrite Z.shiftr_div_pow2 by lia.
        assert (HT : 0 < 2 ^ (e + 1074)) by (apply Z.pow_pos_nonneg; lia).
        assert (HU : 0 < 2 ^ (- e - 1)) by (apply Z.pow_pos_nonneg; lia).
        assert (E1 : 2 ^ 1073 = 2 ^ (e + 1074) * 2 ^ (- e - 1)).
        { rewrite <- Z.pow_add_r by lia. f_equal. lia. }
        assert (E2 : 2 ^ (- e) = 2 * 2 ^ (- e - 1)).
        { rewrite <- Z.pow_succ_r by lia. f_equal. lia. }
        assert (E3 : 2 ^ (- e + 1) = 4 * 2 ^ (- e - 1)).
        { replace (- e + 1) with (Z.succ (Z.succ (- e - 1))) by lia.
          rewrite !Z.pow_succ_r by lia. lia. }
        rewrite E2, E3. rewrite E1 in Hx.
        fold (JS.mant s m) in Hx.
        set (M := JS.mant s m) in *.
        set (T := 2 ^ (e + 1074)) in *. set (U := 2 ^ (- e - 1)) in *.
        assert (Hlo : (2 * z - 1) * U <= M) by nia.
        assert (Hhi : M < (2 * z + 1) * U) by nia.
        symmetry.
        apply (Z.div_unique _ _ z (2 * M + 2 * U - 4 * U * z)); [left|]; nia. }
      rewrite Hr.
      destruct (Z.eqb_spec z 0) as [->|Hz0].
      * destruct s; [right; split; reflexivity|left; reflexivity].
      * left. reflexivity.
Qed.

Lemma is_half_spec (n : Z) (x : float) :
  is_half n x = true ->
  finite_or_zero (Prim2SF x) /\ scaled (Prim2SF x) = n * 2 ^ 1073.
Proof.
  unfold is_half. destruct (Prim2SF x); try discriminate.
  intros H. apply Z.eqb_eq in H. split; [exact I|exact H].
Qed.

(** The test [rounds_to] decides [Math.round]. *)
Lemma rounds_to_spec (k : Z) (x : float) :
  let K := JS.of_Z k in
  is_half (2 * k - 1) (K - 0.5)%float = true ->
  is_half (2 * k + 1) (K + 0.5)%float = true ->
  - 2 ^ 51 < k < 2 ^ 51 -> k <> 0 ->
  rounds_to K x = true -> JS.Math_round x = K.
Proof.
  intros K Ha Hb Hk Hk0 H. unfold rounds_to in H.
  apply andb_true_iff in H. destruct H as [Hle Hlt].
  rewrite leb_spec in Hle. rewrite ltb_spec in Hlt.
  apply is_half_spec in Ha, Hb.
  destruct Ha as [Fa Sa], Hb as [Fb Sb].
  destruct (between_scaled _ _ _ (Prim2SF_valid _) (Prim2SF_valid x)
                           (Prim2SF_valid _) Fa Fb Hle Hlt) as [Fx Hx].
  rewrite Sa, Sb in Hx.
  destruct (Math_round_scaled x k Fx Hx Hk) as [E|[E _]];
    [exact E|contradiction].
Qed.

(** The test [cents_ok] bounds [Math.round]. *)
Lemma cents_ok_spec (p : float) :
  cents_ok p = true ->
  (-1 <=? JS.Math_round p)%float = true
  /\ (JS.Math_round p <=? 1)%float = true.
Proof.
  unfold cents_ok. intros H.
  apply andb_true_iff in H. destruct H as [Hle Hlt].
  rewrite leb_spec in Hle. rewrite ltb_spec in Hlt.
  destruct (between_scaled (Prim2SF (-1.5)%float) (Prim2SF p)
                           (Prim2SF 1.5%float)
                           (Prim2SF_valid _) (Prim2SF_valid p)
                           (Prim2SF_valid _) I I Hle Hlt) as [Fp Hp].
  change (scaled (Prim2SF (-1.5)%float)) with (-(6755399441055744) * 2 ^ 1022)
    in Hp.
  change (scaled (Prim2SF 1.5%float)) with (6755399441055744 * 2 ^ 1022) in Hp.
  assert (E : 2 ^ 1073 = 2251799813685248 * 2 ^ 1022)
    by (change 2251799813685248 with (2 ^ 51);
        rewrite <- Z.pow_add_r by lia; reflexivity).
  assert (Hh : 0 < 2 ^ 1022) by (apply Z.pow_pos_nonneg; lia).
  set (V := scaled (Prim2SF p)) in *.
  assert (Hz : exists z, (z = -1 \/ z = 0 \/ z = 1)
                         /\ (2 * z - 1) * 2 ^ 1073 <= V < (2 * z + 1) * 2 ^ 1073).
  { rewrite E. set (h := 2 ^ 1022) in *.
    destruct (Z.lt_ge_cases V (- (2251799813685248 * h))).
    - exists (-1). split; [auto|]. lia.
    - destruct (Z.lt_ge_cases V (2251799813685248 * h)).
      + exists 0. split; [auto|]. lia.
      + exists 1. split; [auto|]. lia. }
  destruct Hz as (z & Hz & Hb).
  assert (Hr : - 2 ^ 51 < z < 2 ^ 51)
    by (change (2 ^ 51) with 2251799813685248; lia).
  destruct (Math_round_scaled p z Fp Hb Hr) as [Er|[_ Er]]; rewrite Er.
  - destruct Hz as [->|[->| ->]]; split; reflexivity.
  - split; reflexivity.
Qed.

End Comparison.

Module NoteRoundtrip.

Import Loops Rounding FloatFacts Scan Enumeration Comparison.
Local Open Scope float_scope.

(** *** The guard of [frequencyToNote] *)

Lemma mul_digits (mx my : positive) :
  Zpos (digits2_pos mx) = 53%Z -> Zpos (digits2_pos my) = 53%Z ->
  (105 <= Zpos (digits2_pos (mx * my)) <= 106)%Z.
Proof.
  intros Hx Hy.
  pose proof (digits_bounds mx) as Bx. pose proof (digits_bounds my) as By.
  rewrite Hx in Bx. rewrite Hy in By. change (53 - 1)%Z with 52%Z in *.
  pose proof (digits_bounds (mx * my)) as BP.
  set (d := Zpos (digits2_pos (mx * my))) in *.
  rewrite Pos2Z.inj_mul in BP.
  assert (2 ^ 104 <= Zpos mx * Zpos my)%Z
    by (change (2 ^ 104)%Z with (2 ^ 52 * 2 ^ 52)%Z; nia).
  assert (Zpos mx * Zpos my < 2 ^ 106)%Z
    by (change (2 ^ 106)%Z with (2 ^ 53 * 2 ^ 53)%Z; nia).
  split.
  - destruct (Z.le_gt_cases 105 d); [assumption|].
    assert (2 ^ d <= 2 ^ 104)%Z by (apply Z.pow_le_mono_r; lia). lia.
  - destruct (Z.le_gt_cases d 106); [assumption|].
    assert (2 ^ 106 <= 2 ^ (d - 1))%Z by (apply Z.pow_le_mono_r; lia). lia.
Qed.

Lemma finite_positive (f : float) (m : positive) (e : Z) :
  Prim2SF f = S754_finite false m e ->
  (f <=? 0) = false /\ is_finite f = true.
Proof.
  intros E. split.
  - rewrite leb_spec, E. reflexivity.
  - unfold is_finite, is_nan, is_infinity.
    rewrite !eqb_spec, abs_spec, E. cbn [SFabs].
    unfold SFeqb, SFcompare. rewrite Z.compare_refl.
    rewrite Pos.compare_cont_refl. reflexivity.
Qed.

(** 440 times a number in [1/32, 16] is positive and finite. *)
Lemma frequency_positive (p : float) :
  (0x1p-5 <=? p) = true -> (p <=? 0x1p+4) = true ->
  (440 * p <=? 0) = false /\ is_finite (440 * p) = true.
Proof.
  intros Hlo Hhi. rewrite leb_spec in Hlo, Hhi.
  change (Prim2SF 0x1p-5) with (S754_finite false 4503599627370496 (-57)) in Hlo.
  change (Prim2SF 0x1p+4) with (S754_finite false 4503599627370496 (-48)) in Hhi.
  pose proof (Prim2SF_valid p) as Hv.
  destruct (Prim2SF p) as [?|[|]| |[|] m e] eqn:E; try discriminate.
  apply SFleb_pos in Hlo, Hhi.
  assert (Hd : Zpos (digits2_pos m) = 53%Z)
    by (apply (valid_normal false m e Hv); lia).
  assert (Hf : exists m2 e2, Prim2SF (440 * p) = S754_finite false m2 e2).
  { rewrite mul_spec, E.
    change (Prim2SF 440) with (S754_finite false 7740561859543040 (-44)).
    unfold SF64mul, SFmul. cbn [xorb].
    pose proof (mul_digits 7740561859543040 m eq_refl Hd) as HdP.
    pose proof (round_lower (7740561859543040 * m) (-44 + e)
                            ltac:(lia) ltac:(lia)) as HR.
    destruct (binary_round_aux prec emax false _ (-44 + e) loc_Exact)
      as [s|s| |s m2 e2]; try contradiction.
    - exfalso. lia.
    - destruct HR as [-> _]. eauto. }
  destruct Hf as (m2 & e2 & Hf). exact (finite_positive _ _ _ Hf).
Qed.

Lemma frequencyToNote_unfold (Math_log2 : float -> float) (f : float) :
  (f <=? 0) = false -> is_finite f = true ->
  frequencyToNote Math_log2 f = Some (note_from_log2 f (Math_log2 (f / 440))).
Proof.
  intros Hle Hfin. unfold frequencyToNote. rewrite Hle, Hfin. reflexivity.
Qed.

(** *** The candidates, checked one by one *)

Lemma semitones_checked :
  forallb semitone_ok (filter (fun k => negb (k =? 0)%Z) piano_semitones)
  = true.
Proof. vm_compute. reflexivity. Qed.

Lemma In_piano_semitones (k : Z) :
  In k piano_semitones -> (-48 <= k < 40)%Z.
Proof. unfold piano_semitones. intros H. apply In_range in H. lia. Qed.

(** The note derived from a logarithm near [k / 12]. *)
Lemma note_near (k : Z) (f l : float) :
  In k piano_semitones -> k <> 0%Z ->
  near (JS.of_Z k / 12) l = true ->
  let r := note_from_log2 f l in
  note r = Some (semitone_note k)
  /\ octave r = semitone_octave k
  /\ (-1 <=? cents r) = true /\ (cents r <=? 1) = true.
Proof.
  intros Hk Hk0 Hnear.
  pose proof semitones_checked as H. rewrite forallb_forall in H.
  specialize (H k). unfold semitone_ok in H.
  assert (Hin : In k (filter (fun k => negb (k =? 0)%Z) piano_semitones)).
  { apply filter_In. split; [exact Hk|].
    destruct (Z.eqb_spec k 0); [contradiction|reflexivity]. }
  specialize (H Hin). cbv zeta in H.
  apply andb_true_iff in H. destruct H as [H Hall].
  apply andb_true_iff in H. destruct H as [Hen Hrok].
  rewrite forallb_forall in Hall.
  specialize (Hall (Prim2SF l) (near_enumerated _ _ Hen Hnear)).
  rewrite SF2Prim_Prim2SF in Hall.
  unfold log2_ok in Hall. cbv zeta in Hall.
  apply andb_true_iff in Hall. destruct Hall as [Hround Hcents].
  unfold rounded_ok in Hrok. cbv zeta in Hrok.
  apply andb_true_iff in Hrok. destruct Hrok as [Hrok Hoct].
  apply andb_true_iff in Hrok. destruct Hrok as [Hrok Hnote].
  apply andb_true_iff in Hrok. destruct Hrok as [Ha Hb].
  apply In_piano_semitones in Hk.
  assert (Hr : JS.Math_round (12 * l) = JS.of_Z k).
  { apply rounds_to_spec; try assumption.
    change (2 ^ 51)%Z with 2251799813685248%Z. lia. }
  cbv zeta. unfold note_from_log2. cbv zeta. rewrite Hr.
  change (note (note_from_rounded f (12 * l) (JS.of_Z k)))
    with (note (note_from_rounded 0 0 (JS.of_Z k))).
  change (octave (note_from_rounded f (12 * l) (JS.of_Z k)))
    with (octave (note_from_rounded 0 0 (JS.of_Z k))).
  change (cents (note_from_rounded f (12 * l) (JS.of_Z k)))
    with (JS.Math_round ((12 * l - JS.of_Z k) * 100)).
  split; [|split].
  - destruct (note (note_from_rounded 0 0 (JS.of_Z k))) as [n|];
      [|discriminate].
    apply String.eqb_eq in Hnote. now subst.
  - now apply FloatAxioms.Leibniz.eqb_spec.
  - apply cents_ok_spec. exact Hcents.
Qed.

Section Builtins.

Variable Math_log2 : float -> float.
Variable Math_pow : float -> float -> float.

(** What ECMAScript prescribes exactly. *)
Hypothesis pow_zero : Math_pow 2 0 = 1.
Hypothesis log2_one : Math_log2 1 = 0.

(** What is asked of the engine's accuracy on the piano range: for every
    semitone offset [k] from A4, [2^(k/12)] is computed within [1/32, 16],
    and the logarithm of the frequency ratio of the note is within [2^-44]
    of [k/12]. *)
Hypothesis pow_range :
  forall k, In k piano_semitones ->
    (0x1p-5 <=? Math_pow 2 (JS.of_Z k / 12)) = true
    /\ (Math_pow 2 (JS.of_Z k / 12) <=? 0x1p+4) = true.
Hypothesis log2_accuracy :
  forall k, In k piano_semitones ->
    near (JS.of_Z k / 12)
         (Math_log2 (440 * Math_pow 2 (JS.of_Z k / 12) / 440)) = true.

Lemma piano_notes_by_semitone :
  getPianoNotes Math_pow
  = map (fun k => (semitone_note k, semitone_octave k,
                   440 * Math_pow 2 (JS.of_Z k / 12)))
        piano_semitones.
Proof. vm_compute. reflexivity. Qed.

Lemma semitone_roundtrip (k : Z) :
  In k piano_semitones ->
  exists r,
    frequencyToNote Math_log2 (440 * Math_pow 2 (JS.of_Z k / 12)) = Some r
    /\ note r = Some (semitone_note k)
    /\ octave r = semitone_octave k
    /\ (-1 <=? cents r) = true /\ (cents r <=? 1) = true.
Proof.
  intros Hk.
  destruct (pow_range k Hk) as [Hlo Hhi].
  destruct (frequency_positive _ Hlo Hhi) as [Hle Hfin].
  rewrite (frequencyToNote_unfold _ _ Hle Hfin).
  eexists. split; [reflexivity|].
  destruct (Z.eq_dec k 0) as [->|Hk0].
  - change (JS.of_Z 0 / 12) with 0. rewrite pow_zero.
    change (440 * 1 / 440) with 1. rewrite log2_one.
    repeat split; vm_compute; reflexivity.
  - apply note_near; auto.
Qed.

(** C3.  On an engine whose [Math.pow] and [Math.log2] return the exact
    values ECMAScript prescribes ([2^0 = 1], [log2 1 = 0]) and are accurate
    on the piano range as stated above: for each of the 88 (note, octave)
    pairs from A0 to C8, [frequencyToNote(noteToFrequency(note, octave))]
    returns the same note and the same octave, with cents between -1 and
    1; [noteToFrequency("A", 4)] is exactly 440; and
    [frequencyToNote(440)] is note "A", octave 4, cents 0. *)
Theorem note_roundtrip :
  (forall (note_ : string) (octave_ f : float),
      In (note_, octave_, f) (getPianoNotes Math_pow) ->
      f = noteToFrequency Math_pow note_ octave_
      /\ exists r,
          frequencyToNote Math_log2 f = Some r
          /\ note r = Some note_
          /\ octave r = octave_
          /\ (-1 <=? cents r) = true /\ (cents r <=? 1) = true)
  /\ List.length (getPianoNotes Math_pow) = 88%nat
  /\ noteToFrequency Math_pow "A" 4 = 440
  /\ frequencyToNote Math_log2 440
     = Some {| frequency := 440; note := Some "A"%string;
               octave := 4; cents := 0 |}.
Proof.
  split; [|split; [|split]].
  - intros note_ octave_ f Hin.
    split.
    + unfold getPianoNotes in Hin.
      apply in_flat_map in Hin. destruct Hin as (o & _ & Hin).
      apply in_flat_map in Hin. destruct Hin as (i & _ & Hin).
      destruct ((o =? 0)%Z && (i <? 9)%Z)%bool; [contradiction|].
      destruct ((o =? 8)%Z && (0 <? i)%Z)%bool; [contradiction|].
      destruct (nth_error NOTE_NAMES (Z.to_nat i)); [|contradiction].
      destruct Hin as [Hin|[]]. now injection Hin as <- <- <-.
    + rewrite piano_notes_by_semitone in Hin.
      apply in_map_iff in Hin. destruct Hin as (k & Hk & Hin).
      injection Hk as <- <- <-. apply semitone_roundtrip, Hin.
  - rewrite piano_notes_by_semitone. reflexivity.
  - assert (E : noteToFrequency Math_pow "A" 4 = 440 * Math_pow 2 0)
      by (vm_compute; reflexivity).
    rewrite E, pow_zero. reflexivity.
  - unfold frequencyToNote.
    change (440 <=? 0) with false. change (is_finite 440) with true.
    cbn [orb negb]. change (440 / 440) with 1. rewrite log2_one.
    vm_compute. reflexivity.
Qed.

End Builtins.

(** *** The reference engine meets the conditions *)

Lemma reference_pow_zero : Engine.Math_pow 2 0 = 1.
Proof. vm_compute. reflexivity. Qed.

Lemma reference_log2_one : Engine.Math_log2 1 = 0.
Proof. vm_compute. reflexivity. Qed.

Lemma reference_checked : forallb reference_ok piano_semitones = true.
Proof. vm_compute. reflexivity. Qed.

Lemma reference_pow_range :
  forall k, In k piano_semitones ->
    (0x1p-5 <=? Engine.Math_pow 2 (JS.of_Z k / 12)) = true
    /\ (Engine.Math_pow 2 (JS.of_Z k / 12) <=? 0x1p+4) = true.
Proof.
  intros k Hk. pose proof reference_checked as H.
  rewrite forallb_forall in H. specialize (H k Hk).
  unfold reference_ok in H. cbv zeta in H.
  apply andb_true_iff in H. destruct H as [H _].
  apply andb_true_iff in H. exact H.
Qed.

Lemma reference_log2_accuracy :
  forall k, In k piano_semitones ->
    near (JS.of_Z k / 12)
         (Engine.Math_log2 (440 * Engine.Math_pow 2 (JS.of_Z k / 12) / 440))
    = true.
Proof.
  intros k Hk. pose proof reference_checked as H.
  rewrite forallb_forall in H. specialize (H k Hk).
  unfold reference_ok in H. cbv zeta in H.
  apply andb_true_iff in H. destruct H as [_ H]. exact H.
Qed.

(** The round trip on the reference engine. *)
Lemma note_roundtrip_witness :
  Engine.Math_pow 2 0 = 1
  /\ Engine.Math_log2 1 = 0
  /\ (forall (note_ : string) (octave_ f : float),
         In (note_, octave_, f) (getPianoNotes Engine.Math_pow) ->
         f = noteToFrequency Engine.Math_pow note_ octave_
         /\ exists r,
             frequencyToNote Engine.Math_log2 f = Some r
             /\ note r = Some note_
             /\ octave r = octave_
             /\ (-1 <=? cents r) = true /\ (cents r <=? 1) = true)
  /\ List.length (getPianoNotes Engine.Math_pow) = 88%nat
  /\ noteToFrequency Engine.Math_pow "A" 4 = 440
  /\ frequencyToNote Engine.Math_log2 440
     = Some {| frequency := 440; note := Some "A"%string;
               octave := 4; cents := 0 |}.
Proof.
  split; [exact reference_pow_zero|]. split; [exact reference_log2_one|].
  exact (note_roundtrip Engine.Math_log2 Engine.Math_pow
                        reference_pow_zero reference_log2_one
                        reference_pow_range reference_log2_accuracy).
Defined.

End NoteRoundtrip.

(** ** [detectPitchYIN] on short and on constant buffers *)

Module YinFlat.

Import MoreProps Loops ArrayFacts FloatFacts YinSilence.
Local Open Scope float_scope.

Lemma length_difference_row (buffer a : list float) (tau : Z) :
  length (difference_row buffer a tau) = length a.
Proof.
  unfold difference_row.
  destruct (Z.le_gt_cases 0 (length a)) as [H|H].
  - apply (fold_range_inv (fun _ a' => length a' = length a)); [exact H| |].
    + apply length_set.
    + intros i a' _ Ha'. unfold difference_step. now rewrite length_set.
  - unfold length in H. lia.
Qed.

Lemma length_difference (buffer a : list float) :
  length (difference buffer a) = length a.
Proof.
  unfold difference.
  apply (fold_range_inv (fun _ a' => length a' = length a)).
  - unfold length. lia.
  - reflexivity.
  - intros i a' _ Ha'. now rewrite length_difference_row.
Qed.

Lemma length_yin (buffer : list float) :
  length (yin buffer) = (length buffer / 2)%Z.
Proof.
  unfold yin. rewrite length_normalize, length_difference.
  apply length_Float32Array.
  apply Z.div_pos; [unfold length|]; lia.
Qed.

(** X1.  A buffer of fewer than six samples has no lag to test. *)
Theorem detectPitchYIN_short_buffer :
  forall (buffer : list float) (sampleRate threshold : float),
    (length buffer < 6)%Z ->
    detectPitchYIN buffer sampleRate threshold = None.
Proof.
  intros buffer sampleRate threshold H.
  unfold detectPitchYIN, tauEstimate. rewrite length_yin.
  assert (Hk : (length buffer / 2 <= 2)%Z).
  { apply Z.lt_succ_r. apply Z.div_lt_upper_bound; lia. }
  rewrite range_nil by lia. reflexivity.
Qed.

Lemma detectPitchYIN_short_buffer_witness :
  (length ([0.5; -0.5; 0.5; -0.5; 0.5]%float) < 6)%Z
  /\ detectPitchYIN [0.5; -0.5; 0.5; -0.5; 0.5] 44100 default_threshold = None.
Proof.
  split; [reflexivity|].
  apply detectPitchYIN_short_buffer. reflexivity.
Defined.

Lemma difference_step_flat (buffer : list float) (k tau i : Z) (a : list float) :
  (0 <= tau < k)%Z -> (0 <= i < k)%Z -> flat k buffer ->
  all_zero k a -> all_zero k (difference_step buffer tau a i).
Proof.
  intros Ht Hi Hf [Hlen Hz]. unfold difference_step. split.
  - now rewrite length_set.
  - intros j Hj. rewrite get_set, Hlen.
    destruct ((j =? tau)%Z && (0 <=? tau)%Z && (tau <? k)%Z)%bool; [|auto].
    rewrite (Hz tau Ht).
    rewrite square_zeroish by (apply Hf; lia).
    reflexivity.
Qed.

Lemma difference_row_flat (buffer : list float) (k tau : Z) (a : list float) :
  (0 <= tau < k)%Z -> flat k buffer ->
  all_zero k a -> all_zero k (difference_row buffer a tau).
Proof.
  intros Ht Hf [Hlen Hz]. unfold difference_row. rewrite Hlen.
  apply (fold_range_inv (fun _ a' => all_zero k a')); [lia| |].
  - split; [now rewrite length_set|].
    intros j Hj. rewrite get_set.
    destruct ((j =? tau)%Z && _ && _)%bool; [reflexivity|auto].
  - intros i a' Hi Ha'. now apply difference_step_flat.
Qed.

Lemma difference_flat (buffer : list float) (k : Z) (a : list float) :
  (0 <= k)%Z -> flat k buffer ->
  all_zero k a -> all_zero k (difference buffer a).
Proof.
  intros H0 Hf Ha. unfold difference. rewrite (proj1 Ha).
  apply (fold_range_inv (fun _ a' => all_zero k a')); [lia|exact Ha|].
  intros i a' Hi Ha'. now apply difference_row_flat.
Qed.

Lemma yin_flat (buffer : list float) (sampleRate threshold : float) :
  flat (length buffer / 2) buffer ->
  detectPitchYIN buffer sampleRate threshold = None.
Proof.
  intros Hf. unfold detectPitchYIN, tauEstimate.
  set (k := (length buffer / 2)%Z) in *.
  assert (Hk0 : (0 <= k)%Z).
  { unfold k, length. apply Z.div_pos; lia. }
  assert (Hz : all_zero k (difference buffer (Float32Array k))).
  { apply difference_flat; [exact Hk0|exact Hf|].
    split; [now apply length_Float32Array|].
    intros j Hj. now apply get_Float32Array. }
  unfold yin. fold k.
  rewrite find_none; [reflexivity|].
  intros tau Htau. apply In_range in Htau.
  rewrite length_normalize, (proj1 Hz) in Htau.
  rewrite (normalize_zero k) by (exact Hz || lia).
  apply ltb_nan_l.
Qed.

(** A finite number minus itself is a zero. *)
Lemma sub_self (c : float) : is_finite c = true -> zeroish (c - c).
Proof.
  intros Hc.
  assert (E : Prim2SF (c - c) = S754_zero false
              \/ Prim2SF (c - c) = S754_zero true).
  { rewrite sub_spec. unfold is_finite, is_nan, is_infinity in Hc.
    rewrite !eqb_spec, abs_spec in Hc.
    destruct (Prim2SF c) as [[|]|[|]| |s m e]; try discriminate;
      try (left; reflexivity); try (right; reflexivity).
    left. unfold SF64sub, SFsub, SFadd. cbn [SFopp].
    rewrite Z.min_id.
    unfold shl_align. rewrite Z.sub_diag.
    cbn [fst].
    destruct s; cbn [negb cond_Zopp];
      rewrite ?Z.add_opp_diag_r, ?Z.add_opp_diag_l; reflexivity. }
  destruct E as [E|E]; [left|right]; apply Prim2SF_inj; rewrite E; reflexivity.
Qed.

Lemma get_repeat (c : float) (n : nat) (i : Z) :
  (0 <= i < Z.of_nat n)%Z -> get (repeat c n) i = c.
Proof.
  intros H. unfold get. destruct (Z.ltb_spec i 0); [lia|].
  apply nth_repeat_lt. lia.
Qed.

(** X2.  A direct-current signal: every sample is the same finite number.  All
    differences are zero, so the buffer behaves like silence. *)
Theorem detectPitchYIN_constant_buffer :
  forall (c : float) (n : nat) (sampleRate threshold : float),
    is_finite c = true ->
    detectPitchYIN (repeat c n) sampleRate threshold = None.
Proof.
  intros c n sampleRate threshold Hc. apply yin_flat.
  assert (Hlen : length (repeat c n) = Z.of_nat n)
    by (unfold length; now rewrite repeat_length).
  rewrite Hlen. intros i j Hi Hj.
  assert (H2 : (2 * (Z.of_nat n / 2) <= Z.of_nat n)%Z)
    by (apply Z.mul_div_le; lia).
  rewrite !get_repeat by lia. now apply sub_self.
Qed.

Lemma detectPitchYIN_constant_buffer_witness :
  is_finite 0.25 = true
  /\ detectPitchYIN (repeat 0.25 64) 44100 default_threshold = None.
Proof.
  split; [reflexivity|].
  apply detectPitchYIN_constant_buffer. reflexivity.
Defined.

End YinFlat.

(** ** The beat history is a queue *)

Module BeatQueue.

Import MoreProps Loops Beat.
Local Open Scope float_scope.

Lemma lastn_app1 {A : Type} (n : nat) (l : list A) (x : A) :
  lastn (S n) (l ++ [x]) = (lastn n l ++ [x])%list.
Proof.
  unfold lastn. rewrite length_app. cbn [List.length].
  replace (List.length l + 1 - S n)%nat with (List.length l - n)%nat by lia.
  rewrite skipn_app.
  replace (List.length l - n - List.length l)%nat with 0%nat by lia.
  reflexivity.
Qed.

Lemma lastn_all {A : Type} (n : nat) (l : list A) :
  (List.length l <= n)%nat -> lastn n l = l.
Proof.
  intros H. unfold lastn.
  replace (List.length l - n)%nat with 0%nat by lia. reflexivity.
Qed.

Lemma length_lastn {A : Type} (n : nat) (l : list A) :
  List.length (lastn n l) = Nat.min n (List.length l).
Proof. unfold lastn. rewrite length_skipn. lia. Qed.

Lemma tl_skipn {A : Type} (k : nat) (l : list A) :
  tl (skipn k l) = skipn (S k) l.
Proof.
  revert l. induction k as [|k IH]; intros [|x l]; try reflexivity.
  change (skipn (S k) (x :: l)) with (skipn k l).
  change (skipn (S (S k)) (x :: l)) with (skipn (S k) l).
  apply IH.
Qed.

Lemma tl_lastn {A : Type} (n : nat) (l : list A) :
  (n < List.length l)%nat -> tl (lastn (S n) l) = lastn n l.
Proof.
  intros H. unfold lastn. rewrite tl_skipn. f_equal. lia.
Qed.

Lemma push_energy_lastn (es : list float) (e : float) :
  push_energy (lastn 43 es) e = lastn 43 (es ++ [e]).
Proof.
  unfold push_energy, HISTORY_SIZE, length.
  rewrite length_app, length_lastn. cbn [List.length].
  destruct (Nat.le_gt_cases 43 (List.length es)) as [H|H].
  - rewrite Nat.min_l by lia.
    destruct (Z.ltb_spec 43 (Z.of_nat (43 + 1))); [|lia].
    rewrite <- lastn_app1.
    rewrite <- (tl_lastn 43 (es ++ [e])); [reflexivity|].
    rewrite length_app. cbn. lia.
  - rewrite Nat.min_r by lia.
    destruct (Z.ltb_spec 43 (Z.of_nat (List.length es + 1))); [lia|].
    rewrite (lastn_all 43 es) by lia.
    rewrite lastn_all; [reflexivity|]. rewrite length_app. cbn. lia.
Qed.

Lemma run_energies (calls : list call) (h es : list float) :
  h = lastn 43 es ->
  fold_left run_call calls h = lastn 43 (fold_left energies_step calls es).
Proof.
  revert h es. induction calls as [|c calls IH]; intros h es Hh.
  - exact Hh.
  - cbn [fold_left]. apply IH. subst h.
    destruct c as [frequencyData sensitivity|].
    + cbn [run_call energies_step detectBeat snd].
      apply push_energy_lastn.
    + reflexivity.
Qed.

(** X3.  After any sequence of calls the history holds the energies of the most
    recent [detectBeat] calls since the last reset, 43 at most, oldest
    first. *)
Theorem history_is_recent_energies :
  forall (calls : list call), run calls = lastn 43 (energies calls).
Proof.
  intros calls. unfold run, energies. now apply run_energies.
Qed.

End BeatQueue.

(** ** The order of binary64 numbers *)

Module Order.

Import OrderProps Loops Rounding FloatFacts Scan Comparison.

Lemma scaled_bound (s : bool) (m : positive) (e : Z) :
  valid_binary (S754_finite s m e) = true ->
  - 2 ^ 2200 < scaled (S754_finite s m e) < 2 ^ 2200.
Proof.
  intros V. pose proof V as V'.
  rewrite (cond_Zopp_valid s) in V'. apply valid_shape in V'.
  destruct V' as (He & Hm & _).
  unfold valid_binary, bounded in V. apply andb_true_iff in V.
  destruct V as [_ Hb]. apply Z.leb_le in Hb.
  change (emax - prec) with 971 in Hb.
  assert (H1 : 0 < 2 ^ (e + 1074)) by (apply Z.pow_pos_nonneg; lia).
  assert (H2 : 2 ^ (e + 1074) <= 2 ^ 2045) by (apply Z.pow_le_mono_r; lia).
  assert (H3 : 2 ^ 53 * 2 ^ 2045 <= 2 ^ 2200).
  { rewrite <- Z.pow_add_r by lia. apply Z.pow_le_mono_r; lia. }
  assert (H4 : 0 < 2 ^ 53) by (apply Z.pow_pos_nonneg; lia).
  cbn [scaled].
  generalize dependent (2 ^ 2200). generalize dependent (2 ^ 2045).
  generalize dependent (2 ^ (e + 1074)). generalize dependent (2 ^ 53).
  intros D Hm HD T HT C HC B HB.
  assert (Zpos m * T < D * C).
  { apply Z.lt_le_trans with (D * T); [nia|].
    apply Z.mul_le_mono_nonneg_l; lia. }
  destruct s; cbn [cond_Zopp]; nia.
Qed.

(** Comparing two numbers is comparing their ranks. *)
Lemma SFcompare_rank (x y : spec_float) :
  valid_binary x = true -> valid_binary y = true ->
  x <> S754_nan -> y <> S754_nan ->
  SFcompare x y = Some (rank x ?= rank y).
Proof.
  intros Vx Vy Nx Ny.
  assert (P : 0 < 2 ^ 2200) by (apply Z.pow_pos_nonneg; lia).
  destruct x as [sx|sx| |sx mx ex]; try congruence;
    destruct y as [sy|sy| |sy my ey]; try congruence;
    try (apply SFcompare_scaled; (assumption || exact I)).
  - cbn [SFcompare rank scaled].
    generalize dependent (2 ^ 2200). intros B P.
    destruct sy; f_equal; symmetry.
    + apply Z.compare_gt_iff. lia.
    + apply Z.compare_lt_iff. lia.
  - cbn [SFcompare rank scaled].
    generalize dependent (2 ^ 2200). intros B P.
    destruct sx; f_equal; symmetry.
    + apply Z.compare_lt_iff. lia.
    + apply Z.compare_gt_iff. lia.
  - cbn [SFcompare rank].
    generalize dependent (2 ^ 2200). intros B P.
    destruct sx, sy; f_equal; symmetry.
    + apply Z.compare_refl.
    + apply Z.compare_lt_iff. lia.
    + apply Z.compare_gt_iff. lia.
    + apply Z.compare_refl.
  - pose proof (scaled_bound sy my ey Vy) as B.
    cbn [SFcompare rank].
    generalize dependent (scaled (S754_finite sy my ey)).
    generalize dependent (2 ^ 2200). intros B P v Hv.
    destruct sx; f_equal; symmetry.
    + apply Z.compare_lt_iff. lia.
    + apply Z.compare_gt_iff. lia.
  - pose proof (scaled_bound sx mx ex Vx) as B.
    cbn [SFcompare rank].
    generalize dependent (scaled (S754_finite sx mx ex)).
    generalize dependent (2 ^ 2200). intros B P v Hv.
    destruct sy; f_equal; symmetry.
    + apply Z.compare_gt_iff. lia.
    + apply Z.compare_lt_iff. lia.
Qed.

Lemma compare_frank (x y : float) :
  number x -> number y ->
  SFcompare (Prim2SF x) (Prim2SF y) = Some (frank x ?= frank y).
Proof.
  intros Nx Ny. apply SFcompare_rank; auto using Prim2SF_valid.
Qed.

Lemma compare_nan_l (y : spec_float) : SFcompare S754_nan y = None.
Proof. reflexivity. Qed.

Lemma compare_nan_r (x : spec_float) : SFcompare x S754_nan = None.
Proof. destruct x; reflexivity. Qed.

(** [x <= y] and [x < y] on numbers, read on the ranks. *)
Lemma leb_frank (x y : float) :
  (x <=? y)%float = true <-> number x /\ number y /\ frank x <= frank y.
Proof.
  rewrite leb_spec. unfold SFleb. split.
  - intros H.
    assert (Nx : number x).
    { intros E. rewrite E, compare_nan_l in H. discriminate. }
    assert (Ny : number y).
    { intros E. rewrite E, compare_nan_r in H. discriminate. }
    rewrite (compare_frank x y Nx Ny) in H.
    repeat split; try assumption.
    destruct (Z.compare_spec (frank x) (frank y)); try discriminate; lia.
  - intros (Nx & Ny & H). rewrite (compare_frank x y Nx Ny).
    destruct (Z.compare_spec (frank x) (frank y)); try reflexivity; lia.
Qed.

Lemma ltb_frank (x y : float) :
  (x <? y)%float = true <-> number x /\ number y /\ frank x < frank y.
Proof.
  rewrite ltb_spec. unfold SFltb. split.
  - intros H.
    assert (Nx : number x).
    { intros E. rewrite E, compare_nan_l in H. discriminate. }
    assert (Ny : number y).
    { intros E. rewrite E, compare_nan_r in H. discriminate. }
    rewrite (compare_frank x y Nx Ny) in H.
    repeat split; try assumption.
    destruct (Z.compare_spec (frank x) (frank y)); try discriminate; lia.
  - intros (Nx & Ny & H). rewrite (compare_frank x y Nx Ny).
    destruct (Z.compare_spec (frank x) (frank y)); try reflexivity; lia.
Qed.

Lemma leb_false_frank (x y : float) :
  number x -> number y -> (x <=? y)%float = false -> frank y < frank x.
Proof.
  intros Nx Ny H. destruct (Z.lt_ge_cases (frank y) (frank x)); [assumption|].
  assert (E : (x <=? y)%float = true) by (apply leb_frank; auto).
  congruence.
Qed.

Lemma ltb_false_frank (x y : float) :
  number x -> number y -> (x <? y)%float = false -> frank y <= frank x.
Proof.
  intros Nx Ny H. destruct (Z.le_gt_cases (frank y) (frank x)); [assumption|].
  assert (E : (x <? y)%float = true) by (apply ltb_frank; auto).
  congruence.
Qed.

(** The rank of an integer. *)
Lemma frank_of_Z (n : Z) :
  - 2 ^ 53 < n < 2 ^ 53 -> frank (JS.of_Z n) = n * 2 ^ 1074.
Proof.
  intros Hn. unfold frank.
  assert (Hpos : forall p, Zpos p < 2 ^ 53 ->
                           rank (Prim2SF (JS.of_Z (Zpos p)))
                           = Zpos p * 2 ^ 1074).
  { intros p Hp. rewrite of_Z_canon by lia.
    destruct (canon_normal (Zpos p)) as (m & e & (E & D & R) & I & V); [lia|].
    rewrite E. cbn [rank scaled cond_Zopp]. rewrite V.
    rewrite <- Z.mul_assoc, <- Z.pow_add_r by lia.
    f_equal. f_equal. lia. }
  destruct n as [|p|p].
  - reflexivity.
  - apply Hpos. lia.
  - assert (Hp : Zpos p < 2 ^ 53) by lia.
    specialize (Hpos p Hp).
    change (JS.of_Z (Zneg p)) with (- (JS.of_Z (Zpos p)))%float.
    rewrite opp_spec.
    rewrite of_Z_canon in * by lia.
    destruct (canon_normal (Zpos p)) as (m & e & (E' & _) & _); [lia|].
    rewrite E' in *. cbn [SFopp rank scaled negb cond_Zopp] in *.
    change (Z.neg m) with (- Zpos m). change (Z.neg p) with (- Zpos p).
    rewrite !Z.mul_opp_l. f_equal. exact Hpos.
Qed.

Lemma number_of_Z (n : Z) : - 2 ^ 53 < n < 2 ^ 53 -> number (JS.of_Z n).
Proof.
  intros Hn. unfold number.
  destruct n as [|p|p].
  - discriminate.
  - rewrite of_Z_canon by lia.
    destruct (canon_normal (Zpos p)) as (m & e & (E & _) & _); [lia|].
    rewrite E. discriminate.
  - change (JS.of_Z (Zneg p)) with (- (JS.of_Z (Zpos p)))%float.
    rewrite opp_spec, of_Z_canon by lia.
    destruct (canon_normal (Zpos p)) as (m & e & (E & _) & _); [lia|].
    rewrite E. discriminate.
Qed.

Lemma unit_pos : 0 < 2 ^ 1074.
Proof. apply Z.pow_pos_nonneg; lia. Qed.

Lemma ltb_of_Z (a b : Z) :
  - 2 ^ 53 < a < 2 ^ 53 -> - 2 ^ 53 < b < 2 ^ 53 ->
  (JS.of_Z a <? JS.of_Z b)%float = (a <? b).
Proof.
  intros Ha Hb. pose proof unit_pos as U.
  destruct (Z.ltb_spec a b) as [H|H].
  - apply ltb_frank. repeat split; try now apply number_of_Z.
    rewrite !frank_of_Z by assumption.
    now apply Z.mul_lt_mono_pos_r.
  - destruct (JS.of_Z a <? JS.of_Z b)%float eqn:E; [|reflexivity].
    apply ltb_frank in E. destruct E as (_ & _ & E).
    rewrite !frank_of_Z in E by assumption.
    apply Z.mul_lt_mono_pos_r in E; [lia|exact U].
Qed.

Lemma leb_of_Z (a b : Z) :
  - 2 ^ 53 < a < 2 ^ 53 -> - 2 ^ 53 < b < 2 ^ 53 ->
  (JS.of_Z a <=? JS.of_Z b)%float = (a <=? b).
Proof.
  intros Ha Hb. pose proof unit_pos as U.
  destruct (Z.leb_spec a b) as [H|H].
  - apply leb_frank. repeat split; try now apply number_of_Z.
    rewrite !frank_of_Z by assumption.
    now apply Z.mul_le_mono_pos_r.
  - destruct (JS.of_Z a <=? JS.of_Z b)%float eqn:E; [|reflexivity].
    apply leb_frank in E. destruct E as (_ & _ & E).
    rewrite !frank_of_Z in E by assumption.
    apply Z.mul_le_mono_pos_r in E; [lia|exact U].
Qed.

Lemma leb_number (x y : float) :
  number x -> number y -> (x <=? y)%float = (frank x <=? frank y).
Proof.
  intros Nx Ny. destruct (Z.leb_spec (frank x) (frank y)) as [H|H].
  - apply leb_frank. auto.
  - destruct (x <=? y)%float eqn:E; [|reflexivity].
    apply leb_frank in E. lia.
Qed.

Lemma ltb_number (x y : float) :
  number x -> number y -> (x <? y)%float = (frank x <? frank y).
Proof.
  intros Nx Ny. destruct (Z.ltb_spec (frank x) (frank y)) as [H|H].
  - apply ltb_frank. auto.
  - destruct (x <? y)%float eqn:E; [|reflexivity].
    apply ltb_frank in E. lia.
Qed.

Lemma not_number (x : float) : ~ number x -> x = nan.
Proof.
  intros H. apply Prim2SF_inj. unfold number in H.
  destruct (Prim2SF x); try (exfalso; apply H; discriminate). reflexivity.
Qed.

Lemma number_dec (x : float) : number x \/ x = nan.
Proof.
  destruct (Prim2SF x) eqn:E;
    try (left; unfold number; rewrite E; discriminate).
  right. apply Prim2SF_inj. rewrite E. reflexivity.
Qed.

End Order.

(** ** [getInstrumentBand] *)

Module InstrumentBand.

Import Instruments OrderProps Order.
Local Open Scope float_scope.

Lemma frank_const (n : Z) (c : float) :
  c = JS.of_Z n -> (- 2 ^ 53 < n < 2 ^ 53)%Z ->
  number c /\ frank c = (n * 2 ^ 1074)%Z.
Proof.
  intros -> Hn. split; [now apply number_of_Z|now apply frank_of_Z].
Qed.

(** X4.  The bands partition [20, 20000): a frequency in that interval is in
    exactly one band, the one [getInstrumentBand] returns; every other
    frequency, and [NaN], gets [null]. *)
Theorem getInstrumentBand_partition :
  forall (frequency : float),
    (getInstrumentBand frequency = None
     <-> (20 <=? frequency) && (frequency <? 20000) = false)
    /\ (forall band,
           getInstrumentBand frequency = Some band ->
           In band INSTRUMENT_BANDS
           /\ (minFreq band <=? frequency) = true
           /\ (frequency <? maxFreq band) = true
           /\ forall other,
                In other INSTRUMENT_BANDS ->
                (minFreq other <=? frequency) = true ->
                (frequency <? maxFreq other) = true ->
                other = band).
Proof.
  intros f.
  destruct (number_dec f) as [Nf| ->].
  2:{ split; [split; reflexivity|]. intros band H. discriminate. }
  pose proof unit_pos as U.
  assert (L20 : (20 <=? f) = (20 * 2 ^ 1074 <=? frank f)%Z).
  { destruct (frank_const 20 20 eq_refl ltac:(lia)) as [N F].
    rewrite leb_number, F by assumption. reflexivity. }
  assert (T20 : (f <? 20) = (frank f <? 20 * 2 ^ 1074)%Z).
  { destruct (frank_const 20 20 eq_refl ltac:(lia)) as [N F].
    rewrite ltb_number, F by assumption. reflexivity. }
  assert (L60 : (60 <=? f) = (60 * 2 ^ 1074 <=? frank f)%Z).
  { destruct (frank_const 60 60 eq_refl ltac:(lia)) as [N F].
    rewrite leb_number, F by assumption. reflexivity. }
  assert (T60 : (f <? 60) = (frank f <? 60 * 2 ^ 1074)%Z).
  { destruct (frank_const 60 60 eq_refl ltac:(lia)) as [N F].
    rewrite ltb_number, F by assumption. reflexivity. }
  assert (L250 : (250 <=? f) = (250 * 2 ^ 1074 <=? frank f)%Z).
  { destruct (frank_const 250 250 eq_refl ltac:(lia)) as [N F].
    rewrite leb_number, F by assumption. reflexivity. }
  assert (T250 : (f <? 250) = (frank f <? 250 * 2 ^ 1074)%Z).
  { destruct (frank_const 250 250 eq_refl ltac:(lia)) as [N F].
    rewrite ltb_number, F by assumption. reflexivity. }
  assert (L500 : (500 <=? f) = (500 * 2 ^ 1074 <=? frank f)%Z).
  { destruct (frank_const 500 500 eq_refl ltac:(lia)) as [N F].
    rewrite leb_number, F by assumption. reflexivity. }
  assert (T500 : (f <? 500) = (frank f <? 500 * 2 ^ 1074)%Z).
  { destruct (frank_const 500 500 eq_refl ltac:(lia)) as [N F].
    rewrite ltb_number, F by assumption. reflexivity. }
  assert (L2000 : (2000 <=? f) = (2000 * 2 ^ 1074 <=? frank f)%Z).
  { destruct (frank_const 2000 2000 eq_refl ltac:(lia)) as [N F].
    rewrite leb_number, F by assumption. reflexivity. }
  assert (T2000 : (f <? 2000) = (frank f <? 2000 * 2 ^ 1074)%Z).
  { destruct (frank_const 2000 2000 eq_refl ltac:(lia)) as [N F].
    rewrite ltb_number, F by assumption. reflexivity. }
  assert (L4000 : (4000 <=? f) = (4000 * 2 ^ 1074 <=? frank f)%Z).
  { destruct (frank_const 4000 4000 eq_refl ltac:(lia)) as [N F].
    rewrite leb_number, F by assumption. reflexivity. }
  assert (T4000 : (f <? 4000) = (frank f <? 4000 * 2 ^ 1074)%Z).
  { destruct (frank_const 4000 4000 eq_refl ltac:(lia)) as [N F].
    rewrite ltb_number, F by assumption. reflexivity. }
  assert (L6000 : (6000 <=? f) = (6000 * 2 ^ 1074 <=? frank f)%Z).
  { destruct (frank_const 6000 6000 eq_refl ltac:(lia)) as [N F].
    rewrite leb_number, F by assumption. reflexivity. }
  assert (T6000 : (f <? 6000) = (frank f <? 6000 * 2 ^ 1074)%Z).
  { destruct (frank_const 6000 6000 eq_refl ltac:(lia)) as [N F].
    rewrite ltb_number, F by assumption. reflexivity. }
  assert (L20000 : (20000 <=? f) = (20000 * 2 ^ 1074 <=? frank f)%Z).
  { destruct (frank_const 20000 20000 eq_refl ltac:(lia)) as [N F].
    rewrite leb_number, F by assumption. reflexivity. }
  assert (T20000 : (f <? 20000) = (frank f <? 20000 * 2 ^ 1074)%Z).
  { destruct (frank_const 20000 20000 eq_refl ltac:(lia)) as [N F].
    rewrite ltb_number, F by assumption. reflexivity. }
  unfold getInstrumentBand, INSTRUMENT_BANDS.
  cbn [find minFreq maxFreq In].
  rewrite ?L20, ?T20, ?L60, ?T60, ?L250, ?T250, ?L500, ?T500, ?L2000, ?T2000, ?L4000, ?T4000, ?L6000, ?T6000, ?L20000, ?T20000.
  clear Nf. revert L20 T20 L60 T60 L250 T250 L500 T500 L2000 T2000 L4000 T4000 L6000 T6000 L20000 T20000.
  generalize dependent (2 ^ 1074)%Z. intros u U.
  generalize (frank f). intros r.
  intros L20 T20 L60 T60 L250 T250 L500 T500 L2000 T2000 L4000 T4000 L6000 T6000 L20000 T20000.
  split.
  - repeat (match goal with
            | |- context [(?a <=? ?b)%Z] => destruct (Z.leb_spec a b)
            | |- context [(?a <? ?b)%Z] => destruct (Z.ltb_spec a b)
            end; try (exfalso; lia); cbn [andb]);
      split; intros Hx; try discriminate; try reflexivity; exfalso; lia.
  - intros band Hb.
    repeat (match type of Hb with
            | context [(?a <=? ?b)%Z] => destruct (Z.leb_spec a b)
            | context [(?a <? ?b)%Z] => destruct (Z.ltb_spec a b)
            end; try (exfalso; lia); cbn [andb] in Hb);
      try discriminate;
      injection Hb as <-; cbn [minFreq maxFreq];
      rewrite ?L20, ?T20, ?L60, ?T60, ?L250, ?T250, ?L500, ?T500, ?L2000, ?T2000, ?L4000, ?T4000, ?L6000, ?T6000, ?L20000, ?T20000;
      (split; [tauto|]);
      (split; [first [reflexivity | apply Z.leb_le; lia]|]);
      (split; [first [reflexivity | apply Z.ltb_lt; lia]|]);
      intros other Ho Hlo Hhi;
      repeat (destruct Ho as [<-|Ho]; [|]); try contradiction;
      cbn [minFreq maxFreq] in Hlo, Hhi;
      rewrite ?L20, ?L60, ?L250, ?L500, ?L2000, ?L4000, ?L6000, ?L20000 in Hlo;
      rewrite ?T20, ?T60, ?T250, ?T500, ?T2000, ?T4000, ?T6000, ?T20000 in Hhi;
      try discriminate Hlo; try discriminate Hhi;
      try apply Z.leb_le in Hlo; try apply Z.ltb_lt in Hhi;
      try reflexivity; exfalso; lia.
Qed.

End InstrumentBand.

(** ** [calculateRMS], [calculatePeak] and [calculateSpectralCentroid] *)

Module LevelFacts.

Import Levels MoreProps OrderProps LevelProps Loops Rounding FloatFacts Scan Order.
Local Open Scope float_scope.

Lemma byte_at_app (l1 l2 : list Z) (b : Z) :
  byte_at (l1 ++ b :: l2) (length l1) = JS.of_Z b.
Proof.
  unfold byte_at, length.
  destruct (Z.ltb_spec (Z.of_nat (List.length l1)) 0); [lia|].
  rewrite Nat2Z.id, nth_error_app2 by lia.
  rewrite Nat.sub_diag. reflexivity.
Qed.

(** A loop over the indices of a byte array is a fold over its bytes. *)
Lemma fold_bytes {S : Type} (g : S -> float -> S) (l1 l2 : list Z) (s : S) :
  fold_left (fun acc i => g acc (byte_at (l1 ++ l2) i))
            (range (length l1) (length (l1 ++ l2))) s
  = fold_left (fun acc b => g acc (JS.of_Z b)) l2 s.
Proof.
  revert l1 s. induction l2 as [|b l2 IH]; intros l1 s.
  - rewrite app_nil_r, range_nil by lia. reflexivity.
  - rewrite range_cons
      by (unfold length; rewrite length_app; cbn [List.length]; lia).
    cbn [fold_left]. rewrite byte_at_app.
    replace (l1 ++ b :: l2)%list with ((l1 ++ [b]) ++ l2)%list
      by (rewrite <- app_assoc; reflexivity).
    replace (length l1 + 1)%Z with (length (l1 ++ [b]))
      by (unfold length; rewrite length_app; cbn [List.length]; lia).
    apply IH.
Qed.

Lemma fold_bytes0 {S : Type} (g : S -> float -> S) (l : list Z) (s : S) :
  fold_left (fun acc i => g acc (byte_at l i)) (range 0 (length l)) s
  = fold_left (fun acc b => g acc (JS.of_Z b)) l s.
Proof. exact (fold_bytes g [] l s). Qed.

(** *** [calculatePeak] *)

Lemma bytes_checked :
  forallb (fun b => PrimFloat.Leibniz.eqb (abs (JS.of_Z b - 128))
                                          (JS.of_Z (Z.abs (b - 128))))
          (range 0 256) = true.
Proof. vm_compute. reflexivity. Qed.

Lemma abs_deviation (b : Z) :
  (0 <= b <= 255)%Z -> abs (JS.of_Z b - 128) = JS.of_Z (Z.abs (b - 128)).
Proof.
  intros Hb. pose proof bytes_checked as H. rewrite forallb_forall in H.
  apply FloatAxioms.Leibniz.eqb_spec. apply H. apply In_range. lia.
Qed.

Lemma peaks_checked :
  forallb (fun m => let p := JS.of_Z m / 128 in
                    (0 <=? p) && (p <=? 1)
                    && Bool.eqb (PrimFloat.Leibniz.eqb p 0) (m =? 0)%Z)
          (range 0 129) = true.
Proof. vm_compute. reflexivity. Qed.

Lemma deviation_step (l : list Z) (m : Z) :
  bytes l -> (0 <= m <= 128)%Z ->
  let d := fold_left (fun m b => Z.max m (Z.abs (b - 128))) l m in
  (m <= d <= 128)%Z
  /\ fold_left (fun max b =>
                  let value := abs (JS.of_Z b - 128) in
                  if max <? value then value else max)
               l (JS.of_Z m)
     = JS.of_Z d
  /\ (d = 0%Z <-> m = 0%Z /\ Forall (fun b => b = 128%Z) l).
Proof.
  intros Hl. revert m. induction Hl as [|b l Hb Hl IH]; intros m Hm.
  - cbn. repeat split; try lia; try tauto. constructor.
  - cbn [fold_left]. cbv zeta.
    rewrite abs_deviation by assumption.
    rewrite ltb_of_Z
      by (change (2 ^ 53)%Z with 9007199254740992%Z; lia).
    set (v := Z.abs (b - 128)).
    assert (Hv : (0 <= v <= 128)%Z) by (unfold v; lia).
    assert (E : (if (m <? v)%Z then JS.of_Z v else JS.of_Z m)
                = JS.of_Z (Z.max m v)).
    { destruct (Z.ltb_spec m v); f_equal; lia. }
    rewrite E.
    destruct (IH (Z.max m v) ltac:(lia)) as (H1 & H2 & H3).
    cbv zeta in H1, H2, H3.
    split; [lia|]. split; [assumption|]. split.
    + intros Hd. apply H3 in Hd. destruct Hd as [Hd Hf].
      split; [lia|]. constructor; [unfold v in *; lia|assumption].
    + intros [H0 Hf]. apply H3. inversion Hf; subst.
      split; [unfold v; lia|assumption].
Qed.

(** X5.  The peak of a byte buffer is the largest distance from the centre 128,
    over 128: it lies in [0, 1], and it is 0 exactly when every sample is
    128 (in particular for the empty buffer). *)
Theorem calculatePeak_spec :
  forall (dataArray : list Z),
    bytes dataArray ->
    calculatePeak dataArray = JS.of_Z (deviation dataArray) / 128
    /\ (0 <= deviation dataArray <= 128)%Z
    /\ (0 <=? calculatePeak dataArray) = true
    /\ (calculatePeak dataArray <=? 1) = true
    /\ (calculatePeak dataArray = 0
        <-> Forall (fun b => b = 128%Z) dataArray).
Proof.
  intros dataArray Hb. unfold calculatePeak.
  rewrite (fold_bytes0
             (fun max v => let value := abs (v - 128) in
                           if max <? value then value else max)).
  destruct (deviation_step dataArray 0 Hb ltac:(lia)) as (H1 & H2 & H3).
  cbv zeta in H1, H2, H3. fold (deviation dataArray) in H1, H2, H3.
  change (JS.of_Z 0) with 0 in H2. cbv beta zeta. rewrite H2.
  pose proof peaks_checked as P. rewrite forallb_forall in P.
  specialize (P (deviation dataArray)).
  rewrite In_range in P. specialize (P ltac:(lia)). cbv zeta in P.
  apply andb_true_iff in P. destruct P as [P P3].
  apply andb_true_iff in P. destruct P as [P1 P2].
  repeat split; try assumption; try lia.
  - intros E. apply H3.
    destruct (Z.eqb_spec (deviation dataArray) 0) as [E0|E0]; [assumption|].
    rewrite E in P3. discriminate.
  - intros Hf. destruct H3 as [_ H3]. rewrite H3 by (split; [reflexivity|assumption]).
    reflexivity.
Qed.

Lemma calculatePeak_spec_witness :
  bytes [128; 0; 255; 64]%Z
  /\ calculatePeak [128; 0; 255; 64]%Z = 1
  /\ (calculatePeak [128; 0; 255; 64]%Z <=? 1) = true.
Proof.
  assert (H : bytes [128; 0; 255; 64]%Z)
    by (repeat constructor; lia).
  destruct (calculatePeak_spec _ H) as (E & _ & _ & Hle & _).
  split; [exact H|]. split; [|exact Hle].
  rewrite E. reflexivity.
Defined.

(** *** [calculateRMS] *)

Lemma good_number (x : float) : good (Prim2SF x) -> (0 <=? x) = true.
Proof.
  rewrite leb_spec. change (Prim2SF 0) with (S754_zero false).
  destruct (Prim2SF x) as [s|s| |s m e]; cbn; intros H; subst;
    try reflexivity; contradiction.
Qed.

Lemma shr_nonneg (mrs : shr_record) (e n : Z) :
  (0 <= shr_m mrs)%Z -> (0 <= shr_m (fst (shr mrs e n)))%Z.
Proof.
  intros H. destruct n as [|p|p]; cbn [shr fst]; try assumption.
  rewrite iter_pos_nat. destruct mrs as [m r s]. cbn [shr_m] in H.
  rewrite shr_m_iter by assumption.
  apply Z.div_pos; [assumption|]. apply Z.pow_pos_nonneg; lia.
Qed.

Lemma shr_fexp_nonneg (m e : Z) (l : location) :
  (0 <= m)%Z -> (0 <= shr_m (fst (shr_fexp prec emax m e l)))%Z.
Proof.
  intros H. unfold shr_fexp. apply shr_nonneg.
  destruct l as [|[| |]]; exact H.
Qed.

(** Rounding a mantissa that is not negative never gives [NaN]. *)
Lemma good_round (m e : Z) (l : location) :
  (0 <= m)%Z -> good (binary_round_aux prec emax false m e l).
Proof.
  intros Hm. unfold binary_round_aux.
  pose proof (shr_fexp_nonneg m e l Hm) as H1.
  destruct (shr_fexp prec emax m e l) as [mrs' e']. cbn [fst] in H1.
  pose proof (round_nearest_even_bounds (shr_m mrs') (loc_of_shr_record mrs'))
    as Hr.
  pose proof (shr_fexp_nonneg
                (round_nearest_even (shr_m mrs') (loc_of_shr_record mrs'))
                e' loc_Exact ltac:(lia)) as H2.
  destruct (shr_fexp prec emax _ e' loc_Exact) as [mrs'' e''].
  cbn [fst] in H2.
  destruct (shr_m mrs''); try reflexivity; [|lia].
  destruct (e'' <=? emax - prec)%Z; reflexivity.
Qed.

Lemma good_normalize (n e : Z) :
  (0 <= n)%Z -> good (binary_normalize prec emax n e false).
Proof.
  intros Hn. destruct n as [|p|p]; try lia; cbn [binary_normalize].
  - reflexivity.
  - unfold binary_round. destruct (shl_align _ _ _). apply good_round. lia.
Qed.

Lemma good_add (x y : float) :
  good (Prim2SF x) -> good (Prim2SF y) -> good (Prim2SF (x + y)).
Proof.
  rewrite add_spec.
  destruct (Prim2SF x) as [sx|sx| |sx mx ex],
           (Prim2SF y) as [sy|sy| |sy my ey]; cbn;
    intros Hx Hy; subst; try exact I; try reflexivity; try contradiction.
  apply good_normalize. cbn [cond_Zopp]. lia.
Qed.

Lemma good_square (x : float) : number x -> good (Prim2SF (x * x)).
Proof.
  unfold number. rewrite mul_spec.
  destruct (Prim2SF x) as [s|s| |s m e]; cbn; intros H;
    try apply xorb_nilpotent; try congruence.
  rewrite xorb_nilpotent. apply good_round. lia.
Qed.

Lemma good_div (x y : float) (m : positive) (e : Z) :
  good (Prim2SF x) -> Prim2SF y = S754_finite false m e ->
  good (Prim2SF (x / y)).
Proof.
  rewrite div_spec. intros Hx ->.
  destruct (Prim2SF x) as [sx|sx| |sx mx ex]; cbn in *; subst;
    try reflexivity; try contradiction.
  unfold SFdiv_core_binary.
  set (m' := match _ with Z0 => _ | Zpos _ => _ | Zneg _ => _ end).
  assert (Hm' : (0 <= m')%Z).
  { unfold m'. destruct (_ - _ - _)%Z; try lia.
    rewrite Z.shiftl_mul_pow2 by lia.
    assert (0 < 2 ^ Zpos p)%Z by (apply Z.pow_pos_nonneg; lia). lia. }
  pose proof (Z.div_pos m' (Zpos m) Hm' ltac:(lia)) as Hq.
  unfold Z.div in Hq.
  destruct (Z.div_eucl m' (Zpos m)) as [q r]. cbn [fst] in Hq.
  apply good_round. exact Hq.
Qed.

Lemma good_sqrt (x : float) : good (Prim2SF x) -> good (Prim2SF (sqrt x)).
Proof.
  rewrite sqrt_spec.
  destruct (Prim2SF x) as [s|s| |s m e]; cbn; intros Hx; subst;
    try reflexivity; try contradiction.
  unfold SFsqrt_core_binary.
  set (m' := match _ with Z0 => _ | Zpos _ => _ | Zneg _ => _ end).
  pose proof (Z.sqrt_nonneg m') as Hq.
  rewrite <- Z.sqrtrem_sqrt in Hq.
  destruct (Z.sqrtrem m') as [q r]. cbn [fst] in Hq.
  apply good_round. exact Hq.
Qed.

Lemma squares_checked :
  forallb (fun b => 0 <=? square_term b) (range 0 256) = true.
Proof. vm_compute. reflexivity. Qed.

Lemma good_of_leb (x : float) :
  (0 <=? x) = true -> Prim2SF x <> S754_zero true -> good (Prim2SF x).
Proof.
  rewrite leb_spec. change (Prim2SF 0) with (S754_zero false).
  destruct (Prim2SF x) as [[|]|[|]| |[|] m e]; cbn; intros H N;
    try reflexivity; try discriminate; congruence.
Qed.

Lemma good_square_term (b : Z) :
  (0 <= b <= 255)%Z -> good (Prim2SF (square_term b)).
Proof.
  intros Hb. unfold square_term. cbv zeta. apply good_square.
  pose proof squares_checked as H. rewrite forallb_forall in H.
  specialize (H b). rewrite In_range in H. specialize (H ltac:(lia)).
  unfold square_term in H. cbv zeta in H.
  intros E. rewrite leb_spec, mul_spec, E in H. discriminate.
Qed.

Lemma good_sum (l : list Z) (acc : float) :
  bytes l -> good (Prim2SF acc) ->
  good (Prim2SF (fold_left (fun sum b => sum + square_term b) l acc)).
Proof.
  intros Hl. revert acc. induction Hl as [|b l Hb Hl IH]; intros acc Ha.
  - exact Ha.
  - cbn [fold_left]. apply IH. apply good_add; [exact Ha|].
    now apply good_square_term.
Qed.

Lemma calculateRMS_fold (dataArray : list Z) :
  calculateRMS dataArray
  = sqrt (fold_left (fun sum b => sum + square_term b) dataArray 0
          / JS.of_Z (length dataArray)).
Proof.
  unfold calculateRMS.
  rewrite (fold_bytes0
             (fun sum v => let normalized := (v - 128) / 128 in
                           sum + normalized * normalized)).
  reflexivity.
Qed.

Lemma silent_sum (l : list Z) :
  Forall (fun b => b = 128%Z) l ->
  fold_left (fun sum b => sum + square_term b) l 0 = 0.
Proof.
  induction 1 as [|b l -> Hl IH]; [reflexivity|].
  cbn [fold_left]. exact IH.
Qed.

(** X6.  The root mean square of a byte buffer: [NaN] on the empty buffer (the
    mean is [0 / 0]); on every other buffer a number that is not negative,
    and exactly 0 on digital silence (every sample at the centre 128). *)
Theorem calculateRMS_spec :
  calculateRMS [] = nan
  /\ (forall (dataArray : list Z),
         bytes dataArray -> dataArray <> [] ->
         (length dataArray < 2 ^ 53)%Z ->
         (0 <=? calculateRMS dataArray) = true
         /\ (Forall (fun b => b = 128%Z) dataArray ->
             calculateRMS dataArray = 0)).
Proof.
  split; [reflexivity|].
  intros dataArray Hb Hne Hlen.
  assert (Hpos : (0 < length dataArray)%Z).
  { destruct dataArray; [congruence|]. unfold length. cbn. lia. }
  destruct (canon_normal (length dataArray)) as (m & e & (E & _) & _);
    [lia|].
  rewrite <- of_Z_canon in E by lia.
  rewrite calculateRMS_fold. split.
  - apply good_number, good_sqrt. apply (good_div _ _ m e); [|exact E].
    apply good_sum; [exact Hb|reflexivity].
  - intros Hs. rewrite silent_sum by assumption.
    assert (Z0 : 0 / JS.of_Z (length dataArray) = 0).
    { apply Prim2SF_inj. rewrite div_spec, E. reflexivity. }
    rewrite Z0. reflexivity.
Qed.

Lemma calculateRMS_spec_witness :
  bytes [128; 0; 255; 64]%Z
  /\ (0 <=? calculateRMS [128; 0; 255; 64]%Z) = true
  /\ calculateRMS [128; 128; 128]%Z = 0.
Proof.
  destruct calculateRMS_spec as [_ H].
  assert (B : bytes [128; 0; 255; 64]%Z) by (repeat constructor; lia).
  split; [exact B|]. split.
  - apply (H [128; 0; 255; 64]%Z B); [discriminate|reflexivity].
  - apply (H [128; 128; 128]%Z); try discriminate; try reflexivity.
    + repeat constructor; lia.
    + repeat constructor.
Defined.

(** *** [calculateSpectralCentroid] *)

Lemma centroid_silent (l : list Z) (sampleRate fftSize : float)
      (idx : list Z) (w : float) :
  (forall i, In i idx -> byte_at l i = 0) ->
  snd (fold_left (centroid_step l sampleRate fftSize) idx (w, 0)) = 0.
Proof.
  revert w. induction idx as [|i idx IH]; intros w H; [reflexivity|].
  cbn [fold_left]. unfold centroid_step at 2. cbv beta iota zeta.
  rewrite (H i (or_introl eq_refl)).
  change (0 + 0) with 0. apply IH.
  intros j Hj. apply H. now right.
Qed.

Lemma byte_at_zeros (l : list Z) (i : Z) :
  Forall (fun b => b = 0%Z) l -> (0 <= i < length l)%Z -> byte_at l i = 0.
Proof.
  intros Hl Hi. unfold byte_at, length in *.
  destruct (Z.ltb_spec i 0); [lia|].
  destruct (nth_error l (Z.to_nat i)) eqn:E.
  - rewrite Forall_forall in Hl.
    rewrite (Hl z (nth_error_In _ _ E)). reflexivity.
  - apply nth_error_None in E. lia.
Qed.

(** X7.  A spectrum without energy, of any length, has centroid 0 whatever the
    sample rate and the transform size are: the division by the sum of the
    magnitudes is guarded. *)
Theorem calculateSpectralCentroid_silent :
  forall (frequencyData : list Z) (sampleRate fftSize : float),
    Forall (fun b => b = 0%Z) frequencyData ->
    calculateSpectralCentroid frequencyData sampleRate fftSize = 0.
Proof.
  intros frequencyData sampleRate fftSize H.
  unfold calculateSpectralCentroid.
  pose proof (centroid_silent frequencyData sampleRate fftSize
                              (range 0 (length frequencyData)) 0) as Hs.
  destruct (fold_left _ _ _) as [w m]. cbn [snd] in Hs.
  rewrite Hs; [reflexivity|].
  intros i Hi. apply In_range in Hi. now apply byte_at_zeros.
Qed.

Lemma calculateSpectralCentroid_silent_witness :
  Forall (fun b => b = 0%Z) [0; 0; 0]%Z
  /\ calculateSpectralCentroid [0; 0; 0]%Z nan 0 = 0.
Proof.
  assert (H : Forall (fun b => b = 0%Z) [0; 0; 0]%Z) by (repeat constructor).
  split; [exact H|]. now apply calculateSpectralCentroid_silent.
Defined.

End LevelFacts.

(** ** The results of [getDominantFrequency] and [getFrequencyPeaks] *)

Module Spectrum.

Import MoreProps OrderProps SpectrumProps Loops Rounding FloatFacts Scan Bounds Absence Order.
Local Open Scope float_scope.

Lemma byte_at_key (frequencyData : list Z) (i : Z) :
  (0 <= i < length frequencyData)%Z ->
  byte_at frequencyData i = JS.of_Z (key frequencyData i).
Proof.
  intros Hi. unfold byte_at, key, length in *.
  destruct (Z.ltb_spec i 0); [lia|].
  destruct (nth_error frequencyData (Z.to_nat i)) as [b|] eqn:E.
  - now rewrite (nth_error_nth _ _ _ E).
  - apply nth_error_None in E. lia.
Qed.

Lemma key_byte (frequencyData : list Z) (i : Z) :
  bytes frequencyData -> (0 <= key frequencyData i <= 255)%Z.
Proof.
  intros Hb. unfold key.
  destruct (nth_in_or_default (Z.to_nat i) frequencyData 0%Z) as [H| ->];
    [|lia].
  unfold bytes in Hb. rewrite Forall_forall in Hb. now apply Hb.
Qed.

Lemma small (b : Z) : (0 <= b <= 255)%Z -> (- 2 ^ 53 < b < 2 ^ 53)%Z.
Proof. change (2 ^ 53)%Z with 9007199254740992%Z. lia. Qed.

Lemma dominant_fold (frequencyData : list Z) (minBin : float)
      (idx seen : list Z) (st : float * float) :
  bytes frequencyData ->
  (forall i, In i idx -> (0 <= i < length frequencyData)%Z) ->
  dominant_inv frequencyData minBin seen st ->
  dominant_inv frequencyData minBin (seen ++ idx)
               (fold_left
                  (fun s i => fst (dominant_step frequencyData minBin s i))
                  idx st).
Proof.
  intros Hb. revert seen st.
  induction idx as [|i idx IH]; intros seen st Hi Hinv.
  - now rewrite app_nil_r.
  - cbn [fold_left].
    replace (seen ++ i :: idx)%list with ((seen ++ [i]) ++ idx)%list
      by (rewrite <- app_assoc; reflexivity).
    apply IH; [intros j Hj; apply Hi; now right|].
    destruct st as [maxValue maxIndex].
    destruct Hinv as (M & HM & HMb & Hall & Hidx). cbn [fst snd] in *.
    subst maxValue.
    unfold dominant_step, bind, read, ret.
    rewrite (byte_at_key frequencyData i) by (apply Hi; now left).
    pose proof (key_byte frequencyData i Hb) as Hk.
    rewrite ltb_of_Z by (apply small; lia).
    destruct (Z.ltb_spec M (key frequencyData i)) as [Hlt|Hge]; cbn [fst].
    + exists (key frequencyData i). cbn [fst snd].
      split; [reflexivity|]. split; [exact Hk|]. split.
      * intros j Hj. apply in_app_or in Hj. destruct Hj as [Hj|[<-|[]]];
          [specialize (Hall j Hj); lia|lia].
      * right. exists i.
        split; [apply in_or_app; right; now left|]. split; reflexivity.
    + exists M. cbn [fst snd].
      split; [reflexivity|]. split; [exact HMb|]. split.
      * intros j Hj. apply in_app_or in Hj. destruct Hj as [Hj|[<-|[]]];
          [now apply Hall|lia].
      * destruct Hidx as [H0|(k & Hin & Hc & Hkey)]; [now left|right].
        exists k. split; [apply in_or_app; now left|]. split; assumption.
Qed.

(** The counter at a bin is the number of the bin, but for the bin 0 of a
    scan that starts at [-0]. *)
Lemma counter_bin (frequency sampleRate fftSize : float) (i : Z) :
  (0 <=? frequency) = true ->
  (0 <? sampleRate) = true -> (0 <? fftSize) = true ->
  (0 <= i < 2 ^ 32)%Z ->
  let minBin := frequencyToBin frequency sampleRate fftSize in
  counter minBin i = JS.of_Z i
  \/ (i = 0%Z /\ minBin = neg_zero /\ counter minBin i = neg_zero).
Proof.
  intros Hf Hs Hn Hi minBin. unfold counter.
  destruct (frequencyToBin_shape _ _ _ Hf Hs Hn)
    as [H|[H|[H|[H|[(m & e & H & He)|(z & H & Hz)]]]]]; fold minBin in H.
  - left. unfold JS.to_int. rewrite H. reflexivity.
  - left. unfold JS.to_int. rewrite H. reflexivity.
  - left. rewrite H. change (JS.to_int zero) with (JS.IInt 0).
    cbv beta iota. destruct (Z.eqb_spec i 0) as [->|]; reflexivity.
  - rewrite H. change (JS.to_int neg_zero) with (JS.IInt 0).
    cbv beta iota. destruct (Z.eqb_spec i 0) as [->|]; [right|left; reflexivity].
    repeat split; reflexivity.
  - left. unfold JS.to_int. rewrite H.
    destruct (Z.leb_spec 0 e) as [_|]; [|lia].
    destruct (Z.eqb_spec i (JS.mant false m * 2 ^ e)) as [E|]; [|reflexivity].
    exfalso. rewrite mant_false in E.
    pose proof (Prim2SF_valid minBin) as V. rewrite H in V.
    assert (Hd : Zpos (digits2_pos m) = 53%Z)
      by (apply (valid_normal false m e V); lia).
    pose proof (digits_bounds m) as B. rewrite Hd in B.
    change (53 - 1)%Z with 52%Z in B.
    assert (1 <= 2 ^ e)%Z by (apply Z.lt_pred_le, Z.pow_pos_nonneg; lia).
    assert (2 ^ 32 < 2 ^ 52)%Z by reflexivity.
    nia.
  - left. rewrite H, to_int_of_Z
      by (change (2 ^ 53)%Z with 9007199254740992%Z;
          change (2 ^ 52)%Z with 4503599627370496%Z in Hz; lia).
    destruct (Z.eqb_spec i z) as [->|]; reflexivity.
Qed.

(** X8.  [getDominantFrequency] returns; [null] means every scanned bin is
    below 100, and a frequency is [binToFrequency] of the counter at a
    scanned bin whose magnitude is at least 100 and is the largest of the
    scanned bins.  The counter is the number of the bin, or [-0] at the
    bin 0 of a scan that starts at [-0] (a [minFreq] of [-0]): the
    frequency is then [-0] instead of [0]. *)
Theorem getDominantFrequency_loudest :
  forall (frequencyData : list Z)
         (sampleRate fftSize minFreq maxFreq : float),
    bytes frequencyData -> (length frequencyData < 2 ^ 32)%Z ->
    (0 <=? minFreq) = true ->
    (0 <? sampleRate) = true -> (0 <? fftSize) = true ->
    let minBin := frequencyToBin minFreq sampleRate fftSize in
    exists idx,
      scan minBin (frequencyToBin maxFreq sampleRate fftSize)
           (length frequencyData) = JS.Returns idx
      /\ match getDominantFrequency frequencyData sampleRate fftSize
                                    minFreq maxFreq with
         | JS.Returns None =>
             forall j, In j idx -> (byte_at frequencyData j <? 100) = true
         | JS.Returns (Some f) =>
             exists i,
               In i idx
               /\ f = binToFrequency (counter minBin i) sampleRate fftSize
               /\ (counter minBin i = JS.of_Z i
                   \/ (i = 0%Z /\ minBin = neg_zero
                       /\ counter minBin i = neg_zero))
               /\ (100 <=? byte_at frequencyData i) = true
               /\ forall j, In j idx ->
                            (byte_at frequencyData j <=? byte_at frequencyData i)
                            = true
         | JS.Diverges => False
         end.
Proof.
  intros frequencyData sampleRate fftSize minFreq maxFreq Hb Hlen Hf Hs Hn
         minBin.
  destruct (scan_safe minBin (frequencyToBin maxFreq sampleRate fftSize)
                      (length frequencyData)) as (idx & Hidx & Hin).
  { now apply startable_frequencyToBin. }
  exists idx. split; [exact Hidx|].
  unfold getDominantFrequency, getDominantFrequency_reads. cbv zeta.
  fold minBin. rewrite Hidx.
  pose proof (dominant_fold frequencyData minBin idx [] (0, 0) Hb Hin)
    as Hinv.
  rewrite <- for_each_value in Hinv. cbn [app] in Hinv.
  assert (H0 : dominant_inv frequencyData minBin [] (0, 0)).
  { exists 0%Z. cbn [fst snd]. split; [reflexivity|]. split; [lia|].
    split; [intros j []|now left]. }
  specialize (Hinv H0). clear H0.
  destruct (for_each (dominant_step frequencyData minBin) idx (0, 0))
    as [[maxValue maxIndex] r].
  destruct Hinv as (M & HM & HMb & Hall & Hmax). cbn [fst snd] in *.
  subst maxValue. unfold bind, value.
  change 100 with (JS.of_Z 100).
  rewrite ltb_of_Z by (change (2 ^ 53)%Z with 9007199254740992%Z; lia).
  destruct (Z.ltb_spec M 100) as [Hlt|Hge]; cbn [ret fst].
  - intros j Hj. rewrite (byte_at_key frequencyData j) by now apply Hin.
    pose proof (key_byte frequencyData j Hb).
    rewrite ltb_of_Z by (try apply small; change (2 ^ 53)%Z with 9007199254740992%Z; lia).
    apply Z.ltb_lt. specialize (Hall j Hj). lia.
  - destruct Hmax as [H0|(i & Hi & Hc & Hkey)]; [lia|].
    exists i. split; [exact Hi|]. split; [now rewrite Hc|].
    split.
    { apply counter_bin; try assumption. specialize (Hin i Hi). lia. }
    rewrite (byte_at_key frequencyData i) by now apply Hin.
    rewrite Hkey. split.
    + rewrite leb_of_Z by (try apply small; change (2 ^ 53)%Z with 9007199254740992%Z; lia).
      apply Z.leb_le. lia.
    + intros j Hj. rewrite (byte_at_key frequencyData j) by now apply Hin.
      pose proof (key_byte frequencyData j Hb).
      rewrite leb_of_Z by (apply small; lia).
      apply Z.leb_le. now apply Hall.
Qed.

Lemma getDominantFrequency_loudest_witness :
  bytes [0; 1; 200; 3; 4; 5; 250; 7]%Z
  /\ (0 <=? 80) = true /\ (0 <? 44100) = true /\ (0 <? 16) = true
  /\ getDominantFrequency [0; 1; 200; 3; 4; 5; 250; 7]%Z 44100 16 80 20000
     = JS.Returns (Some (binToFrequency 6 44100 16))
  /\ exists idx,
       scan (frequencyToBin 80 44100 16) (frequencyToBin 20000 44100 16) 8
       = JS.Returns idx
       /\ exists i,
            In i idx
            /\ binToFrequency 6 44100 16
               = binToFrequency (counter (frequencyToBin 80 44100 16) i)
                                44100 16
            /\ (counter (frequencyToBin 80 44100 16) i = JS.of_Z i
                \/ (i = 0%Z /\ frequencyToBin 80 44100 16 = neg_zero
                    /\ counter (frequencyToBin 80 44100 16) i = neg_zero))
            /\ (100 <=? byte_at [0; 1; 200; 3; 4; 5; 250; 7]%Z i) = true
            /\ forall j, In j idx ->
                         (byte_at [0; 1; 200; 3; 4; 5; 250; 7]%Z j
                          <=? byte_at [0; 1; 200; 3; 4; 5; 250; 7]%Z i) = true.
Proof.
  assert (B : bytes [0; 1; 200; 3; 4; 5; 250; 7]%Z)
    by (repeat constructor; lia).
  split; [exact B|]. repeat (split; [reflexivity|]).
  destruct (getDominantFrequency_loudest
              [0; 1; 200; 3; 4; 5; 250; 7]%Z 44100 16 80 20000 B
              eq_refl eq_refl eq_refl eq_refl) as (idx & Hidx & H).
  exists idx. split; [exact Hidx|].
  change (getDominantFrequency [0; 1; 200; 3; 4; 5; 250; 7]%Z 44100 16 80 20000)
    with (JS.Returns (Some (binToFrequency 6 44100 16))) in H.
  exact H.
Defined.

(** A scan that starts at [-0]: with the bin 0 the loudest, the frequency
    is [-0]. *)
Lemma getDominantFrequency_neg_zero :
  getDominantFrequency [255; 0; 0]%Z 4 4 neg_zero 3
  = JS.Returns (Some neg_zero).
Proof. reflexivity. Qed.

(** *** [getFrequencyPeaks] *)

Lemma comparator_table (q p : Z * float) :
  In q (map (fun b => (b, JS.of_Z b)) (range 0 256)) ->
  In p (map (fun b => (b, JS.of_Z b)) (range 0 256)) ->
  Bool.eqb (snd q - snd p <=? 0) (fst q <=? fst p)%Z = true.
Proof.
  intros Hq Hp.
  assert (H : comparator_checked = true) by (vm_compute; reflexivity).
  unfold comparator_checked in H.
  set (fs := map (fun b => (b, JS.of_Z b)) (range 0 256)) in *.
  cbv zeta in H.
  rewrite forallb_forall in H. specialize (H q Hq).
  rewrite forallb_forall in H. exact (H p Hp).
Qed.

Lemma comparator_bytes (bq bp : Z) :
  (0 <= bq <= 255)%Z -> (0 <= bp <= 255)%Z ->
  (JS.of_Z bq - JS.of_Z bp <=? 0) = (bq <=? bp)%Z.
Proof.
  intros Hq Hp.
  apply Bool.eqb_prop.
  apply (comparator_table (bq, JS.of_Z bq) (bp, JS.of_Z bp));
    apply in_map_iff; eexists; (split; [reflexivity|apply In_range; lia]).
Qed.

Lemma insert_peak_Forall (Q : Peak -> Prop) (p : Peak) (l : list Peak) :
  Q p -> Forall Q l -> Forall Q (insert_peak p l).
Proof.
  intros Hp Hl. induction Hl as [|q t Hq Ht IH]; cbn [insert_peak].
  - now constructor.
  - destruct (amplitude q - amplitude p <=? 0); repeat constructor; assumption.
Qed.

Lemma sort_peaks_Forall (Q : Peak -> Prop) (l : list Peak) :
  Forall Q l -> Forall Q (sort_peaks l).
Proof.
  unfold sort_peaks. induction 1 as [|p l Hp Hl IH]; cbn [fold_right].
  - constructor.
  - now apply insert_peak_Forall.
Qed.

Lemma louder_trans (p q r : Peak) : louder p q -> louder q r -> louder p r.
Proof.
  unfold louder. rewrite !leb_frank.
  intros (N1 & N2 & H1) (N3 & N4 & H2). repeat split; try assumption. lia.
Qed.

Lemma insert_peak_sorted (p : Peak) (l : list Peak) :
  byte_peak p -> Forall byte_peak l ->
  StronglySorted louder l -> StronglySorted louder (insert_peak p l).
Proof.
  intros (bp & Hbp & Ep) Hb Hs.
  induction Hs as [|q t Hs IH Hq]; cbn [insert_peak].
  - repeat constructor.
  - inversion Hb as [|q' t' (bq & Hbq & Eq) Hbt]; subst.
    rewrite Ep, Eq, comparator_bytes by assumption.
    destruct (Z.leb_spec bq bp) as [Hle|Hgt].
    + assert (L : louder p q).
      { unfold louder. rewrite Ep, Eq.
        rewrite leb_of_Z by (apply small; lia). now apply Z.leb_le. }
      constructor; [constructor; assumption|].
      constructor; [exact L|].
      eapply Forall_impl; [|exact Hq].
      intros r Hr. eapply louder_trans; eassumption.
    + assert (L : louder q p).
      { unfold louder. rewrite Ep, Eq.
        rewrite leb_of_Z by (apply small; lia). apply Z.leb_le. lia. }
      constructor; [now apply IH|].
      apply insert_peak_Forall; assumption.
Qed.

Lemma sort_peaks_sorted (l : list Peak) :
  Forall byte_peak l -> StronglySorted louder (sort_peaks l).
Proof.
  unfold sort_peaks. induction 1 as [|p l Hp Hl IH]; cbn [fold_right].
  - constructor.
  - apply insert_peak_sorted; [assumption| |assumption].
    now apply (sort_peaks_Forall byte_peak).
Qed.

Lemma In_firstn_list {A : Type} (n : nat) (l : list A) (x : A) :
  In x (firstn n l) -> In x l.
Proof.
  intros H. rewrite <- (firstn_skipn n l). apply in_or_app. now left.
Qed.

Lemma Forall_firstn {A : Type} (Q : A -> Prop) (n : nat) (l : list A) :
  Forall Q l -> Forall Q (firstn n l).
Proof.
  rewrite !Forall_forall. intros H x Hx. apply H.
  eapply In_firstn_list; exact Hx.
Qed.

Lemma firstn_sorted {A : Type} (R : A -> A -> Prop) (n : nat) (l : list A) :
  StronglySorted R l -> StronglySorted R (firstn n l).
Proof.
  intros Hs. revert n. induction Hs as [|a l Hs IH Ha]; intros [|n];
    cbn [firstn]; try constructor.
  - apply IH.
  - apply Forall_forall. intros x Hx. rewrite Forall_forall in Ha.
    apply Ha. eapply In_firstn_list; exact Hx.
Qed.

Lemma slice0_firstn {A : Type} (l : list A) (numPeaks : float) :
  exists k, slice0 l numPeaks = firstn k l.
Proof.
  unfold slice0. destruct (JS.to_int numPeaks) as [|[|]|n].
  - exists 0%nat. reflexivity.
  - exists 0%nat. reflexivity.
  - exists (List.length l). now rewrite firstn_all.
  - destruct (n <? 0)%Z; eexists; reflexivity.
Qed.

Lemma length_slice0 {A : Type} (l : list A) (numPeaks : float) (n : Z) :
  JS.to_int numPeaks = JS.IInt n -> (0 <= n)%Z ->
  (length (slice0 l numPeaks) <= n)%Z.
Proof.
  intros E Hn. unfold slice0. rewrite E.
  destruct (Z.ltb_spec n 0); [lia|].
  unfold length. rewrite length_firstn. lia.
Qed.

Lemma peaks_step_value (frequencyData : list Z)
      (sampleRate fftSize threshold : float) (peaks : list Peak) (i : Z) :
  let a := byte_at frequencyData i in
  fst (peaks_step frequencyData sampleRate fftSize threshold peaks i)
  = if (byte_at frequencyData (i - 1) <? a)
       && (byte_at frequencyData (i + 1) <? a) && (threshold <? a)
    then (peaks ++ [{| peak_frequency :=
                         binToFrequency (JS.of_Z i) sampleRate fftSize;
                       amplitude := a |}])%list
    else peaks.
Proof.
  cbv zeta. unfold peaks_step, bind, read, ret.
  destruct (byte_at frequencyData (i - 1) <? byte_at frequencyData i);
    [|reflexivity].
  destruct (byte_at frequencyData (i + 1) <? byte_at frequencyData i);
    [|reflexivity].
  destruct (threshold <? byte_at frequencyData i); reflexivity.
Qed.

(** X9.  [getFrequencyPeaks] returns; its peaks are in order of decreasing
    amplitude, each one is a bin that is strictly louder than both its
    neighbours and than the threshold, and there are [numPeaks] of them at
    most. *)
Theorem getFrequencyPeaks_sorted :
  forall (frequencyData : list Z)
         (sampleRate fftSize numPeaks minFreq maxFreq threshold : float),
    bytes frequencyData ->
    (0 <=? minFreq) = true ->
    (0 <? sampleRate) = true -> (0 <? fftSize) = true ->
    exists peaks,
      getFrequencyPeaks frequencyData sampleRate fftSize numPeaks
                        minFreq maxFreq threshold
      = JS.Returns peaks
      /\ StronglySorted louder peaks
      /\ Forall (fun p =>
                   exists i, (1 <= i < length frequencyData - 1)%Z
                             /\ peak_at frequencyData sampleRate fftSize
                                        threshold i p)
                peaks
      /\ (forall n, JS.to_int numPeaks = JS.IInt n -> (0 <= n)%Z ->
                    (length peaks <= n)%Z).
Proof.
  intros frequencyData sampleRate fftSize numPeaks minFreq maxFreq threshold
         Hb Hf Hs Hn.
  unfold getFrequencyPeaks, getFrequencyPeaks_reads.
  destruct (scan_succ (frequencyToBin minFreq sampleRate fftSize)
                      (frequencyToBin maxFreq sampleRate fftSize - 1)
                      (length frequencyData - 1)) as (idx & Hidx & Hin).
  { now apply startable_frequencyToBin. }
  { now apply frequencyToBin_shape. }
  rewrite Hidx.
  set (Q := fun p =>
              exists i, (1 <= i < length frequencyData - 1)%Z
                        /\ peak_at frequencyData sampleRate fftSize
                                   threshold i p).
  assert (Hall : Forall Q
                   (fst (for_each (peaks_step frequencyData sampleRate fftSize
                                              threshold) idx []))).
  { rewrite for_each_value.
    apply (fold_left_inv (Forall Q)); [constructor|].
    intros peaks i Hi Hp. rewrite peaks_step_value. cbv zeta.
    destruct (byte_at frequencyData (i - 1) <? byte_at frequencyData i) eqn:E1;
      [|exact Hp].
    destruct (byte_at frequencyData (i + 1) <? byte_at frequencyData i) eqn:E2;
      [|exact Hp].
    destruct (threshold <? byte_at frequencyData i) eqn:E3; [|exact Hp].
    cbn [andb]. apply Forall_app. split; [exact Hp|].
    constructor; [|constructor].
    exists i. split; [apply Hin, Hi|].
    unfold peak_at. cbn [peak_frequency amplitude]. auto. }
  destruct (for_each (peaks_step frequencyData sampleRate fftSize threshold)
                     idx []) as [all r].
  cbn [fst] in Hall. unfold bind, ret, value.
  eexists. split; [reflexivity|].
  assert (Hbytes : Forall byte_peak all).
  { eapply Forall_impl; [|exact Hall].
    intros p (i & Hi & _ & Ha & _). exists (key frequencyData i).
    split; [now apply key_byte|].
    rewrite Ha. apply byte_at_key. lia. }
  destruct (slice0_firstn (sort_peaks all) numPeaks) as [k Hk].
  split; [|split].
  - rewrite Hk. apply firstn_sorted. now apply sort_peaks_sorted.
  - rewrite Hk. apply Forall_firstn. now apply sort_peaks_Forall.
  - intros n E H0. now apply length_slice0.
Qed.

Lemma getFrequencyPeaks_sorted_witness :
  bytes [0; 1; 200; 3; 4; 150; 7; 250; 9; 0]%Z
  /\ getFrequencyPeaks [0; 1; 200; 3; 4; 150; 7; 250; 9; 0]%Z
                       44100 16 2 80 30000 100
     = JS.Returns
         [ {| peak_frequency := 19293.75; amplitude := 250 |};
           {| peak_frequency := 5512.5; amplitude := 200 |} ]
  /\ exists peaks,
       getFrequencyPeaks [0; 1; 200; 3; 4; 150; 7; 250; 9; 0]%Z
                         44100 16 2 80 30000 100
       = JS.Returns peaks
       /\ StronglySorted louder peaks
       /\ (length peaks <= 2)%Z.
Proof.
  assert (B : bytes [0; 1; 200; 3; 4; 150; 7; 250; 9; 0]%Z)
    by (repeat constructor; lia).
  split; [exact B|]. split; [reflexivity|].
  destruct (getFrequencyPeaks_sorted
              [0; 1; 200; 3; 4; 150; 7; 250; 9; 0]%Z 44100 16 2 80 30000 100
              B eq_refl eq_refl eq_refl) as (peaks & E & Hs & _ & Hl).
  exists peaks. split; [exact E|]. split; [exact Hs|].
  apply Hl; [reflexivity|lia].
Defined.

End Spectrum.

(** ** From a bin to its frequency and back *)

Module BinRoundTrip.

Import OrderProps Loops Rounding FloatFacts Scan Comparison Order.

(** The product of two positive integers held in numbers is exact below
    [2^53]. *)
Lemma of_Z_mul_exact (a b : Z) :
  0 < a -> 0 < b -> a * b < 2 ^ 53 ->
  (JS.of_Z a * JS.of_Z b)%float = JS.of_Z (a * b).
Proof.
  intros Ha Hb Hlt.
  assert (Ha53 : a < 2 ^ 53) by nia.
  assert (Hb53 : b < 2 ^ 53) by nia.
  apply Prim2SF_inj. rewrite mul_spec, !of_Z_canon by nia.
  destruct (canon_normal a) as (ma & ea & (Ea & Da & Ra) & Ia & Va); [lia|].
  destruct (canon_normal b) as (mb & eb & (Eb & Db & Rb) & Ib & Vb); [lia|].
  destruct (canon_normal (a * b)) as (mp & ep & (Ep & Dp & Rp) & Ip & Vp);
    [nia|].
  rewrite Ea, Eb, Ep. unfold SFmul. cbn [xorb].
  pose proof (digits_bounds ma) as Ba. pose proof (digits_bounds mb) as Bb.
  pose proof (digits_bounds mp) as Bp.
  rewrite Da in Ba. rewrite Db in Bb. rewrite Dp in Bp.
  change (53 - 1) with 52 in *.
  assert (Pa : 0 < 2 ^ (- ea)) by (apply Z.pow_pos_nonneg; lia).
  assert (Pb : 0 < 2 ^ (- eb)) by (apply Z.pow_pos_nonneg; lia).
  assert (Pp : 0 < 2 ^ (- ep)) by (apply Z.pow_pos_nonneg; lia).
  assert (Hk : 0 <= ep - ea - eb).
  { destruct (Z.le_gt_cases 0 (ep - ea - eb)); [assumption|exfalso].
    assert (H2 : 2 * (2 ^ (- ea) * 2 ^ (- eb)) <= 2 ^ (- ep)).
    { rewrite <- Z.pow_add_r, <- Z.pow_succ_r by lia.
      apply Z.pow_le_mono_r; lia. }
    assert (H3 : 2 ^ 52 * 2 ^ 52 <= Zpos ma * Zpos mb) by nia.
    assert (H4 : Zpos ma * Zpos mb = a * b * (2 ^ (- ea) * 2 ^ (- eb)))
      by (rewrite Va, Vb; ring).
    assert (H5 : 2 * (Zpos ma * Zpos mb) <= Zpos mp).
    { rewrite H4, Vp. 
      assert (0 < a * b) by nia.
      apply Z.le_trans with (a * b * (2 * (2 ^ (- ea) * 2 ^ (- eb)))); [lia|].
      apply Z.mul_le_mono_nonneg_l; lia. }
    change (2 ^ 53) with (2 * 2 ^ 52) in Bp.
    assert (0 < 2 ^ 52) by reflexivity. nia. }
  replace ep with ((ea + eb) + (ep - ea - eb)) at 1 by lia.
  apply round_exact; try assumption; try lia.
  rewrite Pos2Z.inj_mul, Va, Vb, Vp.
  assert (E : 2 ^ (- ea) * 2 ^ (- eb) = 2 ^ (- ep) * 2 ^ (ep - ea - eb)).
  { rewrite <- !Z.pow_add_r by lia. f_equal. lia. }
  transitivity (a * b * (2 ^ (- ea) * 2 ^ (- eb))); [ring|].
  rewrite E. ring.
Qed.

(** The binary64 form of a power of two. *)
Lemma pow2_normal (j : Z) :
  0 <= j <= 52 ->
  Prim2SF (JS.of_Z (2 ^ j)) = S754_finite false 4503599627370496 (j - 52).
Proof.
  intros Hj.
  assert (P : 0 < 2 ^ j) by (apply Z.pow_pos_nonneg; lia).
  assert (L : 2 ^ j <= 2 ^ 52) by (apply Z.pow_le_mono_r; lia).
  assert (L2 : 2 ^ 52 < 2 ^ 53) by reflexivity.
  rewrite of_Z_canon by lia.
  destruct (canon_normal (2 ^ j)) as (m & e & (E & D & R) & I & V); [lia|].
  rewrite E. pose proof (digits_bounds m) as B. rewrite D in B.
  change (53 - 1) with 52 in B.
  rewrite <- Z.pow_add_r in V by lia.
  assert (He : j + - e = 52).
  { destruct (Z.lt_trichotomy (j + - e) 52) as [H|[H|H]]; [|assumption|];
      exfalso.
    - assert (2 ^ (j + - e) <= 2 ^ 51) by (apply Z.pow_le_mono_r; lia).
      assert (2 ^ 51 < 2 ^ 52) by reflexivity. lia.
    - assert (2 ^ 53 <= 2 ^ (j + - e)) by (apply Z.pow_le_mono_r; lia).
      lia. }
  rewrite He in V. change (2 ^ 52) with 4503599627370496 in V.
  f_equal; lia.
Qed.

(** Dividing a normal number by a power of two lowers its exponent, and
    multiplying by it raises the exponent back. *)
Lemma div_pow2 (x : float) (m : positive) (e j : Z) :
  Prim2SF x = S754_finite false m e ->
  Zpos (digits2_pos m) = 53 -> 0 <= j <= 52 -> -1000 <= e <= 900 ->
  Prim2SF (x / JS.of_Z (2 ^ j)) = S754_finite false m (e - j).
Proof.
  intros E D Hj He. rewrite div_spec, E, pow2_normal by assumption.
  apply (SFdiv_exact false false); try assumption; try reflexivity; try lia.
  replace (e - (j - 52) - (e - j)) with 52 by lia. reflexivity.
Qed.

Lemma mul_pow2 (x : float) (m : positive) (e j : Z) :
  Prim2SF x = S754_finite false m (e - j) ->
  Zpos (digits2_pos m) = 53 -> 0 <= j <= 52 -> -1000 <= e <= 900 ->
  Prim2SF (x * JS.of_Z (2 ^ j)) = S754_finite false m e.
Proof.
  intros E D Hj He. rewrite mul_spec, E, pow2_normal by assumption.
  unfold SFmul. cbn [xorb].
  replace e with ((e - j + (j - 52)) + 52) at 2 by lia.
  apply round_exact; try assumption; try lia.
Qed.

Lemma Math_round_of_Z (i : Z) :
  0 <= i < 2 ^ 51 -> JS.Math_round (JS.of_Z i) = JS.of_Z i.
Proof.
  intros Hi.
  assert (Hs : - 2 ^ 53 < i < 2 ^ 53)
    by (change (2 ^ 53) with 9007199254740992;
        change (2 ^ 51) with 2251799813685248 in Hi; lia).
  pose proof (frank_of_Z i Hs) as F. unfold frank in F.
  pose proof (number_of_Z i Hs) as N. unfold number in N.
  assert (Fz : finite_or_zero (Prim2SF (JS.of_Z i))
               /\ scaled (Prim2SF (JS.of_Z i)) = i * 2 ^ 1074).
  { destruct i as [|p|p]; try lia.
    - split; [exact I|reflexivity].
    - rewrite of_Z_canon in * by lia.
      destruct (canon_normal (Zpos p)) as (m & e & (E & _) & _); [lia|].
      rewrite E in *. split; [exact I|exact F]. }
  destruct Fz as [Fz S].
  destruct (Math_round_scaled (JS.of_Z i) i Fz) as [H|[-> H]].
  - rewrite S. change (2 ^ 1074) with (2 * 2 ^ 1073).
    assert (P : 0 < 2 ^ 1073) by (apply Z.pow_pos_nonneg; lia).
    generalize dependent (2 ^ 1073). intros u. intros. lia.
  - change (2 ^ 51) with 2251799813685248 in *. lia.
  - exact H.
  - reflexivity.
Qed.

Local Open Scope float_scope.

(** X10.  For a transform size that is a power of two and an integer sample
    rate, the frequency of a bin maps back to the bin: both conversions are
    exact. *)
Theorem frequencyToBin_binToFrequency :
  forall (i sampleRate j : Z),
    (0 <= i)%Z -> (0 < sampleRate < 2 ^ 53)%Z ->
    (i * sampleRate < 2 ^ 51)%Z -> (0 <= j <= 52)%Z ->
    frequencyToBin
      (binToFrequency (JS.of_Z i) (JS.of_Z sampleRate) (JS.of_Z (2 ^ j)))
      (JS.of_Z sampleRate) (JS.of_Z (2 ^ j))
    = JS.of_Z i.
Proof.
  intros i sampleRate j Hi Hs Hlt Hj.
  assert (L : (2 ^ 51 < 2 ^ 53)%Z) by reflexivity.
  assert (Hi51 : (i < 2 ^ 51)%Z) by nia.
  unfold frequencyToBin, binToFrequency.
  destruct (Z.eq_dec i 0) as [->|Hi0].
  - (* bin 0 *)
    assert (E0 : JS.of_Z 0 * JS.of_Z sampleRate / JS.of_Z (2 ^ j)
                 * JS.of_Z (2 ^ j) / JS.of_Z sampleRate = 0).
    { destruct (canon_normal sampleRate) as (m & e & (E & _) & _); [lia|].
      rewrite <- of_Z_canon in E by lia.
      apply Prim2SF_inj.
      rewrite div_spec, mul_spec, div_spec, mul_spec, pow2_normal, E
        by assumption.
      reflexivity. }
    rewrite E0. reflexivity.
  - rewrite of_Z_mul_exact by lia.
    destruct (canon_normal (i * sampleRate)) as (m & e & (E & D & R) & Ie & V);
      [nia|].
    rewrite <- of_Z_canon in E by nia.
    assert (He : (-1000 <= e <= 900)%Z) by lia.
    pose proof (div_pow2 _ m e j E D Hj He) as E1.
    pose proof (mul_pow2 _ m e j E1 D Hj He) as E2.
    rewrite <- E in E2. apply Prim2SF_inj in E2. rewrite E2.
    rewrite (of_Z_div_exact (i * sampleRate) sampleRate i) by lia.
    apply Math_round_of_Z. lia.
Qed.

Lemma frequencyToBin_binToFrequency_witness :
  (0 <= 93)%Z /\ (0 < 44100 < 2 ^ 53)%Z /\ (93 * 44100 < 2 ^ 51)%Z
  /\ (0 <= 11 <= 52)%Z
  /\ frequencyToBin (binToFrequency 93 44100 2048) 44100 2048 = 93.
Proof.
  repeat (split; [lia|]).
  exact (frequencyToBin_binToFrequency 93 44100 11
           ltac:(lia) ltac:(lia) ltac:(reflexivity) ltac:(lia)).
Defined.

End BinRoundTrip.

(** ** Rounding is monotone

    The result of a rounded operation lies on the same side of every
    number of the format as the exact value does. *)

Module RoundBounds.

Import OrderProps LevelProps Loops Rounding FloatFacts Scan Comparison Order.

(** Shifting a mantissa to the right by [n] bits. *)
Lemma shr_spec (m : Z) (l : location) (e n : Z) :
  0 <= m -> 0 <= n ->
  shr_m (fst (shr (shr_record_of_loc m l) e n)) = m / 2 ^ n
  /\ snd (shr (shr_record_of_loc m l) e n) = e + n
  /\ (l = loc_Exact -> m mod 2 ^ n = 0 ->
      loc_of_shr_record (fst (shr (shr_record_of_loc m l) e n)) = loc_Exact).
Proof.
  intros Hm Hn. destruct n as [|p|p]; [| |lia].
  - cbn [shr fst snd]. rewrite Z.div_1_r, Z.add_0_r.
    repeat split.
    + destruct l as [|[| |]]; reflexivity.
    + intros -> _. reflexivity.
  - cbn [shr fst snd]. rewrite iter_pos_nat. repeat split.
    + rewrite <- (positive_nat_Z p).
      destruct l as [|[| |]]; cbn [shr_record_of_loc];
        apply shr_m_iter; exact Hm.
    + intros -> Hz. cbn [shr_record_of_loc].
      assert (E : m = m / 2 ^ Zpos p * 2 ^ Zpos p).
      { rewrite Z.mul_comm. apply Z.div_exact; [|exact Hz].
        apply Z.pow_nonzero; lia. }
      rewrite E at 1. rewrite <- (positive_nat_Z p) at 2.
      rewrite (shr_iter_exact (Pos.to_nat p)); [reflexivity|].
      apply Z.div_pos; [exact Hm|apply Z.pow_pos_nonneg; lia].
Qed.

(** The second half of [binary_round_aux]: a rounded mantissa [m2] at the
    exponent [F] is stored as it is, renormalised when it reached [2^53],
    and overflows to infinity above the largest exponent. *)
Lemma round_store (m2 F : Z) :
  -1074 <= F -> 0 <= m2 <= 2 ^ 53 -> (F = -1074 \/ 2 ^ 52 <= m2) ->
  forall R,
    R = (let '(mrs, e) := shr_fexp prec emax m2 F loc_Exact in
         match shr_m mrs with
         | Z0 => S754_zero false
         | Zpos m => if e <=? emax - prec then S754_finite false m e
                     else S754_infinity false
         | Zneg _ => S754_nan
         end) ->
    (R = S754_zero false /\ m2 = 0)
    \/ (exists p e, R = S754_finite false p e
                    /\ F <= e /\ Zpos p * 2 ^ (e - F) = m2)
    \/ (R = S754_infinity false
        /\ ((972 <= F /\ 2 ^ 52 <= m2) \/ (F = 971 /\ m2 = 2 ^ 53))).
Proof.
  intros HF Hm Hnorm R ->. unfold shr_fexp.
  destruct m2 as [|q|q]; [| |lia].
  - (* the mantissa rounds to zero *)
    left. cbn [Zdigits2 shr_record_of_loc].
    destruct (fexp prec emax (0 + F) - F) eqn:E2.
    + cbn. auto.
    + rewrite fexp_eq in E2. lia.
    + cbn. auto.
  - right. cbn [Zdigits2 shr_record_of_loc].
    pose proof (digits_bounds q) as [Qlo Qhi].
    set (dq := Zpos (digits2_pos q)) in *.
    destruct (Z.eq_dec (Zpos q) (2 ^ 53)) as [Q53|Q53].
    + (* the mantissa rounded up to the next binade *)
      assert (Hdq : dq = 54).
      { unfold dq. apply digits_unique. rewrite Q53.
        change (54 - 1) with 53. split; [lia|].
        apply Z.pow_lt_mono_r; lia. }
      rewrite fexp_eq, Hdq.
      replace (Z.max (54 + F - 53) (-1074) - F) with 1 by lia.
      cbn [shr iter_pos fst snd].
      assert (Eq53 : q = 9007199254740992%positive)
        by (apply Pos2Z.inj; exact Q53).
      rewrite Eq53. cbn [shr_1 shr_m].
      change (emax - prec) with 971.
      destruct (Z.leb_spec (F + 1) 971) as [Hle|Hgt].
      * left. exists 4503599627370496%positive, (F + 1).
        split; [reflexivity|]. split; [lia|].
        replace (F + 1 - F) with 1 by lia. reflexivity.
      * right. split; [reflexivity|].
        destruct (Z.eq_dec F 971) as [->|]; [right; auto|left].
        split; [lia|]. clear. lia.
    + assert (Hdq : dq <= 53).
      { destruct (Z.le_gt_cases dq 53) as [|Hgt]; [assumption|exfalso].
        assert (2 ^ 53 <= 2 ^ (dq - 1)) by (apply Z.pow_le_mono_r; lia).
        lia. }
      assert (Hs : fexp prec emax (dq + F) - F <= 0)
        by (rewrite fexp_eq; lia).
      assert (Hsh : forall r, shr r F (fexp prec emax (dq + F) - F) = (r, F)).
      { intros r. destruct (fexp prec emax (dq + F) - F); try reflexivity.
        lia. }
      rewrite Hsh. cbn [shr_m].
      change (emax - prec) with 971.
      destruct (Z.leb_spec F 971) as [Hle|Hgt].
      * left. exists q, F. split; [reflexivity|]. split; [lia|].
        rewrite Z.sub_diag. lia.
      * right. split; [reflexivity|]. left. split; [lia|].
        destruct Hnorm as [|Hn]; lia.
Qed.

Lemma Zdigits2_bounds (M : Z) :
  0 <= M -> 2 ^ (Zdigits2 M - 1) <= M < 2 ^ Zdigits2 M.
Proof.
  intros HM. destruct M as [|p|p]; [| |lia].
  - cbn [Zdigits2]. rewrite Z.pow_neg_r by lia. cbn. lia.
  - cbn [Zdigits2]. apply digits_bounds.
Qed.

(** What [binary_round_aux] returns for a mantissa [M] at an exponent [E]
    that is not above the exponent [F] of the format at that magnitude: the
    mantissa [M / 2^(F - E)] or the next one, at [F]. *)
Lemma round_aux_value (M : Z) (E : Z) (l : location) :
  let F := fexp prec emax (Zdigits2 M + E) in
  let R := binary_round_aux prec emax false M E l in
  0 <= M -> E <= F ->
  exists m2 : Z,
    M / 2 ^ (F - E) <= m2 <= M / 2 ^ (F - E) + 1
    /\ (l = loc_Exact -> M mod 2 ^ (F - E) = 0 -> m2 = M / 2 ^ (F - E))
    /\ (F = -1074 \/ 2 ^ 52 <= M / 2 ^ (F - E))
    /\ -1074 <= F
    /\ ((R = S754_zero false /\ m2 = 0)
        \/ (exists p e, R = S754_finite false p e
                        /\ F <= e /\ Zpos p * 2 ^ (e - F) = m2)
        \/ (R = S754_infinity false
            /\ ((972 <= F /\ 2 ^ 52 <= m2) \/ (F = 971 /\ m2 = 2 ^ 53)))).
Proof.
  intros F R HM HEF.
  pose proof (Zdigits2_bounds M HM) as [Dlo Dhi].
  assert (HF : F = Z.max (Zdigits2 M + E - 53) (-1074))
    by (unfold F; apply fexp_eq).
  assert (HF0 : -1074 <= F) by (clear - HF; lia).
  assert (Pn : 0 < 2 ^ (F - E)) by (apply Z.pow_pos_nonneg; lia).
  assert (Hup : M / 2 ^ (F - E) < 2 ^ 53).
  { apply Z.div_lt_upper_bound; [exact Pn|].
    rewrite Z.mul_comm, <- Z.pow_add_r by lia.
    apply Z.lt_le_trans with (1 := Dhi). apply Z.pow_le_mono_r; lia. }
  assert (H0 : 0 <= M / 2 ^ (F - E)) by (apply Z.div_pos; lia).
  assert (Hnorm : F = -1074 \/ 2 ^ 52 <= M / 2 ^ (F - E)).
  { destruct (Z.eq_dec F (-1074)) as [|NF]; [now left|right].
    assert (HF' : F = Zdigits2 M + E - 53) by (clear - HF NF; lia).
    apply Z.div_le_lower_bound; [exact Pn|].
    rewrite <- Z.pow_add_r by lia.
    replace (F - E + 52) with (Zdigits2 M - 1) by lia.
    exact Dlo. }
  destruct (shr_spec M l E (F - E) ltac:(lia) ltac:(lia))
    as (H1 & H2 & H3).
  pose proof (round_store
                (round_nearest_even
                   (shr_m (fst (shr (shr_record_of_loc M l) E (F - E))))
                   (loc_of_shr_record
                      (fst (shr (shr_record_of_loc M l) E (F - E)))))
                F HF0) as HS.
  pose proof (round_nearest_even_bounds
                (shr_m (fst (shr (shr_record_of_loc M l) E (F - E))))
                (loc_of_shr_record
                   (fst (shr (shr_record_of_loc M l) E (F - E)))))
    as Hr.
  set (m2 := round_nearest_even _ _) in *.
  rewrite H1 in Hr. exists m2.
  split; [exact Hr|]. split.
  { intros Hl Hz. unfold m2. rewrite (H3 Hl Hz), H1. reflexivity. }
  split; [exact Hnorm|]. split; [exact HF0|].
  apply HS.
  - clear - Hr Hup H0. lia.
  - clear - Hr Hnorm. destruct Hnorm; [now left|right; lia].
  - subst R m2. unfold binary_round_aux, shr_fexp. fold F.
    destruct (shr (shr_record_of_loc M l) E (F - E)) as [mrs e1].
    cbn [fst snd] in *. subst e1.
    replace (E + (F - E)) with F by lia. reflexivity.
Qed.

Lemma valid_range (s : bool) (m : positive) (e : Z) :
  valid_binary (S754_finite s m e) = true ->
  -1074 <= e <= 971 /\ 0 < Zpos m < 2 ^ 53.
Proof.
  intros V. pose proof V as V'.
  rewrite (cond_Zopp_valid s) in V'. apply valid_shape in V'.
  unfold valid_binary, bounded in V. apply andb_true_iff in V.
  destruct V as [_ V]. apply Z.leb_le in V. change (emax - prec) with 971 in V.
  lia.
Qed.

Lemma below_floor (M K N W : Z) :
  0 < N -> 0 < W -> K * N * W < (M + 1) * W -> K <= M / N.
Proof.
  intros HN HW H. apply Z.div_le_lower_bound; [exact HN|]. nia.
Qed.

Lemma above_floor (M K N W : Z) :
  0 < N -> 0 < W -> M * W <= K * N * W ->
  M / N <= K /\ (M / N = K -> M = K * N).
Proof.
  intros HN HW H. assert (HM : M <= N * K) by nia. split.
  - apply Z.div_le_upper_bound; assumption.
  - intros Hq. pose proof (Z.mul_div_le M N HN). nia.
Qed.

Lemma no_room (M W N C U m r : Z) :
  0 < W -> 0 < N -> 0 < C -> U * C = N * W -> N * m <= M -> 2 ^ 52 <= m ->
  M * W <= r * C -> r < 2 ^ 52 * U -> False.
Proof.
  intros PW PN PC HU Hfl Hn Hb Hr.
  assert (H1 : r * C < 2 ^ 52 * (U * C)) by nia.
  rewrite HU in H1.
  assert (H2 : 0 < N * W) by nia.
  assert (H3 : 2 ^ 52 * (N * W) <= m * (N * W)) by nia.
  assert (H4 : m * (N * W) <= M * W) by nia.
  lia.
Qed.

(** The rank of a positive number of the format whose exponent is at least
    [F] is a multiple of [2^(F + 1074)]; below [F] it is under
    [2^52 * 2^(F + 1074)]. *)
Lemma rank_at (mb : positive) (eb F : Z) :
  valid_binary (S754_finite false mb eb) = true -> -1074 <= F ->
  (F <= eb /\ rank (S754_finite false mb eb)
              = Zpos mb * 2 ^ (eb - F) * 2 ^ (F + 1074))
  \/ (eb < F /\ rank (S754_finite false mb eb) < 2 ^ 52 * 2 ^ (F + 1074)).
Proof.
  intros V HF. apply valid_range in V. destruct V as [He Hm].
  cbn [rank scaled cond_Zopp].
  destruct (Z.le_gt_cases F eb) as [H|H]; [left|right]; split; try assumption.
  - rewrite <- Z.mul_assoc, <- Z.pow_add_r by lia.
    do 2 f_equal. lia.
  - assert (Hp : 2 * 2 ^ (eb + 1074) <= 2 ^ (F + 1074)).
    { rewrite <- Z.pow_succ_r by lia. apply Z.pow_le_mono_r; lia. }
    assert (0 < 2 ^ (eb + 1074)) by (apply Z.pow_pos_nonneg; lia).
    generalize dependent (2 ^ (eb + 1074)).
    generalize dependent (2 ^ (F + 1074)). intros. nia.
Qed.

Lemma rank_round (p : positive) (e F m2 : Z) :
  -1074 <= F -> F <= e -> Zpos p * 2 ^ (e - F) = m2 ->
  rank (S754_finite false p e) = m2 * 2 ^ (F + 1074).
Proof.
  intros HF He <-. cbn [rank scaled cond_Zopp].
  rewrite <- Z.mul_assoc, <- Z.pow_add_r by lia. do 2 f_equal. lia.
Qed.

(** The units of the two scales: [2^(F + 1074) * 2^1126] is
    [2^(F - E) * 2^(E + 2200)]. *)
Lemma units (E F : Z) :
  -2200 <= E -> E <= F -> -1074 <= F ->
  2 ^ (F + 1074) * 2 ^ 1126 = 2 ^ (F - E) * 2 ^ (E + 2200).
Proof.
  intros. rewrite <- !Z.pow_add_r by lia. f_equal. lia.
Qed.

(** Rounding does not go below a number of the format that the exact
    value [M * 2^E], or anything up to the next integer multiple of
    [2^E], is not below. *)
Lemma round_aux_lower (M E : Z) (l : location) (b : spec_float) :
  valid_binary b = true -> finite_or_zero b ->
  0 <= M -> -2200 <= E -> E <= fexp prec emax (Zdigits2 M + E) ->
  rank b * 2 ^ 1126 < (M + 1) * 2 ^ (E + 2200) ->
  rank b <= rank (binary_round_aux prec emax false M E l).
Proof.
  intros V Fb HM HE HEF Hb.
  destruct (round_aux_value M E l HM HEF)
    as (m2 & Hm2 & _ & Hnorm & HF & HR).
  set (F := fexp prec emax (Zdigits2 M + E)) in *. clearbody F.
  set (R := binary_round_aux prec emax false M E l) in *. clearbody R.
  pose proof (units E F HE HEF HF) as HU.
  assert (PN : 0 < 2 ^ (F - E)) by (apply Z.pow_pos_nonneg; lia).
  assert (PW : 0 < 2 ^ (E + 2200)) by (apply Z.pow_pos_nonneg; lia).
  assert (PU : 0 < 2 ^ (F + 1074)) by (apply Z.pow_pos_nonneg; lia).
  assert (Hm0 : 0 <= M / 2 ^ (F - E)) by (apply Z.div_pos; lia).
  assert (Hlow : rank b <= M / 2 ^ (F - E) * 2 ^ (F + 1074)).
  { destruct b as [sb|sb| |[|] mb eb]; try contradiction.
    - cbn [rank scaled]. clear - Hm0 PU. nia.
    - cbn [rank scaled cond_Zopp].
      assert (0 < 2 ^ (eb + 1074)).
      { apply valid_range in V. apply Z.pow_pos_nonneg; lia. }
      clear - Hm0 PU H. nia.
    - destruct (rank_at mb eb F V HF) as [[He Hr]|[He Hr]].
      + rewrite Hr in *.
        assert (HK : Zpos mb * 2 ^ (eb - F) <= M / 2 ^ (F - E)).
        { apply (below_floor _ _ _ (2 ^ (E + 2200)) PN PW).
          rewrite <- (Z.mul_assoc _ (2 ^ (F - E))), <- HU, Z.mul_assoc.
          exact Hb. }
        clear - HK PU. nia.
      + destruct Hnorm as [->|Hn]; [apply valid_range in V; lia|].
        clear - Hr Hn PU.
        generalize dependent (2 ^ (F + 1074)).
        generalize dependent (M / 2 ^ (F - E)). intros. nia. }
  destruct HR as [[-> E0]|[(p & e & -> & He & Hp)|[-> _]]].
  - cbn [rank scaled]. clear - Hlow Hm2 E0 PU. nia.
  - rewrite (rank_round p e F m2 HF He Hp).
    clear - Hlow Hm2 PU.
    generalize dependent (2 ^ (F + 1074)). intros. nia.
  - cbn [rank].
    destruct b as [sb|sb| |sb mb eb]; try contradiction.
    + cbn [rank scaled]. apply Z.lt_le_incl, Z.pow_pos_nonneg; lia.
    + pose proof (scaled_bound sb mb eb V) as Hs. cbn [rank].
      clear - Hs. generalize dependent (2 ^ 2200). intros. lia.
Qed.

(** Rounding does not go above a number of the format that the exact value
    is not above: [l] says whether the exact value is [M * 2^E] or lies
    strictly between it and the next integer multiple of [2^E]. *)
Lemma round_aux_upper (M E : Z) (l : location) (b : spec_float) :
  valid_binary b = true -> finite_or_zero b ->
  0 <= M -> -2200 <= E -> E <= fexp prec emax (Zdigits2 M + E) ->
  M * 2 ^ (E + 2200) <= rank b * 2 ^ 1126 ->
  (l <> loc_Exact -> M * 2 ^ (E + 2200) < rank b * 2 ^ 1126) ->
  rank (binary_round_aux prec emax false M E l) <= rank b
  /\ binary_round_aux prec emax false M E l <> S754_infinity false.
Proof.
  intros V Fb HM HE HEF Hb Hl.
  destruct (round_aux_value M E l HM HEF)
    as (m2 & Hm2 & Hex & Hnorm & HF & HR).
  set (F := fexp prec emax (Zdigits2 M + E)) in *. clearbody F.
  set (R := binary_round_aux prec emax false M E l) in *. clearbody R.
  pose proof (units E F HE HEF HF) as HU.
  assert (PN : 0 < 2 ^ (F - E)) by (apply Z.pow_pos_nonneg; lia).
  assert (PW : 0 < 2 ^ (E + 2200)) by (apply Z.pow_pos_nonneg; lia).
  assert (PU : 0 < 2 ^ (F + 1074)) by (apply Z.pow_pos_nonneg; lia).
  assert (PC : 0 < 2 ^ 1126) by (apply Z.pow_pos_nonneg; lia).
  assert (Hm0 : 0 <= M / 2 ^ (F - E)) by (apply Z.div_pos; lia).
  assert (Hfloor : 2 ^ (F - E) * (M / 2 ^ (F - E)) <= M)
    by (apply Z.mul_div_le; exact PN).
  assert (Hnn : 0 <= rank b).
  { clear - Hb PW PC HM. generalize dependent (2 ^ (E + 2200)).
    generalize dependent (2 ^ 1126). intros. nia. }
  assert (Hup : m2 * 2 ^ (F + 1074) <= rank b).
  { destruct b as [sb|sb| |[|] mb eb]; try contradiction.
    - (* the bound is zero: so is the exact value *)
      cbn [rank scaled] in *.
      assert (M0 : M = 0) by (clear - Hb PW HM; nia). subst M.
      assert (NZ : 2 ^ (F - E) <> 0) by (clear - PN; lia).
      assert (Hl' : l = loc_Exact).
      { destruct l as [|c]; [reflexivity|exfalso].
        specialize (Hl ltac:(discriminate)). clear - Hl. lia. }
      rewrite (Hex Hl' (Z.mod_0_l _ NZ)), Z.div_0_l by exact NZ.
      apply Z.le_refl.
    - exfalso. cbn [rank scaled cond_Zopp] in Hnn.
      assert (0 < 2 ^ (eb + 1074)).
      { apply valid_range in V. apply Z.pow_pos_nonneg; lia. }
      clear - Hnn H. nia.
    - destruct (rank_at mb eb F V HF) as [[He Hr]|[He Hr]].
      + rewrite Hr in *.
        destruct (above_floor M (Zpos mb * 2 ^ (eb - F)) (2 ^ (F - E))
                              (2 ^ (E + 2200)) PN PW) as [HK HKe].
        { rewrite <- (Z.mul_assoc _ (2 ^ (F - E))), <- HU, Z.mul_assoc.
          exact Hb. }
        destruct (Z.eq_dec (M / 2 ^ (F - E)) (Zpos mb * 2 ^ (eb - F)))
          as [Heq|Hne].
        * specialize (HKe Heq).
          assert (Hl' : l = loc_Exact).
          { destruct l as [|c]; [reflexivity|exfalso].
            specialize (Hl ltac:(discriminate)).
            rewrite <- (Z.mul_assoc _ (2 ^ (F + 1074))), HU, Z.mul_assoc
              in Hl.
            rewrite <- HKe in Hl. lia. }
          assert (Hz : M mod 2 ^ (F - E) = 0).
          { rewrite HKe. apply Z.mod_mul. lia. }
          rewrite (Hex Hl' Hz), Heq. lia.
        * assert (m2 <= Zpos mb * 2 ^ (eb - F)) by lia.
          clear - H PU. nia.
      + exfalso.
        destruct Hnorm as [->|Hn]; [apply valid_range in V; lia|].
        exact (no_room _ _ _ _ _ _ _ PW PN PC HU Hfloor Hn Hb Hr). }
  destruct HR as [[-> E0]|[(p & e & -> & He & Hp)|[-> Hinf]]].
  - split; [|discriminate]. cbn [rank scaled] in *. lia.
  - split; [|discriminate]. rewrite (rank_round p e F m2 HF He Hp).
    exact Hup.
  - exfalso.
    assert (Hmax : rank b < 2 ^ 53 * 2 ^ (971 + 1074)).
    { assert (P0 : 0 < 2 ^ 53 * 2 ^ (971 + 1074)).
      { apply Z.mul_pos_pos; apply Z.pow_pos_nonneg; lia. }
      destruct b as [sb|sb| |[|] mb eb]; try contradiction;
        try exact P0.
      - cbn [rank scaled cond_Zopp]. cbn [rank scaled cond_Zopp] in Hnn.
        clear - Hnn P0. generalize dependent (2 ^ 53 * 2 ^ (971 + 1074)).
        intros. lia.
      - clear P0. apply valid_range in V. destruct V as [Ve Vm].
        cbn [rank scaled cond_Zopp].
        assert (2 ^ (eb + 1074) <= 2 ^ (971 + 1074))
          by (apply Z.pow_le_mono_r; lia).
        assert (0 < 2 ^ (eb + 1074)) by (apply Z.pow_pos_nonneg; lia).
        clear - H H0 Vm.
        generalize dependent (2 ^ (eb + 1074)).
        generalize dependent (2 ^ (971 + 1074)). intros. nia. }
    destruct Hinf as [[H972 Hm]|[-> ->]].
    + assert (2 * 2 ^ (971 + 1074) <= 2 ^ (F + 1074)).
      { rewrite <- Z.pow_succ_r by lia. apply Z.pow_le_mono_r; lia. }
      assert (0 < 2 ^ (971 + 1074)) by (apply Z.pow_pos_nonneg; lia).
      clear - Hmax Hup H H0 Hm.
      generalize dependent (rank b).
      generalize dependent (2 ^ (F + 1074)).
      generalize dependent (2 ^ (971 + 1074)). intros. nia.
    + clear - Hmax Hup. generalize dependent (2 ^ 53 * 2 ^ (971 + 1074)).
      intros. lia.
Qed.

(** *** Division *)

(** The quotient and the exponent that [SFdiv] hands to the rounding. *)
Lemma div_core_spec (m1 m2 : positive) (e1 e2 : Z) :
  valid_binary (S754_finite false m1 e1) = true ->
  valid_binary (S754_finite false m2 e2) = true ->
  exists q e l,
    SFdiv_core_binary prec emax (Zpos m1) e1 (Zpos m2) e2 = (q, e, l)
    /\ 0 <= q /\ -2200 <= e /\ e <= e1 - e2
    /\ e <= fexp prec emax (Zdigits2 q + e)
    /\ q * Zpos m2 <= Zpos m1 * 2 ^ (e1 - e2 - e) < (q + 1) * Zpos m2
    /\ (l <> loc_Exact -> q * Zpos m2 < Zpos m1 * 2 ^ (e1 - e2 - e)).
Proof.
  intros V1 V2.
  pose proof (valid_range _ _ _ V1) as [R1 _].
  pose proof (valid_range _ _ _ V2) as [R2 _].
  pose proof (valid_digits _ _ _ V1) as [D1 _].
  pose proof (digits_bounds m1) as [B1lo B1hi].
  pose proof (digits_bounds m2) as [B2lo B2hi].
  unfold SFdiv_core_binary. cbn [Zdigits2].
  set (d1 := Zpos (digits2_pos m1)) in *.
  set (d2 := Zpos (digits2_pos m2)) in *.
  assert (Hd2 : 1 <= d2) by (unfold d2; lia).
  set (e := Z.min (fexp prec emax (d1 + e1 - (d2 + e2))) (e1 - e2)).
  assert (Hfx : fexp prec emax (d1 + e1 - (d2 + e2))
                = Z.max (d1 + e1 - (d2 + e2) - 53) (-1074))
    by apply fexp_eq.
  assert (He : e <= e1 - e2) by (unfold e; lia).
  assert (He0 : -2200 <= e) by (unfold e; lia).
  set (s := e1 - e2 - e) in *.
  assert (Hs : 0 <= s) by (unfold s; lia).
  assert (Hm' : match s with
                | Zpos _ => Z.shiftl (Zpos m1) s
                | Z0 => Zpos m1
                | Zneg _ => 0
                end = Zpos m1 * 2 ^ s).
  { destruct s eqn:Es; [cbn; lia| |lia].
    rewrite Z.shiftl_mul_pow2 by lia. reflexivity. }
  rewrite Hm'.
  assert (Ps : 0 < 2 ^ s) by (apply Z.pow_pos_nonneg; lia).
  pose proof (Z.div_eucl_eq (Zpos m1 * 2 ^ s) (Zpos m2) ltac:(lia)) as Hdiv.
  pose proof (Z.mod_pos_bound (Zpos m1 * 2 ^ s) (Zpos m2) ltac:(lia)) as Hr.
  unfold Z.modulo in Hr.
  pose proof (Z.div_pos (Zpos m1 * 2 ^ s) (Zpos m2) ltac:(nia) ltac:(lia))
    as Hq.
  unfold Z.div in Hq.
  destruct (Z.div_eucl (Zpos m1 * 2 ^ s) (Zpos m2)) as [q r].
  cbn [fst snd] in *.
  exists q, e, (new_location (Zpos m2) r).
  split; [reflexivity|]. split; [exact Hq|]. split; [exact He0|].
  split; [exact He|].
  assert (Hqm : q * Zpos m2 <= Zpos m1 * 2 ^ s < (q + 1) * Zpos m2).
  { clear - Hdiv Hr. generalize dependent (Zpos m1 * 2 ^ s). intros. nia. }
  split; [|split; [exact Hqm|]].
  - (* the exponent is not above the one of the format *)
    rewrite fexp_eq.
    destruct (Z.le_gt_cases e (-1074)) as [Hlow|Hhigh]; [lia|].
    assert (He' : e = d1 + e1 - (d2 + e2) - 53) by (unfold e in *; lia).
    assert (Hsd : s = 53 - d1 + d2) by (unfold s; lia).
    enough (53 <= Zdigits2 q) by lia.
    assert (H52 : 2 ^ 52 <= q).
    { assert (Hb : 2 ^ 52 * 2 ^ d2 <= Zpos m1 * 2 ^ s).
      { rewrite <- Z.pow_add_r by lia.
        replace (52 + d2) with (d1 - 1 + s) by lia.
        rewrite Z.pow_add_r by lia.
        apply Z.mul_le_mono_nonneg_r; [lia|exact B1lo]. }
      assert (P2 : 0 < 2 ^ d2) by (apply Z.pow_pos_nonneg; lia).
      clear - Hb Hqm B2hi P2 Hq.
      generalize dependent (Zpos m1 * 2 ^ s).
      generalize dependent (2 ^ d2). intros. nia. }
    pose proof (Zdigits2_bounds q Hq) as [_ Qhi].
    destruct (Z.le_gt_cases 53 (Zdigits2 q)) as [|Hlt]; [assumption|exfalso].
    assert (2 ^ Zdigits2 q <= 2 ^ 52).
    { destruct (Z.le_gt_cases 0 (Zdigits2 q)).
      - apply Z.pow_le_mono_r; lia.
      - rewrite Z.pow_neg_r by lia. lia. }
    lia.
  - intros Hl. destruct (Z.eq_dec r 0) as [->|Hr0].
    + exfalso. apply Hl. unfold new_location, new_location_even,
        new_location_odd. destruct (Z.even (Zpos m2)); reflexivity.
    + change (q * Zpos m2 < Zpos m1 * 2 ^ s).
      clear - Hdiv Hr Hr0. generalize dependent (Zpos m1 * 2 ^ s).
      intros. nia.
Qed.

Lemma amount_rank (x : float) : amount x -> 0 <= frank x.
Proof.
  unfold amount, frank.
  destruct (Prim2SF x) as [[|]|[|]| |[|] m e]; try contradiction; intros _.
  - cbn. lia.
  - cbn [rank scaled cond_Zopp].
    pose proof (Z.pow_nonneg 2 (e + 1074) ltac:(lia)). lia.
Qed.

Lemma amount_number (x : float) : amount x -> number x.
Proof.
  unfold amount, number.
  destruct (Prim2SF x) as [[|]|[|]| |[|] m e]; try contradiction;
    discriminate.
Qed.

Lemma amount_finite (x : float) :
  amount x -> valid_binary (Prim2SF x) = true /\ finite_or_zero (Prim2SF x).
Proof.
  intros H. split; [apply Prim2SF_valid|].
  unfold amount in H.
  destruct (Prim2SF x) as [[|]|[|]| |[|] m e]; try contradiction; exact I.
Qed.

(** What a rounding that is not negative, not infinite and not [NaN]
    gives is an amount. *)
Lemma amount_round (M E : Z) (l : location) :
  0 <= M ->
  binary_round_aux prec emax false M E l <> S754_infinity false ->
  match binary_round_aux prec emax false M E l with
  | S754_zero false | S754_finite false _ _ => True
  | _ => False
  end.
Proof.
  intros HM Hinf.
  pose proof (LevelFacts.good_round M E l HM) as Hg.
  destruct (binary_round_aux prec emax false M E l) as [s|s| |s m e];
    cbn [LevelProps.good] in Hg; subst; try exact I; try contradiction;
    congruence.
Qed.

(** A quotient is not above a bound [b] that the exact quotient is not
    above: [x <= b * y] gives [x / y <= b]. *)
Lemma div_upper (x y b : float) (my : positive) (ey : Z) :
  amount x -> Prim2SF y = S754_finite false my ey -> amount b ->
  frank x * 2 ^ 1074 <= frank b * frank y ->
  amount (x / y) /\ frank (x / y) <= frank b.
Proof.
  intros Ax Ey Ab Hle.
  pose proof (amount_rank b Ab) as Hb0.
  pose proof (amount_finite b Ab) as [Vb Fb].
  pose proof (Prim2SF_valid x) as Vx. pose proof (Prim2SF_valid y) as Vy.
  unfold amount, frank in *. rewrite div_spec. rewrite Ey in *.
  destruct (Prim2SF x) as [[|]|[|]| |[|] mx ex]; try contradiction.
  - cbn. split; [exact I|exact Hb0].
  - unfold SF64div. cbn [SFdiv xorb].
    destruct (div_core_spec mx my ex ey Vx Vy)
      as (q & e & l & -> & Hq & He0 & He & HeF & Hqm & Hl).
    pose proof (valid_range _ _ _ Vx) as [Rx _].
    pose proof (valid_range _ _ _ Vy) as [Ry _].
    cbn [rank scaled cond_Zopp] in Hle.
    assert (Hid : Zpos mx * 2 ^ (ex - ey - e) * 2 ^ (e + 2200)
                  * 2 ^ (ey + 1074)
                  = Zpos mx * 2 ^ (ex + 1074) * 2 ^ 1074 * 2 ^ 1126).
    { rewrite <- !Z.mul_assoc, <- !Z.pow_add_r by lia. do 2 f_equal. lia. }
    assert (PW : 0 < 2 ^ (e + 2200)) by (apply Z.pow_pos_nonneg; lia).
    assert (PY : 0 < 2 ^ (ey + 1074)) by (apply Z.pow_pos_nonneg; lia).
    assert (PC : 0 < 2 ^ 1126) by (apply Z.pow_pos_nonneg; lia).
    assert (Hkey : Zpos mx * 2 ^ (ex - ey - e) * 2 ^ (e + 2200)
                   <= rank (Prim2SF b) * 2 ^ 1126 * Zpos my).
    { apply Z.mul_le_mono_pos_r with (p := 2 ^ (ey + 1074)); [exact PY|].
      rewrite Hid.
      replace (rank (Prim2SF b) * 2 ^ 1126 * Zpos my * 2 ^ (ey + 1074))
        with (rank (Prim2SF b) * (Zpos my * 2 ^ (ey + 1074)) * 2 ^ 1126)
        by (generalize (2 ^ 1126) (2 ^ (ey + 1074)); intros; ring).
      apply Z.mul_le_mono_nonneg_r; [apply Z.lt_le_incl, PC|exact Hle]. }
    destruct (round_aux_upper q e l (Prim2SF b) Vb Fb Hq He0 HeF)
      as [Hr Hinf].
    + clear - Hkey Hqm PW.
      generalize dependent (rank (Prim2SF b) * 2 ^ 1126).
      generalize dependent (Zpos mx * 2 ^ (ex - ey - e)).
      generalize dependent (2 ^ (e + 2200)). intros. nia.
    + intros Hne. specialize (Hl Hne). clear - Hkey Hl PW.
      generalize dependent (rank (Prim2SF b) * 2 ^ 1126).
      generalize dependent (Zpos mx * 2 ^ (ex - ey - e)).
      generalize dependent (2 ^ (e + 2200)). intros. nia.
    + split; [|exact Hr]. apply amount_round; assumption.
Qed.

(** A quotient is not below a bound [b] that the exact quotient is not
    below: [b * y <= x] gives [b <= x / y]. *)
Lemma div_lower (x y b : float) (my : positive) (ey : Z) :
  amount x -> Prim2SF y = S754_finite false my ey -> amount b ->
  frank b * frank y <= frank x * 2 ^ 1074 ->
  frank b <= frank (x / y).
Proof.
  intros Ax Ey Ab Hle.
  pose proof (amount_rank b Ab) as Hb0.
  pose proof (amount_finite b Ab) as [Vb Fb].
  pose proof (Prim2SF_valid x) as Vx. pose proof (Prim2SF_valid y) as Vy.
  unfold amount, frank in *. rewrite div_spec. rewrite Ey in *.
  destruct (Prim2SF x) as [[|]|[|]| |[|] mx ex]; try contradiction.
  - cbn [rank scaled cond_Zopp] in *.
    pose proof (valid_range _ _ _ Vy) as [Ry Rm].
    assert (0 < 2 ^ (ey + 1074)) by (apply Z.pow_pos_nonneg; lia).
    cbn. clear - Hle Hb0 H. nia.
  - unfold SF64div. cbn [SFdiv xorb].
    destruct (div_core_spec mx my ex ey Vx Vy)
      as (q & e & l & -> & Hq & He0 & He & HeF & Hqm & Hl).
    pose proof (valid_range _ _ _ Vx) as [Rx _].
    pose proof (valid_range _ _ _ Vy) as [Ry _].
    cbn [rank scaled cond_Zopp] in Hle.
    assert (Hid : Zpos mx * 2 ^ (ex - ey - e) * 2 ^ (e + 2200)
                  * 2 ^ (ey + 1074)
                  = Zpos mx * 2 ^ (ex + 1074) * 2 ^ 1074 * 2 ^ 1126).
    { rewrite <- !Z.mul_assoc, <- !Z.pow_add_r by lia. do 2 f_equal. lia. }
    assert (PW : 0 < 2 ^ (e + 2200)) by (apply Z.pow_pos_nonneg; lia).
    assert (PY : 0 < 2 ^ (ey + 1074)) by (apply Z.pow_pos_nonneg; lia).
    assert (PC : 0 < 2 ^ 1126) by (apply Z.pow_pos_nonneg; lia).
    assert (Hkey : rank (Prim2SF b) * 2 ^ 1126 * Zpos my
                   <= Zpos mx * 2 ^ (ex - ey - e) * 2 ^ (e + 2200)).
    { apply Z.mul_le_mono_pos_r with (p := 2 ^ (ey + 1074)); [exact PY|].
      rewrite Hid.
      replace (rank (Prim2SF b) * 2 ^ 1126 * Zpos my * 2 ^ (ey + 1074))
        with (rank (Prim2SF b) * (Zpos my * 2 ^ (ey + 1074)) * 2 ^ 1126)
        by (generalize (2 ^ 1126) (2 ^ (ey + 1074)); intros; ring).
      apply Z.mul_le_mono_nonneg_r; [apply Z.lt_le_incl, PC|exact Hle]. }
    apply (round_aux_lower q e l (Prim2SF b) Vb Fb Hq He0 HeF).
    clear - Hkey Hqm PW.
    generalize dependent (rank (Prim2SF b) * 2 ^ 1126).
    generalize dependent (Zpos mx * 2 ^ (ex - ey - e)).
    generalize dependent (2 ^ (e + 2200)). intros. nia.
Qed.

(** *** Addition *)

(** The aligned mantissa that [binary_round] hands to the rounding. *)
Lemma round_align (p : positive) (e : Z) :
  exists mz ez,
    shl_align p e (fexp prec emax (Zpos (digits2_pos p) + e)) = (mz, ez)
    /\ ez <= e /\ Z.min e (-1074) <= ez
    /\ Zpos mz = Zpos p * 2 ^ (e - ez)
    /\ ez <= fexp prec emax (Zdigits2 (Zpos mz) + ez).
Proof.
  pose proof (digits_bounds p) as [Blo Bhi].
  set (d := Zpos (digits2_pos p)) in *.
  assert (HF : fexp prec emax (d + e) = Z.max (d + e - 53) (-1074))
    by apply fexp_eq.
  set (F := fexp prec emax (d + e)) in *.
  destruct (Z.le_gt_cases e F) as [Hle|Hgt].
  - exists p, e. unfold shl_align.
    destruct (F - e) as [|k|k] eqn:Ek; try lia;
      (split; [reflexivity|]); rewrite Z.sub_diag, Z.mul_1_r;
      cbn [Zdigits2]; fold d; fold F; lia.
  - destruct (shl_align_value p e F ltac:(lia)) as [Hv Hs].
    destruct (shl_align p e F) as [mz ez]. cbn [fst snd] in *. subst ez.
    exists mz, F. split; [reflexivity|].
    split; [lia|]. split; [lia|]. split; [exact Hv|].
    cbn [Zdigits2].
    assert (Hd : Zpos (digits2_pos mz) = d + (e - F)).
    { apply digits_unique. rewrite Hv.
      replace (d + (e - F) - 1) with ((d - 1) + (e - F)) by lia.
      assert (0 < 2 ^ (e - F)) by (apply Z.pow_pos_nonneg; lia).
      assert (1 <= d) by (unfold d; lia).
      rewrite !Z.pow_add_r by lia. split.
      - apply Z.mul_le_mono_nonneg_r; lia.
      - apply Z.mul_lt_mono_pos_r; lia. }
    rewrite Hd. replace (d + (e - F) + F) with (d + e) by lia.
    fold F. lia.
Qed.

Lemma normalize_upper (n e : Z) (b : spec_float) :
  valid_binary b = true -> finite_or_zero b ->
  0 <= n -> -1074 <= e ->
  n * 2 ^ (e + 1074) <= rank b ->
  rank (binary_normalize prec emax n e false) <= rank b
  /\ match binary_normalize prec emax n e false with
     | S754_zero false | S754_finite false _ _ => True
     | _ => False
     end.
Proof.
  intros V Fb Hn He Hle. destruct n as [|p|p]; [| |lia].
  - cbn [binary_normalize]. split; [|exact I]. cbn [rank scaled]. lia.
  - cbn [binary_normalize]. unfold binary_round.
    destruct (round_align p e) as (mz & ez & -> & Hez & Hez0 & Hv & HF).
    assert (Hval : Zpos mz * 2 ^ (ez + 2200)
                   = Zpos p * 2 ^ (e + 1074) * 2 ^ 1126).
    { rewrite Hv, <- !Z.mul_assoc, <- !Z.pow_add_r by lia.
      do 2 f_equal. lia. }
    assert (PC : 0 < 2 ^ 1126) by (apply Z.pow_pos_nonneg; lia).
    destruct (round_aux_upper (Zpos mz) ez loc_Exact b V Fb
                              (Pos2Z.is_nonneg mz) ltac:(lia) HF)
      as [Hr Hinf].
    + rewrite Hval. apply Z.mul_le_mono_nonneg_r; [apply Z.lt_le_incl, PC|exact Hle].
    + intros N. exfalso. apply N. reflexivity.
    + split; [exact Hr|]. apply amount_round; [lia|exact Hinf].
Qed.

Lemma normalize_lower (n e : Z) (b : spec_float) :
  valid_binary b = true -> finite_or_zero b ->
  0 <= n -> -1074 <= e ->
  rank b <= n * 2 ^ (e + 1074) ->
  rank b <= rank (binary_normalize prec emax n e false).
Proof.
  intros V Fb Hn He Hle. destruct n as [|p|p]; [| |lia].
  - cbn [binary_normalize]. cbn [rank scaled]. lia.
  - cbn [binary_normalize]. unfold binary_round.
    destruct (round_align p e) as (mz & ez & -> & Hez & Hez0 & Hv & HF).
    assert (Hval : Zpos mz * 2 ^ (ez + 2200)
                   = Zpos p * 2 ^ (e + 1074) * 2 ^ 1126).
    { rewrite Hv, <- !Z.mul_assoc, <- !Z.pow_add_r by lia.
      do 2 f_equal. lia. }
    assert (PC : 0 < 2 ^ 1126) by (apply Z.pow_pos_nonneg; lia).
    assert (PW : 0 < 2 ^ (ez + 2200)) by (apply Z.pow_pos_nonneg; lia).
    apply (round_aux_lower (Zpos mz) ez loc_Exact b V Fb
                           (Pos2Z.is_nonneg mz) ltac:(lia) HF).
    rewrite Z.mul_add_distr_r, Hval.
    assert (rank b * 2 ^ 1126 <= Zpos p * 2 ^ (e + 1074) * 2 ^ 1126)
      by (apply Z.mul_le_mono_nonneg_r; [apply Z.lt_le_incl, PC|exact Hle]).
    clear - H PW. generalize dependent (2 ^ 1126). intros. lia.
Qed.

(** The exact sum of two positive numbers, as [SFadd] forms it. *)
Lemma add_aligned (mx my : positive) (ex ey : Z) :
  (Zpos (fst (shl_align mx ex (Z.min ex ey)))
   + Zpos (fst (shl_align my ey (Z.min ex ey))))
  * 2 ^ (Z.min ex ey + 1074)
  = Zpos mx * 2 ^ (ex + 1074) + Zpos my * 2 ^ (ey + 1074)
  \/ Z.min ex ey < -1074.
Proof.
  destruct (Z.le_gt_cases (-1074) (Z.min ex ey)) as [H|H]; [left|now right].
  destruct (shl_align_value mx ex (Z.min ex ey) ltac:(lia)) as [Hx _].
  destruct (shl_align_value my ey (Z.min ex ey) ltac:(lia)) as [Hy _].
  rewrite Hx, Hy, Z.mul_add_distr_r, <- !Z.mul_assoc, <- !Z.pow_add_r by lia.
  f_equal; do 2 f_equal; lia.
Qed.

(** A sum is not above a bound that the exact sum is not above. *)
Lemma add_upper (x y b : float) :
  amount x -> amount y -> amount b ->
  frank x + frank y <= frank b ->
  amount (x + y) /\ frank (x + y) <= frank b.
Proof.
  intros Ax Ay Ab Hle.
  pose proof (amount_finite b Ab) as [Vb Fb].
  pose proof (Prim2SF_valid x) as Vx. pose proof (Prim2SF_valid y) as Vy.
  unfold amount, frank in *. rewrite add_spec.
  destruct (Prim2SF x) as [[|]|[|]| |[|] mx ex]; try contradiction;
    destruct (Prim2SF y) as [[|]|[|]| |[|] my ey]; try contradiction;
    unfold SF64add; cbn [SFadd].
  - split; [exact I|]. cbn [rank scaled] in *. lia.
  - split; [exact I|]. cbn [rank scaled] in *. lia.
  - split; [exact I|]. cbn [rank scaled] in *. lia.
  - cbn [cond_Zopp].
    pose proof (valid_range _ _ _ Vx) as [Rx _].
    pose proof (valid_range _ _ _ Vy) as [Ry _].
    destruct (add_aligned mx my ex ey) as [Hv|Hv]; [|lia].
    destruct (normalize_upper
                (Zpos (fst (shl_align mx ex (Z.min ex ey)))
                 + Zpos (fst (shl_align my ey (Z.min ex ey))))
                (Z.min ex ey) (Prim2SF b) Vb Fb) as [Hr Ha]; try lia.
    + rewrite Hv. exact Hle.
    + split; [exact Ha|exact Hr].
Qed.

(** A sum is not below a bound that the exact sum is not below. *)
Lemma add_lower (x y b : float) :
  amount x -> amount y -> amount b ->
  frank b <= frank x + frank y ->
  frank b <= frank (x + y).
Proof.
  intros Ax Ay Ab Hle.
  pose proof (amount_finite b Ab) as [Vb Fb].
  pose proof (Prim2SF_valid x) as Vx. pose proof (Prim2SF_valid y) as Vy.
  unfold amount, frank in *. rewrite add_spec.
  destruct (Prim2SF x) as [[|]|[|]| |[|] mx ex]; try contradiction;
    destruct (Prim2SF y) as [[|]|[|]| |[|] my ey]; try contradiction;
    unfold SF64add; cbn [SFadd].
  - cbn [rank scaled] in *. lia.
  - cbn [rank scaled] in *. lia.
  - cbn [rank scaled] in *. lia.
  - cbn [cond_Zopp].
    pose proof (valid_range _ _ _ Vx) as [Rx _].
    pose proof (valid_range _ _ _ Vy) as [Ry _].
    destruct (add_aligned mx my ex ey) as [Hv|Hv]; [|lia].
    apply normalize_lower; try assumption; try lia.
    rewrite Hv. exact Hle.
Qed.

(** *** Square root *)

Lemma sqrt_core_spec (m : positive) (e : Z) :
  valid_binary (S754_finite false m e) = true ->
  exists q e' l,
    SFsqrt_core_binary prec emax (Zpos m) e = (q, e', l)
    /\ 0 <= q /\ -2200 <= e' /\ 2 * e' <= e
    /\ e' <= fexp prec emax (Zdigits2 q + e')
    /\ q * q <= Zpos m * 2 ^ (e - 2 * e') < (q + 1) * (q + 1)
    /\ (l <> loc_Exact -> q * q < Zpos m * 2 ^ (e - 2 * e')).
Proof.
  intros V.
  pose proof (valid_range _ _ _ V) as [R _].
  pose proof (valid_digits _ _ _ V) as [D _].
  pose proof (digits_bounds m) as [Blo Bhi].
  unfold SFsqrt_core_binary. cbn [Zdigits2].
  set (d := Zpos (digits2_pos m)) in *.
  assert (Hd : 1 <= d) by (unfold d; lia).
  pose proof (Z.div2_odd (d + e + 1)) as Ht.
  pose proof (Z.div2_odd e) as Hh.
  set (t := Z.div2 (d + e + 1)) in *. set (h := Z.div2 e) in *.
  assert (Ht' : 2 * t <= d + e + 1 <= 2 * t + 1)
    by (destruct (Z.odd (d + e + 1)); cbn [Z.b2z] in Ht; lia).
  assert (Hh' : 2 * h <= e <= 2 * h + 1)
    by (destruct (Z.odd e); cbn [Z.b2z] in Hh; lia).
  clear Ht Hh.
  assert (He' : Z.min (fexp prec emax t) h = t - 53)
    by (rewrite fexp_eq; lia).
  rewrite He'.
  set (s := e - 2 * (t - 53)).
  assert (Hs : 0 < s) by (unfold s; lia).
  assert (Hm' : match s with
                | Zpos _ => Z.shiftl (Zpos m) s
                | Z0 => Zpos m
                | Zneg _ => 0
                end = Zpos m * 2 ^ s).
  { destruct s eqn:Es; try lia.
    rewrite Z.shiftl_mul_pow2 by lia. reflexivity. }
  rewrite Hm'.
  assert (Ps : 0 < 2 ^ s) by (apply Z.pow_pos_nonneg; lia).
  assert (H104 : 2 ^ 52 * 2 ^ 52 <= Zpos m * 2 ^ s).
  { rewrite <- Z.pow_add_r by lia.
    apply Z.le_trans with (2 ^ (d - 1 + s)).
    - apply Z.pow_le_mono_r; unfold s; lia.
    - rewrite Z.pow_add_r by lia.
      apply Z.mul_le_mono_nonneg_r; [lia|exact Blo]. }
  pose proof (Z.sqrtrem_spec (Zpos m * 2 ^ s) ltac:(lia)) as Hsq.
  destruct (Z.sqrtrem (Zpos m * 2 ^ s)) as [q r].
  destruct Hsq as [Hsq Hr].
  assert (Hq : 0 <= q) by lia.
  exists q, (t - 53),
    (if r =? 0 then loc_Exact
     else loc_Inexact (if r <=? q then Lt else Gt)).
  split; [reflexivity|]. split; [exact Hq|]. split; [lia|].
  split; [lia|].
  fold s.
  assert (Hqq : q * q <= Zpos m * 2 ^ s < (q + 1) * (q + 1)).
  { clear - Hsq Hr. generalize dependent (Zpos m * 2 ^ s). intros. nia. }
  split; [|split; [exact Hqq|]].
  - rewrite fexp_eq. enough (53 <= Zdigits2 q) by lia.
    assert (H52 : 2 ^ 52 <= q).
    { clear - H104 Hqq Hq. generalize dependent (Zpos m * 2 ^ s). intros.
      nia. }
    pose proof (Zdigits2_bounds q Hq) as [_ Qhi].
    destruct (Z.le_gt_cases 53 (Zdigits2 q)) as [|Hlt]; [assumption|exfalso].
    assert (2 ^ Zdigits2 q <= 2 ^ 52).
    { destruct (Z.le_gt_cases 0 (Zdigits2 q)).
      - apply Z.pow_le_mono_r; lia.
      - rewrite Z.pow_neg_r by lia. lia. }
    lia.
  - intros Hl. destruct (Z.eqb_spec r 0) as [->|Hr0].
    + now contradiction Hl.
    + clear - Hsq Hr Hr0. generalize dependent (Zpos m * 2 ^ s).
      intros. nia.
Qed.

Lemma square_le (a b : Z) : 0 <= b -> a * a <= b * b -> a <= b.
Proof. intros. nia. Qed.

Lemma square_lt (a b : Z) : 0 <= b -> a * a < b * b -> a < b.
Proof. intros. nia. Qed.

(** A square root is not above a bound whose square the argument is not
    above. *)
Lemma sqrt_upper (x b : float) :
  amount x -> amount b ->
  frank x * 2 ^ 1074 <= frank b * frank b ->
  amount (sqrt x) /\ frank (sqrt x) <= frank b.
Proof.
  intros Ax Ab Hle.
  pose proof (amount_rank b Ab) as Hb0.
  pose proof (amount_finite b Ab) as [Vb Fb].
  pose proof (Prim2SF_valid x) as Vx.
  unfold amount, frank in *. rewrite sqrt_spec.
  destruct (Prim2SF x) as [[|]|[|]| |[|] mx ex]; try contradiction;
    unfold SF64sqrt; cbn [SFsqrt].
  - split; [exact I|exact Hb0].
  - destruct (sqrt_core_spec mx ex Vx)
      as (q & e & l & -> & Hq & He0 & He & HeF & Hqq & Hl).
    pose proof (valid_range _ _ _ Vx) as [Rx _].
    cbn [rank scaled cond_Zopp] in Hle.
    assert (Hid : Zpos mx * 2 ^ (ex - 2 * e)
                  * (2 ^ (e + 2200) * 2 ^ (e + 2200))
                  = Zpos mx * 2 ^ (ex + 1074) * 2 ^ 1074
                    * (2 ^ 1126 * 2 ^ 1126)).
    { rewrite <- !Z.mul_assoc, <- !Z.pow_add_r by lia. do 2 f_equal. lia. }
    assert (PW : 0 < 2 ^ (e + 2200)) by (apply Z.pow_pos_nonneg; lia).
    assert (PC : 0 < 2 ^ 1126) by (apply Z.pow_pos_nonneg; lia).
    assert (Hkey : Zpos mx * 2 ^ (ex - 2 * e)
                   * (2 ^ (e + 2200) * 2 ^ (e + 2200))
                   <= rank (Prim2SF b) * 2 ^ 1126
                      * (rank (Prim2SF b) * 2 ^ 1126)).
    { rewrite Hid.
      generalize dependent (Zpos mx * 2 ^ (ex + 1074) * 2 ^ 1074).
      generalize dependent (rank (Prim2SF b)).
      generalize dependent (2 ^ 1126). intros. nia. }
    assert (HB : 0 <= rank (Prim2SF b) * 2 ^ 1126)
      by (apply Z.mul_nonneg_nonneg; [exact Hb0|apply Z.lt_le_incl, PC]).
    destruct (round_aux_upper q e l (Prim2SF b) Vb Fb Hq He0 HeF)
      as [Hr Hinf].
    + apply square_le; [exact HB|].
      clear - Hkey Hqq PW Hq.
      generalize dependent (rank (Prim2SF b) * 2 ^ 1126).
      generalize dependent (Zpos mx * 2 ^ (ex - 2 * e)).
      generalize dependent (2 ^ (e + 2200)). intros. nia.
    + intros Hne. specialize (Hl Hne).
      apply square_lt; [exact HB|].
      clear - Hkey Hl PW Hq.
      generalize dependent (rank (Prim2SF b) * 2 ^ 1126).
      generalize dependent (Zpos mx * 2 ^ (ex - 2 * e)).
      generalize dependent (2 ^ (e + 2200)). intros. nia.
    + split; [|exact Hr]. apply amount_round; assumption.
Qed.

(** A square root is not below a bound whose square the argument is not
    below. *)
Lemma sqrt_lower (x b : float) :
  amount x -> amount b ->
  frank b * frank b <= frank x * 2 ^ 1074 ->
  frank b <= frank (sqrt x).
Proof.
  intros Ax Ab Hle.
  pose proof (amount_rank b Ab) as Hb0.
  pose proof (amount_finite b Ab) as [Vb Fb].
  pose proof (Prim2SF_valid x) as Vx.
  unfold amount, frank in *. rewrite sqrt_spec.
  destruct (Prim2SF x) as [[|]|[|]| |[|] mx ex]; try contradiction;
    unfold SF64sqrt; cbn [SFsqrt].
  - cbn [rank scaled] in *. clear - Hle Hb0. nia.
  - destruct (sqrt_core_spec mx ex Vx)
      as (q & e & l & -> & Hq & He0 & He & HeF & Hqq & Hl).
    pose proof (valid_range _ _ _ Vx) as [Rx _].
    cbn [rank scaled cond_Zopp] in Hle.
    assert (Hid : Zpos mx * 2 ^ (ex - 2 * e)
                  * (2 ^ (e + 2200) * 2 ^ (e + 2200))
                  = Zpos mx * 2 ^ (ex + 1074) * 2 ^ 1074
                    * (2 ^ 1126 * 2 ^ 1126)).
    { rewrite <- !Z.mul_assoc, <- !Z.pow_add_r by lia. do 2 f_equal. lia. }
    assert (PW : 0 < 2 ^ (e + 2200)) by (apply Z.pow_pos_nonneg; lia).
    assert (PC : 0 < 2 ^ 1126) by (apply Z.pow_pos_nonneg; lia).
    assert (Hkey : rank (Prim2SF b) * 2 ^ 1126
                   * (rank (Prim2SF b) * 2 ^ 1126)
                   <= Zpos mx * 2 ^ (ex - 2 * e)
                      * (2 ^ (e + 2200) * 2 ^ (e + 2200))).
    { rewrite Hid.
      generalize dependent (Zpos mx * 2 ^ (ex + 1074) * 2 ^ 1074).
      generalize dependent (rank (Prim2SF b)).
      generalize dependent (2 ^ 1126). intros. nia. }
    apply (round_aux_lower q e l (Prim2SF b) Vb Fb Hq He0 HeF).
    apply square_lt;
      [apply Z.mul_nonneg_nonneg; [apply Z.add_nonneg_nonneg; lia|
                                   apply Z.lt_le_incl, PW]|].
    clear - Hkey Hqq PW Hq.
    generalize dependent (rank (Prim2SF b) * 2 ^ 1126).
    generalize dependent (Zpos mx * 2 ^ (ex - 2 * e)).
    generalize dependent (2 ^ (e + 2200)). intros. nia.
Qed.

(** *** Multiplication *)

Lemma mul_exponent (mx my : positive) (ex ey : Z) :
  valid_binary (S754_finite false mx ex) = true ->
  valid_binary (S754_finite false my ey) = true ->
  ex + ey <= fexp prec emax (Zdigits2 (Zpos (mx * my)) + (ex + ey)).
Proof.
  intros Vx Vy.
  pose proof (valid_shape _ _ _ Vx) as (Ex & _ & Nx).
  pose proof (valid_shape _ _ _ Vy) as (Ey & _ & Ny).
  rewrite fexp_eq. cbn [Zdigits2].
  pose proof (digits_bounds (mx * my)) as [_ Bhi].
  rewrite Pos2Z.inj_mul in Bhi.
  set (d := Zpos (digits2_pos (mx * my))) in *.
  destruct (Z.le_gt_cases 53 d) as [|Hd]; [lia|].
  assert (Hp : 2 ^ d <= 2 ^ 52) by (apply Z.pow_le_mono_r; unfold d; lia).
  destruct (Z.eq_dec ex (-1074)) as [Hx|Hx];
    destruct (Z.eq_dec ey (-1074)) as [Hy|Hy]; lia.
Qed.

Lemma mul_units (mx my : positive) (ex ey : Z) :
  -1074 <= ex -> -1074 <= ey ->
  Zpos (mx * my) * 2 ^ (ex + ey + 2200)
  = Zpos mx * 2 ^ (ex + 1074) * (Zpos my * 2 ^ (ey + 1074)) * 2 ^ 52.
Proof.
  intros Hx Hy. rewrite Pos2Z.inj_mul.
  replace (Zpos mx * 2 ^ (ex + 1074) * (Zpos my * 2 ^ (ey + 1074)) * 2 ^ 52)
    with (Zpos mx * Zpos my
          * (2 ^ (ex + 1074) * 2 ^ (ey + 1074) * 2 ^ 52)).
  - rewrite <- !Z.pow_add_r by lia. do 2 f_equal. lia.
  - generalize (2 ^ (ex + 1074)) (2 ^ (ey + 1074)) (2 ^ 52). intros. ring.
Qed.

Lemma split_unit : 2 ^ 1126 = 2 ^ 1074 * 2 ^ 52.
Proof. rewrite <- Z.pow_add_r by lia. reflexivity. Qed.

(** A product is not above a bound that the exact product is not above. *)
Lemma mul_upper (x y b : float) :
  amount x -> amount y -> amount b ->
  frank x * frank y <= frank b * 2 ^ 1074 ->
  amount (x * y) /\ frank (x * y) <= frank b.
Proof.
  intros Ax Ay Ab Hle.
  pose proof (amount_rank b Ab) as Hb0.
  pose proof (amount_finite b Ab) as [Vb Fb].
  pose proof (Prim2SF_valid x) as Vx. pose proof (Prim2SF_valid y) as Vy.
  unfold amount, frank in *. rewrite mul_spec.
  destruct (Prim2SF x) as [[|]|[|]| |[|] mx ex]; try contradiction;
    destruct (Prim2SF y) as [[|]|[|]| |[|] my ey]; try contradiction;
    unfold SF64mul; cbn [SFmul xorb]; try (split; [exact I|exact Hb0]).
  pose proof (valid_range _ _ _ Vx) as [Rx _].
  pose proof (valid_range _ _ _ Vy) as [Ry _].
  cbn [rank scaled cond_Zopp] in Hle.
  destruct (round_aux_upper (Zpos (mx * my)) (ex + ey) loc_Exact (Prim2SF b)
                            Vb Fb (Pos2Z.is_nonneg _) ltac:(lia)
                            (mul_exponent mx my ex ey Vx Vy)) as [Hr Hinf].
  - rewrite mul_units, split_unit by lia.
    rewrite (Z.mul_assoc (rank (Prim2SF b))).
    apply Z.mul_le_mono_nonneg_r; [|exact Hle].
    apply Z.lt_le_incl. reflexivity.
  - intros N. exfalso. apply N. reflexivity.
  - split; [|exact Hr]. apply amount_round; [lia|exact Hinf].
Qed.

(** A product is not below a bound that the exact product is not below. *)
Lemma mul_lower (x y b : float) :
  amount x -> amount y -> amount b ->
  frank b * 2 ^ 1074 <= frank x * frank y ->
  frank b <= frank (x * y).
Proof.
  intros Ax Ay Ab Hle.
  pose proof (amount_rank b Ab) as Hb0.
  pose proof (amount_finite b Ab) as [Vb Fb].
  pose proof (Prim2SF_valid x) as Vx. pose proof (Prim2SF_valid y) as Vy.
  pose proof unit_pos as U.
  unfold amount, frank in *. rewrite mul_spec.
  destruct (Prim2SF x) as [[|]|[|]| |[|] mx ex]; try contradiction;
    destruct (Prim2SF y) as [[|]|[|]| |[|] my ey]; try contradiction;
    unfold SF64mul; cbn [SFmul xorb];
    try (cbn [rank scaled] in *; rewrite ?Z.mul_0_l, ?Z.mul_0_r in Hle;
         clear - Hle Hb0 U; generalize dependent (2 ^ 1074); intros; nia).
  pose proof (valid_range _ _ _ Vx) as [Rx _].
  pose proof (valid_range _ _ _ Vy) as [Ry _].
  cbn [rank scaled cond_Zopp] in Hle.
  apply (round_aux_lower (Zpos (mx * my)) (ex + ey) loc_Exact (Prim2SF b)
                         Vb Fb (Pos2Z.is_nonneg _) ltac:(lia)
                         (mul_exponent mx my ex ey Vx Vy)).
  rewrite Z.mul_add_distr_r, mul_units, split_unit by lia.
  rewrite (Z.mul_assoc (rank (Prim2SF b))).
  assert (PW : 0 < 2 ^ (ex + ey + 2200))
    by (apply Z.pow_pos_nonneg; lia).
  assert (rank (Prim2SF b) * 2 ^ 1074 * 2 ^ 52
          <= Zpos mx * 2 ^ (ex + 1074) * (Zpos my * 2 ^ (ey + 1074))
             * 2 ^ 52).
  { apply Z.mul_le_mono_nonneg_r; [|exact Hle].
    apply Z.lt_le_incl. reflexivity. }
  clear - H PW.
  generalize dependent (Zpos mx * 2 ^ (ex + 1074) * (Zpos my * 2 ^ (ey + 1074))
                        * 2 ^ 52).
  generalize dependent (rank (Prim2SF b) * 2 ^ 1074 * 2 ^ 52). intros. lia.
Qed.

(** *** Exact results *)

(** Two amounts at the same place of the line are the same number. *)
Lemma frank_inj (x y : float) :
  amount x -> amount y -> frank x = frank y -> x = y.
Proof.
  intros Ax Ay H. apply Prim2SF_inj.
  pose proof (Prim2SF_valid x) as Vx. pose proof (Prim2SF_valid y) as Vy.
  unfold amount, frank in *.
  destruct (Prim2SF x) as [[|]|[|]| |[|] mx ex]; try contradiction;
    destruct (Prim2SF y) as [[|]|[|]| |[|] my ey]; try contradiction;
    cbn [rank scaled cond_Zopp] in H.
  - reflexivity.
  - exfalso. apply valid_range in Vy.
    assert (0 < 2 ^ (ey + 1074)) by (apply Z.pow_pos_nonneg; lia).
    clear - H H0. nia.
  - exfalso. apply valid_range in Vx.
    assert (0 < 2 ^ (ex + 1074)) by (apply Z.pow_pos_nonneg; lia).
    clear - H H0. nia.
  - pose proof (valid_shape _ _ _ Vx) as (Ex & Mx & Nx).
    pose proof (valid_shape _ _ _ Vy) as (Ey & My & Ny).
    assert (He : ex = ey).
    { destruct (Z.lt_trichotomy ex ey) as [Hlt|[Heq|Hgt]];
        [|assumption|]; exfalso.
      - specialize (Ny ltac:(lia)).
        replace (ey + 1074) with ((ey - ex) + (ex + 1074)) in H by lia.
        rewrite (Z.pow_add_r 2 (ey - ex) (ex + 1074)), Z.mul_assoc in H
          by lia.
        apply Z.mul_reg_r in H;
          [|apply Z.pow_nonzero; lia].
        assert (2 <= 2 ^ (ey - ex))
          by (change 2 with (2 ^ 1) at 1; apply Z.pow_le_mono_r; lia).
        clear - H H0 Ny Mx. nia.
      - specialize (Nx ltac:(lia)).
        replace (ex + 1074) with ((ex - ey) + (ey + 1074)) in H by lia.
        rewrite (Z.pow_add_r 2 (ex - ey) (ey + 1074)), Z.mul_assoc in H
          by lia.
        apply Z.mul_reg_r in H;
          [|apply Z.pow_nonzero; lia].
        assert (2 <= 2 ^ (ex - ey))
          by (change 2 with (2 ^ 1) at 1; apply Z.pow_le_mono_r; lia).
        clear - H H0 Nx My. nia. }
    subst ey. apply Z.mul_reg_r in H; [|apply Z.pow_nonzero; lia].
    congruence.
Qed.

(** The difference of two integers held in numbers is exact. *)
Lemma of_Z_sub_exact (a b : Z) :
  0 <= b <= a -> a < 2 ^ 53 ->
  (JS.of_Z a - JS.of_Z b)%float = JS.of_Z (a - b).
Proof.
  intros Hb Ha.
  assert (E53 : 2 ^ 53 = 9007199254740992) by reflexivity.
  destruct (Z.eq_dec b 0) as [->|Hb0].
  { rewrite Z.sub_0_r. apply Prim2SF_inj. rewrite sub_spec.
    change (Prim2SF (JS.of_Z 0)) with (S754_zero false).
    destruct (Z.eq_dec a 0) as [->|Ha0]; [reflexivity|].
    rewrite of_Z_canon by lia.
    destruct (canon_normal a) as (m & e & (E & _) & _); [lia|].
    rewrite E. reflexivity. }
  assert (Aa : amount (JS.of_Z (a - b))).
  { unfold amount. destruct (Z.eq_dec (a - b) 0) as [->|Hne]; [exact I|].
    rewrite of_Z_canon by lia.
    destruct (canon_normal (a - b)) as (m & e & (E & _) & _); [lia|].
    rewrite E. exact I. }
  pose proof (frank_of_Z (a - b) ltac:(lia)) as Fd.
  pose proof (frank_of_Z a ltac:(lia)) as Fa.
  pose proof (frank_of_Z b ltac:(lia)) as Fb.
  pose proof (amount_finite _ Aa) as [Vd Fdz].
  pose proof (Prim2SF_valid (JS.of_Z a)) as Va.
  pose proof (Prim2SF_valid (JS.of_Z b)) as Vb.
  assert (Hs : amount (JS.of_Z a - JS.of_Z b)
               /\ frank (JS.of_Z a - JS.of_Z b) = frank (JS.of_Z (a - b))).
  { unfold amount, frank in *. rewrite sub_spec.
    rewrite (of_Z_canon a), (of_Z_canon b) in * by lia.
    destruct (canon_normal a) as (ma & ea & (Ea & _) & _); [lia|].
    destruct (canon_normal b) as (mb & eb & (Eb & _) & _); [lia|].
    rewrite Ea, Eb in *. unfold SF64sub. cbn [SFsub cond_Zopp].
    cbn [rank scaled cond_Zopp] in Fa, Fb.
    pose proof (valid_range _ _ _ Va) as [Ra _].
    pose proof (valid_range _ _ _ Vb) as [Rb _].
    destruct (shl_align_value ma ea (Z.min ea eb) ltac:(lia)) as [Hx _].
    destruct (shl_align_value mb eb (Z.min ea eb) ltac:(lia)) as [Hy _].
    assert (Hv : (Zpos (fst (shl_align ma ea (Z.min ea eb)))
                  - Zpos (fst (shl_align mb eb (Z.min ea eb))))
                 * 2 ^ (Z.min ea eb + 1074)
                 = rank (Prim2SF (JS.of_Z (a - b)))).
    { rewrite Hx, Hy, Z.mul_sub_distr_r, <- !Z.mul_assoc, <- !Z.pow_add_r
        by lia.
      replace (ea - Z.min ea eb + (Z.min ea eb + 1074)) with (ea + 1074)
        by lia.
      replace (eb - Z.min ea eb + (Z.min ea eb + 1074)) with (eb + 1074)
        by lia.
      rewrite Fa, Fb, Fd. ring. }
    assert (P : 0 < 2 ^ (Z.min ea eb + 1074))
      by (apply Z.pow_pos_nonneg; lia).
    assert (Hn : 0 <= Zpos (fst (shl_align ma ea (Z.min ea eb)))
                      - Zpos (fst (shl_align mb eb (Z.min ea eb)))).
    { pose proof unit_pos as U. rewrite Fd in Hv.
      assert (0 <= (a - b) * 2 ^ 1074)
        by (apply Z.mul_nonneg_nonneg; lia).
      clear - Hv H P. nia. }
    destruct (normalize_upper _ (Z.min ea eb) _ Vd Fdz Hn ltac:(lia)
                              (Z.eq_le_incl _ _ Hv)) as [Hu Hsh].
    pose proof (normalize_lower _ (Z.min ea eb) _ Vd Fdz Hn ltac:(lia)
                                (Z.eq_le_incl _ _ (eq_sym Hv))) as Hl.
    split; [exact Hsh|]. lia. }
  destruct Hs as [As Fs]. apply frank_inj; assumption.
Qed.

End RoundBounds.

(** ** The band energies are means of bytes *)

Module BandMeans.

Import MoreProps OrderProps LevelProps SpectrumProps BandProps.
Import Loops Rounding FloatFacts Scan Bounds Bands Comparison Order.
Import Spectrum RoundBounds.
Local Open Scope float_scope.

Lemma amount_of_Z (n : Z) : (0 <= n < 2 ^ 53)%Z -> amount (JS.of_Z n).
Proof.
  intros Hn. unfold amount.
  destruct (Z.eq_dec n 0) as [->|Hne]; [exact I|].
  rewrite of_Z_canon by lia.
  destruct (canon_normal n) as (m & e & (E & _) & _); [lia|].
  rewrite E. exact I.
Qed.

Lemma positive_of_Z (n : Z) :
  (0 < n < 2 ^ 53)%Z ->
  exists m e, Prim2SF (JS.of_Z n) = S754_finite false m e.
Proof.
  intros Hn. rewrite of_Z_canon by lia.
  destruct (canon_normal n) as (m & e & (E & _) & _); [lia|].
  exists m, e. exact E.
Qed.

Lemma total_fold (frequencyData : list Z) (bins : list Z) (a : Z) :
  fold_left (fun s i => (s + key frequencyData i)%Z) bins a
  = (a + total frequencyData bins)%Z.
Proof.
  unfold total. revert a. induction bins as [|i bins IH]; intros a.
  - cbn. lia.
  - cbn [fold_left]. rewrite IH, (IH (0 + _)%Z). lia.
Qed.

Lemma total_cons (frequencyData : list Z) (i : Z) (bins : list Z) :
  total frequencyData (i :: bins)
  = (key frequencyData i + total frequencyData bins)%Z.
Proof. unfold total at 1. cbn [fold_left]. now rewrite total_fold. Qed.

Lemma total_range (frequencyData : list Z) (bins : list Z) :
  bytes frequencyData ->
  (0 <= total frequencyData bins <= 255 * length bins)%Z.
Proof.
  intros Hb. induction bins as [|i bins IH].
  - unfold total, length. cbn. lia.
  - rewrite total_cons. pose proof (key_byte frequencyData i Hb).
    unfold length in *. cbn [List.length]. lia.
Qed.

(** The sum and the count of the inner loop are exact. *)
Lemma band_sums_exact (frequencyData : list Z) (idx : list Z) (a c : Z) :
  bytes frequencyData ->
  (forall i, In i idx -> 0 <= i < length frequencyData)%Z ->
  (0 <= a)%Z -> (0 <= c)%Z ->
  (a + 255 * length idx < 2 ^ 53)%Z -> (c + length idx < 2 ^ 53)%Z ->
  fst (for_each (band_step frequencyData) idx (JS.of_Z a, JS.of_Z c))
  = (JS.of_Z (a + total frequencyData idx), JS.of_Z (c + length idx)).
Proof.
  intros Hb. revert a c.
  induction idx as [|i idx IH]; intros a c Hi Ha Hc Hsum Hcnt.
  - unfold total, length. cbn. now rewrite !Z.add_0_r.
  - cbn [for_each]. unfold bind at 1.
    unfold band_step at 1, bind, read, ret.
    rewrite byte_at_key by (apply Hi; left; reflexivity).
    pose proof (key_byte frequencyData i Hb) as Hk.
    pose proof (total_range frequencyData idx Hb) as Ht.
    assert (Hl : length (i :: idx) = (length idx + 1)%Z)
      by (unfold length; cbn [List.length]; lia).
    rewrite Hl in *.
    assert (H0 : (0 <= length idx)%Z) by (unfold length; lia).
    change 1 with (JS.of_Z 1).
    rewrite !of_Z_add_exact by lia.
    specialize (IH (a + key frequencyData i)%Z (c + 1)%Z).
    destruct (for_each (band_step frequencyData) idx
                       (JS.of_Z (a + key frequencyData i), JS.of_Z (c + 1)))
      as [st r] eqn:E.
    cbn [fst] in *. rewrite IH; try lia.
    + rewrite total_cons. f_equal; f_equal; lia.
    + intros j Hj. apply Hi. right. exact Hj.
Qed.

(** The mean of [k] bytes is a number from 0 to 255. *)
Lemma mean_range (S k : Z) :
  (0 < k)%Z -> (0 <= S <= 255 * k)%Z -> (255 * k < 2 ^ 53)%Z ->
  (0 <=? JS.of_Z S / JS.of_Z k) = true
  /\ (JS.of_Z S / JS.of_Z k <=? 255) = true.
Proof.
  intros Hk HS Hlt.
  destruct (positive_of_Z k) as (m & e & Ek); [lia|].
  assert (A255 : amount 255) by exact I.
  assert (F255 : frank 255 = (255 * 2 ^ 1074)%Z)
    by (apply (frank_of_Z 255); lia).
  destruct (div_upper (JS.of_Z S) (JS.of_Z k) 255 m e) as [Ha Hr];
    [apply amount_of_Z; lia|exact Ek|exact A255| |].
  - rewrite F255, !frank_of_Z by lia.
    pose proof unit_pos as U. generalize dependent (2 ^ 1074)%Z.
    intros u _ U. nia.
  - split; apply leb_frank.
    + repeat split; [discriminate|now apply amount_number|].
      change (frank 0) with 0%Z. now apply amount_rank.
    + repeat split; [now apply amount_number|discriminate|exact Hr].
Qed.

(** One band of a spectrum of bytes. *)
Lemma band_value_mean (frequencyData : list Z) (sampleRate fftSize : float)
      (range_ : float * float) :
  bytes frequencyData -> (length frequencyData < 2 ^ 32)%Z ->
  (0 <=? fst range_) = true ->
  (0 <? sampleRate) = true -> (0 <? fftSize) = true ->
  exists bins,
    band_bins frequencyData sampleRate fftSize range_ = JS.Returns bins
    /\ band_value frequencyData sampleRate fftSize range_
       = JS.Returns (band_mean frequencyData bins)
    /\ (0 <=? band_mean frequencyData bins) = true
    /\ (band_mean frequencyData bins <=? 255) = true.
Proof.
  intros Hb Hn Hf Hs Hfft. unfold band_value, band_sums.
  assert (Hst : startable (frequencyToBin (fst range_) sampleRate fftSize))
    by now apply startable_frequencyToBin.
  destruct (scan_safe (frequencyToBin (fst range_) sampleRate fftSize)
                      (frequencyToBin (snd range_) sampleRate fftSize)
                      (length frequencyData) Hst) as (bins & Hbins & Hin).
  unfold band_bins. cbv zeta. exists bins. rewrite Hbins.
  split; [reflexivity|].
  assert (Hk : (length bins <= length frequencyData)%Z).
  { destruct Hst as [Hst|Hst].
    - eapply length_scan; [exact Hst| |exact Hbins]. unfold length. lia.
    - rewrite Hst in Hbins. cbv beta iota delta [scan] in Hbins.
      change (JS.to_int neg_zero) with (JS.IInt 0) in Hbins.
      cbn [Z.leb Z.compare Z.opp Z.pow Z.pow_pos Pos.iter Z.mul Pos.mul andb]
        in Hbins.
      injection Hbins as <-. unfold length at 1.
      pose proof (length_take_while
                    (fun i => JS.of_Z i <? frequencyToBin (snd range_) sampleRate fftSize)
                    (range 0 (length frequencyData))) as Hle.
      rewrite length_range in Hle. unfold length in *. lia. }
  assert (H0 : (0 <= length bins)%Z) by (unfold length; lia).
  pose proof (total_range frequencyData bins Hb) as Ht.
  assert (E32 : (2 ^ 32 = 4294967296)%Z) by reflexivity.
  assert (E53 : (2 ^ 53 = 9007199254740992)%Z) by reflexivity.
  change (0, 0) with (JS.of_Z 0, JS.of_Z 0).
  rewrite (band_sums_exact frequencyData bins 0 0 Hb Hin) by lia.
  rewrite !Z.add_0_l. unfold band_energy, band_mean.
  destruct bins as [|i bins].
  - repeat split; reflexivity.
  - set (k := length (i :: bins)) in *.
    assert (Hk0 : (0 < k)%Z) by (unfold k, length; cbn [List.length]; lia).
    rewrite ltb_zero_of_Z by lia.
    split; [reflexivity|]. apply mean_range; lia.
Qed.

(** X11.  Every band energy of a spectrum of bytes is the mean of the bytes at
    the bins of the band, 0 for a band without bins, and lies in
    [[0, 255]]: for every spectrum of fewer than [2^32] bins and every
    positive sample rate and transform size the function returns, and
    no band is [NaN]. *)
Theorem band_energies_are_means :
  forall (frequencyData : list Z) (sampleRate fftSize : float),
    bytes frequencyData -> (length frequencyData < 2 ^ 32)%Z ->
    (0 <? sampleRate) = true -> (0 <? fftSize) = true ->
    exists result,
      calculateBandEnergies frequencyData sampleRate fftSize
      = JS.Returns result
      /\ Forall
           (fun b =>
              exists bins v,
                band_bins frequencyData sampleRate fftSize (snd b)
                = JS.Returns bins
                /\ get_band result (fst b) = Some v
                /\ v = band_mean frequencyData bins
                /\ (0 <=? v) = true /\ (v <=? 255) = true)
           bands.
Proof.
  intros frequencyData sampleRate fftSize Hb Hn Hs Hfft.
  rewrite calculateBandEnergies_unfold. cbv zeta.
  destruct (band_value_mean frequencyData sampleRate fftSize (20, 60)
                            Hb Hn eq_refl Hs Hfft) as (b1 & B1 & V1 & R1).
  destruct (band_value_mean frequencyData sampleRate fftSize (60, 250)
                            Hb Hn eq_refl Hs Hfft) as (b2 & B2 & V2 & R2).
  destruct (band_value_mean frequencyData sampleRate fftSize (250, 500)
                            Hb Hn eq_refl Hs Hfft) as (b3 & B3 & V3 & R3).
  destruct (band_value_mean frequencyData sampleRate fftSize (500, 2000)
                            Hb Hn eq_refl Hs Hfft) as (b4 & B4 & V4 & R4).
  destruct (band_value_mean frequencyData sampleRate fftSize (2000, 4000)
                            Hb Hn eq_refl Hs Hfft) as (b5 & B5 & V5 & R5).
  destruct (band_value_mean frequencyData sampleRate fftSize (4000, 6000)
                            Hb Hn eq_refl Hs Hfft) as (b6 & B6 & V6 & R6).
  destruct (band_value_mean frequencyData sampleRate fftSize (6000, 20000)
                            Hb Hn eq_refl Hs Hfft) as (b7 & B7 & V7 & R7).
  rewrite V1, V2, V3, V4, V5, V6, V7.
  eexists. split; [reflexivity|].
  unfold bands.
  repeat (apply Forall_cons;
          [eexists; eexists; split; [eassumption|];
           split; [reflexivity|]; split; [reflexivity|assumption]|]).
  apply Forall_nil.
Qed.

Lemma band_energies_are_means_witness :
  bytes [0; 10; 200; 30; 40; 50; 250; 70; 90; 20; 0; 255; 3; 4; 5; 6]%Z
  /\ exists result,
       calculateBandEnergies
         [0; 10; 200; 30; 40; 50; 250; 70; 90; 20; 0; 255; 3; 4; 5; 6]%Z
         44100 32
       = JS.Returns result
       /\ Forall
            (fun b =>
               exists bins v,
                 band_bins
                   [0; 10; 200; 30; 40; 50; 250; 70; 90; 20; 0; 255; 3; 4;
                    5; 6]%Z 44100 32 (snd b)
                 = JS.Returns bins
                 /\ get_band result (fst b) = Some v
                 /\ v = band_mean
                          [0; 10; 200; 30; 40; 50; 250; 70; 90; 20; 0; 255;
                           3; 4; 5; 6]%Z bins
                 /\ (0 <=? v) = true /\ (v <=? 255) = true)
            bands.
Proof.
  assert (B : bytes
                [0; 10; 200; 30; 40; 50; 250; 70; 90; 20; 0; 255; 3; 4; 5;
                 6]%Z)
    by (repeat constructor; lia).
  split; [exact B|].
  apply (band_energies_are_means _ 44100 32 B); reflexivity.
Defined.

End BandMeans.

(** ** The range of the level meters *)

Module LevelRange.

Import Levels MoreProps OrderProps LevelProps SpectrumProps.
Import Loops Rounding FloatFacts Scan Comparison Order.
Import LevelFacts Spectrum RoundBounds BandMeans.
Local Open Scope float_scope.

(** The term of every byte is in [[0, 1]], and at least [2^-14] unless the
    byte is the centre 128. *)
Lemma terms_checked :
  forallb (fun b => (square_term b <=? 1)
                    && ((b =? 128)%Z || (0x1p-14 <=? square_term b)))
          (range 0 256) = true.
Proof. vm_compute. reflexivity. Qed.

Lemma amount_below (x b : float) :
  good (Prim2SF x) -> (x <=? b) = true -> amount b -> amount x.
Proof.
  intros Hg Hle Hb. apply leb_frank in Hle. destruct Hle as (_ & _ & Hle).
  pose proof (amount_finite b Hb) as [Vb Fb].
  unfold amount, frank in *.
  destruct (Prim2SF x) as [s|s| |s m e]; cbn [good] in Hg; subst;
    try exact I; try contradiction.
  exfalso. cbn [rank] in Hle.
  pose proof (Z.pow_pos_nonneg 2 2200 ltac:(lia) ltac:(lia)) as P.
  destruct (Prim2SF b) as [sb|sb| |sb mb eb].
  - cbn [rank scaled] in Hle. clear - Hle P.
    generalize dependent (2 ^ 2200)%Z. intros. lia.
  - exact Fb.
  - exact Fb.
  - pose proof (scaled_bound sb mb eb Vb) as Hs. cbn [rank] in Hle.
    clear - Hle Hs. generalize dependent (2 ^ 2200)%Z. intros. lia.
Qed.

Lemma frank_one : frank 1 = (2 ^ 1074)%Z.
Proof.
  change 1 with (JS.of_Z 1). rewrite frank_of_Z by lia. apply Z.mul_1_l.
Qed.

Lemma term_range (b : Z) :
  (0 <= b <= 255)%Z ->
  amount (square_term b)
  /\ (frank (square_term b) <= 2 ^ 1074)%Z
  /\ (b <> 128%Z -> (frank 0x1p-14 <= frank (square_term b))%Z).
Proof.
  intros Hb. pose proof terms_checked as H. rewrite forallb_forall in H.
  specialize (H b). rewrite In_range in H. specialize (H ltac:(lia)).
  apply andb_true_iff in H. destruct H as [H1 H2].
  assert (A : amount (square_term b)).
  { apply (amount_below _ 1); [now apply good_square_term|exact H1|exact I]. }
  split; [exact A|]. split.
  - apply leb_frank in H1. rewrite frank_one in H1. tauto.
  - intros Hne. apply orb_true_iff in H2. destruct H2 as [H2|H2].
    + apply Z.eqb_eq in H2. contradiction.
    + apply leb_frank in H2. tauto.
Qed.

(** The sum of the terms of [k] bytes is at most [k]; it is at least
    [2^-14] once a byte off the centre has been added. *)
Lemma sum_range (l : list Z) (acc : float) (k : Z) :
  bytes l -> amount acc -> (0 <= k)%Z -> (k + length l < 2 ^ 53)%Z ->
  (frank acc <= k * 2 ^ 1074)%Z ->
  let r := fold_left (fun sum b => sum + square_term b) l acc in
  amount r
  /\ (frank r <= (k + length l) * 2 ^ 1074)%Z
  /\ ((frank 0x1p-14 <= frank acc)%Z \/ Exists (fun b => b <> 128%Z) l ->
      (frank 0x1p-14 <= frank r)%Z).
Proof.
  intros Hl. revert acc k.
  induction Hl as [|b l Hb Hl IH]; intros acc k Ha Hk Hlen Hacc r.
  - subst r. cbn [fold_left]. unfold length in *. cbn [List.length] in *.
    split; [exact Ha|]. split; [now rewrite Z.add_0_r|].
    intros [H|H]; [exact H|]. inversion H.
  - subst r. cbn [fold_left].
    assert (Hl1 : length (b :: l) = (length l + 1)%Z)
      by (unfold length; cbn [List.length]; lia).
    assert (Hl0 : (0 <= length l)%Z) by (unfold length; lia).
    rewrite Hl1 in *.
    destruct (term_range b Hb) as (At & Ut & Lt).
    destruct (add_upper acc (square_term b) (JS.of_Z (k + 1)))
      as [Aa Ua]; try assumption.
    { apply amount_of_Z. lia. }
    { rewrite frank_of_Z by lia. lia. }
    rewrite frank_of_Z in Ua by lia.
    destruct (IH (acc + square_term b) (k + 1)%Z Aa ltac:(lia) ltac:(lia) Ua)
      as (Ar & Ur & Lr).
    split; [exact Ar|]. split.
    + replace (k + (length l + 1))%Z with (k + 1 + length l)%Z by lia.
      exact Ur.
    + intros H. apply Lr.
      assert (A14 : amount 0x1p-14) by exact I.
      pose proof (amount_rank _ Ha) as Ra.
      pose proof (amount_rank _ At) as Rt.
      destruct H as [H|H].
      * left. apply add_lower; try assumption. lia.
      * inversion H as [? ? Hne|? ? Hex]; subst.
        -- left. apply add_lower; try assumption. specialize (Lt Hne). lia.
        -- right. exact Hex.
Qed.

Lemma frank_pow2 (c : float) (k : Z) :
  Prim2SF c = S754_finite false 4503599627370496 (k - 52) ->
  (-1022 <= k)%Z ->
  frank c = (2 ^ (k + 1074))%Z.
Proof.
  intros E Hk. unfold frank. rewrite E. cbn [rank scaled cond_Zopp].
  change 4503599627370496%Z with (2 ^ 52)%Z.
  rewrite <- Z.pow_add_r by lia. f_equal. lia.
Qed.

(** X12.  The root mean square of a buffer of bytes that is not empty is at
    most 1, and it is positive as soon as one sample is off the centre
    128: with [calculateRMS_spec], it is 0 exactly on digital silence. *)
Theorem calculateRMS_range :
  forall (dataArray : list Z),
    bytes dataArray -> dataArray <> [] ->
    (length dataArray < 2 ^ 53)%Z ->
    (calculateRMS dataArray <=? 1) = true
    /\ (Exists (fun b => b <> 128%Z) dataArray ->
        (0 <? calculateRMS dataArray) = true).
Proof.
  intros dataArray Hb Hne Hlen.
  assert (Hpos : (0 < length dataArray)%Z).
  { destruct dataArray; [congruence|]. unfold length. cbn. lia. }
  destruct (positive_of_Z (length dataArray)) as (m & e & En); [lia|].
  pose proof (frank_of_Z (length dataArray) ltac:(lia)) as Fn.
  rewrite calculateRMS_fold.
  destruct (sum_range dataArray 0 0 Hb I (Z.le_refl 0) Hlen)
    as (As & Us & Ls); [change (frank 0) with 0%Z; lia|].
  rewrite Z.add_0_l in Us.
  set (S := fold_left (fun sum b => sum + square_term b) dataArray 0) in *.
  pose proof unit_pos as U.
  destruct (div_upper S (JS.of_Z (length dataArray)) 1 m e As En I)
    as [Aq Uq].
  { rewrite frank_one, Fn.
    clear - Us U. generalize dependent (2 ^ 1074)%Z. intros. nia. }
  rewrite frank_one in Uq.
  destruct (sqrt_upper (S / JS.of_Z (length dataArray)) 1 Aq I) as [Ar Ur].
  { rewrite frank_one.
    clear - Uq U. generalize dependent (2 ^ 1074)%Z. intros. nia. }
  split.
  - apply leb_frank. repeat split; [now apply amount_number|discriminate|].
    exact Ur.
  - intros Hex. specialize (Ls (or_intror Hex)).
    rewrite (frank_pow2 0x1p-14 (-14) eq_refl) in Ls by lia.
    assert (A67 : amount 0x1p-67) by exact I.
    pose proof (div_lower S (JS.of_Z (length dataArray)) 0x1p-67 m e
                          As En A67) as Lq.
    rewrite (frank_pow2 0x1p-67 (-67) eq_refl), Fn in Lq by lia.
    assert (Lq' : (2 ^ (-67 + 1074) <= frank (S / JS.of_Z (length dataArray)))%Z).
    { apply Lq.
      assert (E1 : (2 ^ (-14 + 1074) = 2 ^ (-67 + 1074) * 2 ^ 53)%Z).
      { rewrite <- Z.pow_add_r by lia. f_equal. }
      rewrite E1 in Ls.
      assert (P : (0 < 2 ^ (-67 + 1074))%Z) by (apply Z.pow_pos_nonneg; lia).
      rewrite Z.mul_assoc. apply Z.mul_le_mono_nonneg_r; [lia|].
      clear - Ls Hlen P.
      generalize dependent (2 ^ (-67 + 1074))%Z. intros. nia. }
    assert (A34 : amount 0x1p-34) by exact I.
    pose proof (sqrt_lower (S / JS.of_Z (length dataArray)) 0x1p-34 Aq A34)
      as Lr.
    rewrite (frank_pow2 0x1p-34 (-34) eq_refl) in Lr by lia.
    assert (Lr' : (2 ^ (-34 + 1074)
                   <= frank (sqrt (S / JS.of_Z (length dataArray))))%Z).
    { apply Lr.
      assert (E2 : (2 * (2 ^ (-34 + 1074) * 2 ^ (-34 + 1074))
                    = 2 ^ (-67 + 1074) * 2 ^ 1074)%Z).
      { rewrite <- !Z.pow_add_r, <- Z.pow_succ_r by lia. f_equal. }
      assert (P : (0 < 2 ^ (-34 + 1074))%Z) by (apply Z.pow_pos_nonneg; lia).
      clear - E2 Lq' U P.
      generalize dependent (2 ^ 1074)%Z.
      generalize dependent (2 ^ (-67 + 1074))%Z.
      generalize dependent (2 ^ (-34 + 1074))%Z. intros. nia. }
    apply ltb_frank. repeat split; [discriminate|now apply amount_number|].
    change (frank 0) with 0%Z.
    assert (P : (0 < 2 ^ (-34 + 1074))%Z) by (apply Z.pow_pos_nonneg; lia).
    lia.
Qed.

Lemma calculateRMS_range_witness :
  bytes [128; 0; 255; 64]%Z
  /\ (calculateRMS [128; 0; 255; 64]%Z <=? 1) = true
  /\ (0 <? calculateRMS [128; 0; 255; 64]%Z) = true.
Proof.
  assert (B : bytes [128; 0; 255; 64]%Z) by (repeat constructor; lia).
  split; [exact B|].
  destruct (calculateRMS_range [128; 0; 255; 64]%Z B) as [H1 H2];
    [discriminate|reflexivity|].
  split; [exact H1|]. apply H2. right. left. discriminate.
Defined.

End LevelRange.

(** ** The bass energy of [detectBeat] *)

Module BassRange.

Import Levels MoreProps OrderProps LevelProps SpectrumProps BandProps.
Import Loops Rounding FloatFacts Scan Comparison Order.
Import LevelFacts Spectrum BinRoundTrip RoundBounds BandMeans LevelRange.
Local Open Scope float_scope.

Lemma amount_zero (x : float) : amount x -> frank x = 0%Z -> x = 0.
Proof.
  unfold amount, frank. intros A F. apply Prim2SF_inj.
  pose proof (Prim2SF_valid x) as V.
  destruct (Prim2SF x) as [[|]|[|]| |[|] m e]; try contradiction.
  - reflexivity.
  - exfalso. cbn [rank scaled cond_Zopp] in F.
    apply valid_range in V.
    assert (0 < 2 ^ (e + 1074))%Z by (apply Z.pow_pos_nonneg; lia).
    clear - F H. nia.
Qed.

(** [Math.floor] of an amount between two consecutive integers. *)
Lemma Math_floor_between (x : float) (k : Z) :
  amount x -> (0 <= k < 2 ^ 52)%Z ->
  (k * 2 ^ 1074 <= frank x < (k + 1) * 2 ^ 1074)%Z ->
  JS.Math_floor x = JS.of_Z k.
Proof.
  intros A Hk Hx. pose proof (Prim2SF_valid x) as V.
  pose proof unit_pos as U.
  unfold JS.Math_floor. unfold amount, frank in *.
  destruct (Prim2SF x) as [[|]|[|]| |[|] m e] eqn:E; try contradiction.
  - cbn [rank scaled] in Hx.
    assert (k = 0%Z)
      by (clear - Hx Hk U; generalize dependent (2 ^ 1074)%Z; intros; nia).
    subst k. apply Prim2SF_inj. rewrite E. reflexivity.
  - cbn [rank scaled cond_Zopp] in Hx.
    pose proof (valid_shape _ _ _ V) as (He & Hm & Hn).
    destruct (Z.leb_spec 0 e) as [H0|H0].
    + exfalso. specialize (Hn ltac:(lia)).
      assert (P : (2 ^ 1074 <= 2 ^ (e + 1074))%Z)
        by (apply Z.pow_le_mono_r; lia).
      clear - Hx Hk Hn P U.
      generalize dependent (2 ^ (e + 1074))%Z.
      generalize dependent (2 ^ 1074)%Z. intros. nia.
    + rewrite mant_false, Z.shiftr_div_pow2 by lia.
      assert (Es : (2 ^ 1074 = 2 ^ (- e) * 2 ^ (e + 1074))%Z).
      { rewrite <- Z.pow_add_r by lia. f_equal. lia. }
      assert (P1 : (0 < 2 ^ (- e))%Z) by (apply Z.pow_pos_nonneg; lia).
      assert (P2 : (0 < 2 ^ (e + 1074))%Z) by (apply Z.pow_pos_nonneg; lia).
      assert (Hq : (Zpos m / 2 ^ (- e) = k)%Z).
      { symmetry. apply (Z.div_unique _ _ k (Zpos m - k * 2 ^ (- e))%Z);
          [|lia].
        left. rewrite Es in Hx. clear - Hx P1 P2.
        generalize dependent (2 ^ (e + 1074))%Z.
        generalize dependent (2 ^ (- e))%Z. intros. nia. }
      rewrite Hq. destruct (Z.eqb_spec k 0) as [->|]; reflexivity.
Qed.

Lemma frank_tenth :
  frank 0x1.999999999999ap-4 = (7205759403792794 * 2 ^ 1018)%Z.
Proof. reflexivity. Qed.

(** A number with twenty binary places: [N / 2^20]. *)
Lemma frank_places (N : Z) :
  (0 < N < 2 ^ 53)%Z ->
  amount (JS.of_Z N / JS.of_Z (2 ^ 20))
  /\ frank (JS.of_Z N / JS.of_Z (2 ^ 20)) = (N * 2 ^ 1054)%Z.
Proof.
  intros HN.
  pose proof (of_Z_canon N ltac:(lia)) as C.
  destruct (canon_normal N HN) as (m & e & (E & D & R) & Ie & V).
  rewrite <- C in E.
  pose proof (div_pow2 (JS.of_Z N) m e 20 E D ltac:(lia) ltac:(lia)) as Q.
  unfold amount, frank. rewrite Q. split; [exact I|].
  cbn [rank scaled cond_Zopp]. rewrite V, <- Z.mul_assoc, <- Z.pow_add_r by lia.
  do 2 f_equal. lia.
Qed.

(** [bassRange] is the tenth of the length, rounded down. *)
Lemma bassRange_spec (frequencyData : list Z) :
  (length frequencyData < 2 ^ 32)%Z ->
  bassRange frequencyData = JS.of_Z (length frequencyData / 10).
Proof.
  intros Hlen. unfold bassRange.
  set (n := length frequencyData) in *.
  assert (Hn : (0 <= n)%Z) by (unfold n, length; lia).
  assert (E32 : (2 ^ 32 = 4294967296)%Z) by reflexivity.
  assert (E53 : (2 ^ 53 = 9007199254740992)%Z) by reflexivity.
  assert (E52 : (2 ^ 52 = 4503599627370496)%Z) by reflexivity.
  assert (E20 : (2 ^ 20 = 1048576)%Z) by reflexivity.
  pose proof (Z.div_mod n 10 ltac:(lia)) as Hdm.
  pose proof (Z.mod_pos_bound n 10 ltac:(lia)) as Hr.
  set (k := (n / 10)%Z) in *.
  assert (An : amount (JS.of_Z n)) by (apply amount_of_Z; lia).
  assert (At : amount 0x1.999999999999ap-4) by exact I.
  pose proof (frank_of_Z n ltac:(lia)) as Fn.
  pose proof unit_pos as U.
  assert (Eu : (2 ^ 1074 = 2 ^ 56 * 2 ^ 1018)%Z)
    by (rewrite <- Z.pow_add_r by lia; reflexivity).
  assert (Eu' : (2 ^ 1074 = 2 ^ 20 * 2 ^ 1054)%Z)
    by (rewrite <- Z.pow_add_r by lia; reflexivity).
  assert (Ev : (2 ^ 1054 = 2 ^ 36 * 2 ^ 1018)%Z)
    by (rewrite <- Z.pow_add_r by lia; reflexivity).
  assert (E56 : (2 ^ 56 = 72057594037927936)%Z) by reflexivity.
  assert (E36 : (2 ^ 36 = 68719476736)%Z) by reflexivity.
  assert (P : (0 < 2 ^ 1018)%Z) by (apply Z.pow_pos_nonneg; lia).
  destruct (frank_places ((k + 1) * 2 ^ 20 - 1)) as [Ab Fb]; [lia|].
  destruct (mul_upper (JS.of_Z n) 0x1.999999999999ap-4
                      (JS.of_Z ((k + 1) * 2 ^ 20 - 1) / JS.of_Z (2 ^ 20))
                      An At Ab) as [Ax Ux].
  { rewrite Fn, Fb, frank_tenth, Eu, Ev, E56, E36, E20.
    clear - Hdm Hr Hlen E32 P Hn. generalize dependent (2 ^ 1018)%Z.
    intros. nia. }
  assert (Ak : amount (JS.of_Z k)) by (apply amount_of_Z; lia).
  pose proof (mul_lower (JS.of_Z n) 0x1.999999999999ap-4 (JS.of_Z k)
                        An At Ak) as Lx.
  rewrite Fn, frank_tenth, frank_of_Z in Lx by lia.
  assert (Lx' : (k * 2 ^ 1074
                 <= frank (JS.of_Z n * 0x1.999999999999ap-4))%Z).
  { apply Lx. rewrite Eu, E56.
    clear - Hdm Hr P Hn. generalize dependent (2 ^ 1018)%Z. intros. nia. }
  apply Math_floor_between; [exact Ax|lia|]. split; [exact Lx'|].
  rewrite Fb in Ux. rewrite Eu', E20 in *.
  assert (P' : (0 < 2 ^ 1054)%Z) by (apply Z.pow_pos_nonneg; lia).
  clear - Ux P'. generalize dependent (2 ^ 1054)%Z. intros. nia.
Qed.

Lemma squares_fold (frequencyData : list Z) (idx : list Z) (a : Z) :
  fold_left (fun s i => (s + key frequencyData i * key frequencyData i)%Z)
            idx a
  = (a + fold_left
           (fun s i => (s + key frequencyData i * key frequencyData i)%Z)
           idx 0)%Z.
Proof.
  revert a. induction idx as [|i idx IH]; intros a.
  - cbn. lia.
  - cbn [fold_left]. rewrite IH, (IH (0 + _)%Z). lia.
Qed.

Lemma squares_range (frequencyData : list Z) (idx : list Z) :
  bytes frequencyData ->
  (0 <= fold_left
          (fun s i => (s + key frequencyData i * key frequencyData i)%Z)
          idx 0
   <= 65025 * length idx)%Z.
Proof.
  intros Hb. induction idx as [|i idx IH].
  - unfold length. cbn. lia.
  - cbn [fold_left]. rewrite squares_fold.
    pose proof (key_byte frequencyData i Hb).
    unfold length in *. cbn [List.length]. nia.
Qed.

Lemma of_Z_square (b : Z) :
  (0 <= b <= 255)%Z -> JS.of_Z b * JS.of_Z b = JS.of_Z (b * b).
Proof.
  intros Hb. destruct (Z.eq_dec b 0) as [->|Hne]; [reflexivity|].
  apply of_Z_mul_exact; try lia.
  assert (E53 : (2 ^ 53 = 9007199254740992)%Z) by reflexivity. nia.
Qed.

(** The sum of the squares of the loop is exact. *)
Lemma energy_exact (frequencyData : list Z) (idx : list Z) (a : Z) :
  bytes frequencyData ->
  (forall i, In i idx -> 0 <= i < length frequencyData)%Z ->
  (0 <= a)%Z -> (a + 65025 * length idx < 2 ^ 53)%Z ->
  fold_left
    (fun energy i =>
       energy + byte_at frequencyData i * byte_at frequencyData i)
    idx (JS.of_Z a)
  = JS.of_Z
      (fold_left
         (fun s i => (s + key frequencyData i * key frequencyData i)%Z)
         idx a).
Proof.
  intros Hb. revert a.
  induction idx as [|i idx IH]; intros a Hi Ha Hlt; [reflexivity|].
  cbn [fold_left].
  rewrite byte_at_key by (apply Hi; left; reflexivity).
  pose proof (key_byte frequencyData i Hb) as Hk.
  assert (Hl : length (i :: idx) = (length idx + 1)%Z)
    by (unfold length; cbn [List.length]; lia).
  rewrite Hl in Hlt.
  assert (H0 : (0 <= length idx)%Z) by (unfold length; lia).
  rewrite of_Z_square by exact Hk.
  rewrite of_Z_add_exact by nia.
  apply IH; [intros j Hj; apply Hi; now right|nia|nia].
Qed.

Lemma bassEnergy_short (frequencyData : list Z) :
  (length frequencyData < 10)%Z -> bassEnergy frequencyData = nan.
Proof.
  intros Hs.
  assert (Hn : (0 <= length frequencyData)%Z) by (unfold length; lia).
  assert (E32 : (2 ^ 32 = 4294967296)%Z) by reflexivity.
  unfold bassEnergy, bass_indices.
  rewrite bassRange_spec by lia.
  rewrite Z.div_small by lia. reflexivity.
Qed.

(** From 10 bins on: the root of the mean of the squares, an amount of
    at most 255. *)
Lemma bassEnergy_amount (frequencyData : list Z) :
  bytes frequencyData -> (10 <= length frequencyData < 2 ^ 32)%Z ->
  bassEnergy frequencyData
  = sqrt (JS.of_Z (squares frequencyData (length frequencyData / 10))
          / JS.of_Z (length frequencyData / 10))
  /\ amount (bassEnergy frequencyData)
  /\ (frank (bassEnergy frequencyData) <= 255 * 2 ^ 1074)%Z.
Proof.
  intros Hb [Hl Hlen].
  pose proof (bassRange_spec frequencyData Hlen) as HR.
  assert (E32 : (2 ^ 32 = 4294967296)%Z) by reflexivity.
  assert (E53 : (2 ^ 53 = 9007199254740992)%Z) by reflexivity.
  pose proof (Z.div_mod (length frequencyData) 10 ltac:(lia)) as Hdm.
  pose proof (Z.mod_pos_bound (length frequencyData) 10 ltac:(lia)) as Hr.
  set (k := (length frequencyData / 10)%Z) in *.
  assert (Hk : (1 <= k <= length frequencyData)%Z) by lia.
  assert (E : bassEnergy frequencyData
              = sqrt (JS.of_Z (squares frequencyData k) / JS.of_Z k)).
  { unfold bassEnergy, bass_indices. rewrite HR.
    rewrite to_int_of_Z by lia.
    change 0 with (JS.of_Z 0) at 1.
    rewrite (energy_exact frequencyData (range 0 k) 0 Hb).
    - reflexivity.
    - intros i Hi. apply In_range in Hi. lia.
    - lia.
    - unfold length. rewrite length_range. lia. }
  split; [exact E|]. rewrite E.
  pose proof (squares_range frequencyData (range 0 k) Hb) as Hs.
  unfold length in Hs at 1. rewrite length_range in Hs.
  fold (squares frequencyData k) in Hs.
  replace (Z.of_nat (Z.to_nat (k - 0))) with k in Hs by lia.
  destruct (positive_of_Z k) as (m & e & Ek); [lia|].
  pose proof unit_pos as U.
  assert (A1 : amount (JS.of_Z 65025)) by exact I.
  destruct (div_upper (JS.of_Z (squares frequencyData k)) (JS.of_Z k)
                      (JS.of_Z 65025) m e) as [Aq Uq];
    [apply amount_of_Z; lia|exact Ek|exact A1| |].
  { rewrite !frank_of_Z by lia.
    clear - Hs U. generalize dependent (2 ^ 1074)%Z. intros. nia. }
  rewrite frank_of_Z in Uq by lia.
  assert (A2 : amount 255) by exact I.
  assert (F255 : frank 255 = (255 * 2 ^ 1074)%Z)
    by (apply (frank_of_Z 255); lia).
  destruct (sqrt_upper (JS.of_Z (squares frequencyData k) / JS.of_Z k) 255
                       Aq A2) as [Ar Ur].
  { rewrite F255. clear - Uq U. generalize dependent (2 ^ 1074)%Z.
    intros. nia. }
  rewrite F255 in Ur. split; [exact Ar|exact Ur].
Qed.

(** An amount of at most 255, in the order of numbers. *)
Lemma level_range (x : float) :
  amount x -> (frank x <= 255 * 2 ^ 1074)%Z ->
  (0 <=? x) = true /\ (x <=? 255) = true.
Proof.
  intros A U.
  assert (F255 : frank 255 = (255 * 2 ^ 1074)%Z)
    by (apply (frank_of_Z 255); lia).
  split; apply leb_frank.
  - repeat split; [discriminate|now apply amount_number|].
    change (frank 0) with 0%Z. now apply amount_rank.
  - repeat split; [now apply amount_number|discriminate|].
    rewrite F255. exact U.
Qed.

(** X13.  The energy that [detectBeat] reports is computed over the first
    [length / 10] bins.  A spectrum of fewer than 10 bins has none: the
    energy is [NaN], whatever the bytes are, and no beat is reported.
    From 10 bins on, the energy is the root of the mean of their squares,
    a number in [[0, 255]]. *)
Theorem bassEnergy_spec :
  forall (frequencyData : list Z),
    bytes frequencyData -> (length frequencyData < 2 ^ 32)%Z ->
    bassRange frequencyData = JS.of_Z (length frequencyData / 10)
    /\ ((length frequencyData < 10)%Z ->
        bassEnergy frequencyData = nan
        /\ forall energyHistory sensitivity,
             isBeat (fst (detectBeat energyHistory frequencyData sensitivity))
             = false)
    /\ ((10 <= length frequencyData)%Z ->
        bassEnergy frequencyData
        = sqrt (JS.of_Z (squares frequencyData (length frequencyData / 10))
                / JS.of_Z (length frequencyData / 10))
        /\ (0 <=? bassEnergy frequencyData) = true
        /\ (bassEnergy frequencyData <=? 255) = true).
Proof.
  intros frequencyData Hb Hlen.
  split; [now apply bassRange_spec|]. split.
  - intros Hs. pose proof (bassEnergy_short frequencyData Hs) as E.
    split; [exact E|]. intros energyHistory sensitivity.
    unfold detectBeat. cbn [fst isBeat]. rewrite E, !ltb_nan_r. reflexivity.
  - intros Hl.
    destruct (bassEnergy_amount frequencyData Hb (conj Hl Hlen))
      as (E & A & U).
    split; [exact E|]. now apply level_range.
Qed.

Lemma bassEnergy_spec_witness :
  bytes [255; 3; 200; 7; 9; 0; 1]%Z
  /\ bassEnergy [255; 3; 200; 7; 9; 0; 1]%Z = nan
  /\ bytes (repeat 255%Z 25)
  /\ bassEnergy (repeat 255%Z 25)
     = sqrt (JS.of_Z (squares (repeat 255%Z 25) 2) / 2)
  /\ (bassEnergy (repeat 255%Z 25) <=? 255) = true.
Proof.
  assert (B1 : bytes [255; 3; 200; 7; 9; 0; 1]%Z)
    by (repeat constructor; lia).
  assert (B2 : bytes (repeat 255%Z 25)) by (repeat constructor; lia).
  split; [exact B1|]. split.
  - destruct (bassEnergy_spec _ B1 eq_refl) as (_ & H & _).
    apply H. reflexivity.
  - split; [exact B2|].
    destruct (bassEnergy_spec _ B2 eq_refl) as (_ & _ & H).
    destruct H as (E & _ & U); [discriminate|]. split; [exact E|exact U].
Defined.

End BassRange.

(** ** [detectPitchAutocorrelation] *)

Module AutocorrelationFacts.

Import Autocorrelation AutocorrelationProps OrderProps LevelProps.
Import Loops Rounding FloatFacts Scan Comparison Order.
Import YinSilence Beat BinRoundTrip RoundBounds BandMeans.
Local Open Scope float_scope.

Lemma take_while_sat {A : Type} (f : A -> bool) (l : list A) (x : A) :
  In x (take_while f l) -> f x = true.
Proof.
  induction l as [|a l IH]; cbn; [tauto|].
  destruct (f a) eqn:E; cbn; [|tauto]. intros [<-|H]; auto.
Qed.

(** A test that only gets harder as the counter grows selects an initial
    segment of the range. *)
Lemma In_take_while_range (f : Z -> bool) (z h q : Z) :
  (forall a b, z <= a <= b -> b < h -> f b = true -> f a = true)%Z ->
  (z <= q < h)%Z -> f q = true -> In q (take_while f (range z h)).
Proof.
  intros Hmono Hq Hf.
  remember (Z.to_nat (q - z)) as k eqn:Ek. revert z Hmono Hq Ek.
  induction k as [|k IH]; intros z Hmono Hq Ek.
  - assert (q = z) by lia. subst q.
    rewrite range_cons by lia. cbn [take_while]. rewrite Hf. now left.
  - rewrite range_cons by lia. cbn [take_while].
    rewrite (Hmono z q) by (try assumption; lia).
    right. apply IH; [|lia|lia].
    intros a b Hab Hb. apply Hmono; lia.
Qed.

(** Half of a length. *)
Lemma frank_half (n : Z) :
  (0 <= n < 2 ^ 53)%Z ->
  amount (JS.of_Z n / 2)
  /\ (2 * frank (JS.of_Z n / 2) = n * 2 ^ 1074)%Z.
Proof.
  intros Hn. destruct (Z.eq_dec n 0) as [->|Hne].
  { split; [exact I|reflexivity]. }
  pose proof (of_Z_canon n ltac:(lia)) as C.
  destruct (canon_normal n ltac:(lia)) as (m & e & (E & D & R) & Ie & V).
  rewrite <- C in E.
  pose proof (div_pow2 (JS.of_Z n) m e 1 E D ltac:(lia) ltac:(lia)) as Q.
  change (JS.of_Z (2 ^ 1)) with 2 in Q.
  unfold amount, frank. rewrite Q. split; [exact I|].
  cbn [rank scaled cond_Zopp]. rewrite V.
  replace (2 ^ 1074)%Z with (2 ^ (- e) * (2 * 2 ^ (e - 1 + 1074)))%Z.
  - ring.
  - rewrite <- Z.pow_succ_r, <- Z.pow_add_r by lia. f_equal. lia.
Qed.

(** The test of the outer loop, on an integer counter. *)
Lemma in_search_spec (maxPeriod : float) (n p : Z) :
  (0 <= n < 2 ^ 53)%Z -> (- 2 ^ 53 < p < 2 ^ 53)%Z ->
  in_search maxPeriod (JS.of_Z n) (JS.of_Z p) = true
  <-> (JS.of_Z p <=? maxPeriod) = true /\ (2 * p < n)%Z.
Proof.
  intros Hn Hp. unfold in_search. rewrite andb_true_iff.
  destruct (frank_half n Hn) as [Ah Fh].
  pose proof (frank_of_Z p Hp) as Fp. pose proof unit_pos as U.
  pose proof (number_of_Z p Hp) as Np.
  pose proof (amount_number _ Ah) as Nh.
  split; intros [H1 H2]; (split; [exact H1|]).
  - apply ltb_frank in H2. destruct H2 as (_ & _ & H2). rewrite Fp in H2.
    clear - H2 Fh U. generalize dependent (2 ^ 1074)%Z. intros. nia.
  - apply ltb_frank. repeat split; try assumption. rewrite Fp.
    clear - H2 Fh U. generalize dependent (2 ^ 1074)%Z. intros. nia.
Qed.

(** The inner loop ends for every period from 0 to the length. *)
Lemma correlation_returns (buffer : list float) (p : Z) :
  (length buffer < 2 ^ 53)%Z -> (0 <= p <= length buffer)%Z ->
  exists c, correlation buffer p = JS.Returns c.
Proof.
  intros Hn Hp. unfold correlation.
  rewrite of_Z_sub_exact by lia. unfold count_to.
  set (k := (length buffer - p)%Z).
  assert (Hk : (0 <= k < 2 ^ 53)%Z) by (unfold k; lia).
  assert (Ek : JS.to_int (JS.of_Z k) = JS.IInt k).
  { destruct (Z.eq_dec k 0) as [->|Hne]; [reflexivity|].
    apply to_int_of_Z. lia. }
  rewrite Ek. destruct (Z.ltb_spec (2 ^ 53) k) as [H|H]; [lia|].
  eexists. reflexivity.
Qed.

(** The result of [Math.floor] is a whole number. *)
Lemma floor_integer (y : float) (z : Z) :
  nonneg (Prim2SF y) -> JS.to_int (JS.Math_floor y) = JS.IInt z ->
  number (JS.Math_floor y) /\ frank (JS.Math_floor y) = (z * 2 ^ 1074)%Z.
Proof.
  intros Hy. pose proof (Prim2SF_valid y) as V.
  unfold JS.Math_floor.
  destruct (Prim2SF y) as [s|s| |s m e] eqn:E.
  - unfold JS.to_int, number, frank. rewrite E. intros H.
    injection H as <-. split; [discriminate|reflexivity].
  - unfold JS.to_int. rewrite E. discriminate.
  - unfold JS.to_int. rewrite E. discriminate.
  - cbn [nonneg] in Hy. subst s.
    pose proof (valid_range _ _ _ V) as [He Hm].
    destruct (Z.leb_spec 0 e) as [H0|H0].
    + unfold JS.to_int, number, frank. rewrite E.
      destruct (Z.leb_spec 0 e) as [_|]; [|lia].
      rewrite mant_false. intros H. injection H as <-.
      split; [discriminate|]. cbn [rank scaled cond_Zopp].
      change (Zpos m * 2 ^ (e + 1074) = Zpos m * 2 ^ e * 2 ^ 1074)%Z.
      rewrite <- Z.mul_assoc, <- Z.pow_add_r by lia. reflexivity.
    + rewrite mant_false, Z.shiftr_div_pow2 by lia.
      assert (Hq : (0 <= Zpos m / 2 ^ (- e) < 2 ^ 53)%Z).
      { assert (P : (0 < 2 ^ (- e))%Z) by (apply Z.pow_pos_nonneg; lia).
        split; [apply Z.div_pos; lia|].
        apply Z.div_lt_upper_bound; [exact P|]. nia. }
      destruct (Z.eqb_spec (Zpos m / 2 ^ (- e)) 0) as [Hz|Hz].
      * intros H. injection H as <-. split; [discriminate|reflexivity].
      * rewrite to_int_of_Z by lia. intros H. injection H as <-.
        split; [apply number_of_Z; lia|apply frank_of_Z; lia].
Qed.

(** The outer loop: it returns when every inner loop does, and keeps the
    first period of the greatest correlation above the initial one. *)
Lemma best_spec (buffer : list float) (ps : list Z) (st : float * Z) :
  (forall p, In p ps -> exists c, correlation buffer p = JS.Returns c) ->
  number (fst st) ->
  exists st',
    best buffer ps st = JS.Returns st'
    /\ number (fst st')
    /\ (frank (fst st) <= frank (fst st'))%Z
    /\ (st' = st
        \/ (In (snd st') ps
            /\ correlation buffer (snd st') = JS.Returns (fst st')))
    /\ (forall q c, In q ps -> correlation buffer q = JS.Returns c ->
                    (fst st' <? c) = false).
Proof.
  revert st. induction ps as [|p ps IH]; intros st Hret Hst.
  - exists st. cbn [best]. split; [reflexivity|]. split; [exact Hst|].
    split; [lia|]. split; [now left|]. intros q c [].
  - cbn [best].
    destruct (Hret p (or_introl eq_refl)) as [c Hc]. rewrite Hc.
    set (st1 := if fst st <? c then (c, p) else st).
    assert (H1 : number (fst st1)
                 /\ (frank (fst st) <= frank (fst st1))%Z
                 /\ (fst st1 <? c) = false
                 /\ (st1 = st \/ st1 = (c, p))).
    { unfold st1. destruct (fst st <? c) eqn:E.
      - apply ltb_frank in E. destruct E as (_ & Nc & E). cbn [fst].
        split; [exact Nc|]. split; [lia|]. split; [|now right].
        destruct (c <? c) eqn:E'; [|reflexivity].
        apply ltb_frank in E'. lia.
      - split; [exact Hst|]. split; [lia|]. split; [exact E|now left]. }
    destruct H1 as (N1 & F1 & M1 & S1).
    destruct (IH st1) as (st' & Hb & N' & F' & S' & M');
      [intros q Hq; apply Hret; now right|exact N1|].
    exists st'. split; [exact Hb|]. split; [exact N'|].
    split; [lia|]. split.
    + destruct S' as [->|[Hin Hcr]].
      * destruct S1 as [-> | ->]; [now left|right].
        cbn [fst snd]. split; [now left|exact Hc].
      * right. split; [now right|exact Hcr].
    + intros q c' [<-|Hq] Hq'.
      * assert (c' = c) by congruence. subst c'.
        destruct (fst st' <? c) eqn:E; [|reflexivity].
        apply ltb_frank in E. destruct E as (_ & Nc & E).
        assert (E1 : (frank c <= frank (fst st1))%Z)
          by (apply ltb_false_frank; assumption).
        lia.
      * now apply (M' q).
Qed.

(** The loop leaves its state alone when no correlation exceeds it. *)
Lemma best_unchanged (buffer : list float) (ps : list Z) (st : float * Z) :
  (forall p, In p ps ->
             exists c, correlation buffer p = JS.Returns c
                       /\ (fst st <? c) = false) ->
  best buffer ps st = JS.Returns st.
Proof.
  induction ps as [|p ps IH]; intros H; [reflexivity|].
  cbn [best]. destruct (H p (or_introl eq_refl)) as (c & -> & E).
  rewrite E. apply IH. intros q Hq. apply H. now right.
Qed.

(** The periods that the outer loop visits, from a start [z >= 0]. *)
Lemma visited (maxPeriod : float) (n z p : Z) :
  (0 <= z)%Z -> (0 <= n < 2 ^ 53)%Z ->
  In p (take_while (fun p => in_search maxPeriod (JS.of_Z n) (JS.of_Z p))
                   (range z ((n + 1) / 2)))
  <-> (z <= p)%Z /\ (JS.of_Z p <=? maxPeriod) = true /\ (2 * p < n)%Z.
Proof.
  intros Hz Hn.
  assert (Hh : (2 * ((n + 1) / 2) <= n + 1 < 2 * ((n + 1) / 2) + 2)%Z).
  { pose proof (Z.div_mod (n + 1) 2 ltac:(lia)).
    pose proof (Z.mod_pos_bound (n + 1) 2 ltac:(lia)). lia. }
  split.
  - intros H. pose proof (take_while_sat _ _ _ H) as Hs.
    apply In_take_while, In_range in H. cbv beta in Hs.
    apply in_search_spec in Hs; [|lia|lia]. tauto.
  - intros (Hzp & Hle & Hlt). apply In_take_while_range.
    + intros a b Hab Hb Hfb.
      apply in_search_spec in Hfb; [|lia|lia].
      apply in_search_spec; [lia|lia|]. destruct Hfb as [Hfb1 Hfb2].
      split; [|lia]. apply leb_frank in Hfb1.
      destruct Hfb1 as (_ & Nm & Hfb1).
      apply leb_frank. repeat split; [apply number_of_Z; lia|exact Nm|].
      rewrite frank_of_Z in * by lia. pose proof unit_pos as U.
      clear - Hfb1 Hab U. generalize dependent (2 ^ 1074)%Z. intros. nia.
    + lia.
    + apply in_search_spec; [lia|lia|tauto].
Qed.

(** X14.  For a positive sample rate and upper frequency,
    [detectPitchAutocorrelation] returns; and the frequency it reports,
    when it is not [null], is [sampleRate / p] for a period [p >= 1] of
    the search range whose correlation is at least 0.01 and is not
    exceeded by the correlation of any period of the search range. *)
Theorem detectPitchAutocorrelation_result :
  forall (buffer : list float) (sampleRate minFreq maxFreq : float),
    (length buffer < 2 ^ 53)%Z ->
    (0 <? sampleRate) = true -> (0 <? maxFreq) = true ->
    exists r,
      detectPitchAutocorrelation buffer sampleRate minFreq maxFreq
      = JS.Returns r
      /\ forall f,
           r = Some f ->
           exists p c,
             (1 <= p)%Z
             /\ searched buffer sampleRate minFreq maxFreq p
             /\ correlation buffer p = JS.Returns c
             /\ (0x1.47ae147ae147bp-7 <=? c) = true
             /\ f = sampleRate / JS.of_Z p
             /\ forall q c',
                  searched buffer sampleRate minFreq maxFreq q ->
                  correlation buffer q = JS.Returns c' ->
                  (c <? c') = false.
Proof.
  intros buffer sampleRate minFreq maxFreq Hn Hs Hm.
  assert (Hn0 : (0 <= length buffer)%Z) by (unfold length; lia).
  assert (Hq : nonneg (Prim2SF (sampleRate / maxFreq))).
  { rewrite div_spec. apply nonneg_div; now apply positive_nonneg. }
  pose proof (nonneg_floor _ Hq) as Hf.
  unfold detectPitchAutocorrelation.
  set (minPeriod := JS.Math_floor (sampleRate / maxFreq)) in *.
  set (maxPeriod := JS.Math_floor (sampleRate / minFreq)) in *.
  destruct (JS.to_int minPeriod) as [|[|]|z] eqn:Ez.
  - eexists. split; [reflexivity|]. discriminate.
  - exfalso. unfold JS.to_int in Ez.
    destruct (Prim2SF minPeriod) as [s|s| |s m e]; cbn [nonneg] in Hf;
      try discriminate.
    + subst s. discriminate.
    + destruct (0 <=? e)%Z; discriminate.
  - eexists. split; [reflexivity|]. discriminate.
  - pose proof (to_int_nonneg _ _ Hf Ez) as Hz.
    destruct (floor_integer _ _ Hq Ez) as [Nf Ff]. fold minPeriod in Nf, Ff.
    destruct (Z.ltb_spec z (- 2 ^ 53)) as [Hlt|_].
    { exfalso. assert (0 < 2 ^ 53)%Z by reflexivity. lia. }
    set (ps := take_while _ _).
    assert (Hps : forall p, In p ps <->
                            (z <= p)%Z /\ (JS.of_Z p <=? maxPeriod) = true
                            /\ (2 * p < length buffer)%Z).
    { intros p. apply visited; lia. }
    destruct (best_spec buffer ps (0, 0%Z)) as (st & Hb & Nst & Fst & Sst & Mst).
    { intros p Hp. apply Hps in Hp. apply correlation_returns; lia. }
    { discriminate. }
    rewrite Hb. eexists. split; [reflexivity|].
    intros f Hv. unfold verdict in Hv.
    destruct (Z.eqb_spec (snd st) 0) as [H0|H0]; [discriminate|].
    cbn [orb] in Hv.
    destruct (fst st <? 0x1.47ae147ae147bp-7) eqn:Ec; [discriminate|].
    injection Hv as <-.
    destruct Sst as [->|[Hin Hcr]]; [now contradiction H0|].
    apply Hps in Hin. destruct Hin as (Hzp & Hle & Hlt).
    pose proof unit_pos as U.
    assert (Hsearch : forall q,
               searched buffer sampleRate minFreq maxFreq q <-> In q ps).
    { intros q. rewrite Hps. unfold searched.
      fold minPeriod. fold maxPeriod. split.
      - intros (Hq0 & H1 & H2 & H3). split; [|tauto].
        apply leb_frank in H1. destruct H1 as (_ & Nq & H1).
        destruct (Z.le_gt_cases z q) as [|Hgt]; [assumption|exfalso].
        rewrite Ff, frank_of_Z in H1 by lia.
        clear - H1 Hgt U. generalize dependent (2 ^ 1074)%Z. intros. nia.
      - intros (H1 & H2 & H3). split; [lia|]. split; [|tauto].
        apply leb_frank. repeat split; [exact Nf|apply number_of_Z; lia|].
        rewrite Ff, frank_of_Z by lia.
        apply Z.mul_le_mono_nonneg_r; lia. }
    exists (snd st), (fst st). split; [lia|]. split.
    + apply Hsearch. apply Hps. tauto.
    + split; [exact Hcr|]. split.
      * apply leb_frank. repeat split; [discriminate|exact Nst|].
        apply ltb_false_frank; [exact Nst|discriminate|exact Ec].
      * split; [reflexivity|].
        intros q c' Hq' Hc'. apply (Mst q); [|exact Hc'].
        now apply Hsearch.
Qed.

Lemma detectPitchAutocorrelation_result_witness :
  (0 <? 8) = true /\ (0 <? 4) = true
  /\ detectPitchAutocorrelation [1; 0; -1; 0; 1; 0; -1; 0; 1; 0] 8 1 4
     = JS.Returns (Some 2)
  /\ exists r,
       detectPitchAutocorrelation [1; 0; -1; 0; 1; 0; -1; 0; 1; 0] 8 1 4
       = JS.Returns r
       /\ forall f,
            r = Some f ->
            exists p c,
              (1 <= p)%Z
              /\ searched [1; 0; -1; 0; 1; 0; -1; 0; 1; 0] 8 1 4 p
              /\ correlation [1; 0; -1; 0; 1; 0; -1; 0; 1; 0] p
                 = JS.Returns c
              /\ (0x1.47ae147ae147bp-7 <=? c) = true
              /\ f = 8 / JS.of_Z p
              /\ forall q c',
                   searched [1; 0; -1; 0; 1; 0; -1; 0; 1; 0] 8 1 4 q ->
                   correlation [1; 0; -1; 0; 1; 0; -1; 0; 1; 0] q
                   = JS.Returns c' ->
                   (c <? c') = false.
Proof.
  split; [reflexivity|]. split; [reflexivity|].
  split; [vm_compute; reflexivity|].
  apply (detectPitchAutocorrelation_result
           [1; 0; -1; 0; 1; 0; -1; 0; 1; 0] 8 1 4); reflexivity.
Defined.

(** *** No pitch *)

Lemma quiet_cases (x : float) :
  quiet x <-> (exists s, Prim2SF x = S754_zero s) \/ Prim2SF x = S754_nan.
Proof.
  unfold quiet, zeroish. split.
  - intros [[-> | ->] | ->]; [left; now exists false|left; now exists true|
                              now right].
  - intros [[s H]|H].
    + left. destruct s; [right|left]; apply Prim2SF_inj; rewrite H;
        reflexivity.
    + right. apply Prim2SF_inj. rewrite H. reflexivity.
Qed.

Lemma quiet_get (signs : list bool) (j : Z) : quiet (get (silence signs) j).
Proof.
  destruct (Z.lt_ge_cases j 0) as [Hj|Hj].
  - right. unfold get. destruct (Z.ltb_spec j 0); [reflexivity|lia].
  - destruct (Z.lt_ge_cases j (length (silence signs))) as [Hl|Hl].
    + left. apply get_silence. lia.
    + right. unfold get, length in *.
      destruct (Z.ltb_spec j 0); [reflexivity|].
      apply nth_overflow. lia.
Qed.

Lemma quiet_mul (a b : float) : quiet a -> quiet b -> quiet (a * b).
Proof.
  rewrite !quiet_cases, mul_spec.
  intros [[sa ->]| ->] [[sb ->]| ->]; cbn; eauto.
Qed.

Lemma quiet_add (a b : float) : quiet a -> quiet b -> quiet (a + b).
Proof.
  rewrite !quiet_cases, add_spec.
  intros [[sa ->]| ->] [[sb ->]| ->]; cbn; eauto.
  destruct sa, sb; cbn; eauto.
Qed.

Lemma quiet_mean (a s : float) : quiet a -> (0 <? a / s) = false.
Proof.
  rewrite quiet_cases, ltb_spec, div_spec.
  change (Prim2SF 0) with (S754_zero false).
  intros [[sa ->]| ->]; destruct (Prim2SF s) as [ss|ss| |ss ms es];
    reflexivity.
Qed.

Lemma quiet_sum (signs : list bool) (p : Z) (idx : list Z) (c : float) :
  quiet c ->
  quiet (fold_left
           (fun c i => c + get (silence signs) i
                           * get (silence signs) (i + p)%Z)
           idx c).
Proof.
  revert c. induction idx as [|i idx IH]; intros c Hc; [exact Hc|].
  cbn [fold_left]. apply IH, quiet_add; [exact Hc|].
  apply quiet_mul; apply quiet_get.
Qed.

(** X15.  No pitch is reported, for a positive sample rate and upper
    frequency, on a buffer of fewer than three samples, whatever they
    are, and on a silent buffer of any length: the correlations of
    silence are zeros, which never exceed the initial best correlation
    0. *)
Theorem detectPitchAutocorrelation_null :
  forall (buffer : list float) (sampleRate minFreq maxFreq : float),
    (length buffer < 2 ^ 53)%Z ->
    (0 <? sampleRate) = true -> (0 <? maxFreq) = true ->
    (length buffer < 3)%Z \/ (exists signs, buffer = silence signs) ->
    detectPitchAutocorrelation buffer sampleRate minFreq maxFreq
    = JS.Returns None.
Proof.
  intros buffer sampleRate minFreq maxFreq Hn Hs Hm Hcase.
  assert (Hn0 : (0 <= length buffer)%Z) by (unfold length; lia).
  assert (Hq : nonneg (Prim2SF (sampleRate / maxFreq))).
  { rewrite div_spec. apply nonneg_div; now apply positive_nonneg. }
  pose proof (nonneg_floor _ Hq) as Hf.
  unfold detectPitchAutocorrelation.
  set (minPeriod := JS.Math_floor (sampleRate / maxFreq)) in *.
  set (maxPeriod := JS.Math_floor (sampleRate / minFreq)) in *.
  destruct (JS.to_int minPeriod) as [|[|]|z] eqn:Ez; try reflexivity.
  - exfalso. unfold JS.to_int in Ez.
    destruct (Prim2SF minPeriod) as [s|s| |s m e]; cbn [nonneg] in Hf;
      try discriminate.
    + subst s. discriminate.
    + destruct (0 <=? e)%Z; discriminate.
  - pose proof (to_int_nonneg _ _ Hf Ez) as Hz.
    destruct (Z.ltb_spec z (- 2 ^ 53)) as [Hlt|_].
    { exfalso. assert (0 < 2 ^ 53)%Z by reflexivity. lia. }
    set (ps := take_while _ _).
    assert (Hps : forall p, In p ps <->
                            (z <= p)%Z /\ (JS.of_Z p <=? maxPeriod) = true
                            /\ (2 * p < length buffer)%Z).
    { intros p. apply visited; lia. }
    destruct Hcase as [Hshort|[signs ->]].
    + destruct (best_spec buffer ps (0, 0%Z)) as (st & Hb & _ & _ & Sst & _).
      { intros p Hp. apply Hps in Hp. apply correlation_returns; lia. }
      { discriminate. }
      rewrite Hb. unfold verdict.
      assert (H0 : snd st = 0%Z).
      { destruct Sst as [->|[Hin _]]; [reflexivity|].
        apply Hps in Hin. lia. }
      rewrite H0. reflexivity.
    + rewrite best_unchanged; [reflexivity|].
      intros p Hp. apply Hps in Hp.
      destruct (correlation_returns (silence signs) p Hn ltac:(lia))
        as [c Hc].
      exists c. split; [exact Hc|]. cbn [fst].
      unfold correlation in Hc.
      destruct (count_to _) as [idx|]; [|discriminate].
      injection Hc as <-. apply quiet_mean, quiet_sum. left. now left.
Qed.

Lemma detectPitchAutocorrelation_null_witness :
  detectPitchAutocorrelation [0.5; -0.25] 44100 80 1000 = JS.Returns None
  /\ detectPitchAutocorrelation (silence (repeat false 64)) 44100 80 1000
     = JS.Returns None.
Proof.
  split.
  - apply (detectPitchAutocorrelation_null [0.5; -0.25] 44100 80 1000);
      try reflexivity. left. reflexivity.
  - apply (detectPitchAutocorrelation_null
             (silence (repeat false 64)) 44100 80 1000);
      try reflexivity. right. now exists (repeat false 64).
Defined.

End AutocorrelationFacts.

(** ** Numbers of either sign *)

Module SignedBounds.

Import OrderProps LevelProps NoteProps.
Import Loops Rounding FloatFacts Scan Comparison Order.
Import RoundBounds BandMeans LevelRange.

Lemma round_aux_sign (M E : Z) (l : location) :
  binary_round_aux prec emax true M E l
  = SFopp (binary_round_aux prec emax false M E l).
Proof.
  unfold binary_round_aux.
  destruct (shr_fexp prec emax M E l) as [mrs e].
  destruct (shr_fexp prec emax _ e loc_Exact) as [mrs' e'].
  destruct (shr_m mrs'); try reflexivity.
  destruct (e' <=? emax - prec); reflexivity.
Qed.

Lemma round_aux_abs (s : bool) (M E : Z) (l : location) :
  SFabs (binary_round_aux prec emax s M E l)
  = binary_round_aux prec emax false M E l.
Proof.
  unfold binary_round_aux.
  destruct (shr_fexp prec emax M E l) as [mrs e].
  destruct (shr_fexp prec emax _ e loc_Exact) as [mrs' e'].
  destruct (shr_m mrs'); try reflexivity.
  destruct (e' <=? emax - prec); reflexivity.
Qed.

Lemma rank_opp (x : spec_float) : rank (SFopp x) = - rank x.
Proof.
  destruct x as [s|[|]| |s m e]; cbn [SFopp rank scaled negb].
  - reflexivity.
  - symmetry. apply Z.opp_involutive.
  - reflexivity.
  - reflexivity.
  - generalize (2 ^ (e + 1074)). intros u.
    destruct s; cbn [negb cond_Zopp]; lia.
Qed.

Lemma abs_mul (x y : float) : abs (x * y) = (abs x * abs y)%float.
Proof.
  apply Prim2SF_inj. rewrite abs_spec, !mul_spec, !abs_spec.
  destruct (Prim2SF x) as [sx|sx| |sx mx ex],
           (Prim2SF y) as [sy|sy| |sy my ey]; try reflexivity.
  unfold SF64mul. cbn [SFmul SFabs xorb]. apply round_aux_abs.
Qed.

Lemma amount_abs (x : float) :
  finite x -> amount (abs x) /\ frank (abs x) = Z.abs (frank x).
Proof.
  unfold finite, amount, frank. rewrite abs_spec.
  pose proof (Prim2SF_valid x) as V.
  destruct (Prim2SF x) as [s|s| |s m e]; try contradiction; intros _.
  - cbn. auto.
  - cbn [SFabs rank scaled cond_Zopp]. split; [exact I|].
    apply valid_range in V.
    assert (0 < 2 ^ (e + 1074)) by (apply Z.pow_pos_nonneg; lia).
    destruct s; cbn [cond_Zopp]; nia.
Qed.

Lemma finite_of_abs (x : float) : amount (abs x) -> finite x.
Proof.
  unfold finite, amount. rewrite abs_spec.
  destruct (Prim2SF x) as [s|s| |s m e]; cbn; auto.
Qed.

Lemma finite_number (x : float) : finite x -> number x.
Proof.
  unfold finite, number. destruct (Prim2SF x); try contradiction;
    discriminate.
Qed.

(** The magnitude of a product is bounded by a bound on the product of
    the magnitudes. *)
Lemma mul_abs_upper (x y b : float) :
  finite x -> finite y -> amount b ->
  Z.abs (frank x) * Z.abs (frank y) <= frank b * 2 ^ 1074 ->
  finite (x * y) /\ Z.abs (frank (x * y)) <= frank b.
Proof.
  intros Fx Fy Ab H.
  destruct (amount_abs x Fx) as [Ax Rx].
  destruct (amount_abs y Fy) as [Ay Ry].
  destruct (mul_upper (abs x) (abs y) b Ax Ay Ab) as [Am Um].
  { rewrite Rx, Ry. exact H. }
  rewrite <- abs_mul in Am, Um.
  pose proof (finite_of_abs _ Am) as Fm.
  split; [exact Fm|].
  destruct (amount_abs _ Fm) as [_ Rm]. rewrite <- Rm. exact Um.
Qed.

Lemma normalize_abs (n e : Z) (b : spec_float) :
  valid_binary b = true -> finite_or_zero b ->
  -1074 <= e -> Z.abs n * 2 ^ (e + 1074) <= rank b ->
  finite_or_zero (binary_normalize prec emax n e false)
  /\ Z.abs (rank (binary_normalize prec emax n e false)) <= rank b.
Proof.
  intros V Fb He H.
  assert (Hpos : forall p,
             Zpos p * 2 ^ (e + 1074) <= rank b ->
             finite_or_zero (binary_normalize prec emax (Zpos p) e false)
             /\ 0 <= rank (binary_normalize prec emax (Zpos p) e false)
                <= rank b).
  { intros p Hp.
    destruct (normalize_upper (Zpos p) e b V Fb ltac:(lia) He Hp) as [Hu Hs].
    destruct (binary_normalize prec emax (Zpos p) e false)
      as [[|]|[|]| |[|] m' e'] eqn:E; try contradiction.
    - split; [exact I|]. cbn [rank scaled] in *. lia.
    - split; [exact I|]. split; [|exact Hu].
      cbn [rank scaled cond_Zopp].
      apply Z.mul_nonneg_nonneg; [lia|apply Z.pow_nonneg; lia]. }
  destruct n as [|p|p].
  - cbn [binary_normalize]. split; [exact I|]. cbn [rank scaled Z.abs] in *.
    assert (0 <= rank b); [|lia].
    cbn [Z.abs] in H. rewrite Z.mul_0_l in H. exact H.
  - destruct (Hpos p H) as [Hf Hr]. split; [exact Hf|lia].
  - cbn [binary_normalize]. unfold binary_round.
    destruct (shl_align p e _) as [mz ez] eqn:Es.
    rewrite round_aux_sign.
    change (Z.abs (Zneg p)) with (Zpos p) in H.
    destruct (Hpos p H) as [Hf Hr].
    cbn [binary_normalize] in Hf, Hr. unfold binary_round in Hf, Hr.
    rewrite Es in Hf, Hr. rewrite rank_opp.
    split; [|lia].
    destruct (binary_round_aux prec emax false (Zpos mz) ez loc_Exact);
      try contradiction; exact I.
Qed.

Lemma cond_Zopp_mul (s : bool) (a b : Z) :
  cond_Zopp s a * b = cond_Zopp s (a * b).
Proof. destruct s; cbn [cond_Zopp]; lia. Qed.

(** The magnitude of a difference is bounded by a bound on the exact
    difference. *)
Lemma sub_abs_upper (x y b : float) :
  finite x -> finite y -> amount b ->
  Z.abs (frank x - frank y) <= frank b ->
  finite (x - y) /\ Z.abs (frank (x - y)) <= frank b.
Proof.
  intros Fx Fy Ab H.
  pose proof (amount_rank b Ab) as Hb0.
  pose proof (amount_finite b Ab) as [Vb Fb].
  pose proof (Prim2SF_valid x) as Vx. pose proof (Prim2SF_valid y) as Vy.
  unfold finite, frank in *. rewrite sub_spec.
  destruct (Prim2SF x) as [sx|sx| |sx mx ex]; try contradiction;
    destruct (Prim2SF y) as [sy|sy| |sy my ey]; try contradiction;
    unfold SF64sub; cbn [SFsub].
  - split; [destruct sx, sy; exact I|].
    destruct sx, sy; cbn [rank scaled Z.abs]; exact Hb0.
  - split; [exact I|]. cbn [rank scaled] in *.
    destruct sy; cbn [negb cond_Zopp] in *; lia.
  - split; [exact I|]. cbn [rank scaled] in *. rewrite Z.sub_0_r in H.
    exact H.
  - pose proof (valid_range _ _ _ Vx) as [Rx _].
    pose proof (valid_range _ _ _ Vy) as [Ry _].
    destruct (shl_align_value mx ex (Z.min ex ey) ltac:(lia)) as [Hx _].
    destruct (shl_align_value my ey (Z.min ex ey) ltac:(lia)) as [Hy _].
    set (X := Zpos (fst (shl_align mx ex (Z.min ex ey)))) in *.
    set (Y := Zpos (fst (shl_align my ey (Z.min ex ey)))) in *.
    assert (P : 0 < 2 ^ (Z.min ex ey + 1074))
      by (apply Z.pow_pos_nonneg; lia).
    assert (Px : X * 2 ^ (Z.min ex ey + 1074) = Zpos mx * 2 ^ (ex + 1074)).
    { rewrite Hx, <- Z.mul_assoc, <- Z.pow_add_r by lia.
      do 2 f_equal. lia. }
    assert (Py : Y * 2 ^ (Z.min ex ey + 1074) = Zpos my * 2 ^ (ey + 1074)).
    { rewrite Hy, <- Z.mul_assoc, <- Z.pow_add_r by lia.
      do 2 f_equal. lia. }
    apply normalize_abs; try assumption; [lia|].
    replace (Z.abs (cond_Zopp sx X - cond_Zopp sy Y)
             * 2 ^ (Z.min ex ey + 1074))
      with (Z.abs ((cond_Zopp sx X - cond_Zopp sy Y)
                   * 2 ^ (Z.min ex ey + 1074)))
      by (rewrite Z.abs_mul, (Z.abs_eq (2 ^ _)); lia).
    rewrite Z.mul_sub_distr_r, !cond_Zopp_mul, Px, Py, <- !cond_Zopp_mul.
    exact H.
Qed.

End SignedBounds.

(** ** [frequencyToNote] on every frequency *)

Module NoteDefined.

Import OrderProps LevelProps NoteProps.
Import Loops Rounding FloatFacts Scan Comparison Order.
Import RoundBounds BandMeans LevelRange SignedBounds NoteRoundtrip.
Local Open Scope float_scope.

Lemma In_upto (n : nat) (k i : Z) :
  In i (upto n k) <-> (k <= i < k + Z.of_nat n)%Z.
Proof.
  revert k. induction n as [|n IH]; intros k; cbn [upto In].
  - lia.
  - rewrite IH. lia.
Qed.

(** [Math.round] of a number of bounded magnitude is the nearest whole
    number. *)
Lemma Math_round_any (x : float) (B : Z) :
  finite x -> (0 <= B < 2 ^ 50)%Z ->
  (Z.abs (frank x) <= B * 2 ^ 1074)%Z ->
  exists z,
    (- B <= z <= B)%Z /\ whole (JS.Math_round x) z
    /\ ((2 * z - 1) * 2 ^ 1073 <= frank x < (2 * z + 1) * 2 ^ 1073)%Z.
Proof.
  intros Fx HB Hx.
  assert (Eu : (2 ^ 1074 = 2 * 2 ^ 1073)%Z)
    by (rewrite <- Z.pow_succ_r by lia; reflexivity).
  assert (Ph : (0 < 2 ^ 1073)%Z) by (apply Z.pow_pos_nonneg; lia).
  set (z := ((frank x + 2 ^ 1073) / 2 ^ 1074)%Z).
  pose proof (Z.div_mod (frank x + 2 ^ 1073) (2 ^ 1074) ltac:(lia)) as Hdm.
  pose proof (Z.mod_pos_bound (frank x + 2 ^ 1073) (2 ^ 1074) ltac:(lia))
    as Hr.
  fold z in Hdm.
  assert (Hz : ((2 * z - 1) * 2 ^ 1073 <= frank x
                < (2 * z + 1) * 2 ^ 1073)%Z).
  { rewrite Eu in Hdm, Hr. clear - Hdm Hr Ph.
    generalize dependent ((frank x + 2 ^ 1073) mod (2 * 2 ^ 1073))%Z.
    generalize dependent (frank x). generalize dependent (2 ^ 1073)%Z.
    intros. nia. }
  assert (HzB : (- B <= z <= B)%Z).
  { rewrite Eu in Hx. clear - Hz Hx Ph HB.
    generalize dependent (frank x). generalize dependent (2 ^ 1073)%Z.
    intros. nia. }
  exists z. split; [exact HzB|]. split; [|exact Hz].
  assert (Hs : frank x = scaled (Prim2SF x)).
  { unfold frank, finite in *. destruct (Prim2SF x); try contradiction;
      reflexivity. }
  rewrite Hs in Hz. apply Math_round_scaled; [exact Fx|exact Hz|].
  assert (E50 : (2 ^ 50 = 1125899906842624)%Z) by reflexivity.
  assert (E51 : (2 ^ 51 = 2251799813685248)%Z) by reflexivity. lia.
Qed.

Lemma whole_frank (x : float) (z : Z) :
  whole x z -> (- 2 ^ 53 < z < 2 ^ 53)%Z ->
  finite x /\ frank x = (z * 2 ^ 1074)%Z.
Proof.
  intros [->|[-> ->]] Hz.
  - pose proof (number_of_Z z Hz) as N. pose proof (frank_of_Z z Hz) as F.
    split; [|exact F]. unfold finite, number, frank in *.
    destruct (Prim2SF (JS.of_Z z)) as [s|[|]| |s m e] eqn:E;
      try exact I; try congruence; exfalso; cbn [rank] in F.
    + assert (P : (0 < 2 ^ 1074)%Z) by (apply Z.pow_pos_nonneg; lia).
      assert (Q : (2 ^ 53 * 2 ^ 1074 < 2 ^ 2200)%Z).
      { rewrite <- Z.pow_add_r by lia. apply Z.pow_lt_mono_r; lia. }
      clear - F Hz P Q. generalize dependent (2 ^ 2200)%Z.
      generalize dependent (2 ^ 1074)%Z. intros. nia.
    + assert (P : (0 < 2 ^ 1074)%Z) by (apply Z.pow_pos_nonneg; lia).
      assert (Q : (2 ^ 53 * 2 ^ 1074 < 2 ^ 2200)%Z).
      { rewrite <- Z.pow_add_r by lia. apply Z.pow_lt_mono_r; lia. }
      clear - F Hz P Q. generalize dependent (2 ^ 2200)%Z.
      generalize dependent (2 ^ 1074)%Z. intros. nia.
  - split; [exact I|reflexivity].
Qed.

(** A number between two whole numbers (in the order of numbers) is
    finite, and its place is between theirs. *)
Lemma between_whole (x : float) (a b : Z) :
  (- 2 ^ 53 < a < 2 ^ 53)%Z -> (- 2 ^ 53 < b < 2 ^ 53)%Z ->
  (JS.of_Z a <=? x) = true -> (x <=? JS.of_Z b) = true ->
  finite x /\ (a * 2 ^ 1074 <= frank x <= b * 2 ^ 1074)%Z.
Proof.
  intros Ha Hb H1 H2.
  apply leb_frank in H1. destruct H1 as (_ & Nx & H1).
  apply leb_frank in H2. destruct H2 as (_ & _ & H2).
  rewrite frank_of_Z in H1, H2 by assumption.
  split; [|lia].
  assert (P : (0 < 2 ^ 1074)%Z) by (apply Z.pow_pos_nonneg; lia).
  assert (Q : (2 ^ 53 * 2 ^ 1074 < 2 ^ 2200)%Z).
  { rewrite <- Z.pow_add_r by lia. apply Z.pow_lt_mono_r; lia. }
  unfold finite, number, frank in *.
  destruct (Prim2SF x) as [s|[|]| |s m e]; try exact I; try congruence;
    exfalso; cbn [rank] in H1, H2; clear - H1 H2 Ha Hb P Q;
    generalize dependent (2 ^ 2200)%Z; generalize dependent (2 ^ 1074)%Z;
    intros; nia.
Qed.

Lemma names_checked : forallb name_ok (upto 3075 (-1537)%Z) = true.
Proof. vm_compute. reflexivity. Qed.

Lemma semitone_name (k : Z) :
  exists name, nth_error NOTE_NAMES (Z.to_nat ((k + 9) mod 12)) = Some name
               /\ semitone_note k = name.
Proof.
  pose proof (Z.mod_pos_bound (k + 9) 12 ltac:(lia)) as H.
  unfold semitone_note.
  assert (Hn : (Z.to_nat ((k + 9) mod 12) < List.length NOTE_NAMES)%nat)
    by (cbn; lia).
  destruct (nth_error NOTE_NAMES (Z.to_nat ((k + 9) mod 12))) as [n|] eqn:E.
  - exists n. split; [reflexivity|]. now apply nth_error_nth.
  - apply nth_error_None in E. lia.
Qed.

(** The note and the octave of [k] rounded semitones. *)
Lemma name_of_whole (R : float) (k : Z) :
  whole R k -> (-1536 <= k <= 1536)%Z ->
  exists name,
    name_of R = Some name
    /\ nth_error NOTE_NAMES (Z.to_nat ((k + 9) mod 12)) = Some name
    /\ octave_of R = JS.of_Z ((k + 9) / 12 + 4).
Proof.
  intros HR Hk.
  assert (H0 : name_of neg_zero = name_of (JS.of_Z 0)
               /\ octave_of neg_zero = octave_of (JS.of_Z 0))
    by (split; reflexivity).
  assert (E : name_of R = name_of (JS.of_Z k)
              /\ octave_of R = octave_of (JS.of_Z k)).
  { destruct HR as [->|[-> ->]]; [split; reflexivity|exact H0]. }
  destruct E as [-> ->].
  pose proof names_checked as H. rewrite forallb_forall in H.
  specialize (H k). rewrite In_upto in H. specialize (H ltac:(lia)).
  unfold name_ok in H. apply andb_true_iff in H. destruct H as [H1 H2].
  destruct (semitone_name k) as (name & Hn & Hs).
  exists name. destruct (name_of (JS.of_Z k)) as [n|]; [|discriminate].
  apply String.eqb_eq in H1. split; [congruence|]. split; [exact Hn|].
  apply FloatAxioms.Leibniz.eqb_spec in H2. exact H2.
Qed.

Section Builtins.

Variable Math_log2 : float -> float.

(** X16.  [frequencyToNote] on a positive finite frequency for which the
    engine's [Math.log2(frequency / 440)] is a number [l] in
    [[-128, 128]]: the result is never [null]; with [k] the whole number
    nearest to [12 * l], the note is the name at index [(k + 9) mod 12]
    (never [undefined]), the octave is [floor((k + 9) / 12) + 4], and the
    cents are a whole number from -50 to 50. *)
Theorem frequencyToNote_defined :
  forall (f : float),
    (0 <? f) = true -> is_finite f = true ->
    (-128 <=? Math_log2 (f / 440)) = true ->
    (Math_log2 (f / 440) <=? 128) = true ->
    exists r k z name,
      frequencyToNote Math_log2 f = Some r
      /\ frequency r = f
      /\ whole (JS.Math_round (12 * Math_log2 (f / 440))) k
      /\ note r = Some name
      /\ nth_error NOTE_NAMES (Z.to_nat ((k + 9) mod 12)) = Some name
      /\ octave r = JS.of_Z ((k + 9) / 12 + 4)
      /\ whole (cents r) z /\ (-50 <= z <= 50)%Z.
Proof.
  intros f Hpos Hfin Hlo Hhi.
  assert (Hle : (f <=? 0) = false).
  { apply ltb_frank in Hpos. destruct Hpos as (_ & Nf & Hpos).
    destruct (f <=? 0) eqn:E; [|reflexivity].
    apply leb_frank in E. lia. }
  rewrite (frequencyToNote_unfold Math_log2 f Hle Hfin).
  set (l := Math_log2 (f / 440)) in *.
  assert (E53 : (2 ^ 53 = 9007199254740992)%Z) by reflexivity.
  assert (E50 : (2 ^ 50 = 1125899906842624)%Z) by reflexivity.
  pose proof unit_pos as U.
  destruct (between_whole l (-128) 128 ltac:(lia) ltac:(lia) Hlo Hhi)
    as [Fl Rl].
  (* the semitones *)
  assert (F12 : finite 12) by exact I.
  assert (R12 : frank 12 = (12 * 2 ^ 1074)%Z)
    by (apply (frank_of_Z 12); lia).
  destruct (mul_abs_upper 12 l (JS.of_Z 1536) F12 Fl) as [Fs Rs].
  { apply amount_of_Z. lia. }
  { rewrite R12, frank_of_Z by lia.
    clear - Rl U. generalize dependent (frank l).
    generalize dependent (2 ^ 1074)%Z. intros. nia. }
  rewrite frank_of_Z in Rs by lia.
  destruct (Math_round_any (12 * l) 1536 Fs ltac:(lia) Rs)
    as (k & Hk & Wk & Bk).
  destruct (whole_frank _ k Wk ltac:(lia)) as [FR RR].
  (* the cents *)
  assert (Eu : (2 ^ 1074 = 2 * 2 ^ 1073)%Z)
    by (rewrite <- Z.pow_succ_r by lia; reflexivity).
  assert (Ah : amount 0.5) by exact I.
  assert (Rh : frank 0.5 = (2 ^ 1073)%Z)
    by (apply (frank_pow2 0.5 (-1) eq_refl); lia).
  destruct (sub_abs_upper (12 * l) (JS.Math_round (12 * l)) 0.5 Fs FR Ah)
    as [Fd Rd].
  { rewrite RR, Rh, Eu. clear - Bk.
    generalize dependent (frank (12 * l)).
    generalize dependent (2 ^ 1073)%Z. intros. lia. }
  rewrite Rh in Rd.
  assert (F100 : finite 100) by exact I.
  assert (R100 : frank 100 = (100 * 2 ^ 1074)%Z)
    by (apply (frank_of_Z 100); lia).
  destruct (mul_abs_upper (12 * l - JS.Math_round (12 * l)) 100
                          (JS.of_Z 50) Fd F100) as [Fc Rc].
  { apply amount_of_Z. lia. }
  { rewrite R100, frank_of_Z, Eu by lia.
    assert (Ph : (0 < 2 ^ 1073)%Z) by (apply Z.pow_pos_nonneg; lia).
    clear - Rd Ph.
    generalize dependent (frank (12 * l - JS.Math_round (12 * l))).
    generalize dependent (2 ^ 1073)%Z. intros. nia. }
  rewrite frank_of_Z in Rc by lia.
  destruct (Math_round_any _ 50 Fc ltac:(lia) Rc) as (z & Hz & Wz & _).
  (* the name and the octave *)
  destruct (name_of_whole _ k Wk Hk) as (name & Hname & Hnth & Hoct).
  exists (note_from_log2 f l), k, z, name.
  split; [reflexivity|]. split; [reflexivity|]. split; [exact Wk|].
  split; [exact Hname|]. split; [exact Hnth|]. split; [exact Hoct|].
  split; [exact Wz|exact Hz].
Qed.

(** X17.  A positive frequency so small that [frequency / 440] is rounded
    to zero is not rejected: with [Math.log2(0) = -Infinity], as
    ECMAScript defines it, the result has no note ([undefined]), the
    octave [-Infinity] and [NaN] cents. *)
Theorem frequencyToNote_underflow :
  forall (f : float),
    (0 <? f) = true -> f / 440 = 0 -> Math_log2 0 = neg_infinity ->
    frequencyToNote Math_log2 f
    = Some {| frequency := f; note := None; octave := neg_infinity;
              cents := nan |}.
Proof.
  intros f Hpos Hq Hlog.
  assert (Hle : (f <=? 0) = false).
  { apply ltb_frank in Hpos. destruct Hpos as (_ & Nf & Hpos).
    destruct (f <=? 0) eqn:E; [|reflexivity].
    apply leb_frank in E. lia. }
  assert (Hfin : is_finite f = true).
  { unfold is_finite, is_infinity, is_nan.
    assert (Hq' : Prim2SF (f / 440) = S754_zero false)
      by (rewrite Hq; reflexivity).
    rewrite div_spec in Hq'.
    rewrite ltb_spec in Hpos. change (Prim2SF 0) with (S754_zero false) in Hpos.
    rewrite !eqb_spec, abs_spec.
    change (Prim2SF infinity) with (S754_infinity false).
    destruct (Prim2SF f) as [s|s| |s m e]; try discriminate.
    destruct s; [discriminate|].
    unfold SFeqb, SFcompare. cbn [SFabs].
    rewrite Z.compare_refl, Pos.compare_cont_refl. reflexivity. }
  rewrite (frequencyToNote_unfold Math_log2 f Hle Hfin), Hq, Hlog.
  reflexivity.
Qed.

End Builtins.

Lemma frequencyToNote_defined_witness :
  (0 <? 452) = true /\ is_finite 452 = true
  /\ exists r k z name,
       frequencyToNote Engine.Math_log2 452 = Some r
       /\ frequency r = 452
       /\ whole (JS.Math_round (12 * Engine.Math_log2 (452 / 440))) k
       /\ note r = Some name
       /\ nth_error NOTE_NAMES (Z.to_nat ((k + 9) mod 12)) = Some name
       /\ octave r = JS.of_Z ((k + 9) / 12 + 4)
       /\ whole (cents r) z /\ (-50 <= z <= 50)%Z.
Proof.
  split; [reflexivity|]. split; [reflexivity|].
  apply (frequencyToNote_defined Engine.Math_log2 452);
    vm_compute; reflexivity.
Defined.

Lemma frequencyToNote_underflow_witness :
  (0 <? 0x1p-1074) = true /\ 0x1p-1074 / 440 = 0
  /\ frequencyToNote (fun x => if is_zero x then neg_infinity
                               else Engine.Math_log2 x) 0x1p-1074
     = Some {| frequency := 0x1p-1074; note := None;
               octave := neg_infinity; cents := nan |}.
Proof.
  split; [reflexivity|]. split; [reflexivity|].
  apply (frequencyToNote_underflow
           (fun x => if is_zero x then neg_infinity else Engine.Math_log2 x)
           0x1p-1074); reflexivity.
Defined.

End NoteDefined.

(** ** Sessions of [detectBeat] *)

Module BeatSession.

Import MoreProps OrderProps LevelProps SpectrumProps BandProps SessionProps.
Import Loops Rounding FloatFacts Scan Comparison Order Beat BeatQueue.
Import RoundBounds BandMeans LevelRange BassRange.
Local Open Scope float_scope.

Lemma nan_add_l (x : float) : nan + x = nan.
Proof.
  apply Prim2SF_inj. rewrite add_spec. reflexivity.
Qed.

Lemma nan_add_r (x : float) : x + nan = nan.
Proof.
  apply Prim2SF_inj. rewrite add_spec.
  change (Prim2SF nan) with S754_nan. destruct (Prim2SF x); reflexivity.
Qed.

Lemma nan_div (x : float) : nan / x = nan.
Proof. apply Prim2SF_inj. rewrite div_spec. reflexivity. Qed.

Lemma nan_mul (x : float) : nan * x = nan.
Proof. apply Prim2SF_inj. rewrite mul_spec. reflexivity. Qed.

Lemma sum_nan (l : list float) : fold_left (fun a b => a + b) l nan = nan.
Proof.
  induction l as [|x l IH]; [reflexivity|].
  cbn [fold_left]. rewrite nan_add_l. exact IH.
Qed.

(** One [NaN] makes the sum [NaN]. *)
Lemma sum_with_nan (l : list float) (acc : float) :
  In nan l -> fold_left (fun a b => a + b) l acc = nan.
Proof.
  revert acc. induction l as [|x l IH]; intros acc; [intros []|].
  intros [->|H]; cbn [fold_left].
  - rewrite nan_add_r. apply sum_nan.
  - now apply IH.
Qed.

Lemma history_after (calls : list call) (frequencyData : list Z)
      (sensitivity : float) :
  snd (detectBeat (run calls) frequencyData sensitivity)
  = lastn 43 (energies (calls ++ [DetectBeat frequencyData sensitivity])).
Proof.
  unfold run, energies. rewrite !fold_left_app. cbn [fold_left].
  cbn [run_call energies_step detectBeat snd].
  rewrite (run_energies calls [] []) by reflexivity.
  apply push_energy_lastn.
Qed.

(** X18.  A [NaN] energy silences the detector for as long as it stays in
    the history: whenever one of the last 43 energies since the last
    reset, the current one included, is [NaN] (a spectrum of fewer than
    10 bins gives one), the average is [NaN] and no beat is reported,
    whatever the spectrum and the sensitivity are. *)
Theorem nan_silences_beats :
  forall (calls : list call) (frequencyData : list Z) (sensitivity : float),
    In nan (lastn 43
              (energies (calls ++ [DetectBeat frequencyData sensitivity]))) ->
    let info := fst (detectBeat (run calls) frequencyData sensitivity) in
    averageEnergy info = nan /\ isBeat info = false.
Proof.
  intros calls frequencyData sensitivity Hin.
  rewrite <- history_after in Hin.
  cbn [detectBeat fst snd averageEnergy isBeat] in *.
  assert (E : average (push_energy (run calls) (bassEnergy frequencyData))
              = nan).
  { unfold average. rewrite sum_with_nan by exact Hin. apply nan_div. }
  rewrite E. split; [reflexivity|].
  rewrite nan_mul, ltb_nan_l. reflexivity.
Qed.

Lemma nan_silences_beats_witness :
  let calls := [DetectBeat [200; 200; 200]%Z default_sensitivity;
                DetectBeat (bass_only 20) default_sensitivity] in
  let info := fst (detectBeat (run calls) (bass_only 255)
                              default_sensitivity) in
  energy info = 255 /\ averageEnergy info = nan /\ isBeat info = false.
Proof.
  split; [reflexivity|].
  apply (nan_silences_beats
           [DetectBeat [200; 200; 200]%Z default_sensitivity;
            DetectBeat (bass_only 20) default_sensitivity]
           (bass_only 255) default_sensitivity).
  vm_compute. left. reflexivity.
Defined.

(** *** Sessions on measurable spectra *)

(** The sum of amounts of at most 255 each. *)
Lemma sum_levels (l : list float) (acc : float) (k : Z) :
  Forall (fun e => amount e /\ (frank e <= 255 * 2 ^ 1074)%Z) l ->
  amount acc -> (0 <= k)%Z -> (k + length l < 2 ^ 32)%Z ->
  (frank acc <= 255 * k * 2 ^ 1074)%Z ->
  amount (fold_left (fun a b => a + b) l acc)
  /\ (frank (fold_left (fun a b => (a + b)%float) l acc)
      <= 255 * (k + length l) * 2 ^ 1074)%Z.
Proof.
  intros Hl. revert acc k.
  induction Hl as [|e l [Ae Ue] Hl IH]; intros acc k Ha Hk Hlen Hacc.
  - cbn [fold_left]. unfold length. cbn [List.length].
    rewrite Z.add_0_r. split; assumption.
  - cbn [fold_left].
    assert (Hl1 : length (e :: l) = (length l + 1)%Z)
      by (unfold length; cbn [List.length]; lia).
    assert (Hl0 : (0 <= length l)%Z) by (unfold length; lia).
    rewrite Hl1 in *.
    assert (E32 : (2 ^ 32 = 4294967296)%Z) by reflexivity.
    assert (E53 : (2 ^ 53 = 9007199254740992)%Z) by reflexivity.
    destruct (add_upper acc e (JS.of_Z (255 * (k + 1)))) as [Aa Ua];
      try assumption.
    { apply amount_of_Z. lia. }
    { rewrite frank_of_Z by lia. lia. }
    rewrite frank_of_Z in Ua by lia.
    destruct (IH (acc + e) (k + 1)%Z Aa ltac:(lia) ltac:(lia) Ua) as [Ar Ur].
    split; [exact Ar|].
    replace (k + (length l + 1))%Z with (k + 1 + length l)%Z by lia.
    exact Ur.
Qed.

Lemma Forall_tl {A : Type} (P : A -> Prop) (l : list A) :
  Forall P l -> Forall P (tl l).
Proof. intros H. destruct H; [constructor|assumption]. Qed.

Lemma push_levels (P : float -> Prop) (h : list float) (e : float) :
  Forall P h -> P e -> Forall P (push_energy h e).
Proof.
  intros Hh He. unfold push_energy.
  assert (H : Forall P (h ++ [e])).
  { apply Forall_app. split; [exact Hh|]. constructor; [exact He|constructor]. }
  destruct (HISTORY_SIZE <? length (h ++ [e]))%Z; [now apply Forall_tl|exact H].
Qed.

Lemma run_levels (calls : list call) (h : list float) :
  Forall measurable_call calls ->
  Forall (fun e => amount e /\ (frank e <= 255 * 2 ^ 1074)%Z) h ->
  Forall (fun e => amount e /\ (frank e <= 255 * 2 ^ 1074)%Z)
         (fold_left run_call calls h).
Proof.
  intros Hc. revert h.
  induction Hc as [|c calls Hc Hcs IH]; intros h Hh; [exact Hh|].
  cbn [fold_left]. apply IH.
  destruct c as [frequencyData sensitivity|].
  - cbn [run_call detectBeat snd]. apply push_levels; [exact Hh|].
    destruct Hc as [Hb Hlen].
    destruct (bassEnergy_amount frequencyData Hb Hlen) as (_ & A & U).
    split; assumption.
  - constructor.
Qed.

(** X19.  In a session in which every spectrum is measurable (bytes, in
    at least 10 and fewer than [2^32] bins), every call reports an energy
    and an average energy in [[0, 255]]: no [NaN] ever enters the
    history. *)
Theorem session_levels :
  forall (calls : list call) (frequencyData : list Z) (sensitivity : float),
    Forall measurable_call calls -> measurable frequencyData ->
    let info := fst (detectBeat (run calls) frequencyData sensitivity) in
    (0 <=? energy info) = true /\ (energy info <=? 255) = true
    /\ (0 <=? averageEnergy info) = true
    /\ (averageEnergy info <=? 255) = true.
Proof.
  intros calls frequencyData sensitivity Hc [Hb Hlen].
  cbn [detectBeat fst energy averageEnergy].
  destruct (bassEnergy_amount frequencyData Hb Hlen) as (_ & A & U).
  destruct (level_range _ A U) as [L1 L2].
  split; [exact L1|]. split; [exact L2|].
  pose proof (run_levels calls [] Hc (Forall_nil _)) as Hh.
  fold (run calls) in Hh.
  pose proof (fold_run_bounded calls [] ltac:(unfold length, HISTORY_SIZE; cbn; lia))
    as Hlen'.
  fold (run calls) in Hlen'.
  set (h := push_energy (run calls) (bassEnergy frequencyData)).
  assert (Hh' : Forall (fun e => amount e /\ (frank e <= 255 * 2 ^ 1074)%Z) h)
    by (apply push_levels; [exact Hh|split; assumption]).
  destruct (push_energy_spec (run calls) (bassEnergy frequencyData) Hlen')
    as [Hb43 Hpush].
  fold h in Hb43, Hpush.
  assert (Hpos : (0 < length h)%Z).
  { rewrite Hpush.
    destruct (length (run calls) <? HISTORY_SIZE)%Z; rewrite length_app1;
      [unfold length|rewrite length_tl; unfold length]; lia. }
  unfold HISTORY_SIZE in Hb43.
  assert (E32 : (2 ^ 32 = 4294967296)%Z) by reflexivity.
  assert (E53 : (2 ^ 53 = 9007199254740992)%Z) by reflexivity.
  destruct (sum_levels h 0 0 Hh' I (Z.le_refl 0) ltac:(lia)) as [As Us].
  { change (frank 0) with 0%Z. lia. }
  rewrite Z.add_0_l in Us.
  destruct (positive_of_Z (length h)) as (m & e & En); [lia|].
  assert (A255 : amount 255) by exact I.
  assert (F255 : frank 255 = (255 * 2 ^ 1074)%Z)
    by (apply (frank_of_Z 255); lia).
  pose proof unit_pos as Up.
  unfold average.
  destruct (div_upper (fold_left (fun a b => a + b) h 0) (JS.of_Z (length h))
                      255 m e As En A255) as [Aq Uq].
  { rewrite F255, frank_of_Z by lia.
    clear - Us Up. generalize dependent (2 ^ 1074)%Z. intros. nia. }
  rewrite F255 in Uq. now apply level_range.
Qed.

Lemma session_levels_witness :
  let calls := [DetectBeat (repeat 200%Z 20) default_sensitivity;
                ResetBeatDetection;
                DetectBeat (repeat 7%Z 35) default_sensitivity] in
  Forall measurable_call calls /\ measurable (repeat 255%Z 10)
  /\ let info := fst (detectBeat (run calls) (repeat 255%Z 10)
                                 default_sensitivity) in
     (0 <=? energy info) = true /\ (energy info <=? 255) = true
     /\ (0 <=? averageEnergy info) = true
     /\ (averageEnergy info <=? 255) = true.
Proof.
  assert (M1 : measurable (repeat 200%Z 20)).
  { split; [repeat constructor; lia|split; [discriminate|reflexivity]]. }
  assert (M2 : measurable (repeat 7%Z 35)).
  { split; [repeat constructor; lia|split; [discriminate|reflexivity]]. }
  assert (M3 : measurable (repeat 255%Z 10)).
  { split; [repeat constructor; lia|split; [discriminate|reflexivity]]. }
  assert (C : Forall measurable_call
                [DetectBeat (repeat 200%Z 20) default_sensitivity;
                 ResetBeatDetection;
                 DetectBeat (repeat 7%Z 35) default_sensitivity])
    by (constructor; [exact M1|constructor;
          [exact I|constructor; [exact M2|constructor]]]).
  split; [exact C|]. split; [exact M3|].
  exact (session_levels _ (repeat 255%Z 10) default_sensitivity C M3).
Defined.

End BeatSession.

(** ** Exact results and bounds of either sign *)

Module ExactBounds.

Import OrderProps LevelProps NoteProps.
Import Loops Rounding FloatFacts Scan Comparison Order.
Import RoundBounds BandMeans LevelRange BassRange SignedBounds.

Lemma valid_opp (b : spec_float) :
  valid_binary (SFopp b) = valid_binary b.
Proof. destruct b; reflexivity. Qed.

Lemma finite_opp (b : spec_float) : finite_or_zero b -> finite_or_zero (SFopp b).
Proof. destruct b; cbn; auto. Qed.

Lemma normalize_opp (p : positive) (e : Z) :
  binary_normalize prec emax (Zneg p) e false
  = SFopp (binary_normalize prec emax (Zpos p) e false).
Proof.
  cbn [binary_normalize]. unfold binary_round.
  destruct (shl_align p e _) as [mz ez]. apply round_aux_sign.
Qed.

Lemma normalize_pos_shape (p : positive) (e : Z) (b : spec_float) :
  valid_binary b = true -> finite_or_zero b -> -1074 <= e ->
  Zpos p * 2 ^ (e + 1074) <= rank b ->
  finite_or_zero (binary_normalize prec emax (Zpos p) e false).
Proof.
  intros V Fb He H.
  destruct (normalize_upper (Zpos p) e b V Fb ltac:(lia) He H) as [_ Hs].
  destruct (binary_normalize prec emax (Zpos p) e false) as [[|]|[|]| |[|] m' e'];
    try contradiction; exact I.
Qed.

Lemma normalize_pos_rank (p : positive) (e : Z) :
  -1074 <= e -> 0 <= rank (binary_normalize prec emax (Zpos p) e false).
Proof.
  intros He.
  apply (normalize_lower (Zpos p) e (S754_zero false)); try reflexivity;
    try exact I; try lia.
  cbn [rank scaled].
  apply Z.mul_nonneg_nonneg; [lia|apply Z.pow_nonneg; lia].
Qed.

(** The rounding of [n * 2^e], for [n] of either sign, stays between any
    two numbers of the format that the exact value lies between. *)
Lemma normalize_between (n e : Z) (lo hi : spec_float) :
  valid_binary lo = true -> finite_or_zero lo ->
  valid_binary hi = true -> finite_or_zero hi ->
  -1074 <= e ->
  rank lo <= n * 2 ^ (e + 1074) <= rank hi ->
  finite_or_zero (binary_normalize prec emax n e false)
  /\ rank lo <= rank (binary_normalize prec emax n e false) <= rank hi.
Proof.
  intros Vl Fl Vh Fh He [Hlo Hhi].
  assert (P : 0 < 2 ^ (e + 1074)) by (apply Z.pow_pos_nonneg; lia).
  destruct n as [|p|p].
  - cbn [binary_normalize rank scaled]. rewrite Z.mul_0_l in *.
    split; [exact I|]. split; assumption.
  - split; [apply (normalize_pos_shape p e hi); assumption|]. split.
    + apply normalize_lower; try assumption; lia.
    + apply normalize_upper; try assumption; lia.
  - rewrite normalize_opp, rank_opp.
    assert (Hlo' : Zpos p * 2 ^ (e + 1074) <= rank (SFopp lo)).
    { rewrite rank_opp. clear - Hlo. generalize dependent (2 ^ (e + 1074)).
      intros. lia. }
    assert (Hhi' : rank (SFopp hi) <= Zpos p * 2 ^ (e + 1074)).
    { rewrite rank_opp. clear - Hhi. generalize dependent (2 ^ (e + 1074)).
      intros. lia. }
    pose proof (normalize_pos_shape p e (SFopp lo)
                  ltac:(now rewrite valid_opp) (finite_opp _ Fl) He Hlo') as Hs.
    destruct (normalize_upper (Zpos p) e (SFopp lo)
                ltac:(now rewrite valid_opp) (finite_opp _ Fl) ltac:(lia) He Hlo')
      as [Hu _].
    pose proof (normalize_lower (Zpos p) e (SFopp hi)
                  ltac:(now rewrite valid_opp) (finite_opp _ Fh) ltac:(lia) He Hhi')
      as Hl.
    rewrite rank_opp in Hu, Hl.
    split; [now apply finite_opp|]. lia.
Qed.

(** The aligned mantissas of the two operands of a sum or a difference. *)
Lemma aligned (sx : bool) (mx : positive) (ex ey : Z) :
  -1074 <= ex -> -1074 <= ey ->
  cond_Zopp sx (Zpos (fst (shl_align mx ex (Z.min ex ey))))
  * 2 ^ (Z.min ex ey + 1074)
  = rank (S754_finite sx mx ex).
Proof.
  intros Hx Hy.
  destruct (shl_align_value mx ex (Z.min ex ey) ltac:(lia)) as [H _].
  rewrite H. cbn [rank scaled]. rewrite !cond_Zopp_mul.
  rewrite <- Z.mul_assoc, <- Z.pow_add_r by lia.
  do 3 f_equal. lia.
Qed.

(** A difference stays between any two numbers that the exact difference
    lies between. *)
Lemma sub_between (x y lo hi : float) :
  finite x -> finite y -> finite lo -> finite hi ->
  frank lo <= frank x - frank y <= frank hi ->
  finite (x - y) /\ frank lo <= frank (x - y) <= frank hi.
Proof.
  intros Fx Fy Fl Fh H.
  pose proof (Prim2SF_valid x) as Vx. pose proof (Prim2SF_valid y) as Vy.
  pose proof (Prim2SF_valid lo) as Vl. pose proof (Prim2SF_valid hi) as Vh.
  unfold finite, frank in *. rewrite sub_spec.
  destruct (Prim2SF x) as [sx|sx| |sx mx ex]; try contradiction;
    destruct (Prim2SF y) as [sy|sy| |sy my ey]; try contradiction;
    unfold SF64sub; cbn [SFsub].
  - split; [destruct sx, sy; exact I|].
    destruct sx, sy; cbn [rank scaled] in *; lia.
  - split; [exact I|]. cbn [rank scaled] in *.
    destruct sy; cbn [negb cond_Zopp] in *; lia.
  - split; [exact I|]. cbn [rank scaled] in *. lia.
  - pose proof (valid_range _ _ _ Vx) as [Rx _].
    pose proof (valid_range _ _ _ Vy) as [Ry _].
    apply normalize_between; try assumption; [lia|].
    rewrite Z.mul_sub_distr_r.
    rewrite (aligned sx mx ex ey), (Z.min_comm ex ey), (aligned sy my ey ex)
      by lia.
    exact H.
Qed.

(** A sum stays between any two numbers that the exact sum lies
    between. *)
Lemma add_between (x y lo hi : float) :
  finite x -> finite y -> finite lo -> finite hi ->
  frank lo <= frank x + frank y <= frank hi ->
  finite (x + y) /\ frank lo <= frank (x + y) <= frank hi.
Proof.
  intros Fx Fy Fl Fh H.
  pose proof (Prim2SF_valid x) as Vx. pose proof (Prim2SF_valid y) as Vy.
  pose proof (Prim2SF_valid lo) as Vl. pose proof (Prim2SF_valid hi) as Vh.
  unfold finite, frank in *. rewrite add_spec.
  destruct (Prim2SF x) as [sx|sx| |sx mx ex]; try contradiction;
    destruct (Prim2SF y) as [sy|sy| |sy my ey]; try contradiction;
    unfold SF64add; cbn [SFadd].
  - split; [destruct sx, sy; exact I|].
    destruct sx, sy; cbn [rank scaled] in *; lia.
  - split; [exact I|]. cbn [rank scaled] in *. lia.
  - split; [exact I|]. cbn [rank scaled] in *. lia.
  - pose proof (valid_range _ _ _ Vx) as [Rx _].
    pose proof (valid_range _ _ _ Vy) as [Ry _].
    apply normalize_between; try assumption; [lia|].
    rewrite Z.mul_add_distr_r.
    rewrite (aligned sx mx ex ey), (Z.min_comm ex ey), (aligned sy my ey ex)
      by lia.
    exact H.
Qed.

(** *** Exact results *)

(** A mantissa below [2^53] at an exponent of the format is stored as it
    is. *)
Lemma normalize_pos_exact (p : positive) (e : Z) :
  Zpos p < 2 ^ 53 -> -1074 <= e <= 971 ->
  exists mz ez,
    binary_normalize prec emax (Zpos p) e false = S754_finite false mz ez
    /\ valid_binary (S754_finite false mz ez) = true
    /\ Zpos mz * 2 ^ (ez + 1074) = Zpos p * 2 ^ (e + 1074).
Proof.
  intros Hp He.
  pose proof (digits_bounds p) as B.
  set (d := Zpos (digits2_pos p)) in *.
  assert (Hd : 1 <= d <= 53).
  { split; [unfold d; lia|].
    destruct (Z.le_gt_cases d 53); [assumption|].
    assert (2 ^ 53 <= 2 ^ (d - 1)) by (apply Z.pow_le_mono_r; lia). lia. }
  cbn [binary_normalize]. unfold binary_round. fold d. rewrite fexp_eq.
  set (F := Z.max (d + e - 53) (-1074)).
  assert (HF : -1074 <= F <= e) by (unfold F; lia).
  destruct (shl_align_value p e F ltac:(lia)) as [Hv Hz].
  destruct (shl_align p e F) as [mz ez]. cbn [fst snd] in *. subst ez.
  assert (Hdz : Zpos (digits2_pos mz) = d + (e - F)).
  { apply digits_unique. rewrite Hv.
    replace (d + (e - F) - 1) with ((d - 1) + (e - F)) by lia.
    rewrite !Z.pow_add_r by lia.
    assert (0 < 2 ^ (e - F)) by (apply Z.pow_pos_nonneg; lia).
    clear - B H. generalize dependent (2 ^ (e - F)).
    generalize dependent (2 ^ (d - 1)). generalize dependent (2 ^ d).
    intros. nia. }
  assert (V : valid_binary (S754_finite false mz F) = true).
  { unfold valid_binary, bounded, canonical_mantissa.
    rewrite Hdz, fexp_eq. apply andb_true_iff. split.
    - apply Z.eqb_eq. unfold F. lia.
    - apply Z.leb_le. change (emax - prec) with 971. lia. }
  exists mz, F. split; [now apply round_canonical|]. split; [exact V|].
  rewrite Hv, <- Z.mul_assoc, <- Z.pow_add_r by lia. do 2 f_equal. lia.
Qed.

(** Every [n * 2^e] with [|n| < 2^53] and [e] an exponent of the format
    is a number. *)
Lemma representable (n e : Z) :
  Z.abs n < 2 ^ 53 -> -1074 <= e <= 971 ->
  exists f, finite f /\ frank f = n * 2 ^ (e + 1074)
            /\ (0 <= n -> amount f).
Proof.
  intros Hn He. destruct n as [|p|p].
  - exists zero. repeat split.
  - destruct (normalize_pos_exact p e ltac:(lia) He) as (mz & ez & _ & V & Hv).
    exists (SF2Prim (S754_finite false mz ez)).
    unfold finite, frank, amount. rewrite (Prim2SF_SF2Prim _ V).
    split; [exact I|]. split; [exact Hv|]. intros _. exact I.
  - destruct (normalize_pos_exact p e ltac:(lia) He) as (mz & ez & _ & V & Hv).
    exists (SF2Prim (S754_finite true mz ez)).
    assert (V' : valid_binary (S754_finite true mz ez) = true) by exact V.
    unfold finite, frank, amount. rewrite (Prim2SF_SF2Prim _ V').
    split; [exact I|]. split; [|lia].
    cbn [rank scaled cond_Zopp]. rewrite Z.mul_opp_l, Hv.
    change (Zneg p) with (- Zpos p). now rewrite Z.mul_opp_l.
Qed.

(** The difference of two amounts within a factor 2 of each other is
    exact. *)
Lemma sub_exact (x y : float) :
  amount x -> amount y ->
  frank x <= 2 * frank y -> frank y <= 2 * frank x ->
  finite (x - y) /\ frank (x - y) = frank x - frank y.
Proof.
  intros Ax Ay H1 H2.
  pose proof (amount_rank x Ax) as X0. pose proof (amount_rank y Ay) as Y0.
  assert (Hex : exists f, finite f /\ frank f = frank x - frank y).
  { pose proof (Prim2SF_valid x) as Vx. pose proof (Prim2SF_valid y) as Vy.
    unfold amount, frank in *.
    destruct (Prim2SF x) as [[|]|[|]| |[|] mx ex]; try contradiction;
      destruct (Prim2SF y) as [[|]|[|]| |[|] my ey]; try contradiction;
      cbn [rank scaled cond_Zopp] in *.
    - exists zero. repeat split.
    - exfalso. pose proof (valid_range _ _ _ Vy) as [Ry My].
      assert (0 < 2 ^ (ey + 1074)) by (apply Z.pow_pos_nonneg; lia).
      clear - H2 H My. nia.
    - exfalso. pose proof (valid_range _ _ _ Vx) as [Rx Mx].
      assert (0 < 2 ^ (ex + 1074)) by (apply Z.pow_pos_nonneg; lia).
      clear - H1 H Mx. nia.
    - pose proof (valid_range _ _ _ Vx) as [Rx Mx].
      pose proof (valid_range _ _ _ Vy) as [Ry My].
      pose proof (aligned false mx ex ey ltac:(lia) ltac:(lia)) as Px.
      pose proof (aligned false my ey ex ltac:(lia) ltac:(lia)) as Py.
      rewrite (Z.min_comm ey ex) in Py.
      cbn [rank scaled cond_Zopp] in Px, Py.
      destruct (shl_align_value mx ex (Z.min ex ey) ltac:(lia)) as [Hx _].
      destruct (shl_align_value my ey (Z.min ex ey) ltac:(lia)) as [Hy _].
      set (X := Zpos (fst (shl_align mx ex (Z.min ex ey)))) in *.
      set (Y := Zpos (fst (shl_align my ey (Z.min ex ey)))) in *.
      assert (P : 0 < 2 ^ (Z.min ex ey + 1074))
        by (apply Z.pow_pos_nonneg; lia).
      destruct (representable (X - Y) (Z.min ex ey)) as (f & Ff & Ef & _).
      + rewrite <- Px, <- Py in H1, H2.
        assert (Hlt : X < 2 ^ 53 \/ Y < 2 ^ 53).
        { destruct (Z.le_gt_cases ex ey).
          - left. rewrite Hx. replace (ex - Z.min ex ey) with 0 by lia.
            rewrite Z.pow_0_r. lia.
          - right. rewrite Hy. replace (ey - Z.min ex ey) with 0 by lia.
            rewrite Z.pow_0_r. lia. }
        assert (0 < X) by (unfold X; lia).
        assert (0 < Y) by (unfold Y; lia).
        clear - H1 H2 Hlt P H H0.
        generalize dependent (2 ^ (Z.min ex ey + 1074)). intros u. intros.
        assert (X <= 2 * Y) by nia. assert (Y <= 2 * X) by nia. lia.
      + lia.
      + exists f. split; [exact Ff|]. unfold frank in Ef.
        rewrite Ef, Z.mul_sub_distr_r, Px, Py. reflexivity. }
  destruct Hex as (f & Ff & Ef).
  destruct (sub_between x y f f (proj2 (amount_finite x Ax))
                        (proj2 (amount_finite y Ay)) Ff Ff ltac:(lia))
    as [Fs Hs].
  split; [exact Fs|]. lia.
Qed.

(** Twice an amount is exact. *)
Lemma double_exact (x : float) :
  amount x -> frank x < 2 ^ 2000 ->
  amount (2 * x) /\ frank (2 * x) = 2 * frank x.
Proof.
  intros Ax Hx.
  assert (Hex : exists b, amount b /\ frank b = 2 * frank x).
  { pose proof (Prim2SF_valid x) as Vx. unfold amount, frank in *.
    destruct (Prim2SF x) as [[|]|[|]| |[|] mx ex]; try contradiction.
    - exists zero. split; [exact I|reflexivity].
    - pose proof (valid_range _ _ _ Vx) as [Rx Mx].
      cbn [rank scaled cond_Zopp] in *.
      assert (ex + 1 <= 971).
      { destruct (Z.le_gt_cases (ex + 1) 971); [assumption|exfalso].
        assert (2 ^ 2000 <= 2 ^ (ex + 1074))
          by (clear - H; apply Z.pow_le_mono_r; lia).
        assert (0 < 2 ^ (ex + 1074))
          by (clear - Rx; apply Z.pow_pos_nonneg; lia).
        clear - Hx H0 H1 Mx. generalize dependent (2 ^ (ex + 1074)).
        generalize dependent (2 ^ 2000). intros. nia. }
      destruct (representable (Zpos mx) (ex + 1)) as (b & _ & Eb & Ab);
        [lia|lia|].
      exists b. split; [apply Ab; lia|]. unfold frank in Eb. rewrite Eb.
      replace (ex + 1 + 1074) with (Z.succ (ex + 1074)) by lia.
      rewrite Z.pow_succ_r by lia. ring. }
  destruct Hex as (b & Ab & Eb).
  assert (A2 : amount 2) by exact I.
  assert (F2 : frank 2 = 2 * 2 ^ 1074) by (apply (frank_of_Z 2); lia).
  destruct (mul_upper 2 x b A2 Ax Ab) as [Am Um].
  { rewrite F2, Eb. generalize (2 ^ 1074). intros. lia. }
  pose proof (mul_lower 2 x b A2 Ax Ab) as Lm.
  split; [exact Am|]. rewrite <- Eb.
  apply Z.le_antisymm; [exact Um|apply Lm].
  rewrite F2, Eb. generalize (2 ^ 1074). intros. lia.
Qed.

(** Half an amount, rounded up to a number. *)
Lemma half_exists (x : float) :
  amount x ->
  exists h, amount h /\ frank x <= 2 * frank h <= frank x + 1.
Proof.
  intros Ax. pose proof (Prim2SF_valid x) as Vx. unfold amount, frank in *.
  destruct (Prim2SF x) as [[|]|[|]| |[|] mx ex]; try contradiction.
  - exists zero. split; [exact I|]. cbn. lia.
  - pose proof (valid_range _ _ _ Vx) as [Rx Mx].
    cbn [rank scaled cond_Zopp] in *.
    destruct (Z.eq_dec ex (-1074)) as [->|Hne].
    + destruct (representable ((Zpos mx + 1) / 2) (-1074))
        as (h & _ & Eh & Ah).
      * assert (0 <= (Zpos mx + 1) / 2) by (apply Z.div_pos; lia).
        assert ((Zpos mx + 1) / 2 < 2 ^ 53).
        { apply Z.div_lt_upper_bound; lia. }
        lia.
      * lia.
      * exists h. split; [apply Ah; apply Z.div_pos; lia|].
        unfold frank in Eh. rewrite Eh.
        change (-1074 + 1074) with 0. rewrite Z.pow_0_r, !Z.mul_1_r.
        pose proof (Z.div_mod (Zpos mx + 1) 2 ltac:(lia)).
        pose proof (Z.mod_pos_bound (Zpos mx + 1) 2 ltac:(lia)). lia.
    + destruct (representable (Zpos mx) (ex - 1)) as (h & _ & Eh & Ah);
        [lia|lia|].
      exists h. split; [apply Ah; lia|]. unfold frank in Eh. rewrite Eh.
      replace (ex + 1074) with (Z.succ (ex - 1 + 1074)) by lia.
      rewrite Z.pow_succ_r by lia.
      generalize (2 ^ (ex - 1 + 1074)). intros. lia.
Qed.

(** The powers of 2 of the format. *)
Lemma pow2_exists (k : Z) :
  -1074 <= k <= 971 -> exists c, amount c /\ frank c = 2 ^ (k + 1074).
Proof.
  intros Hk. destruct (representable 1 k) as (c & _ & Ec & Ac);
    [reflexivity|exact Hk|].
  exists c. split; [apply Ac; lia|]. rewrite Ec. lia.
Qed.

(** *** Quotients of either sign *)

Lemma abs_div (x y : float) : abs (x / y) = (abs x / abs y)%float.
Proof.
  apply Prim2SF_inj. rewrite abs_spec, !div_spec, !abs_spec.
  destruct (Prim2SF x) as [sx|sx| |sx mx ex],
           (Prim2SF y) as [sy|sy| |sy my ey]; try reflexivity.
  unfold SF64div. cbn [SFdiv SFabs xorb].
  destruct (SFdiv_core_binary prec emax (Zpos mx) ex (Zpos my) ey)
    as [[q e] l].
  apply round_aux_abs.
Qed.

(** The magnitude of a quotient is bounded by a bound on the exact
    quotient. *)
Lemma div_abs_upper (x y b : float) :
  finite x -> finite y -> frank y <> 0 -> amount b ->
  Z.abs (frank x) * 2 ^ 1074 <= frank b * Z.abs (frank y) ->
  finite (x / y) /\ Z.abs (frank (x / y)) <= frank b.
Proof.
  intros Fx Fy Ny Ab H.
  destruct (amount_abs x Fx) as [Ax Rx].
  destruct (amount_abs y Fy) as [Ay Ry].
  assert (Hy : exists my ey, Prim2SF (abs y) = S754_finite false my ey).
  { unfold amount, frank in *.
    destruct (Prim2SF (abs y)) as [[|]|[|]| |[|] my ey]; try contradiction.
    - exfalso. cbn [rank scaled] in Ry. lia.
    - eauto. }
  destruct Hy as (my & ey & Ey).
  destruct (div_upper (abs x) (abs y) b my ey Ax Ey Ab) as [Ad Ud].
  { rewrite Rx, Ry. exact H. }
  rewrite <- abs_div in Ad, Ud.
  pose proof (finite_of_abs _ Ad) as Fd.
  split; [exact Fd|].
  destruct (amount_abs _ Fd) as [_ Rd]. rewrite <- Rd. exact Ud.
Qed.

(** *** Amounts *)

Lemma amount_pos (x : float) : finite x -> 0 < frank x -> amount x.
Proof.
  unfold finite, frank, amount. pose proof (Prim2SF_valid x) as V.
  destruct (Prim2SF x) as [[|]|[|]| |[|] m e]; try contradiction;
    cbn [rank scaled cond_Zopp]; intros _ H; try exact I; lia.
Qed.

(** An amount above zero is what the claim calls a frequency: finite and
    strictly positive. *)
Lemma amount_frequency (x : float) :
  amount x -> 0 < frank x -> is_finite x = true /\ (0 <? x)%float = true.
Proof.
  intros Ax Hx. split.
  - unfold is_finite, is_nan, is_infinity.
    rewrite !eqb_spec, abs_spec. unfold amount in Ax.
    destruct (Prim2SF x) as [[|]|[|]| |[|] m e]; try contradiction.
    + reflexivity.
    + change (Prim2SF infinity) with (S754_infinity false).
      unfold SFeqb, SFcompare. cbn [SFabs].
      rewrite Z.compare_refl, Pos.compare_cont_refl. reflexivity.
  - apply ltb_frank. split; [discriminate|].
    split; [now apply amount_number|]. exact Hx.
Qed.

End ExactBounds.

(** ** Stores into a [Float32Array]

    [Math.fround] rounds to binary32: 24 bits of precision, exponents of
    the mantissa from -149 to 104. *)

Module Single.

Import OrderProps LevelProps NoteProps YinProps.
Import Loops Rounding FloatFacts Scan Comparison Order.
Import RoundBounds BandMeans LevelRange BassRange SignedBounds ExactBounds.

Lemma fexp24_eq (x : Z) : fexp 24 128 x = Z.max (x - 24) (-149).
Proof. reflexivity. Qed.

(** The bit shifted out last and the bits shifted out before it, after a
    shift by [n >= 1] bits. *)
Lemma shr_bits (n : nat) (M : Z) :
  0 <= M ->
  Nat.iter (S n) shr_1 (Build_shr_record M false false)
  = Build_shr_record (M / 2 ^ Z.of_nat (S n))
                     (Z.odd (M / 2 ^ Z.of_nat n))
                     (negb (M mod 2 ^ Z.of_nat n =? 0)).
Proof.
  intros HM. induction n as [|n IH].
  - cbn [Nat.iter]. rewrite shr_1_nonneg by exact HM.
    change (2 ^ Z.of_nat 1) with 2. change (2 ^ Z.of_nat 0) with 1.
    rewrite Z.div_1_r, Z.mod_1_r. reflexivity.
  - change (Nat.iter (S (S n)) shr_1 (Build_shr_record M false false))
      with (shr_1 (Nat.iter (S n) shr_1 (Build_shr_record M false false))).
    rewrite IH.
    assert (Pn : 0 < 2 ^ Z.of_nat n) by (apply Z.pow_pos_nonneg; lia).
    assert (E1 : 2 ^ Z.of_nat (S n) = 2 ^ Z.of_nat n * 2).
    { rewrite Nat2Z.inj_succ, Z.pow_succ_r by lia. ring. }
    assert (E2 : 2 ^ Z.of_nat (S (S n)) = 2 ^ Z.of_nat (S n) * 2).
    { rewrite (Nat2Z.inj_succ (S n)), Z.pow_succ_r by lia. ring. }
    rewrite shr_1_nonneg by (apply Z.div_pos; lia).
    f_equal.
    + rewrite E2, Z.div_div by lia. reflexivity.
    + rewrite E1.
      rewrite Z.rem_mul_r by lia.
      rewrite Zodd_mod.
      pose proof (Z.mod_pos_bound M (2 ^ Z.of_nat n) Pn) as B1.
      pose proof (Z.mod_pos_bound (M / 2 ^ Z.of_nat n) 2 ltac:(lia)) as B2.
      destruct (Z.eqb_spec ((M / 2 ^ Z.of_nat n) mod 2) 1) as [Ho|Ho];
        destruct (Z.eqb_spec (M mod 2 ^ Z.of_nat n) 0) as [Hz|Hz];
        cbn [negb orb]; symmetry.
      * apply negb_true_iff, Z.eqb_neq. rewrite Ho, Hz. lia.
      * apply negb_true_iff, Z.eqb_neq. rewrite Ho. nia.
      * apply negb_false_iff, Z.eqb_eq.
        assert ((M / 2 ^ Z.of_nat n) mod 2 = 0) by lia. rewrite H, Hz. lia.
      * apply negb_true_iff, Z.eqb_neq.
        assert ((M / 2 ^ Z.of_nat n) mod 2 = 0) by lia. rewrite H. lia.
Qed.

(** Where the bits shifted out lie with respect to the half. *)
Lemma shr_half (M E n : Z) :
  0 <= M -> 0 <= n ->
  let r := fst (shr (shr_record_of_loc M loc_Exact) E n) in
  (2 * (M mod 2 ^ n) < 2 ^ n ->
   loc_of_shr_record r = loc_Exact \/ loc_of_shr_record r = loc_Inexact Lt)
  /\ (2 ^ n < 2 * (M mod 2 ^ n) ->
      round_nearest_even (shr_m r) (loc_of_shr_record r) = shr_m r + 1)
  /\ (2 ^ n = 2 * (M mod 2 ^ n) -> loc_of_shr_record r = loc_Inexact Eq).
Proof.
  intros HM Hn r.
  destruct n as [|p|p]; [| |lia].
  - cbn [shr fst shr_record_of_loc loc_of_shr_record] in *. unfold r.
    rewrite Z.pow_0_r, Z.mod_1_r. cbn [loc_of_shr_record].
    repeat split; intros; try lia. now left.
  - unfold r. cbn [shr fst shr_record_of_loc]. rewrite iter_pos_nat.
    destruct (Pos.to_nat p) as [|k] eqn:Ek; [lia|].
    assert (Ep : Zpos p = Z.of_nat (S k)) by lia.
    rewrite shr_bits by exact HM. rewrite Ep.
    assert (Pk : 0 < 2 ^ Z.of_nat k) by (apply Z.pow_pos_nonneg; lia).
    assert (E1 : 2 ^ Z.of_nat (S k) = 2 ^ Z.of_nat k * 2).
    { rewrite Nat2Z.inj_succ, Z.pow_succ_r by lia. ring. }
    rewrite E1, Z.rem_mul_r by lia. rewrite Zodd_mod.
    pose proof (Z.mod_pos_bound M (2 ^ Z.of_nat k) Pk) as B1.
    pose proof (Z.mod_pos_bound (M / 2 ^ Z.of_nat k) 2 ltac:(lia)) as B2.
    cbn [shr_m loc_of_shr_record].
    destruct (Z.eqb_spec ((M / 2 ^ Z.of_nat k) mod 2) 1) as [Ho|Ho];
      destruct (Z.eqb_spec (M mod 2 ^ Z.of_nat k) 0) as [Hz|Hz];
      cbn [negb loc_of_shr_record round_nearest_even];
      repeat split; intros; try reflexivity; try (now left); try (now right);
        exfalso; nia.
Qed.

(** The second half of [binary_round_aux]: a rounded mantissa [m2] at the
    exponent [F] is stored as it is, renormalised when it reached [2^24],
    and overflows to infinity above the largest exponent. *)
Lemma store24 (m2 F : Z) :
  -149 <= F -> 0 <= m2 <= 2 ^ 24 -> (F = -149 \/ 2 ^ 23 <= m2) ->
  forall R,
    R = (let '(mrs, e) := shr_fexp 24 128 m2 F loc_Exact in
         match shr_m mrs with
         | Z0 => S754_zero false
         | Zpos m => if e <=? 128 - 24 then S754_finite false m e
                     else S754_infinity false
         | Zneg _ => S754_nan
         end) ->
    (R = S754_zero false /\ m2 = 0)
    \/ (exists p e, R = S754_finite false p e
                    /\ F <= e <= 104 /\ Zpos p * 2 ^ (e - F) = m2)
    \/ (R = S754_infinity false
        /\ ((105 <= F /\ 2 ^ 23 <= m2) \/ (F = 104 /\ m2 = 2 ^ 24))).
Proof.
  intros HF Hm Hnorm R ->. unfold shr_fexp.
  destruct m2 as [|q|q]; [| |lia].
  - (* the mantissa rounds to zero *)
    left. cbn [Zdigits2 shr_record_of_loc].
    destruct (fexp 24 128 (0 + F) - F) eqn:E2.
    + cbn. auto.
    + rewrite fexp24_eq in E2. lia.
    + cbn. auto.
  - right. cbn [Zdigits2 shr_record_of_loc].
    pose proof (digits_bounds q) as [Qlo Qhi].
    set (dq := Zpos (digits2_pos q)) in *.
    destruct (Z.eq_dec (Zpos q) (2 ^ 24)) as [Q24|Q24].
    + (* the mantissa rounded up to the next binade *)
      assert (Hdq : dq = 25).
      { unfold dq. apply digits_unique. rewrite Q24.
        change (25 - 1) with 24. split; [lia|].
        apply Z.pow_lt_mono_r; lia. }
      rewrite fexp24_eq, Hdq.
      replace (Z.max (25 + F - 24) (-149) - F) with 1 by lia.
      cbn [shr iter_pos fst snd].
      assert (Eq24 : q = 16777216%positive)
        by (apply Pos2Z.inj; exact Q24).
      rewrite Eq24. cbn [shr_1 shr_m].
      change (128 - 24) with 104.
      destruct (Z.leb_spec (F + 1) 104) as [Hle|Hgt].
      * left. exists 8388608%positive, (F + 1).
        split; [reflexivity|]. split; [lia|].
        replace (F + 1 - F) with 1 by lia. reflexivity.
      * right. split; [reflexivity|].
        destruct (Z.eq_dec F 104) as [->|]; [right; auto|left].
        split; [lia|]. clear. lia.
    + assert (Hdq : dq <= 24).
      { destruct (Z.le_gt_cases dq 24) as [|Hgt]; [assumption|exfalso].
        assert (2 ^ 24 <= 2 ^ (dq - 1)) by (apply Z.pow_le_mono_r; lia).
        lia. }
      assert (Hs : fexp 24 128 (dq + F) - F <= 0)
        by (rewrite fexp24_eq; lia).
      assert (Hsh : forall r, shr r F (fexp 24 128 (dq + F) - F) = (r, F)).
      { intros r. destruct (fexp 24 128 (dq + F) - F); try reflexivity.
        lia. }
      rewrite Hsh. cbn [shr_m].
      change (128 - 24) with 104.
      destruct (Z.leb_spec F 104) as [Hle|Hgt].
      * left. exists q, F. split; [reflexivity|]. split; [lia|].
        rewrite Z.sub_diag. lia.
      * right. split; [reflexivity|]. left. split; [lia|].
        destruct Hnorm as [|Hn]; lia.
Qed.

(** What [binary_round_aux] returns for a mantissa [M] at an exponent [E]
    that is not above the exponent [F] of the format at that magnitude: the
    mantissa [M / 2^(F - E)] or the next one, at [F]. *)
Lemma round24_value (M : Z) (E : Z) (l : location) :
  let F := fexp 24 128 (Zdigits2 M + E) in
  let R := binary_round_aux 24 128 false M E l in
  0 <= M -> E <= F ->
  exists m2 : Z,
    M / 2 ^ (F - E) <= m2 <= M / 2 ^ (F - E) + 1
    /\ (l = loc_Exact -> M mod 2 ^ (F - E) = 0 -> m2 = M / 2 ^ (F - E))
    /\ (l = loc_Exact -> 2 ^ (F - E) < 2 * (M mod 2 ^ (F - E)) ->
        m2 = M / 2 ^ (F - E) + 1)
    /\ (l = loc_Exact -> 2 ^ (F - E) = 2 * (M mod 2 ^ (F - E)) ->
        Z.odd (M / 2 ^ (F - E)) = true -> m2 = M / 2 ^ (F - E) + 1)
    /\ (F = -149 \/ 2 ^ 23 <= M / 2 ^ (F - E))
    /\ -149 <= F
    /\ ((R = S754_zero false /\ m2 = 0)
        \/ (exists p e, R = S754_finite false p e
                        /\ F <= e <= 104 /\ Zpos p * 2 ^ (e - F) = m2)
        \/ (R = S754_infinity false
            /\ ((105 <= F /\ 2 ^ 23 <= m2) \/ (F = 104 /\ m2 = 2 ^ 24)))).
Proof.
  intros F R HM HEF.
  pose proof (Zdigits2_bounds M HM) as [Dlo Dhi].
  assert (HF : F = Z.max (Zdigits2 M + E - 24) (-149))
    by (unfold F; apply fexp24_eq).
  assert (HF0 : -149 <= F) by (clear - HF; lia).
  assert (Pn : 0 < 2 ^ (F - E)) by (apply Z.pow_pos_nonneg; lia).
  assert (Hup : M / 2 ^ (F - E) < 2 ^ 24).
  { apply Z.div_lt_upper_bound; [exact Pn|].
    rewrite Z.mul_comm, <- Z.pow_add_r by lia.
    apply Z.lt_le_trans with (1 := Dhi). apply Z.pow_le_mono_r; lia. }
  assert (H0 : 0 <= M / 2 ^ (F - E)) by (apply Z.div_pos; lia).
  assert (Hnorm : F = -149 \/ 2 ^ 23 <= M / 2 ^ (F - E)).
  { destruct (Z.eq_dec F (-149)) as [|NF]; [now left|right].
    assert (HF' : F = Zdigits2 M + E - 24) by (clear - HF NF; lia).
    apply Z.div_le_lower_bound; [exact Pn|].
    rewrite <- Z.pow_add_r by lia.
    replace (F - E + 23) with (Zdigits2 M - 1) by lia.
    exact Dlo. }
  destruct (shr_spec M l E (F - E) ltac:(lia) ltac:(lia))
    as (H1 & H2 & H3).
  pose proof (store24
                (round_nearest_even
                   (shr_m (fst (shr (shr_record_of_loc M l) E (F - E))))
                   (loc_of_shr_record
                      (fst (shr (shr_record_of_loc M l) E (F - E)))))
                F HF0) as HS.
  pose proof (round_nearest_even_bounds
                (shr_m (fst (shr (shr_record_of_loc M l) E (F - E))))
                (loc_of_shr_record
                   (fst (shr (shr_record_of_loc M l) E (F - E)))))
    as Hr.
  set (m2 := round_nearest_even _ _) in *.
  rewrite H1 in Hr. exists m2.
  split; [exact Hr|]. split.
  { intros Hl Hz. unfold m2. rewrite (H3 Hl Hz), H1. reflexivity. }
  split.
  { intros -> Hg. unfold m2.
    destruct (shr_half M E (F - E) HM ltac:(lia)) as [_ [Hgt _]].
    rewrite (Hgt Hg), H1. reflexivity. }
  split.
  { intros -> Hg Ho. unfold m2.
    destruct (shr_half M E (F - E) HM ltac:(lia)) as [_ [_ Heq]].
    rewrite (Heq Hg), H1. cbn [round_nearest_even].
    rewrite <- Z.negb_odd, Ho. reflexivity. }
  split; [exact Hnorm|]. split; [exact HF0|].
  apply HS.
  - clear - Hr Hup H0. lia.
  - clear - Hr Hnorm. destruct Hnorm; [now left|right; lia].
  - subst R m2. unfold binary_round_aux, shr_fexp. fold F.
    destruct (shr (shr_record_of_loc M l) E (F - E)) as [mrs e1].
    cbn [fst snd] in *. subst e1.
    replace (E + (F - E)) with F by lia. reflexivity.
Qed.


(** A binary32 number held in a binary64 number. *)
Lemma single_value (p : positive) (e : Z) :
  Zpos p < 2 ^ 53 -> -1000 <= e <= 900 ->
  amount (SF2Prim (S754_finite false p e))
  /\ frank (SF2Prim (S754_finite false p e)) = Zpos p * 2 ^ (e + 1074).
Proof.
  intros Hp He. unfold amount, frank, SF2Prim.
  rewrite Z_ldexp_spec, of_uint63_spec, Uint63.of_Z_spec.
  rewrite Z.mod_small by (change wB with (2 ^ 63); lia).
  destruct (canon_normal (Zpos p)) as (m & ec & (E & D & R) & Hec & V); [lia|].
  unfold canon in E. rewrite E. cbn [SFldexp]. unfold binary_round.
  rewrite D, fexp_eq.
  replace (Z.max (53 + (ec + e) - 53) (-1074)) with (ec + e) by lia.
  unfold shl_align. rewrite Z.sub_diag.
  rewrite round_canonical.
  - split; [exact I|]. cbn [rank scaled cond_Zopp]. rewrite V.
    rewrite <- Z.mul_assoc, <- Z.pow_add_r by lia. do 2 f_equal. lia.
  - apply (normal_valid _ m (ec + e)). repeat split; [exact D|lia|lia].
Qed.

(** The mantissa that [binary_round] hands to the rounding, for a
    binary64 number rounded to binary32. *)
Lemma align24 (m : positive) (e : Z) :
  -1074 <= e ->
  let F := fexp 24 128 (Zpos (digits2_pos m) + e) in
  exists mz ez,
    shl_align m e F = (mz, ez)
    /\ -1074 <= ez <= F
    /\ Zpos mz * 2 ^ (ez + 1074) = Zpos m * 2 ^ (e + 1074)
    /\ fexp 24 128 (Zdigits2 (Zpos mz) + ez) = F.
Proof.
  intros He F.
  assert (HF : F = Z.max (Zpos (digits2_pos m) + e - 24) (-149))
    by apply fexp24_eq.
  destruct (Z.le_gt_cases F e) as [Hle|Hgt].
  - destruct (shl_align_value m e F Hle) as [Hv Hz].
    destruct (shl_align m e F) as [mz ez]. cbn [fst snd] in *. subst ez.
    exists mz, F. split; [reflexivity|]. split; [lia|]. split.
    + rewrite Hv, <- Z.mul_assoc, <- Z.pow_add_r by lia. do 2 f_equal. lia.
    + pose proof (digits_bounds m) as B.
      set (d := Zpos (digits2_pos m)) in *.
      assert (Hdz : Zpos (digits2_pos mz) = d + (e - F)).
      { apply digits_unique. rewrite Hv.
        replace (d + (e - F) - 1) with ((d - 1) + (e - F)) by lia.
        assert (1 <= d) by (unfold d; lia).
        rewrite !Z.pow_add_r by lia.
        assert (0 < 2 ^ (e - F)) by (apply Z.pow_pos_nonneg; lia).
        clear - B H0. generalize dependent (2 ^ (e - F)).
        generalize dependent (2 ^ (d - 1)). generalize dependent (2 ^ d).
        intros. nia. }
      cbn [Zdigits2]. rewrite Hdz, fexp24_eq. lia.
  - exists m, e. split.
    + unfold shl_align. destruct (F - e) eqn:E; try reflexivity. lia.
    + split; [lia|]. split; [reflexivity|reflexivity].
Qed.

(** What a store into a [Float32Array] keeps of an amount [x]: with [F]
    the exponent of binary32 at the magnitude of [x] and [fl] the
    multiple of [2^F] at or below [x], it is [m2 * 2^F] for [m2] one of
    [fl] and [fl + 1], the nearer one. *)
Lemma fround_value (x : float) :
  amount x ->
  exists F fl m2 : Z,
    -149 <= F /\ 0 <= fl < 2 ^ 24
    /\ fl * 2 ^ (F + 1074) <= frank x < (fl + 1) * 2 ^ (F + 1074)
    /\ fl <= m2 <= fl + 1
    /\ (frank x = fl * 2 ^ (F + 1074) -> m2 = fl)
    /\ (2 ^ (F + 1074) < 2 * (frank x - fl * 2 ^ (F + 1074)) -> m2 = fl + 1)
    /\ (2 ^ (F + 1074) = 2 * (frank x - fl * 2 ^ (F + 1074)) ->
        Z.odd fl = true -> m2 = fl + 1)
    /\ (F = -149 \/ 2 ^ 23 <= fl)
    /\ ((JS.fround x = zero /\ m2 = 0)
        \/ (amount (JS.fround x)
            /\ frank (JS.fround x) = m2 * 2 ^ (F + 1074) /\ 0 < m2)
        \/ (Prim2SF (JS.fround x) = S754_infinity false
            /\ 2 ^ (128 + 1074) <= m2 * 2 ^ (F + 1074))).
Proof.
  intros Ax. pose proof (Prim2SF_valid x) as Vx.
  unfold amount, frank, JS.fround in *.
  destruct (Prim2SF x) as [[|]|[|]| |[|] m e] eqn:Ex; try contradiction.
  - exists (-149), 0, 0. cbn [rank scaled].
    assert (0 < 2 ^ (-149 + 1074)) by (apply Z.pow_pos_nonneg; lia).
    repeat split; try lia.
    left. split; [|reflexivity]. apply Prim2SF_inj. rewrite Ex. reflexivity.
  - pose proof (valid_range _ _ _ Vx) as [Re Rm].
    cbn [rank scaled cond_Zopp].
    unfold binary_round.
    destruct (align24 m e ltac:(lia)) as (mz & ez & -> & Hez & Hv & HF).
    set (F := fexp 24 128 (Zpos (digits2_pos m) + e)) in *.
    destruct (round24_value (Zpos mz) ez loc_Exact ltac:(lia))
      as (m2 & Hm2 & Hex & Hgt & Heq & Hnorm & HF0 & HR);
      [rewrite HF; lia|].
    rewrite HF in *.
    set (R := binary_round_aux 24 128 false (Zpos mz) ez loc_Exact) in *.
    clearbody R.
    set (n := F - ez) in *.
    assert (Pn : 0 < 2 ^ n) by (apply Z.pow_pos_nonneg; lia).
    assert (Pw : 0 < 2 ^ (ez + 1074)) by (apply Z.pow_pos_nonneg; lia).
    assert (EG : 2 ^ (F + 1074) = 2 ^ n * 2 ^ (ez + 1074)).
    { rewrite <- Z.pow_add_r by lia. f_equal. lia. }
    pose proof (Z.div_mod (Zpos mz) (2 ^ n) ltac:(lia)) as Hdm.
    pose proof (Z.mod_pos_bound (Zpos mz) (2 ^ n) Pn) as Hmod.
    assert (H0 : 0 <= Zpos mz / 2 ^ n) by (apply Z.div_pos; lia).
    assert (Hup : Zpos mz / 2 ^ n < 2 ^ 24).
    { pose proof (digits_bounds mz) as [_ Dhi].
      apply Z.div_lt_upper_bound; [exact Pn|].
      rewrite Z.mul_comm, <- Z.pow_add_r by lia.
      apply Z.lt_le_trans with (1 := Dhi). apply Z.pow_le_mono_r; [lia|].
      cbn [Zdigits2] in HF. rewrite fexp24_eq in HF. lia. }
    set (fl := Zpos mz / 2 ^ n) in *. set (rho := Zpos mz mod 2 ^ n) in *.
    assert (Hx : Zpos m * 2 ^ (e + 1074) - fl * 2 ^ (F + 1074)
                 = rho * 2 ^ (ez + 1074)).
    { rewrite <- Hv, EG, Hdm. fold fl rho. ring. }
    exists F, fl, m2.
    split; [exact HF0|]. split; [lia|]. split.
    { rewrite EG. split.
      - clear - Hx Hmod Pw EG. rewrite EG in Hx.
        generalize dependent (2 ^ (ez + 1074)). intros. nia.
      - clear - Hx Hmod Pw EG. rewrite EG in Hx.
        generalize dependent (2 ^ (ez + 1074)). intros. nia. }
    split; [exact Hm2|]. split.
    { intros E0. apply (Hex eq_refl). fold rho.
      rewrite E0, Z.sub_diag in Hx. clear - Hx Pw Hmod. nia. }
    split.
    { intros Hg. apply (Hgt eq_refl). fold rho. rewrite Hx, EG in Hg.
      clear - Hg Pw. generalize dependent (2 ^ (ez + 1074)). intros. nia. }
    split.
    { intros Hg Ho. apply (Heq eq_refl); [|exact Ho]. fold rho.
      rewrite Hx, EG in Hg.
      clear - Hg Pw. generalize dependent (2 ^ (ez + 1074)). intros. nia. }
    split; [exact Hnorm|].
    destruct HR as [[-> E0]|[(p & e' & -> & He' & Hp)|[-> Hinf]]].
    + left. split; [reflexivity|exact E0].
    + right. left.
      assert (Pe : 0 < 2 ^ (e' - F)) by (apply Z.pow_pos_nonneg; lia).
      destruct (single_value p e') as [As Fs].
      { assert (2 ^ 24 < 2 ^ 53) by reflexivity. nia. }
      { lia. }
      unfold amount, frank in As, Fs.
      split; [exact As|]. split; [|lia].
      rewrite Fs, <- Hp, <- Z.mul_assoc, <- Z.pow_add_r by lia.
      do 2 f_equal. lia.
    + right. right. split; [reflexivity|].
      destruct Hinf as [[H105 Hm]|[-> ->]].
      * assert (2 ^ (128 + 1074) = 2 ^ 23 * 2 ^ (105 + 1074))
          by (rewrite <- Z.pow_add_r by lia; reflexivity).
        assert (2 ^ (105 + 1074) <= 2 ^ (F + 1074))
          by (apply Z.pow_le_mono_r; lia).
        assert (0 < 2 ^ (105 + 1074)) by (apply Z.pow_pos_nonneg; lia).
        rewrite H. clear - Hm H1 H2.
        generalize dependent (2 ^ (F + 1074)).
        generalize dependent (2 ^ (105 + 1074)).
        change (2 ^ 23) with 8388608. intros. nia.
      * rewrite <- Z.pow_add_r by lia. apply Z.pow_le_mono_r; lia.
Qed.

(** A store does not go above a binary32 number that the value is not
    above. *)
Lemma fround_upper (x b : float) :
  amount x -> single b -> frank x <= frank b ->
  amount (JS.fround x) /\ frank (JS.fround x) <= frank b.
Proof.
  intros Ax [Ab (mb & eb & Hmb & Heb & Eb)] Hle.
  destruct (fround_value x Ax)
    as (F & fl & m2 & HF & Hfl & Hx & Hm2 & Hex & _ & _ & Hnorm & HR).
  assert (PG : 0 < 2 ^ (F + 1074)) by (apply Z.pow_pos_nonneg; lia).
  assert (PB : 0 < 2 ^ (eb + 1074)) by (apply Z.pow_pos_nonneg; lia).
  assert (Hup : m2 * 2 ^ (F + 1074) <= frank b).
  { rewrite Eb in *. destruct (Z.le_gt_cases F eb) as [Hge|Hlt].
    - assert (EB : 2 ^ (eb + 1074) = 2 ^ (eb - F) * 2 ^ (F + 1074)).
      { rewrite <- Z.pow_add_r by lia. f_equal. lia. }
      rewrite EB in *. rewrite Z.mul_assoc in *.
      assert (PK : 0 < 2 ^ (eb - F)) by (apply Z.pow_pos_nonneg; lia).
      set (K := mb * 2 ^ (eb - F)) in *.
      assert (HK : fl <= K).
      { clear - Hx Hle PG. generalize dependent (2 ^ (F + 1074)).
        intros. nia. }
      destruct (Z.eq_dec fl K) as [E|NE].
      + rewrite Hex; [rewrite E; lia|].
        rewrite E in *. clear - Hx Hle. lia.
      + assert (m2 <= K) by lia.
        clear - H PG. generalize dependent (2 ^ (F + 1074)). intros. nia.
    - exfalso. destruct Hnorm as [->|Hn]; [lia|].
      assert (HP : 2 * 2 ^ (eb + 1074) <= 2 ^ (F + 1074)).
      { rewrite <- Z.pow_succ_r by lia. apply Z.pow_le_mono_r; lia. }
      change (2 ^ 24) with 16777216 in *. change (2 ^ 23) with 8388608 in *.
      clear - Hx Hle Hn HP Hmb PB.
      generalize dependent (2 ^ (F + 1074)).
      generalize dependent (2 ^ (eb + 1074)). intros. nia. }
  destruct HR as [[-> E0]|[(Af & Ef & Hp)|[Einf Hinf]]].
  - split; [exact I|]. change (frank zero) with 0.
    rewrite Eb. clear - Hmb PB. nia.
  - split; [exact Af|]. rewrite Ef. exact Hup.
  - exfalso. rewrite Eb in Hup.
    assert (2 ^ (eb + 1074) <= 2 ^ (104 + 1074))
      by (apply Z.pow_le_mono_r; lia).
    assert (E128 : 2 ^ (128 + 1074) = 2 ^ 24 * 2 ^ (104 + 1074))
      by (rewrite <- Z.pow_add_r by lia; reflexivity).
    rewrite E128 in Hinf.
    change (2 ^ 24) with 16777216 in *.
    assert (0 < 2 ^ (104 + 1074)) by (apply Z.pow_pos_nonneg; lia).
    clear - Hinf Hup H Hmb PB H0.
    generalize dependent (m2 * 2 ^ (F + 1074)).
    generalize dependent (2 ^ (104 + 1074)).
    generalize dependent (2 ^ (eb + 1074)). intros. nia.
Qed.

(** A store does not go below a binary32 number that the value is not
    below. *)
Lemma fround_lower (x b : float) :
  amount x -> single b -> frank b <= frank x ->
  frank b <= frank (JS.fround x).
Proof.
  intros Ax [Ab (mb & eb & Hmb & Heb & Eb)] Hle.
  destruct (fround_value x Ax)
    as (F & fl & m2 & HF & Hfl & Hx & Hm2 & Hex & _ & _ & Hnorm & HR).
  assert (PG : 0 < 2 ^ (F + 1074)) by (apply Z.pow_pos_nonneg; lia).
  assert (PB : 0 < 2 ^ (eb + 1074)) by (apply Z.pow_pos_nonneg; lia).
  assert (Hlow : frank b <= m2 * 2 ^ (F + 1074)).
  { rewrite Eb in *. destruct (Z.le_gt_cases F eb) as [Hge|Hlt].
    - assert (EB : 2 ^ (eb + 1074) = 2 ^ (eb - F) * 2 ^ (F + 1074)).
      { rewrite <- Z.pow_add_r by lia. f_equal. lia. }
      rewrite EB in *. rewrite Z.mul_assoc in *.
      set (K := mb * 2 ^ (eb - F)) in *.
      assert (HK : K <= fl).
      { clear - Hx Hle PG. generalize dependent (2 ^ (F + 1074)).
        intros. nia. }
      assert (K <= m2) by lia.
      clear - H PG. generalize dependent (2 ^ (F + 1074)). intros. nia.
    - destruct Hnorm as [->|Hn]; [lia|].
      assert (HP : 2 * 2 ^ (eb + 1074) <= 2 ^ (F + 1074)).
      { rewrite <- Z.pow_succ_r by lia. apply Z.pow_le_mono_r; lia. }
      change (2 ^ 24) with 16777216 in *. change (2 ^ 23) with 8388608 in *.
      clear - Hm2 Hn HP Hmb PB.
      generalize dependent (2 ^ (F + 1074)).
      generalize dependent (2 ^ (eb + 1074)). intros. nia. }
  destruct HR as [[-> E0]|[(Af & Ef & Hp)|[Einf Hinf]]].
  - change (frank zero) with 0. rewrite E0 in Hlow. lia.
  - rewrite Ef. exact Hlow.
  - unfold frank at 2. rewrite Einf. cbn [rank].
    rewrite Eb.
    assert (2 ^ (eb + 1074) <= 2 ^ (104 + 1074))
      by (apply Z.pow_le_mono_r; lia).
    assert (E2200 : 2 ^ 24 * 2 ^ (104 + 1074) <= 2 ^ 2200).
    { rewrite <- Z.pow_add_r by lia. apply Z.pow_le_mono_r; lia. }
    change (2 ^ 24) with 16777216 in *.
    assert (0 < 2 ^ (104 + 1074)) by (apply Z.pow_pos_nonneg; lia).
    clear - H E2200 Hmb PB H0.
    generalize dependent (2 ^ 2200).
    generalize dependent (2 ^ (104 + 1074)).
    generalize dependent (2 ^ (eb + 1074)). intros. nia.
Qed.

(** What a store keeps of an amount is zero or at least [2^-149]. *)
Lemma fround_grid (x : float) :
  amount x ->
  JS.fround x = zero \/ 2 ^ 925 <= frank (JS.fround x).
Proof.
  intros Ax.
  destruct (fround_value x Ax)
    as (F & fl & m2 & HF & Hfl & Hx & Hm2 & Hex & _ & _ & Hnorm & HR).
  destruct HR as [[-> E0]|[(Af & Ef & Hp)|[Einf Hinf]]].
  - now left.
  - right. rewrite Ef.
    assert (2 ^ 925 <= 2 ^ (F + 1074)) by (apply Z.pow_le_mono_r; lia).
    assert (0 < 2 ^ 925) by (apply Z.pow_pos_nonneg; lia).
    clear - H H0 Hp. generalize dependent (2 ^ (F + 1074)).
    generalize dependent (2 ^ 925). intros. nia.
  - right. unfold frank. rewrite Einf. cbn [rank].
    apply Z.pow_le_mono_r; lia.
Qed.

(** What a store keeps of a value from [1 - 2^-25] on is at least 1: the
    value is then nearer to 1 than to the binary32 number below 1, or
    halfway, where the even mantissa of 1 wins. *)
Lemma fround_one (x : float) :
  amount x -> (2 ^ 25 - 1) * 2 ^ 1049 <= frank x ->
  frank 1 <= frank (JS.fround x).
Proof.
  intros Ax Hx1.
  assert (F1 : frank 1 = 2 ^ 1074) by exact frank_one.
  destruct (Z.le_gt_cases (frank 1) (frank x)) as [Hge|Hlt].
  { apply fround_lower; try assumption.
    split; [exact I|]. exists 1, 0. split; [lia|]. split; [lia|].
    rewrite F1. cbn [Z.add]. lia. }
  rewrite F1 in *.
  destruct (fround_value x Ax)
    as (F & fl & m2 & HF & Hfl & Hx & Hm2 & Hex & Hgt & Heq & Hnorm & HR).
  assert (E74 : 2 ^ 1074 = 33554432 * 2 ^ 1049)
    by (change 33554432 with (2 ^ 25); rewrite <- Z.pow_add_r by lia;
        reflexivity).
  assert (E50 : 2 ^ 1050 = 2 * 2 ^ 1049)
    by (change 2 with (2 ^ 1) at 2; rewrite <- Z.pow_add_r by lia;
        reflexivity).
  assert (PA : 0 < 2 ^ 1049) by (apply Z.pow_pos_nonneg; lia).
  change (2 ^ 25) with 33554432 in *. change (2 ^ 24) with 16777216 in *.
  change (2 ^ 23) with 8388608 in *.
  assert (EF : F + 1074 = 1050).
  { destruct (Z.lt_trichotomy (F + 1074) 1050) as [Hl|[He|Hg]];
      [exfalso|exact He|exfalso].
    - assert (2 ^ (F + 1074) <= 2 ^ 1049) by (apply Z.pow_le_mono_r; lia).
      assert (0 < 2 ^ (F + 1074)) by (apply Z.pow_pos_nonneg; lia).
      clear - H H0 Hx Hx1 Hfl PA.
      generalize dependent (2 ^ (F + 1074)).
      generalize dependent (2 ^ 1049). intros. nia.
    - destruct Hnorm as [->|Hn]; [lia|].
      assert (2 * (2 * 2 ^ 1049) <= 2 ^ (F + 1074)).
      { rewrite <- E50, <- Z.pow_succ_r by lia. apply Z.pow_le_mono_r; lia. }
      rewrite E74 in Hlt.
      clear - H Hx Hlt Hn PA.
      generalize dependent (2 ^ (F + 1074)).
      generalize dependent (2 ^ 1049). intros. nia. }
  rewrite EF, E50 in *. rewrite E74 in Hlt.
  assert (Efl : fl = 16777215).
  { clear - Hx Hx1 Hlt Hfl PA. generalize dependent (2 ^ 1049). intros. nia. }
  subst fl.
  assert (Em : m2 = 16777216).
  { destruct (Z.eq_dec (2 * 2 ^ 1049)
                       (2 * (frank x - 16777215 * (2 * 2 ^ 1049)))) as [E|N].
    - apply (Heq E). reflexivity.
    - apply Hgt. clear - Hx1 N PA. generalize dependent (2 ^ 1049).
      intros. lia. }
  subst m2.
  destruct HR as [[_ E0]|[(Af & Ef & Hp)|[Einf Hinf]]].
  - lia.
  - rewrite Ef, E74. generalize (2 ^ 1049). intros. lia.
  - unfold frank. rewrite Einf. cbn [rank].
    apply Z.pow_le_mono_r; lia.
Qed.

(** Stores of the values that are no amounts. *)
Lemma fround_nan : JS.fround nan = nan.
Proof. reflexivity. Qed.

Lemma fround_zero : JS.fround 0 = 0%float.
Proof. reflexivity. Qed.

Lemma fround_1 : JS.fround 1 = 1%float.
Proof. reflexivity. Qed.

End Single.

(** ** The cells of the YIN buffer on a normalized window

    Steps 1 and 2 of [detectPitchYIN] on samples in [[-1, 1]]: every
    cell of the difference function is an amount of at most four times
    the window size, and every cell of the normalized difference is
    [NaN] (while the running sum is 0) or an amount of at most [2^25]. *)

Module YinCells.

Import OrderProps LevelProps NoteProps YinProps.
Import Loops ArrayFacts Rounding FloatFacts Scan Comparison Order.
Import RoundBounds BandMeans LevelRange BassRange SignedBounds ExactBounds.
Import Single.

Lemma frank_minus_one : frank (-1) = - 2 ^ 1074.
Proof.
  change (-1)%float with (JS.of_Z (-1)). rewrite frank_of_Z by lia. lia.
Qed.

Lemma frank_two : frank 2 = 2 * 2 ^ 1074.
Proof. change 2%float with (JS.of_Z 2). apply frank_of_Z. lia. Qed.

Lemma frank_four : frank 4 = 4 * 2 ^ 1074.
Proof. change 4%float with (JS.of_Z 4). apply frank_of_Z. lia. Qed.

Lemma pow_2200 : 2 ^ 1074 < 2 ^ 2200.
Proof. apply Z.pow_lt_mono_r; lia. Qed.

(** A sample is finite and at most 1 in size. *)
Lemma sample_finite (x : float) :
  sample x -> finite x /\ Z.abs (frank x) <= 2 ^ 1074.
Proof.
  intros [H1 H2]. apply leb_frank in H1, H2.
  destruct H1 as (_ & Nx & L1), H2 as (_ & _ & L2).
  rewrite frank_one in L2. rewrite frank_minus_one in L1.
  pose proof pow_2200 as P.
  unfold finite, number, frank in *.
  destruct (Prim2SF x) as [s|[|]| |s m e]; cbn [rank finite_or_zero] in *;
    try congruence; try (split; [exact I|lia]);
    exfalso; clear - L1 L2 P; generalize dependent (2 ^ 2200);
    generalize dependent (2 ^ 1074); intros; lia.
Qed.

Lemma finite_nonneg_amount (x : float) :
  finite x -> nonneg (Prim2SF x) -> amount x.
Proof.
  unfold finite, amount, nonneg.
  destruct (Prim2SF x) as [s|s| |s m e]; cbn; try contradiction;
    intros _ ->; exact I.
Qed.

Lemma get_sample (buffer : list float) (i : Z) :
  Forall sample buffer -> 0 <= i < length buffer -> sample (get buffer i).
Proof.
  intros Hb Hi. unfold get, length in *.
  destruct (Z.ltb_spec i 0) as [H|H]; [lia|].
  rewrite Forall_forall in Hb. apply Hb. apply nth_In. lia.
Qed.

(** One term of the difference function: at most 4. *)
Lemma square_term_bound (a b : float) :
  sample a -> sample b ->
  amount ((a - b) * (a - b))
  /\ frank ((a - b) * (a - b)) <= 4 * 2 ^ 1074.
Proof.
  intros Sa Sb.
  destruct (sample_finite a Sa) as [Fa Ba], (sample_finite b Sb) as [Fb Bb].
  assert (A2 : amount 2) by exact I.
  assert (A4 : amount 4) by exact I.
  destruct (sub_abs_upper a b 2 Fa Fb A2) as [Fd Bd].
  { rewrite frank_two. lia. }
  destruct (mul_abs_upper (a - b) (a - b) 4 Fd Fd A4) as [Fs Bs].
  { rewrite frank_four. rewrite frank_two in Bd.
    pose proof unit_pos as U. clear - Bd U.
    generalize dependent (2 ^ 1074). intros. nia. }
  rewrite frank_four in Bs. split.
  - apply finite_nonneg_amount; [exact Fs|].
    rewrite mul_spec. apply nonneg_square.
  - lia.
Qed.

(** A binary32 integer multiple of 4. *)
Lemma single_of_Z (n : Z) : 0 <= n < 2 ^ 24 -> single (JS.of_Z (4 * n)).
Proof.
  intros Hn. change (2 ^ 24) with 16777216 in Hn.
  assert (H53 : 2 ^ 53 = 9007199254740992) by reflexivity.
  split; [apply amount_of_Z; lia|].
  exists n, 2. split; [exact Hn|]. split; [lia|].
  rewrite frank_of_Z by lia.
  replace (2 + 1074) with (1074 + 2) by lia.
  rewrite Z.pow_add_r by lia. change (2 ^ 2) with 4. lia.
Qed.

(** What the cells of a row of step 1 hold: the cell of the lag is an
    amount of at most [4 * yinBufferSize], on the grid of binary32, and
    the other cells are as before. *)
Lemma difference_row_cell (buffer y : list float) (tau : Z) :
  Forall sample buffer ->
  0 <= tau < length y -> 2 * length y <= length buffer ->
  length y < 2 ^ 24 ->
  length (difference_row buffer y tau) = length y
  /\ (forall j, j <> tau -> get (difference_row buffer y tau) j = get y j)
  /\ amount (get (difference_row buffer y tau) tau)
  /\ frank (get (difference_row buffer y tau) tau) <= 4 * length y * 2 ^ 1074
  /\ (get (difference_row buffer y tau) tau = zero
      \/ 2 ^ 925 <= frank (get (difference_row buffer y tau) tau)).
Proof.
  intros Hb Ht Hlen H24. unfold difference_row.
  pose proof unit_pos as U.
  assert (H : let y' := fold_left (difference_step buffer tau)
                                  (range 0 (length y)) (set y tau 0) in
              length y' = length y
              /\ (forall j, j <> tau -> get y' j = get y j)
              /\ amount (get y' tau)
              /\ frank (get y' tau) <= 4 * length y * 2 ^ 1074
              /\ (get y' tau = zero \/ 2 ^ 925 <= frank (get y' tau))).
  { apply (fold_range_inv
             (fun i y' =>
                length y' = length y
                /\ (forall j, j <> tau -> get y' j = get y j)
                /\ amount (get y' tau)
                /\ frank (get y' tau) <= 4 * i * 2 ^ 1074
                /\ (get y' tau = zero \/ 2 ^ 925 <= frank (get y' tau)))).
    - lia.
    - split; [apply length_set|]. split.
      + intros j Hj. rewrite get_set.
        destruct (Z.eqb_spec j tau); [contradiction|reflexivity].
      + rewrite get_set, Z.eqb_refl.
        destruct (Z.leb_spec 0 tau); [|lia].
        destruct (Z.ltb_spec tau (length y)); [|lia]. cbn [andb].
        rewrite fround_zero. split; [exact I|].
        split; [change (frank 0) with 0; lia|now left].
    - intros i y' Hi (L & Hoth & Ac & Bc & _). unfold difference_step.
      split; [rewrite length_set; exact L|]. split.
      + intros j Hj. rewrite get_set.
        destruct (Z.eqb_spec j tau); [contradiction|]. cbn [andb].
        apply Hoth. exact Hj.
      + rewrite get_set, Z.eqb_refl, L.
        destruct (Z.leb_spec 0 tau); [|lia].
        destruct (Z.ltb_spec tau (length y)); [|lia]. cbn [andb].
        destruct (square_term_bound (get buffer i) (get buffer (i + tau)))
          as [As Bs]; try (apply get_sample; [exact Hb|lia]).
        set (sq := ((get buffer i - get buffer (i + tau))
                    * (get buffer i - get buffer (i + tau)))%float) in *.
        change (2 ^ 24) with 16777216 in H24.
        assert (H53 : 2 ^ 53 = 9007199254740992) by reflexivity.
        assert (Ab : amount (JS.of_Z (4 * (i + 1))))
          by (apply amount_of_Z; lia).
        assert (Fb : frank (JS.of_Z (4 * (i + 1))) = 4 * (i + 1) * 2 ^ 1074)
          by (apply frank_of_Z; lia).
        destruct (add_upper (get y' tau) sq (JS.of_Z (4 * (i + 1))) Ac As Ab)
          as [Aa Ba].
        { rewrite Fb. clear - Bc Bs. generalize dependent (2 ^ 1074).
          intros. lia. }
        destruct (fround_upper (get y' tau + sq) (JS.of_Z (4 * (i + 1))) Aa)
          as [Af Bf].
        { apply single_of_Z. change (2 ^ 24) with 16777216. lia. }
        { exact Ba. }
        split; [exact Af|]. split; [rewrite <- Fb; exact Bf|].
        apply fround_grid. exact Aa. }
  cbv zeta in H. exact H.
Qed.

(** What step 1 leaves in the buffer. *)
Lemma difference_cells (buffer : list float) (W : Z) :
  Forall sample buffer -> 0 <= W -> 2 * W <= length buffer -> W < 2 ^ 24 ->
  length (difference buffer (Float32Array W)) = W
  /\ forall j, 0 <= j < W ->
       amount (get (difference buffer (Float32Array W)) j)
       /\ frank (get (difference buffer (Float32Array W)) j)
          <= 4 * W * 2 ^ 1074
       /\ (get (difference buffer (Float32Array W)) j = zero
           \/ 2 ^ 925 <= frank (get (difference buffer (Float32Array W)) j)).
Proof.
  intros Hb HW Hlen H24. unfold difference.
  rewrite length_Float32Array by exact HW.
  assert (H : let d := fold_left (difference_row buffer) (range 0 W)
                                 (Float32Array W) in
              length d = W
              /\ forall j, 0 <= j < W ->
                   amount (get d j) /\ frank (get d j) <= 4 * W * 2 ^ 1074
                   /\ (get d j = zero \/ 2 ^ 925 <= frank (get d j))).
  { apply (fold_range_inv
             (fun t d =>
                length d = W
                /\ forall j, 0 <= j < t ->
                     amount (get d j) /\ frank (get d j) <= 4 * W * 2 ^ 1074
                     /\ (get d j = zero \/ 2 ^ 925 <= frank (get d j)))).
    - exact HW.
    - split; [apply length_Float32Array; exact HW|]. intros j Hj. lia.
    - intros t d Ht (L & Hc).
      destruct (difference_row_cell buffer d t Hb) as (L' & Hoth & Hcell);
        try (rewrite L; lia).
      rewrite L in *. split; [exact L'|].
      intros j Hj. destruct (Z.eq_dec j t) as [->|Hne].
      + exact Hcell.
      + rewrite Hoth by exact Hne. apply Hc. lia. }
  cbv zeta in H. exact H.
Qed.

Lemma amount_shape (r : float) :
  amount r -> 0 < frank r -> exists m e, Prim2SF r = S754_finite false m e.
Proof.
  unfold amount, frank.
  destruct (Prim2SF r) as [[|]|[|]| |[|] m e]; try contradiction;
    intros _ H.
  - cbn in H. lia.
  - exists m, e. reflexivity.
Qed.

(** A cell of step 2, [d * (t / runningSum)] stored as binary32, where
    the running sum is positive and not below [d]: at most [2^25], and
    at least 1 where the running sum is [d] itself. *)
Lemma normalized_cell (d r : float) (t : Z) :
  amount d -> amount r -> 2 ^ 925 <= frank r <= 2 ^ 52 * 2 ^ 1074 ->
  frank d <= frank r -> 1 <= t < 2 ^ 24 ->
  level (JS.fround (d * (JS.of_Z t / r)))
  /\ (frank d = frank r ->
      frank 1 <= frank (JS.fround (d * (JS.of_Z t / r)))).
Proof.
  intros Ad Ar Hr Hd Ht.
  pose proof unit_pos as U.
  pose proof (amount_rank d Ad) as Hd0.
  assert (P925 : 0 < 2 ^ 925) by (apply Z.pow_pos_nonneg; lia).
  assert (Hr0 : 0 < frank r) by lia.
  destruct (amount_shape r Ar Hr0) as (m & e & Er).
  pose proof (Z.log2_spec (frank r) Hr0) as HL.
  set (L := Z.log2 (frank r)) in *.
  assert (HL1 : 925 <= L) by (apply Z.log2_le_pow2; [exact Hr0|lia]).
  assert (HL2 : L < 1127).
  { apply Z.log2_lt_pow2; [exact Hr0|].
    replace (2 ^ 1127) with (2 * (2 ^ 52 * 2 ^ 1074))
      by (rewrite <- Z.pow_add_r, <- Z.pow_succ_r by lia; reflexivity).
    lia. }
  unfold Z.succ in HL. rewrite Z.pow_add_r in HL by lia.
  change (2 ^ 1) with 2 in HL.
  assert (PL : 0 < 2 ^ L) by (apply Z.pow_pos_nonneg; lia).
  change (2 ^ 24) with 16777216 in Ht.
  assert (H53 : 2 ^ 53 = 9007199254740992) by reflexivity.
  assert (At : amount (JS.of_Z t)) by (apply amount_of_Z; lia).
  assert (Ft : frank (JS.of_Z t) = t * 2 ^ 1074) by (apply frank_of_Z; lia).
  (* the quotient from above *)
  destruct (pow2_exists (24 + 1074 - L)) as (c & Ac & Fc); [lia|].
  assert (Ec : 2 ^ (24 + 1074 - L + 1074) * 2 ^ L
               = 16777216 * (2 ^ 1074 * 2 ^ 1074)).
  { change 16777216 with (2 ^ 24). rewrite <- !Z.pow_add_r by lia.
    f_equal. lia. }
  assert (Pc : 0 < 2 ^ (24 + 1074 - L + 1074))
    by (apply Z.pow_pos_nonneg; lia).
  destruct (div_upper (JS.of_Z t) r c m e At Er Ac) as [Aq Bq].
  { rewrite Ft, Fc. clear - Ec Pc HL Ht U PL.
    generalize dependent (2 ^ (24 + 1074 - L + 1074)).
    generalize dependent (2 ^ L). generalize dependent (2 ^ 1074).
    intros. nia. }
  set (q := (JS.of_Z t / r)%float) in *.
  pose proof (amount_rank q Aq) as Hq0.
  (* the product from above *)
  assert (A25 : amount (JS.of_Z 33554432)) by (apply amount_of_Z; lia).
  assert (F25 : frank (JS.of_Z 33554432) = 33554432 * 2 ^ 1074)
    by (apply frank_of_Z; lia).
  destruct (mul_upper d q (JS.of_Z 33554432) Ad Aq A25) as [Ap Bp].
  { rewrite F25. rewrite Fc in Bq.
    assert (frank d * frank q
            <= 2 * 2 ^ L * 2 ^ (24 + 1074 - L + 1074)).
    { apply Z.mul_le_mono_nonneg; lia. }
    clear - H Ec. generalize dependent (2 ^ (24 + 1074 - L + 1074)).
    generalize dependent (2 ^ L). generalize dependent (2 ^ 1074).
    intros. nia. }
  set (p := (d * q)%float) in *.
  destruct (fround_upper p (JS.of_Z 33554432) Ap) as [Af Bf].
  { split; [exact A25|]. exists 1, 25. split; [lia|]. split; [lia|].
    rewrite F25. replace (25 + 1074) with (1074 + 25) by lia.
    rewrite Z.pow_add_r by lia. change (2 ^ 25) with 33554432. lia. }
  { exact Bp. }
  split.
  { split; [exact Af|]. rewrite F25 in Bf. change (2 ^ 25) with 33554432.
    exact Bf. }
  (* the first cell after the zeros *)
  intros Edr.
  set (g := 2096 - L).
  assert (Pg : 0 < 2 ^ g) by (apply Z.pow_pos_nonneg; unfold g; lia).
  assert (EB : 2 ^ g * (2 * 2 ^ L) = 2 ^ 2097).
  { rewrite <- Z.pow_succ_r, <- Z.pow_add_r by (unfold g; lia).
    f_equal. unfold g. lia. }
  assert (EU : 2 ^ 1074 * 2 ^ 1074 = 2251799813685248 * 2 ^ 2097).
  { change 2251799813685248 with (2 ^ 51).
    rewrite <- !Z.pow_add_r by lia. reflexivity. }
  assert (PB : 0 < 2 ^ 2097) by (apply Z.pow_pos_nonneg; lia).
  set (N := 2 ^ g * frank r).
  assert (HN : 2 ^ 2097 <= 2 * N < 2 * 2 ^ 2097).
  { unfold N. clear - EB HL Pg. generalize dependent (2 ^ 2097).
    generalize dependent (2 ^ g). generalize dependent (2 ^ L).
    intros. nia. }
  set (Q := (2 ^ 1074 * 2 ^ 1074) / N).
  assert (PN : 0 < N) by lia.
  assert (HQ1 : Q * N <= 2 ^ 1074 * 2 ^ 1074).
  { rewrite (Z.mul_comm Q N). unfold Q. apply Z.mul_div_le. exact PN. }
  assert (HQ2 : 2 ^ 1074 * 2 ^ 1074 < (Q + 1) * N).
  { rewrite (Z.mul_comm (Q + 1) N). unfold Q.
    apply (Z.mul_succ_div_gt (2 ^ 1074 * 2 ^ 1074) N PN). }
  assert (HQ0 : 0 <= Q) by (apply Z.div_pos; lia).
  assert (HQ3 : Q <= 4503599627370496).
  { rewrite EU in HQ1. clear - HQ1 HN PB HQ0.
    generalize dependent (2 ^ 2097). intros. nia. }
  destruct (representable Q (g - 1074)) as (bq & _ & Fbq & Abq).
  { rewrite H53. lia. }
  { unfold g. lia. }
  specialize (Abq HQ0).
  replace (g - 1074 + 1074) with g in Fbq by lia.
  assert (Lq : frank bq <= frank q).
  { apply (div_lower (JS.of_Z t) r bq m e At Er Abq).
    rewrite Ft, Fbq. fold N in HQ1.
    replace (Q * 2 ^ g * frank r) with (Q * N) by (unfold N; ring).
    clear - HQ1 Ht U. generalize dependent (2 ^ 1074). intros. nia. }
  destruct (representable 33554431 (-25)) as (bp & _ & Fbp & Abp);
    [rewrite H53; lia|lia|].
  specialize (Abp ltac:(lia)).
  change (-25 + 1074) with 1049 in Fbp.
  assert (E23 : 2 ^ 1049 * 2 ^ 1074 = 67108864 * 2 ^ 2097).
  { change 67108864 with (2 ^ 26). rewrite <- !Z.pow_add_r by lia.
    reflexivity. }
  assert (Lp : frank bp <= frank p).
  { apply (mul_lower d q bp Ad Aq Abp). rewrite Fbp, Edr.
    assert (Q * N <= frank r * frank q).
    { unfold N. rewrite Fbq in Lq.
      replace (Q * (2 ^ g * frank r)) with (frank r * (Q * 2 ^ g)) by ring.
      apply Z.mul_le_mono_nonneg_l; lia. }
    rewrite <- Z.mul_assoc, E23. rewrite EU in HQ2.
    clear - H HQ2 HN PB. generalize dependent (frank r * frank q).
    generalize dependent (2 ^ 2097). intros. nia. }
  apply fround_one; [exact Ap|]. rewrite Fbp in Lp.
  change (2 ^ 25 - 1) with 33554431. exact Lp.
Qed.

(** One round of step 2. *)
Lemma normalize_step_cells (d : list float) (t : Z)
      (st : list float * float) :
  (forall j, 0 <= j < length d ->
     amount (get d j) /\ frank (get d j) <= 4 * length d * 2 ^ 1074
     /\ (get d j = zero \/ 2 ^ 925 <= frank (get d j))) ->
  length d < 2 ^ 24 -> 1 <= t < length d ->
  normalizing d t st -> normalizing d (t + 1) (normalize_step st t).
Proof.
  intros Hd H24 Ht. destruct st as [y rs]. unfold normalizing.
  cbn [fst snd normalize_step].
  intros (Ly & Hraw & Ars & Brs & Hz & Hp).
  pose proof unit_pos as U.
  assert (P925 : 0 < 2 ^ 925) by (apply Z.pow_pos_nonneg; lia).
  change (2 ^ 24) with 16777216 in H24.
  assert (H53 : 2 ^ 53 = 9007199254740992) by reflexivity.
  rewrite (Hraw t) by lia.
  destruct (Hd t ltac:(lia)) as (Adt & Bdt & Gdt).
  set (dt := get d t) in *. set (W := length d) in *.
  pose proof (amount_rank rs Ars) as Hrs0.
  pose proof (amount_rank dt Adt) as Hdt0.
  assert (Ab : amount (JS.of_Z (4 * W * (t + 1))))
    by (apply amount_of_Z; nia).
  assert (Fb : frank (JS.of_Z (4 * W * (t + 1)))
               = 4 * W * (t + 1) * 2 ^ 1074) by (apply frank_of_Z; nia).
  destruct (add_upper rs dt _ Ars Adt Ab) as [Asum Bsum].
  { rewrite Fb. clear - Brs Bdt U Ht. generalize dependent (2 ^ 1074).
    intros. nia. }
  rewrite Fb in Bsum.
  pose proof (add_lower rs dt rs Ars Adt Ars ltac:(lia)) as Lrs.
  pose proof (add_lower rs dt dt Ars Adt Adt ltac:(lia)) as Ldt.
  assert (Hcell : forall v j,
             get (set y t v) j = if j =? t then JS.fround v else get y j).
  { intros v j. rewrite get_set, Ly.
    destruct (Z.leb_spec 0 t); [|lia].
    destruct (Z.ltb_spec t W); [|lia].
    rewrite !andb_true_r. reflexivity. }
  assert (Hbig : 4 * W * (t + 1) * 2 ^ 1074 <= 2 ^ 52 * 2 ^ 1074).
  { change (2 ^ 52) with 4503599627370496.
    apply Z.mul_le_mono_nonneg_r; [lia|]. nia. }
  split; [rewrite length_set; exact Ly|].
  split.
  { intros j Hj. rewrite Hcell.
    destruct (Z.eqb_spec j t); [lia|]. apply Hraw. lia. }
  split; [exact Asum|]. split; [exact Bsum|].
  destruct (Z.eq_dec (frank rs) 0) as [Zrs|Prs].
  - (* nothing summed so far *)
    assert (Ers : rs = zero) by (apply amount_zero; assumption).
    specialize (Hz Zrs).
    destruct Gdt as [Edt|Gdt].
    + (* one more zero: the cell is 0 * (t / 0) *)
      rewrite Ers, Edt.
      change (zero + zero)%float with zero.
      split; [|intros H; exfalso; apply H; reflexivity].
      intros _ j Hj. rewrite Hcell.
      destruct (Z.eqb_spec j t) as [->|Hne].
      * rewrite zero_mul_div_zero. apply fround_nan.
      * apply Hz. lia.
    + (* the first positive value *)
      assert (Esum : (rs + dt)%float = dt).
      { rewrite Ers. apply zero_add.
        unfold amount in Adt. unfold nonneg.
        destruct (Prim2SF dt) as [[|]|[|]| |[|] m e]; try contradiction;
          reflexivity. }
      rewrite Esum in *.
      split; [intros H; lia|]. intros _. split; [exact Gdt|].
      destruct (normalized_cell dt dt t Adt Adt) as [Hlev Hone];
        try lia.
      exists t. split; [lia|]. split; [|split].
      * intros j Hj. rewrite Hcell.
        destruct (Z.eqb_spec j t); [lia|]. apply Hz. lia.
      * intros j Hj. assert (j = t) by lia. subst j.
        rewrite Hcell, Z.eqb_refl. exact Hlev.
      * rewrite Hcell, Z.eqb_refl. apply Hone. reflexivity.
  - (* the running sum is positive *)
    destruct (Hp Prs) as (Grs & k & Hk & Hnan & Hlev & Hone).
    split; [intros H; lia|]. intros _. split; [lia|].
    destruct (normalized_cell dt (rs + dt) t Adt Asum) as [Hnew _];
      try lia.
    exists k. split; [lia|]. split; [|split].
    + intros j Hj. rewrite Hcell.
      destruct (Z.eqb_spec j t); [lia|]. apply Hnan. exact Hj.
    + intros j Hj. rewrite Hcell.
      destruct (Z.eqb_spec j t) as [->|Hne]; [exact Hnew|].
      apply Hlev. lia.
    + rewrite Hcell. destruct (Z.eqb_spec k t); [lia|]. exact Hone.
Qed.

(** What steps 1 and 2 leave in the buffer, on samples in [[-1, 1]]. *)
Lemma yin_settled (buffer : list float) :
  Forall sample buffer -> length buffer < 2 ^ 25 -> settled (yin buffer).
Proof.
  intros Hb Hlen.
  assert (L0 : 0 <= length buffer) by (unfold length; lia).
  set (W := length buffer / 2).
  assert (HW : 0 <= W) by (apply Z.div_pos; lia).
  assert (HW2 : 2 * W <= length buffer) by (apply Z.mul_div_le; lia).
  assert (HW3 : W < 2 ^ 24).
  { apply Z.div_lt_upper_bound; [lia|]. change (2 * 2 ^ 24) with (2 ^ 25).
    exact Hlen. }
  destruct (difference_cells buffer W Hb HW HW2 HW3) as [Ld Hd].
  pose proof (YinFlat.length_yin buffer) as Ly. fold W in Ly.
  unfold settled. rewrite Ly. unfold yin. fold W.
  set (d := difference buffer (Float32Array W)) in *.
  destruct (Z.le_gt_cases 1 W) as [H1|H1].
  2:{ left. intros j Hj. lia. }
  unfold normalize. rewrite Ld.
  assert (Hfin : normalizing d W
                   (fold_left normalize_step (range 1 W) (set d 0 1, 0%float))).
  { apply (fold_range_inv (normalizing d)).
    - exact H1.
    - unfold normalizing. cbn [fst snd].
      split; [apply length_set|]. split.
      + intros j Hj. rewrite get_set.
        destruct (Z.eqb_spec j 0); [lia|]. reflexivity.
      + split; [exact I|]. change (frank 0) with 0.
        split; [pose proof unit_pos; rewrite Ld; nia|].
        split; [intros _ j Hj; lia|]. intros H. contradiction.
    - intros t st Ht Hst. apply normalize_step_cells; try assumption.
      + rewrite Ld. exact Hd.
      + rewrite Ld. exact HW3.
      + rewrite Ld. exact Ht. }
  destruct (fold_left normalize_step (range 1 W) (set d 0 1, 0%float))
    as [y rs].
  unfold normalizing in Hfin. cbn [fst snd] in *.
  destruct Hfin as (Lyy & _ & Ars & _ & Hz & Hp).
  destruct (Z.eq_dec (frank rs) 0) as [Zrs|Prs].
  - left. intros j Hj. apply Hz; assumption.
  - right. destruct (Hp Prs) as (_ & k & Hk). exists k. exact Hk.
Qed.

End YinCells.

(** ** The lag and the frequency of [detectPitchYIN]

    Steps 3 to 5 on a normalized window: the lag found is between two
    levels, the one before it higher and the one after it not lower, so
    the parabola through the three moves the lag by at most 1. *)

Module YinLag.

Import OrderProps LevelProps NoteProps YinProps.
Import Loops ArrayFacts Rounding FloatFacts Scan Comparison Order.
Import RoundBounds BandMeans LevelRange BassRange SignedBounds ExactBounds.
Import Single YinCells.

(** The first counter of a loop that satisfies a test. *)
Lemma find_range_first (p : Z -> bool) (lo hi t : Z) :
  find p (range lo hi) = Some t ->
  lo <= t < hi /\ p t = true /\ forall j, lo <= j < t -> p j = false.
Proof.
  remember (Z.to_nat (hi - lo)) as n eqn:Hn. revert lo Hn.
  induction n as [|n IH]; intros lo Hn H.
  - rewrite range_nil in H by lia. discriminate.
  - rewrite range_cons in H by lia. cbn [find] in H.
    destruct (p lo) eqn:E.
    + injection H as <-. split; [lia|]. split; [exact E|]. intros; lia.
    + destruct (IH (lo + 1) ltac:(lia) H) as (A & B & C).
      split; [lia|]. split; [exact B|].
      intros j Hj. destruct (Z.eq_dec j lo) as [->|Hne]; [exact E|].
      apply C. lia.
Qed.

(** Where the descent of step 3 stops. *)
Lemma descend_stops (y : list float) (fuel : nat) (tau : Z) :
  tau < length y -> length y - tau <= Z.of_nat fuel ->
  tau <= descend y fuel tau < length y
  /\ (tau < descend y fuel tau ->
      (get y (descend y fuel tau) <? get y (descend y fuel tau - 1))%float
      = true)
  /\ (descend y fuel tau + 1 < length y ->
      (get y (descend y fuel tau + 1) <? get y (descend y fuel tau))%float
      = false)
  /\ (number (get y tau) ->
      number (get y (descend y fuel tau))
      /\ frank (get y (descend y fuel tau)) <= frank (get y tau)).
Proof.
  revert tau. induction fuel as [|fuel IH]; intros tau Ht Hf.
  - cbn in Hf. lia.
  - cbn [descend]. destruct (tau + 1 <? length y) eqn:E1; cbn [andb].
    + apply Z.ltb_lt in E1.
      destruct (get y (tau + 1) <? get y tau)%float eqn:E2.
      * destruct (IH (tau + 1) E1 ltac:(lia)) as (A & B & C & D).
        split; [lia|]. split; [|split; [exact C|]].
        -- intros _.
           destruct (Z.eq_dec (descend y fuel (tau + 1)) (tau + 1))
             as [Eq|Ne].
           ++ rewrite Eq. replace (tau + 1 - 1) with tau by lia. exact E2.
           ++ apply B. lia.
        -- intros Nt. apply ltb_frank in E2.
           destruct E2 as (N1 & _ & Hlt). destruct (D N1) as [D1 D2].
           split; [exact D1|lia].
      * split; [lia|]. split; [lia|]. split; [intros _; exact E2|].
        intros Nt. split; [exact Nt|lia].
    + apply Z.ltb_ge in E1. split; [lia|]. split; [lia|].
      split; [lia|]. intros Nt. split; [exact Nt|lia].
Qed.

Lemma descend_ge (y : list float) (fuel : nat) (tau : Z) :
  tau <= descend y fuel tau.
Proof.
  revert tau. induction fuel as [|fuel IH]; intros tau; cbn [descend];
    [lia|].
  destruct ((tau + 1 <? length y)
            && (get y (tau + 1) <? get y tau)%float)%bool; [|lia].
  specialize (IH (tau + 1)). lia.
Qed.

Lemma frank_opp (x : float) : frank (- x) = - frank x.
Proof. unfold frank. rewrite opp_spec. apply rank_opp. Qed.

Lemma finite_neg (x : float) : finite x -> finite (- x).
Proof. unfold finite. rewrite opp_spec. apply finite_opp. Qed.

Lemma amount_is_finite (x : float) : amount x -> finite x.
Proof. intros A. exact (proj2 (amount_finite x A)). Qed.

(** Doubling a finite number of moderate size is exact. *)
Lemma double_abs (x : float) :
  finite x -> Z.abs (frank x) < 2 ^ 2000 ->
  finite (2 * x) /\ Z.abs (frank (2 * x)) = 2 * Z.abs (frank x).
Proof.
  intros Fx Hx. destruct (amount_abs x Fx) as [Aa Ea].
  destruct (double_exact (abs x) Aa) as [Ad Ed]; [lia|].
  assert (E : abs (2 * x) = (2 * abs x)%float) by apply abs_mul.
  assert (F2 : finite (2 * x)).
  { apply finite_of_abs. rewrite E. exact Ad. }
  split; [exact F2|].
  destruct (amount_abs (2 * x) F2) as [_ E2].
  rewrite <- E2, E, Ed, Ea. reflexivity.
Qed.

Lemma level_bound (x : float) :
  level x -> amount x /\ 0 <= frank x <= 2 ^ 25 * 2 ^ 1074.
Proof.
  intros [A B]. split; [exact A|]. pose proof (amount_rank x A). lia.
Qed.

(** The denominator of the parabola before its doubling, and the
    numerator: the denominator is negative and at least half the
    numerator in size. *)
Lemma parabola_terms (s0 s1 s2 : float) :
  level s0 -> level s1 -> level s2 ->
  frank s1 < frank s0 -> frank s1 <= frank s2 ->
  finite (s2 - s0) /\ finite (2 * s1 - s2 - s0)
  /\ - 2 ^ 27 * 2 ^ 1074 <= frank (2 * s1 - s2 - s0) < 0
  /\ Z.abs (frank (s2 - s0)) <= 2 * Z.abs (frank (2 * s1 - s2 - s0)).
Proof.
  intros L0 L1 L2 H10 H12.
  destruct (level_bound s0 L0) as [A0 B0].
  destruct (level_bound s1 L1) as [A1 B1].
  destruct (level_bound s2 L2) as [A2 B2].
  pose proof (amount_is_finite s0 A0) as F0.
  pose proof (amount_is_finite s1 A1) as F1.
  pose proof (amount_is_finite s2 A2) as F2.
  pose proof unit_pos as U.
  assert (H53 : 2 ^ 53 = 9007199254740992) by reflexivity.
  change (2 ^ 25) with 33554432 in *. change (2 ^ 27) with 134217728.
  assert (P2000 : 33554432 * 2 ^ 1074 < 2 ^ 2000).
  { change 33554432 with (2 ^ 25). rewrite <- Z.pow_add_r by lia.
    apply Z.pow_lt_mono_r; lia. }
  destruct (double_exact s1 A1) as [At1 Et1]; [lia|].
  set (t1 := (2 * s1)%float) in *.
  pose proof (amount_is_finite t1 At1) as Ft1.
  destruct (representable (-134217728) 0) as (lo & Flo & Elo & _);
    [rewrite H53; lia|lia|].
  change (0 + 1074) with 1074 in Elo.
  pose proof (finite_neg s0 F0) as Fn0.
  pose proof (frank_opp s0) as En0.
  pose proof (finite_neg s2 F2) as Fn2.
  pose proof (frank_opp s2) as En2.
  (* the numerator is between -s0 and s2 *)
  destruct (sub_between s2 s0 (- s0) s2 F2 F0 Fn0 F2) as [Fnum Bnum];
    [rewrite En0; lia|]. rewrite En0 in Bnum.
  split; [exact Fnum|].
  clear P2000.
  (* when the subtrahends outweigh, the denominator is below -s0 and
     below minus half of s2 *)
  assert (Hfar : forall t2 : float,
             finite t2 -> - frank s2 <= frank t2 <= 0 ->
             (forall h, amount h -> frank s2 <= 2 * frank h <= frank s2 + 1 ->
                        frank t2 - frank s0 <= - frank h) ->
             finite (t2 - s0)
             /\ - 134217728 * 2 ^ 1074 <= frank (t2 - s0) < 0
             /\ Z.abs (frank (s2 - s0)) <= 2 * Z.abs (frank (t2 - s0))).
  { intros t2 Ft2 Blo Hh.
    destruct (half_exists s2 A2) as (h & Ah & Bh).
    specialize (Hh h Ah Bh).
    pose proof (amount_rank h Ah) as Hh0.
    pose proof (finite_neg h (amount_is_finite h Ah)) as Fnh.
    pose proof (frank_opp h) as Enh.
    destruct (sub_between t2 s0 lo (- s0) Ft2 F0 Flo Fn0) as [Ft3 Bt3].
    { rewrite Elo, En0. clear - Blo B0 B2 Hh Hh0 U.
      generalize dependent (2 ^ 1074). intros. lia. }
    destruct (sub_between t2 s0 lo (- h) Ft2 F0 Flo Fnh) as [_ Bt3'].
    { rewrite Elo, Enh. clear - Blo B0 B2 Hh U.
      generalize dependent (2 ^ 1074). intros. lia. }
    rewrite Elo, En0 in Bt3. rewrite Enh in Bt3'.
    split; [exact Ft3|]. split; [lia|]. lia. }
  destruct (Z.le_gt_cases (4 * frank s1) (frank s2)) as [Hbig|Hsmall].
  - (* s2 is at least four times s1 *)
    destruct (half_exists s2 A2) as (h & Ah & Bh).
    pose proof (finite_neg h (amount_is_finite h Ah)) as Fnh.
    pose proof (frank_opp h) as Enh.
    destruct (sub_between t1 s2 (- s2) (- h) Ft1 F2 Fn2 Fnh) as [Ft2 Bt2].
    { rewrite En2, Enh, Et1. lia. }
    rewrite En2, Enh in Bt2.
    pose proof (amount_rank h Ah) as Hh0.
    apply (Hfar (t1 - s2)%float Ft2); [lia|].
    intros h' Ah' Bh'. lia.
  - (* otherwise [2 * s1 - s2] is exact *)
    destruct (sub_exact t1 s2 At1 A2) as [Ft2 Et2]; [lia|lia|].
    rewrite Et1 in Et2.
    set (t2 := (t1 - s2)%float) in *.
    destruct (Z.lt_ge_cases (frank t2) 0) as [Hneg|Hpos].
    + apply (Hfar t2 Ft2); [lia|].
      intros h' Ah' Bh'. lia.
    + destruct (Z.lt_ge_cases (2 * frank t2) (frank s0)) as [Hlow|Hhigh].
      * (* less than half of s0 is left *)
        destruct (half_exists s0 A0) as (h & Ah & Bh).
        pose proof (amount_rank h Ah) as Hh0.
        pose proof (finite_neg h (amount_is_finite h Ah)) as Fnh.
        pose proof (frank_opp h) as Enh.
        destruct (sub_between t2 s0 (- s0) (- h) Ft2 F0 Fn0 Fnh)
          as [Ft3 Bt3]; [rewrite En0, Enh; lia|].
        rewrite En0, Enh in Bt3.
        destruct (sub_between s2 s0 (- s0) s0 F2 F0 Fn0 F0) as [_ Bn];
          [rewrite En0; lia|]. rewrite En0 in Bn.
        split; [exact Ft3|]. split; [|lia].
        clear - Bt3 B0 U Bh H10 B1. generalize dependent (2 ^ 1074).
        intros. lia.
      * (* both differences are exact *)
        assert (At2 : amount t2) by (apply amount_pos; [exact Ft2|lia]).
        destruct (sub_exact t2 s0 At2 A0) as [Ft3 Et3]; [lia|lia|].
        destruct (sub_exact s2 s0 A2 A0) as [_ En]; [lia|lia|].
        split; [exact Ft3|]. rewrite Et3, En. split; [|lia].
        clear - B0 B1 B2 U Et2 H10 H12 Hpos Hhigh.
        generalize dependent (2 ^ 1074). intros. lia.
Qed.

(** The parabola of step 4 moves the lag by at most 1. *)
Lemma parabola (s0 s1 s2 : float) :
  level s0 -> level s1 -> level s2 ->
  frank s1 < frank s0 -> frank s1 <= frank s2 ->
  finite ((s2 - s0) / (2 * (2 * s1 - s2 - s0)))
  /\ Z.abs (frank ((s2 - s0) / (2 * (2 * s1 - s2 - s0)))) <= 2 ^ 1074.
Proof.
  intros L0 L1 L2 H10 H12.
  destruct (parabola_terms s0 s1 s2 L0 L1 L2 H10 H12)
    as (Fn & Ft & Bt & Hn).
  set (num := (s2 - s0)%float) in *.
  set (t3 := (2 * s1 - s2 - s0)%float) in *.
  assert (P2000 : 2 ^ 27 * 2 ^ 1074 < 2 ^ 2000).
  { rewrite <- Z.pow_add_r by lia. apply Z.pow_lt_mono_r; lia. }
  destruct (double_abs t3 Ft) as [Fd Ed]; [lia|].
  assert (A1 : amount 1) by exact I.
  pose proof unit_pos as U.
  destruct (div_abs_upper num (2 * t3) 1 Fn Fd) as [Fq Bq].
  - lia.
  - exact A1.
  - rewrite Ed, frank_one. clear - Hn U.
    generalize dependent (2 ^ 1074). intros. nia.
  - rewrite frank_one in Bq. split; assumption.
Qed.

Lemma finite_of_Z (n : Z) : 0 <= n < 2 ^ 53 -> finite (JS.of_Z n).
Proof. intros H. apply amount_is_finite, amount_of_Z. exact H. Qed.

(** Step 4 at a lag between a higher level and a level that is not
    lower. *)
Lemma refined_lag (y : list float) (T : Z) :
  2 <= T < length y -> length y < 2 ^ 24 ->
  level (get y (T - 1)) -> level (get y T) ->
  frank (get y T) < frank (get y (T - 1)) ->
  (T + 1 < length y ->
   level (get y (T + 1)) /\ frank (get y T) <= frank (get y (T + 1))) ->
  amount (betterTau y T)
  /\ (T - 1) * 2 ^ 1074 <= frank (betterTau y T) <= (T + 1) * 2 ^ 1074.
Proof.
  intros HT H24 L0 L1 H10 Hnext. unfold betterTau.
  pose proof unit_pos as U.
  change (2 ^ 24) with 16777216 in H24.
  assert (H53 : 2 ^ 53 = 9007199254740992) by reflexivity.
  destruct (Z.ltb_spec T 1) as [H|_]; [lia|].
  destruct (Z.eqb_spec (T - 1) T) as [H|_]; [lia|].
  assert (Fm : frank (JS.of_Z (T - 1)) = (T - 1) * 2 ^ 1074)
    by (apply frank_of_Z; lia).
  assert (Ft : frank (JS.of_Z T) = T * 2 ^ 1074) by (apply frank_of_Z; lia).
  assert (Fp : frank (JS.of_Z (T + 1)) = (T + 1) * 2 ^ 1074)
    by (apply frank_of_Z; lia).
  assert (Hsame : amount (JS.of_Z T)
                  /\ (T - 1) * 2 ^ 1074 <= frank (JS.of_Z T)
                     <= (T + 1) * 2 ^ 1074).
  { split; [apply amount_of_Z; lia|]. rewrite Ft. clear - U.
    generalize dependent (2 ^ 1074). intros. nia. }
  assert (Hprev : amount (JS.of_Z (T - 1))
                  /\ (T - 1) * 2 ^ 1074 <= frank (JS.of_Z (T - 1))
                     <= (T + 1) * 2 ^ 1074).
  { split; [apply amount_of_Z; lia|]. rewrite Fm. clear - U.
    generalize dependent (2 ^ 1074). intros. nia. }
  destruct (Z.ltb_spec (T + 1) (length y)) as [Hin|Hout].
  - destruct (Z.eqb_spec (T + 1) T) as [H|_]; [lia|].
    destruct (Hnext Hin) as [L2 H12].
    destruct (parabola _ _ _ L0 L1 L2 H10 H12) as [Fa Ba].
    set (adj := ((get y (T + 1) - get y (T - 1))
                 / (2 * (2 * get y T - get y (T + 1) - get y (T - 1))))%float)
      in *.
    destruct (add_between (JS.of_Z T) adj (JS.of_Z (T - 1)) (JS.of_Z (T + 1)))
      as [Fb Bb]; try (apply finite_of_Z; lia); try exact Fa.
    { rewrite Fm, Ft, Fp. clear - Ba. generalize dependent (2 ^ 1074).
      intros. lia. }
    rewrite Fm, Fp in Bb. split; [|exact Bb].
    apply amount_pos; [exact Fb|].
    clear - Bb HT U. generalize dependent (2 ^ 1074). intros. nia.
  - rewrite Z.eqb_refl.
    destruct (get y T <=? get y (T - 1))%float; assumption.
Qed.

(** Steps 1 to 4 on samples in [[-1, 1]], with a threshold of at most
    1: the lag is a lag of the search, its cell is below the threshold,
    and the refined lag is an amount within 1 of it. *)
Lemma locked_lag (buffer : list float) (threshold : float) :
  Forall sample buffer -> length buffer < 2 ^ 25 ->
  (threshold <=? 1)%float = true ->
  tauEstimate (yin buffer) threshold <> -1 ->
  2 <= tauEstimate (yin buffer) threshold < length buffer / 2
  /\ (get (yin buffer) (tauEstimate (yin buffer) threshold) <? threshold)%float
     = true
  /\ amount (betterTau (yin buffer) (tauEstimate (yin buffer) threshold))
  /\ (tauEstimate (yin buffer) threshold - 1) * 2 ^ 1074
     <= frank (betterTau (yin buffer) (tauEstimate (yin buffer) threshold))
     <= (tauEstimate (yin buffer) threshold + 1) * 2 ^ 1074.
Proof.
  intros Hb Hlen Hth Hfound.
  pose proof (yin_settled buffer Hb Hlen) as Hset.
  pose proof (YinFlat.length_yin buffer) as Ly.
  assert (L0 : 0 <= length buffer) by (unfold length; lia).
  assert (HW3 : length buffer / 2 < 2 ^ 24).
  { apply Z.div_lt_upper_bound; [lia|]. change (2 * 2 ^ 24) with (2 ^ 25).
    exact Hlen. }
  set (y := yin buffer) in *. set (W := length buffer / 2) in *.
  unfold tauEstimate in *.
  destruct (find (fun tau => (get y tau <? threshold)%float)
                 (range 2 (length y))) as [t0|] eqn:Efind;
    [|contradiction Hfound; reflexivity].
  apply find_range_first in Efind. destruct Efind as (Ht0 & Pt0 & Pfirst).
  rewrite Ly in Ht0.
  apply ltb_frank in Pt0. destruct Pt0 as (N0 & Nth & Blow).
  apply leb_frank in Hth. destruct Hth as (_ & _ & Bth).
  rewrite frank_one in Bth.
  destruct (descend_stops y (List.length y) t0) as (HT & Hdown & Hstop & Hmin).
  { rewrite Ly. lia. }
  { unfold length. lia. }
  specialize (Hmin N0). destruct Hmin as [NT BT].
  set (T := descend y (List.length y) t0) in *.
  rewrite Ly in HT, Hstop.
  split; [lia|].
  split; [apply ltb_frank; repeat split; try assumption; lia|].
  unfold settled in Hset. rewrite Ly in Hset.
  destruct Hset as [Hnan|(k & Hk & Hnan & Hlev & Hone)].
  { exfalso. apply NT. rewrite Hnan by lia. reflexivity. }
  rewrite frank_one in Hone.
  assert (HkT : k < T).
  { destruct (Z.lt_trichotomy k T) as [H|[H|H]]; [exact H| |].
    - subst k. lia.
    - exfalso. apply NT. rewrite Hnan by lia. reflexivity. }
  apply refined_lag.
  - rewrite Ly. lia.
  - rewrite Ly. exact HW3.
  - apply Hlev. lia.
  - apply Hlev. lia.
  - destruct (Z.eq_dec T t0) as [E|NE].
    + destruct (Z.eq_dec T 2) as [E2|NE2].
      * assert (k = 1) by lia. subst k. rewrite E2 in *.
        change (2 - 1) with 1. lia.
      * assert (Hprev : (get y (T - 1) <? threshold)%float = false)
          by (apply Pfirst; lia).
        apply ltb_false_frank in Hprev; [lia| |exact Nth].
        apply amount_number. apply (Hlev (T - 1)). lia.
    + specialize (Hdown ltac:(lia)). apply ltb_frank in Hdown. lia.
  - rewrite Ly. intros Hin. split; [apply Hlev; lia|].
    specialize (Hstop Hin). apply ltb_false_frank in Hstop; [exact Hstop| |].
    + apply amount_number. apply (Hlev (T + 1)). lia.
    + exact NT.
Qed.

Lemma is_finite_finite (x : float) : is_finite x = true -> finite x.
Proof.
  unfold is_finite, is_nan, is_infinity, finite.
  rewrite !eqb_spec, abs_spec.
  destruct (Prim2SF x) as [s|[|]| |s m e];
    try (intros _; exact I); cbn; discriminate.
Qed.

(** Step 5: a sample rate of at least 1 over a refined lag between 1
    and [2^24] is a positive finite number. *)
Lemma frequency_of_lag (sampleRate lag : float) :
  is_finite sampleRate = true -> (1 <=? sampleRate)%float = true ->
  amount lag -> 2 ^ 1074 <= frank lag <= 2 ^ 24 * 2 ^ 1074 ->
  is_finite (sampleRate / lag) = true /\ (0 <? sampleRate / lag)%float = true.
Proof.
  intros Hfin Hone Al Bl.
  pose proof unit_pos as U.
  apply leb_frank in Hone. destruct Hone as (_ & _ & Bs).
  rewrite frank_one in Bs.
  assert (As : amount sampleRate).
  { apply amount_pos; [apply is_finite_finite; exact Hfin|lia]. }
  destruct (amount_shape lag Al ltac:(lia)) as (m & e & El).
  destruct (div_upper sampleRate lag sampleRate m e As El As) as [Aq _].
  { apply Z.mul_le_mono_nonneg_l; lia. }
  destruct (pow2_exists (-24)) as (c & Ac & Fc); [lia|].
  change (-24 + 1074) with 1050 in Fc.
  pose proof (div_lower sampleRate lag c m e As El Ac) as Lq.
  assert (E : 2 ^ 1050 * (2 ^ 24 * 2 ^ 1074) = 2 ^ 1074 * 2 ^ 1074)
    by (rewrite <- !Z.pow_add_r by lia; reflexivity).
  assert (P : 0 < 2 ^ 1050) by (apply Z.pow_pos_nonneg; lia).
  apply amount_frequency; [exact Aq|].
  assert (frank c <= frank (sampleRate / lag)).
  { apply Lq. rewrite Fc.
    assert (2 ^ 1050 * frank lag <= 2 ^ 1050 * (2 ^ 24 * 2 ^ 1074))
      by (apply Z.mul_le_mono_nonneg_l; lia).
    assert (2 ^ 1074 * 2 ^ 1074 <= frank sampleRate * 2 ^ 1074)
      by (apply Z.mul_le_mono_nonneg_r; lia).
    lia. }
  lia.
Qed.

(** Steps 1 to 5 on a normalized window: a returned number is the sample
    rate over a refined lag within 1 of a lag of the search, and it is
    finite and positive. *)
Lemma detectPitchYIN_positive
      (buffer : list float) (sampleRate threshold r : float) :
  Forall sample buffer -> length buffer < 2 ^ 25 ->
  (threshold <=? 1)%float = true ->
  is_finite sampleRate = true -> (1 <=? sampleRate)%float = true ->
  detectPitchYIN buffer sampleRate threshold = Some r ->
  is_finite r = true /\ (0 <? r)%float = true
  /\ exists tau,
       2 <= tau < length buffer / 2
       /\ (get (yin buffer) tau <? threshold)%float = true
       /\ r = (sampleRate / betterTau (yin buffer) tau)%float
       /\ is_finite (betterTau (yin buffer) tau) = true
       /\ (JS.of_Z (tau - 1) <=? betterTau (yin buffer) tau)%float = true
       /\ (betterTau (yin buffer) tau <=? JS.of_Z (tau + 1))%float = true.
Proof.
  intros Hb Hlen Hth Hfin Hone. unfold detectPitchYIN. cbv zeta.
  destruct (Z.eqb_spec (tauEstimate (yin buffer) threshold) (-1))
    as [E|NE]; [discriminate|].
  intros H. injection H as <-.
  destruct (locked_lag buffer threshold Hb Hlen Hth NE)
    as (HT & Hlow & Abt & Bbt).
  set (T := tauEstimate (yin buffer) threshold) in *.
  set (bt := betterTau (yin buffer) T) in *.
  pose proof unit_pos as U.
  assert (L0 : 0 <= length buffer) by (unfold length; lia).
  assert (HW3 : length buffer / 2 < 16777216).
  { apply Z.div_lt_upper_bound; [lia|]. change (2 * 16777216) with (2 ^ 25).
    exact Hlen. }
  assert (H53 : 2 ^ 53 = 9007199254740992) by reflexivity.
  assert (Hbt : 2 ^ 1074 <= frank bt <= 2 ^ 24 * 2 ^ 1074).
  { change (2 ^ 24) with 16777216. clear - Bbt HT HW3 U.
    generalize dependent (2 ^ 1074). intros. nia. }
  destruct (frequency_of_lag sampleRate bt Hfin Hone Abt Hbt) as [R1 R2].
  split; [exact R1|]. split; [exact R2|].
  exists T. split; [exact HT|]. split; [exact Hlow|].
  split; [reflexivity|]. fold bt.
  split; [apply amount_frequency; [exact Abt|lia]|].
  split; apply leb_frank.
  - split; [apply number_of_Z; lia|]. split; [apply amount_number; exact Abt|].
    rewrite frank_of_Z by lia. lia.
  - split; [apply amount_number; exact Abt|]. split; [apply number_of_Z; lia|].
    rewrite frank_of_Z by lia. lia.
Qed.

End YinLag.

(** ** The frequency returned by [detectPitchYIN] *)

Module YinFrequency.

Import OrderProps YinProps YinLag.
Local Open Scope float_scope.

(** C2.  On a normalized window (every sample a number in [[-1, 1]],
    fewer than [2^25] samples), with a threshold of at most 1 and a
    finite sample rate of at least 1 Hz, whenever [detectPitchYIN]
    returns a number it is finite and strictly positive: never 0, [NaN]
    or an infinity.  The number is [sampleRate / betterTau] for a lag
    [tau] of the search, [2 <= tau < floor(N/2)], whose normalized
    difference is below the threshold, and the refined lag [betterTau]
    is finite and between [tau - 1] and [tau + 1]: the parabolic
    interpolation never produces a zero, infinite or [NaN] lag. *)
Theorem detectPitchYIN_frequency :
  forall (buffer : list float) (sampleRate threshold r : float),
    Forall sample buffer -> (length buffer < 2 ^ 25)%Z ->
    (threshold <=? 1) = true ->
    is_finite sampleRate = true -> (1 <=? sampleRate) = true ->
    detectPitchYIN buffer sampleRate threshold = Some r ->
    is_finite r = true /\ (0 <? r) = true
    /\ exists tau,
         (2 <= tau < length buffer / 2)%Z
         /\ (get (yin buffer) tau <? threshold) = true
         /\ r = sampleRate / betterTau (yin buffer) tau
         /\ is_finite (betterTau (yin buffer) tau) = true
         /\ (JS.of_Z (tau - 1) <=? betterTau (yin buffer) tau) = true
         /\ (betterTau (yin buffer) tau <=? JS.of_Z (tau + 1)) = true.
Proof.
  intros buffer sampleRate threshold r. apply detectPitchYIN_positive.
Qed.

(** An instance: a wave of period 4 sampled at 44100 Hz, with the default
    threshold, is given the pitch 11225.45 Hz. *)
Lemma detectPitchYIN_frequency_witness :
  Forall sample square4 /\ (length square4 < 2 ^ 25)%Z
  /\ (default_threshold <=? 1) = true
  /\ is_finite 44100 = true /\ (1 <=? 44100) = true
  /\ detectPitchYIN square4 44100 default_threshold
     = Some 0x1.5ecba2e8ba2e9p+13
  /\ is_finite 0x1.5ecba2e8ba2e9p+13 = true
  /\ (0 <? 0x1.5ecba2e8ba2e9p+13) = true.
Proof.
  assert (Hs : Forall sample square4)
    by (repeat (constructor; [split; reflexivity|]); constructor).
  assert (Hl : (length square4 < 2 ^ 25)%Z) by reflexivity.
  assert (Hr : detectPitchYIN square4 44100 default_threshold
               = Some 0x1.5ecba2e8ba2e9p+13) by (vm_compute; reflexivity).
  destruct (detectPitchYIN_frequency square4 44100 default_threshold _
              Hs Hl eq_refl eq_refl eq_refl Hr) as (R1 & R2 & _).
  repeat (split; [assumption || reflexivity|]). exact R2.
Defined.

End YinFrequency.

(** ** When the results are absent *)

Module AbsentResults.

Import MoreProps OrderProps SpectrumProps YinProps.
Import Loops Rounding FloatFacts Scan Bounds Absence Order Spectrum YinLag.
Local Open Scope float_scope.

Lemma frequencyToNote_absent (Math_log2 : float -> float) (f : float) :
  frequencyToNote Math_log2 f = None
  <-> (f <=? 0) = true \/ is_finite f = false.
Proof.
  unfold frequencyToNote.
  destruct (f <=? 0) eqn:E1; cbn [orb].
  - split; [now left|reflexivity].
  - destruct (is_finite f) eqn:E2; cbn [negb].
    + split; [discriminate|]. intros [H|H]; discriminate.
    + split; [now right|reflexivity].
Qed.

Lemma frequencyToNote_present (Math_log2 : float -> float) (f : float)
      (n : PitchResult) :
  frequencyToNote Math_log2 f = Some n ->
  frequency n = f /\ (f <=? 0) = false /\ is_finite f = true.
Proof.
  unfold frequencyToNote.
  destruct (f <=? 0) eqn:E1; cbn [orb]; [discriminate|].
  destruct (is_finite f) eqn:E2; cbn [negb]; [|discriminate].
  intros H. injection H as <-. cbn [frequency]. auto.
Qed.

Lemma detectPitchYIN_absent (buffer : list float)
      (sampleRate threshold : float) :
  detectPitchYIN buffer sampleRate threshold = None
  <-> forall tau, (2 <= tau < length buffer / 2)%Z ->
                  (get (yin buffer) tau <? threshold) = false.
Proof.
  unfold detectPitchYIN. cbv zeta. unfold tauEstimate.
  pose proof (YinFlat.length_yin buffer) as Ly.
  destruct (find (fun tau => get (yin buffer) tau <? threshold)
                 (range 2 (length (yin buffer)))) as [t0|] eqn:E.
  - pose proof (descend_ge (yin buffer) (List.length (yin buffer)) t0) as Hge.
    apply find_range_first in E. destruct E as (Ht0 & Pt0 & _).
    destruct (Z.eqb_spec (descend (yin buffer) (List.length (yin buffer)) t0)
                         (-1)) as [H|_]; [lia|].
    split; [discriminate|]. intros H. rewrite Ly in Ht0.
    rewrite (H t0 Ht0) in Pt0. discriminate.
  - cbn. split; [|reflexivity]. intros _ tau Ht.
    apply (List.find_none _ _ E). apply In_range. rewrite Ly. exact Ht.
Qed.

Lemma getDominantFrequency_absent
      (frequencyData : list Z) (sampleRate fftSize minFreq maxFreq : float) :
  bytes frequencyData ->
  (0 <=? minFreq) = true ->
  (0 <? sampleRate) = true -> (0 <? fftSize) = true ->
  exists idx,
    scan (frequencyToBin minFreq sampleRate fftSize)
         (frequencyToBin maxFreq sampleRate fftSize)
         (length frequencyData) = JS.Returns idx
    /\ (getDominantFrequency frequencyData sampleRate fftSize minFreq maxFreq
        = JS.Returns None
        <-> forall j, In j idx -> (byte_at frequencyData j <? 100) = true)
    /\ forall f,
         getDominantFrequency frequencyData sampleRate fftSize minFreq maxFreq
         = JS.Returns (Some f) ->
         exists i,
           In i idx /\ (100 <=? byte_at frequencyData i) = true
           /\ f = binToFrequency
                    (counter (frequencyToBin minFreq sampleRate fftSize) i)
                    sampleRate fftSize.
Proof.
  intros Hb Hf Hs Hn.
  set (minBin := frequencyToBin minFreq sampleRate fftSize).
  destruct (scan_safe minBin (frequencyToBin maxFreq sampleRate fftSize)
                      (length frequencyData)) as (idx & Hidx & Hin).
  { now apply startable_frequencyToBin. }
  exists idx. split; [exact Hidx|].
  unfold getDominantFrequency, getDominantFrequency_reads. cbv zeta.
  fold minBin. rewrite Hidx.
  pose proof (dominant_fold frequencyData minBin idx [] (0, 0) Hb Hin)
    as Hinv.
  rewrite <- for_each_value in Hinv. cbn [app] in Hinv.
  assert (H0 : dominant_inv frequencyData minBin [] (0, 0)).
  { exists 0%Z. cbn [fst snd]. split; [reflexivity|]. split; [lia|].
    split; [intros j []|now left]. }
  specialize (Hinv H0). clear H0.
  destruct (for_each (dominant_step frequencyData minBin) idx (0, 0))
    as [[maxValue maxIndex] r].
  destruct Hinv as (M & HM & HMb & Hall & Hmax). cbn [fst snd] in *.
  subst maxValue. unfold bind, value.
  assert (H53 : (2 ^ 53)%Z = 9007199254740992%Z) by reflexivity.
  assert (Hkey : forall j, In j idx ->
                   (byte_at frequencyData j <? 100)
                   = (key frequencyData j <? 100)%Z).
  { intros j Hj. rewrite (byte_at_key frequencyData j) by now apply Hin.
    pose proof (key_byte frequencyData j Hb).
    change 100 with (JS.of_Z 100). apply ltb_of_Z; lia. }
  assert (HM100 : (JS.of_Z M <? 100) = (M <? 100)%Z).
  { change 100 with (JS.of_Z 100). apply ltb_of_Z; lia. }
  rewrite !HM100.
  destruct (Z.ltb_spec M 100) as [Hlt|Hge]; cbn [ret fst].
  - split; [|intros f H; discriminate].
    split; [|reflexivity]. intros _ j Hj. rewrite Hkey by exact Hj.
    apply Z.ltb_lt. specialize (Hall j Hj). lia.
  - destruct Hmax as [H0|(i & Hi & Hc & Hk)]; [lia|].
    split.
    + split; [discriminate|]. intros H. specialize (H i Hi).
      rewrite Hkey in H by exact Hi. apply Z.ltb_lt in H. lia.
    + intros f H. injection H as <-. exists i. split; [exact Hi|].
      split; [|now rewrite Hc].
      rewrite (byte_at_key frequencyData i) by now apply Hin.
      rewrite Hk. pose proof (key_byte frequencyData i Hb).
      change 100 with (JS.of_Z 100). rewrite leb_of_Z by lia.
      apply Z.leb_le. lia.
Qed.

(** C9.  When each function gives the absent result, and what the
    present results are.

    - [noteToFrequency], whose result is a number, returns the number 0
      for every octave and every note name outside the twelve-name
      catalog.
    - [frequencyToNote] returns [null] exactly when the frequency is not
      above 0 or not finite; a note returned carries the frequency.
    - [detectPitchYIN] returns [null] exactly when no lag from 2 to
      [floor(N/2) - 1] has a normalized difference below the threshold;
      on a normalized window a number returned is finite and positive.
    - [getDominantFrequency], on a byte spectrum with [minFreq >= 0] and
      a positive sample rate and transform size, returns [null] exactly
      when every scanned bin is below 100; a frequency returned is that
      of a scanned bin of magnitude at least 100. *)
Theorem absent_results :
  (forall (Math_pow : float -> float -> float) (note : string)
          (octave : float),
      ~ In note NOTE_NAMES -> noteToFrequency Math_pow note octave = 0)
  /\ (forall (Math_log2 : float -> float) (f : float),
         frequencyToNote Math_log2 f = None
         <-> (f <=? 0) = true \/ is_finite f = false)
  /\ (forall (Math_log2 : float -> float) (f : float) (n : PitchResult),
         frequencyToNote Math_log2 f = Some n ->
         frequency n = f /\ (f <=? 0) = false /\ is_finite f = true)
  /\ (forall (buffer : list float) (sampleRate threshold : float),
         detectPitchYIN buffer sampleRate threshold = None
         <-> forall tau, (2 <= tau < length buffer / 2)%Z ->
                         (get (yin buffer) tau <? threshold) = false)
  /\ (forall (buffer : list float) (sampleRate threshold r : float),
         Forall sample buffer -> (length buffer < 2 ^ 25)%Z ->
         (threshold <=? 1) = true ->
         is_finite sampleRate = true -> (1 <=? sampleRate) = true ->
         detectPitchYIN buffer sampleRate threshold = Some r ->
         is_finite r = true /\ (0 <? r) = true)
  /\ (forall (frequencyData : list Z)
             (sampleRate fftSize minFreq maxFreq : float),
         bytes frequencyData ->
         (0 <=? minFreq) = true ->
         (0 <? sampleRate) = true -> (0 <? fftSize) = true ->
         exists idx,
           scan (frequencyToBin minFreq sampleRate fftSize)
                (frequencyToBin maxFreq sampleRate fftSize)
                (length frequencyData) = JS.Returns idx
           /\ (getDominantFrequency frequencyData sampleRate fftSize
                                    minFreq maxFreq = JS.Returns None
               <-> forall j, In j idx ->
                             (byte_at frequencyData j <? 100) = true)
           /\ forall f,
                getDominantFrequency frequencyData sampleRate fftSize
                                     minFreq maxFreq = JS.Returns (Some f) ->
                exists i,
                  In i idx /\ (100 <=? byte_at frequencyData i) = true
                  /\ f = binToFrequency
                           (counter (frequencyToBin minFreq sampleRate fftSize)
                                    i)
                           sampleRate fftSize).
Proof.
  split; [exact noteToFrequency_unknown|].
  split; [exact frequencyToNote_absent|].
  split; [exact frequencyToNote_present|].
  split; [exact detectPitchYIN_absent|].
  split; [|exact getDominantFrequency_absent].
  intros buffer sampleRate threshold r Hb Hl Ht Hf Hs Hr.
  destruct (detectPitchYIN_positive buffer sampleRate threshold r
              Hb Hl Ht Hf Hs Hr) as (R1 & R2 & _).
  split; assumption.
Qed.

(** Instances: the note name "H" at octave 4, the frequencies 0 and
    [Infinity], the wave of period 4, and eight quiet bins. *)
Lemma absent_results_witness :
  noteToFrequency Engine.Math_pow "H" 4 = 0
  /\ frequencyToNote Engine.Math_log2 0 = None
  /\ frequencyToNote Engine.Math_log2 infinity = None
  /\ (is_finite 0x1.5ecba2e8ba2e9p+13 = true
      /\ (0 <? 0x1.5ecba2e8ba2e9p+13) = true)
  /\ getDominantFrequency [0; 10; 99; 3; 4; 5; 6; 7]%Z 44100 16 80 4000
     = JS.Returns None.
Proof.
  destruct absent_results as (Hnote & Hfreq & _ & _ & Hyin & Hdom).
  split; [|split; [|split; [|split]]].
  - apply Hnote. cbn. intros H.
    repeat (destruct H as [H|H]; [discriminate|]). exact H.
  - apply Hfreq. left. reflexivity.
  - apply Hfreq. right. reflexivity.
  - apply (Hyin square4 44100 default_threshold).
    + repeat (constructor; [split; reflexivity|]). constructor.
    + reflexivity.
    + reflexivity.
    + reflexivity.
    + reflexivity.
    + vm_compute. reflexivity.
  - assert (B : bytes [0; 10; 99; 3; 4; 5; 6; 7]%Z)
      by (repeat (apply Forall_cons; [lia|]); apply Forall_nil).
    destruct (Hdom [0; 10; 99; 3; 4; 5; 6; 7]%Z 44100 16 80 4000
                   B eq_refl eq_refl eq_refl)
      as (idx & Hidx & Hnone & _).
    apply Hnone. intros j Hj.
    assert (E : idx = [0]%Z).
    { vm_compute in Hidx. injection Hidx as <-. reflexivity. }
    subst idx.
    repeat (destruct Hj as [<-|Hj]; [reflexivity|]). destruct Hj.
Defined.

End AbsentResults.
